(** * mpc-fixer: mapping and codec core

    A shallow embedding of the sample auto-mapper and its note
    resolver, the velocity-layer exporter, the MIDI converter, the
    instrument validator and scanner, the sample organiser and the XPM
    writers / importer / repair utilities, together with the properties
    checked against them.

    Conventions.  JavaScript numbers that only ever hold integers are [Z];
    the places where the code divides before flooring or rounding are
    evaluated in binary64 ([PrimFloat]).  JavaScript strings are lists of
    code units ([list ascii], so code units 0..255: the texts at hand
    are file names and ASCII markup); [str] turns a literal into one.

    The file has three parts: the models of the sources (one module per
    source file), the terms in which the facts are stated together with
    the test vectors, then the facts proved about the models. *)

From Stdlib Require Import ZArith Lia Bool Ascii String Floats.
From Stdlib Require Import DecimalString DecimalZ DecimalN DecimalPos.
From stdpp Require Import base list gmap sorting.

Local Open Scope Z_scope.

(** * Part I: models *)

(** ** JavaScript primitives used by the sources *)

Module JS.

Abbreviation jsstring := (list ascii).

Definition str (s : string) : jsstring := list_ascii_of_string s.

(** A literal that contains double quotes, written with an apostrophe
    in place of each double quote (the sources' literals contain no
    apostrophe). *)
Definition strq (s : string) : jsstring :=
  (λ c, if bool_decide (c = "'"%char) then ascii_of_N 34 else c) <$> str s.

(** Longest prefix whose elements satisfy [p]. *)
Fixpoint takeWhile {A} (p : A → bool) (l : list A) : list A :=
  match l with
  | [] => []
  | x :: l' => if p x then x :: takeWhile p l' else []
  end.

(** [String(n)] / template interpolation of an integer-valued number. *)
Definition toString (z : Z) : jsstring :=
  str (NilZero.string_of_int (Z.to_int z)).

(** [Array.prototype.sort] with comparator [(a, b) => key a - key b]:
    the sort is stable, so its result is the stable insertion sort. *)
Fixpoint insert_by {A} (key : A → Z) (x : A) (l : list A) : list A :=
  match l with
  | [] => [x]
  | y :: l' => if key x <=? key y then x :: y :: l' else y :: insert_by key x l'
  end.

Definition sort_by {A} (key : A → Z) (l : list A) : list A :=
  foldr (insert_by key) [] l.

(** Conversion of an integer-valued number to binary64. *)
Definition num (z : Z) : float :=
  match z with
  | Z0 => PrimFloat.zero
  | Zpos _ => PrimFloat.of_uint63 (Uint63.of_Z z)
  | Zneg _ => PrimFloat.opp (PrimFloat.of_uint63 (Uint63.of_Z (- z)))
  end.

(** Signed integer mantissa of a finite binary64 value m * 2^e. *)
Definition signed (s : bool) (m : positive) : Z :=
  if s then Z.neg m else Z.pos m.

(** [Math.floor] on a finite binary64 value (exact).  The sources only
    apply it to finite values; the non-finite cases are mapped to 0. *)
Definition Math_floor (x : float) : Z :=
  match Prim2SF x with
  | S754_finite s m e =>
      if 0 <=? e then signed s m * 2 ^ e else signed s m / 2 ^ (- e)
  | _ => 0
  end.

(** [Math.round] on a finite binary64 value: nearest integer, ties
    towards +infinity (exact). *)
Definition Math_round (x : float) : Z :=
  match Prim2SF x with
  | S754_finite s m e =>
      if 0 <=? e then signed s m * 2 ^ e
      else (2 * signed s m + 2 ^ (- e)) / 2 ^ (- e + 1)
  | _ => 0
  end.

(** [Math.ceil]; the result stays a binary64 value because the sources
    apply it to quotients that may be infinite or NaN. *)
Definition Math_ceil (x : float) : float :=
  match Prim2SF x with
  | S754_finite s m e =>
      if 0 <=? e then x
      else
        let c := - ((- signed s m) / 2 ^ (- e)) in
        if (c =? 0) && s then PrimFloat.neg_zero else num c
  | _ => x
  end.

(** 32-bit integer results of [<<] and [|]. *)
Definition toInt32 (z : Z) : Z := (z + 2 ^ 31) mod 2 ^ 32 - 2 ^ 31.

Definition shl (a n : Z) : Z := toInt32 (Z.shiftl a n).

Definition bor (a b : Z) : Z := toInt32 (Z.lor a b).

(** A value that may be [undefined], used as an operand of a bitwise
    operator: [undefined] converts to 0. *)
Definition int (o : option Z) : Z := default 0 o.

(** Element value of a [Uint8Array]. *)
Definition byteVal (b : Byte.byte) : Z := Z.of_N (Byte.to_N b).

(** [data[pos]] on a [Uint8Array]: [undefined] outside the array. *)
Definition get (data : list Byte.byte) (pos : Z) : option Z :=
  if pos <? 0 then None else byteVal <$> data !! Z.to_nat pos.

(** [TypedArray.prototype.slice(start, end)]: negative indices count
    from the end, out-of-range ones are clamped. *)
Definition relIndex (len i : Z) : Z :=
  if i <? 0 then Z.max (len + i) 0 else Z.min i len.

Definition slice {A} (l : list A) (start stop : Z) : list A :=
  let len := Z.of_nat (length l) in
  let k := relIndex len start in
  let final := relIndex len stop in
  take (Z.to_nat (final - k)) (drop (Z.to_nat k) l).

(** [String.fromCharCode] of one array element ([undefined] gives
    code unit 0). *)
Definition fromCharCode (o : option Z) : ascii :=
  ascii_of_N (Z.to_N (int o mod 256)).

(** Insertion-ordered [Map]: [set] keeps the position of an existing
    key, [delete] removes the entry. *)
Fixpoint map_set {K V} `{EqDecision K} (k : K) (v : V) (m : list (K * V)) : list (K * V) :=
  match m with
  | [] => [(k, v)]
  | (k', v') :: rest =>
      if decide (k' = k) then (k, v) :: rest else (k', v') :: map_set k v rest
  end.

Fixpoint map_get {K V} `{EqDecision K} (k : K) (m : list (K * V)) : option V :=
  match m with
  | [] => None
  | (k', v') :: rest => if decide (k' = k) then Some v' else map_get k rest
  end.

Fixpoint map_delete {K V} `{EqDecision K} (k : K) (m : list (K * V)) : list (K * V) :=
  match m with
  | [] => []
  | (k', v') :: rest =>
      if decide (k' = k) then rest else (k', v') :: map_delete k rest
  end.

(** [m[k].push(v)] / [m.get(k)?.push(v)] after creating an empty array
    under [k] when there was none: the grouping idiom of the sources.
    Entries stay in order of creation. *)
Fixpoint map_push {K V} `{EqDecision K} (k : K) (v : V) (m : list (K * list V))
    : list (K * list V) :=
  match m with
  | [] => [(k, [v])]
  | (k', vs) :: rest =>
      if decide (k' = k) then (k', vs ++ [v]) :: rest
      else (k', vs) :: map_push k v rest
  end.

Definition group_by {K V} `{EqDecision K} (f : V → K) (l : list V) : list (K * list V) :=
  foldl (λ m v, map_push (f v) v m) [] l.

(** Property enumeration order of [for (const k in obj)] for an object
    whose keys were numbers: keys that are array indices (0 .. 2^32 - 2)
    in ascending numeric order, then the remaining keys in order of
    creation. *)
Definition isArrayIndex (k : Z) : bool := (0 <=? k) && (k <? 2 ^ 32 - 1).

Definition forIn {V} (obj : list (Z * V)) : list (Z * V) :=
  sort_by fst (filter (λ e, isArrayIndex e.1 = true) obj)
  ++ filter (λ e, isArrayIndex e.1 ≠ true) obj.

(** Result of a call that may throw, or not return at all. *)
Inductive outcome (A : Type) : Type :=
| Returned (a : A)
| Thrown (msg : jsstring)
| OutOfFuel.

Arguments Returned {A} a.
Arguments Thrown {A} msg.
Arguments OutOfFuel {A}.

End JS.

Import JS.

(** ** Interval tilings

    Shared vocabulary for "these ranges partition [lo, hi]": the ranges
    follow one another without gap or overlap, start at [lo], end at
    [hi], and none is empty. *)

Inductive tiles : Z → Z → list (Z * Z) → Prop :=
| tiles_last lo hi : lo ≤ hi → tiles lo hi [(lo, hi)]
| tiles_cons lo b hi rest :
    lo ≤ b → tiles (b + 1) hi rest → tiles lo hi ((lo, b) :: rest).

Definition inRange (k : Z) (r : Z * Z) : Prop := r.1 ≤ k ≤ r.2.

(** ** Auto-mapper: [InstrumentService.autoMapSamples] *)

Module Mapper.

(** sample-mapper.ts, [MappedSample]: the result of resolving each
    sample id to a root note. *)
Record MappedSample := {
  ms_id : jsstring;
  midiNote : Z;
  velocity : Z;
  rootPitch : jsstring
}.

(** instrument-service.ts, the program model. *)
Record VelocityLayer := {
  vl_id : jsstring;
  lowVelocity : Z;
  highVelocity : Z;
  sampleId : option jsstring
}.

Record Keygroup := {
  kg_id : jsstring;
  lowNote : Z;
  highNote : Z;
  rootNote : Z;
  velocityLayers : list VelocityLayer
}.

Record Instrument := {
  inst_id : jsstring;
  inst_name : jsstring;
  keygroups : list Keygroup
}.

(** Body of the loop [for (let i = 0; i < mappedSamples.length; i++)]:
    the keygroup pushed for [sample = mappedSamples[i]].  The guarded
    reads [mappedSamples[i - 1]] and [mappedSamples[i + 1]] are always
    in range, so the default of [nth] is never used. *)
Definition keygroupAt (mappedSamples : list MappedSample)
    (i : nat) (sample : MappedSample) : Keygroup :=
  let lowNote :=
    if (0 <? i)%nat
    then (midiNote (nth (i - 1) mappedSamples sample) + midiNote sample) / 2 + 1
    else 0 in
  let highNote :=
    if (i <? length mappedSamples - 1)%nat
    then (midiNote sample + midiNote (nth (i + 1) mappedSamples sample)) / 2
    else 127 in
  {| kg_id := str "keygroup_" ++ toString (Z.of_nat i);
     lowNote := lowNote;
     highNote := highNote;
     rootNote := midiNote sample;
     velocityLayers :=
       [ {| vl_id := str "velocity_" ++ toString (Z.of_nat i) ++ str "_0";
            lowVelocity := 0;
            highVelocity := 127;
            sampleId := Some (ms_id sample) |} ] |}.

(** [autoMapSamples], from the point where the instrument has been
    found and the helper [autoMapSamples(sampleIds)] has returned
    [mappedSamples].  Returns the updated instrument and the count. *)
Definition autoMapSamples (instrument : Instrument)
    (mappedSamples : list MappedSample) : Instrument * nat :=
  if decide (length mappedSamples = 0%nat) then (instrument, 0%nat)
  else
    let sorted := sort_by midiNote mappedSamples in
    ({| inst_id := inst_id instrument;
        inst_name := inst_name instrument;
        keygroups := imap (keygroupAt sorted) sorted |},
     length sorted).

(** Strictly ascending (hence distinct) root notes. *)
Definition ascending (ms : list MappedSample) : Prop :=
  StronglySorted (λ a b, midiNote a < midiNote b) ms.

Definition keyRange (kg : Keygroup) : Z * Z := (lowNote kg, highNote kg).

End Mapper.

(** ** Velocity layering: [MultiLayerExporter.assignVelocityRanges] *)

Module Layers.

(** The zone objects built by [processAndExport]. *)
Record Zone := {
  file : jsstring;
  root : Z;
  low : Z;
  high : Z;
  velLow : Z;
  velHigh : Z
}.

Definition setVel (zone : Zone) (lo hi : Z) : Zone :=
  {| file := file zone; root := root zone; low := low zone; high := high zone;
     velLow := lo; velHigh := hi |}.

(** The grouping loop: [zonesByRoot[zone.root].push(zone)], creating
    the group on first use. *)
Definition zonesByRoot (zones : list Zone) : list (Z * list Zone) :=
  group_by root zones.

(** [zone.velLow = Math.floor(i * rangeSize)] with
    [rangeSize = 128 / rootZones.length], in binary64. *)
Definition layerLow (M i : nat) : Z :=
  Math_floor (num (Z.of_nat i) * (num 128 / num (Z.of_nat M)))%float.

(** [zone.velHigh = Math.floor((i + 1) * rangeSize - 1)], in binary64. *)
Definition layerHigh (M i : nat) : Z :=
  Math_floor (num (Z.of_nat i + 1) * (num 128 / num (Z.of_nat M)) - num 1)%float.

(** Body of [for (const root in zonesByRoot)] for one group: the zones
    pushed to [result]. *)
Definition assignGroup (group : list Zone) : list Zone :=
  let rootZones := sort_by velLow group in
  match rootZones with
  | [zone] => [setVel zone 0 127]
  | _ =>
      let M := length rootZones in
      imap (λ i zone,
              setVel zone (layerLow M i)
                (if decide (i = (M - 1)%nat) then 127 else layerHigh M i))
           rootZones
  end.

Definition assignVelocityRanges (zones : list Zone) : list Zone :=
  mjoin ((λ g, assignGroup g.2) <$> forIn (zonesByRoot zones)).

Definition velRange (zone : Zone) : Z * Z := (velLow zone, velHigh zone).

(** The rule "band_size = floor(128 / M); layer i gets
    [i * band_size, (i + 1) * band_size - 1], last high 127", read on
    the output of one group. *)
Definition bandRule (group : list Zone) : Prop :=
  let M := length group in
  let band := 128 / Z.of_nat M in
  ∀ i zone, assignGroup group !! i = Some zone →
    velLow zone = Z.of_nat i * band ∧
    velHigh zone = if decide (i = (M - 1)%nat) then 127
                   else (Z.of_nat i + 1) * band - 1.

(** Exact (rational) counterparts of [layerLow] and [layerHigh];
    [layerHigh] is not used for the last layer. *)
Definition exactLow (M i : nat) : Z := 128 * Z.of_nat i / Z.of_nat M.
Definition exactHigh (M i : nat) : Z := 128 * (Z.of_nat i + 1) / Z.of_nat M - 1.

Definition agreesWithExact (M : nat) : bool :=
  forallb (λ i, (layerLow M i =? exactLow M i)
                && (bool_decide (i = (M - 1)%nat) || (layerHigh M i =? exactHigh M i)))
          (seq 0 M).

(** The ranges assigned to a group of [M] zones. *)
Definition layerRanges (M : nat) : list (Z * Z) :=
  match M with
  | 1%nat => [(0, 127)]
  | _ => (λ i, (layerLow M i,
                if decide (i = (M - 1)%nat) then 127 else layerHigh M i)) <$> seq 0 M
  end.

(** Executable form of [tiles]. *)
Fixpoint tilesb (lo hi : Z) (rs : list (Z * Z)) : bool :=
  match rs with
  | [] => false
  | (a, b) :: rest =>
      (a =? lo) && (a <=? b) &&
      match rest with
      | [] => b =? hi
      | _ => tilesb (b + 1) hi rest
      end
  end.

End Layers.

(** ** MIDI decoder and pattern converter: [MIDIConverter] *)

Module Midi.

Record MIDINote := {
  note : Z;
  velocity : Z;
  time : Z;
  duration : Z;
  channel : Z
}.

(** [MIDIEvent]: the [type] / [subtype] strings select the constructor,
    the arguments are the fields the parser sets on that kind of event.
    A field read past the end of the data is [undefined] ([None]); the
    time-signature denominator is [Math.pow(2, metaData[1])], NaN
    ([None]) when that byte is missing. *)
Inductive MIDIEvent :=
| NoteOff (deltaTime channel : Z) (noteNumber velocity : option Z)
| NoteOn (deltaTime channel : Z) (noteNumber velocity : option Z)
| NoteAftertouch (deltaTime channel : Z) (noteNumber value : option Z)
| Controller (deltaTime channel : Z) (controllerType value : option Z)
| ProgramChange (deltaTime channel : Z) (value : option Z)
| ChannelAftertouch (deltaTime channel : Z) (value : option Z)
| PitchBend (deltaTime channel value : Z)
| MetaText (deltaTime : Z) (text : jsstring)
| MetaTrackName (deltaTime : Z) (text : jsstring)
| MetaTempo (deltaTime value : Z)
| MetaTimeSignature (deltaTime : Z) (numerator denominator : option Z)
| MetaKeySignature (deltaTime : Z) (key scale : option Z)
| MetaEndOfTrack (deltaTime : Z)
| MetaOther (deltaTime : Z) (metaType : option Z) (data : list Byte.byte).

Definition deltaTime (e : MIDIEvent) : Z :=
  match e with
  | NoteOff d _ _ _ | NoteOn d _ _ _ | NoteAftertouch d _ _ _
  | Controller d _ _ _ | ProgramChange d _ _ | ChannelAftertouch d _ _
  | PitchBend d _ _ | MetaText d _ | MetaTrackName d _ | MetaTempo d _
  | MetaTimeSignature d _ _ | MetaKeySignature d _ _ | MetaEndOfTrack d
  | MetaOther d _ _ => d
  end.

Record MIDITrack := {
  name : option jsstring;
  events : list MIDIEvent;
  notes : list MIDINote
}.

Record MIDIHeader := {
  format : Z;
  numTracks : Z;
  ticksPerBeat : Z
}.

Record MIDIData := {
  header : MIDIHeader;
  tracks : list MIDITrack
}.

(** *** [readChunk] *)

Record Chunk := {
  chunk_id : jsstring;
  chunk_length : Z;
  chunk_data : list Byte.byte
}.

Definition readChunk (data : list Byte.byte) (pos : Z) : Chunk :=
  let length :=
    bor (bor (bor (shl (int (get data (pos + 4))) 24)
                  (shl (int (get data (pos + 5))) 16))
             (shl (int (get data (pos + 6))) 8))
        (int (get data (pos + 7))) in
  {| chunk_id := [fromCharCode (get data pos); fromCharCode (get data (pos + 1));
                  fromCharCode (get data (pos + 2)); fromCharCode (get data (pos + 3))];
     chunk_length := length;
     chunk_data := slice data (pos + 8) (pos + 8 + length) |}.

(** *** [parseTrackEvents] *)

(** The [do { byte = data[pos++]; v = (v << 7) | (byte & 0x7f) }
    while (byte & 0x80)] loop, on the bytes from [pos] on.  Returns the
    value and the number of reads; a read past the end ends the loop. *)
Fixpoint varLenFrom (bytes : list Byte.byte) (acc : Z) (reads : Z) : Z * Z :=
  match bytes with
  | [] => (bor (shl acc 7) 0, reads + 1)
  | b :: rest =>
      let acc' := bor (shl acc 7) (Z.land (byteVal b) 0x7f) in
      if Z.land (byteVal b) 0x80 =? 0 then (acc', reads + 1)
      else varLenFrom rest acc' (reads + 1)
  end.

Definition readVarLen (data : list Byte.byte) (pos : Z) : Z * Z :=
  let '(v, reads) :=
    varLenFrom (if pos <? 0 then [] else drop (Z.to_nat pos) data) 0 0 in
  (v, pos + reads).

(** [decodeText]: the payload as code units (ASCII text decodes to
    itself under both the [TextDecoder] and the fallback path). *)
Definition decodeText (data : list Byte.byte) : jsstring :=
  (λ b, ascii_of_N (Byte.to_N b)) <$> data.

(** Loop state of [parseTrackEvents]; [warnings] records the event
    types passed to [console.warn]. *)
Record state := {
  pos : Z;
  runningStatus : Z;
  parsed : list MIDIEvent;
  warnings : list Z
}.

(** The event pushed for a meta event of type [metaType]. *)
Definition metaEvent (deltaTime : Z) (metaType : option Z)
    (metaData : list Byte.byte) : MIDIEvent :=
  let byteAt i := byteVal <$> metaData !! i in
  if decide (metaType = Some 0x01) then MetaText deltaTime (decodeText metaData)
  else if decide (metaType = Some 0x03) then MetaTrackName deltaTime (decodeText metaData)
  else if decide (metaType = Some 0x51) then
    MetaTempo deltaTime
      (bor (bor (shl (int (byteAt 0%nat)) 16) (shl (int (byteAt 1%nat)) 8)) (int (byteAt 2%nat)))
  else if decide (metaType = Some 0x58) then
    MetaTimeSignature deltaTime (byteAt 0%nat) ((λ e, 2 ^ e) <$> byteAt 1%nat)
  else if decide (metaType = Some 0x59) then
    MetaKeySignature deltaTime (byteAt 0%nat) (byteAt 1%nat)
  else if decide (metaType = Some 0x2f) then MetaEndOfTrack deltaTime
  else MetaOther deltaTime metaType metaData.

(** A status byte the dispatch does not recognise: neither a channel
    message (high nibble 0x8 .. 0xE) nor the meta marker 0xFF. *)
Definition unknownStatus (eventType : Z) : bool :=
  negb (existsb (Z.eqb (Z.land eventType 0xf0)) [0x80; 0x90; 0xa0; 0xb0; 0xc0; 0xd0; 0xe0])
  && negb (eventType =? 0xff).

(** Delta time and status of the event starting at [pos st]: the delta
    time, the event type, the position after the status and the new
    running status. *)
Definition readStatus (data : list Byte.byte) (st : state) : Z * Z * Z * Z :=
  let '(deltaTime, pos) := readVarLen data (pos st) in
  let eventType := get data pos in
  if Z.land (int eventType) 0x80 =? 0
  then (deltaTime, runningStatus st, pos, runningStatus st)
  else (deltaTime, int eventType, pos + 1, int eventType).

(** One iteration of [while (pos < data.length)]. *)
Definition parseEvent (data : list Byte.byte) (st : state) : state :=
  let '(deltaTime, eventType, pos, runningStatus) := readStatus data st in
  let kind := Z.land eventType 0xf0 in
  let channel := Z.land eventType 0x0f in
  let push pos' e :=
    {| pos := pos'; runningStatus := runningStatus;
       parsed := parsed st ++ [e]; warnings := warnings st |} in
  if kind =? 0x80 then
    push (pos + 2) (NoteOff deltaTime channel (get data pos) (get data (pos + 1)))
  else if kind =? 0x90 then
    push (pos + 2)
      (if decide (get data (pos + 1) = Some 0)
       then NoteOff deltaTime channel (get data pos) (get data (pos + 1))
       else NoteOn deltaTime channel (get data pos) (get data (pos + 1)))
  else if kind =? 0xa0 then
    push (pos + 2) (NoteAftertouch deltaTime channel (get data pos) (get data (pos + 1)))
  else if kind =? 0xb0 then
    push (pos + 2) (Controller deltaTime channel (get data pos) (get data (pos + 1)))
  else if kind =? 0xc0 then
    push (pos + 1) (ProgramChange deltaTime channel (get data pos))
  else if kind =? 0xd0 then
    push (pos + 1) (ChannelAftertouch deltaTime channel (get data pos))
  else if kind =? 0xe0 then
    push (pos + 2)
      (PitchBend deltaTime channel
         (bor (shl (int (get data (pos + 1))) 7) (int (get data pos))))
  else if eventType =? 0xff then
    let metaType := get data pos in
    let '(length, pos1) := readVarLen data (pos + 1) in
    let metaData := slice data pos1 (pos1 + length) in
    push (pos1 + length) (metaEvent deltaTime metaType metaData)
  else
    {| pos := pos + 2; runningStatus := runningStatus;
       parsed := parsed st; warnings := warnings st ++ [eventType] |}.

(** The [while] loop.  A meta event whose length field wraps to a
    negative 32-bit value moves [pos] backwards, so the loop need not
    terminate: [None] when [fuel] iterations were not enough. *)
Fixpoint parseLoop (fuel : nat) (data : list Byte.byte) (st : state) : option state :=
  if pos st <? Z.of_nat (length data) then
    match fuel with
    | O => None
    | S fuel' => parseLoop fuel' data (parseEvent data st)
    end
  else Some st.

Definition initial : state :=
  {| pos := 0; runningStatus := 0; parsed := []; warnings := [] |}.

Definition parseTrackEvents (fuel : nat) (data : list Byte.byte) : option (list MIDIEvent) :=
  parsed <$> parseLoop fuel data initial.

(** *** [extractNotes] *)

Record ActiveNote := {
  a_note : Z;
  a_velocity : Z;
  a_time : Z;
  a_channel : Z
}.

Record noteState := {
  currentTime : Z;
  closed : list MIDINote;
  activeNotes : list (Z * Z * ActiveNote)
}.

(** The key [`${noteNumber}-${channel}`], kept as the pair. *)
Definition noteStep (s : noteState) (event : MIDIEvent) : noteState :=
  let t := currentTime s + deltaTime event in
  match event with
  | NoteOn _ ch (Some n) (Some v) =>
      {| currentTime := t; closed := closed s;
         activeNotes :=
           map_set (n, ch)
             {| a_note := n; a_velocity := v; a_time := t; a_channel := ch |}
             (activeNotes s) |}
  | NoteOff _ ch (Some n) _ =>
      match map_get (n, ch) (activeNotes s) with
      | Some startNote =>
          {| currentTime := t;
             closed := closed s ++
               [ {| note := a_note startNote; velocity := a_velocity startNote;
                    time := a_time startNote; duration := t - a_time startNote;
                    channel := a_channel startNote |} ];
             activeNotes := map_delete (n, ch) (activeNotes s) |}
      | None => {| currentTime := t; closed := closed s; activeNotes := activeNotes s |}
      end
  | _ => {| currentTime := t; closed := closed s; activeNotes := activeNotes s |}
  end.

Definition extractNotes (events : list MIDIEvent) : list MIDINote :=
  let s := foldl noteStep {| currentTime := 0; closed := []; activeNotes := [] |} events in
  closed s ++
  ((λ e, {| note := a_note e.2; velocity := a_velocity e.2; time := a_time e.2;
            duration := 0; channel := a_channel e.2 |}) <$> activeNotes s).

(** *** [extractTrackName] *)

Fixpoint extractTrackName (events : list MIDIEvent) : option jsstring :=
  match events with
  | [] => None
  | MetaTrackName _ (c :: text) :: _ => Some (c :: text)
  | _ :: rest => extractTrackName rest
  end.

(** *** [parseMIDIData] *)

(** [view.getUint16(offset)] on the header chunk's own buffer:
    big-endian, a [RangeError] when it reads past the end. *)
Definition getUint16 (buf : list Byte.byte) (offset : nat) : option Z :=
  match buf !! offset, buf !! S offset with
  | Some hi, Some lo => Some (byteVal hi * 256 + byteVal lo)
  | _, _ => None
  end.

(** The [for (let i = 0; i < numTracks; i++)] loop, [remaining] being
    the number of iterations left. *)
Fixpoint parseTracks (fuel : nat) (data : list Byte.byte) (remaining : nat)
    (pos : Z) (tracks : list MIDITrack) : outcome (list MIDITrack) :=
  match remaining with
  | O => Returned tracks
  | S remaining' =>
      if Z.of_nat (length data) <=? pos then Returned tracks
      else
        let trackChunk := readChunk data pos in
        if decide (chunk_id trackChunk = str "MTrk") then
          match parseTrackEvents fuel (chunk_data trackChunk) with
          | None => OutOfFuel
          | Some trackEvents =>
              parseTracks fuel data remaining' (pos + (8 + chunk_length trackChunk))
                (tracks ++ [ {| name := extractTrackName trackEvents;
                                events := trackEvents;
                                notes := extractNotes trackEvents |} ])
          end
        else Thrown (str "Invalid MIDI file: expected MTrk, got " ++ chunk_id trackChunk)
  end.

Definition parseMIDIData (fuel : nat) (data : list Byte.byte) : outcome MIDIData :=
  let headerChunk := readChunk data 0 in
  if decide (chunk_id headerChunk = str "MThd") then
    match getUint16 (chunk_data headerChunk) 0, getUint16 (chunk_data headerChunk) 2,
          getUint16 (chunk_data headerChunk) 4 with
    | Some format, Some numTracks, Some ticksPerBeat =>
        match parseTracks fuel data (Z.to_nat numTracks)
                (0 + (8 + chunk_length headerChunk)) [] with
        | Returned tracks =>
            Returned {| header := {| format := format; numTracks := numTracks;
                                     ticksPerBeat := ticksPerBeat |};
                        tracks := tracks |}
        | Thrown msg => Thrown msg
        | OutOfFuel => OutOfFuel
        end
    | _, _, _ => Thrown (str "RangeError: Offset is outside the bounds of the DataView")
    end
  else Thrown (str "Invalid MIDI file: missing MThd header").

(** *** [convertToProgression] and [convertToMPCPattern] *)

Record TimeSignature := {
  numerator : Z;
  denominator : Z
}.

Record Meta := {
  bpm : Z;
  timeSignature : TimeSignature;
  trackName : jsstring
}.

(** One event of the tempo / time signature / track name scan: a value
    is taken when it is truthy (non-zero, defined, non-empty). *)
Definition scanEvent (m : Meta) (event : MIDIEvent) : Meta :=
  match event with
  | MetaTempo _ value =>
      if decide (value = 0) then m
      else {| bpm := Math_round (num 60000000 / num value)%float;
              timeSignature := timeSignature m; trackName := trackName m |}
  | MetaTimeSignature _ (Some n) (Some d) =>
      if decide (n = 0 ∨ d = 0) then m
      else {| bpm := bpm m;
              timeSignature := {| numerator := n; denominator := d |};
              trackName := trackName m |}
  | MetaTrackName _ (c :: text) =>
      {| bpm := bpm m; timeSignature := timeSignature m; trackName := c :: text |}
  | _ => m
  end.

(** A tempo meta event whose value is truthy (non-zero). *)
Definition isTempo (event : MIDIEvent) : bool :=
  match event with
  | MetaTempo _ value => negb (value =? 0)
  | _ => false
  end.

Definition allEvents (midiData : MIDIData) : list MIDIEvent :=
  mjoin (events <$> tracks midiData).

Definition allNotes (midiData : MIDIData) : list MIDINote :=
  mjoin (notes <$> tracks midiData).

Definition defaultMeta : Meta :=
  {| bpm := 120; timeSignature := {| numerator := 4; denominator := 4 |};
     trackName := [] |}.

Definition scanMeta (midiData : MIDIData) : Meta :=
  foldl scanEvent defaultMeta (allEvents midiData).

Record ProgressionData := {
  p_notes : list MIDINote;
  p_source : jsstring;
  p_bpm : Z;
  p_timeSignature : TimeSignature;
  p_name : option jsstring
}.

Definition convertToProgression (midiData : MIDIData) : ProgressionData :=
  let m := scanMeta midiData in
  {| p_notes := sort_by time (allNotes midiData);
     p_source := str "midi";
     p_bpm := bpm m;
     p_timeSignature := timeSignature m;
     p_name := match trackName m with [] => None | n => Some n end |}.

Record MPCPatternEvent := {
  tick : Z;
  ev_duration : Z;
  ev_velocity : Z;
  probability : float
}.

Record MPCPatternTrack := {
  track_id : jsstring;
  track_name : jsstring;
  padId : Z;
  track_events : list MPCPatternEvent
}.

Record MPCPatternData := {
  pat_name : jsstring;
  pat_bpm : Z;
  swing : Z;
  bars : float;
  timeSig : TimeSignature;
  pat_tracks : list MPCPatternTrack
}.

(** [padMapping ? padMapping.get(note.note) || note.note : note.channel] *)
Definition trackIdOf (padMapping : option (gmap Z Z)) (n : MIDINote) : Z :=
  match padMapping with
  | Some mapping =>
      match mapping !! note n with
      | Some pad => if decide (pad = 0) then note n else pad
      | None => note n
      end
  | None => channel n
  end.

(** The grouping loop: [notesByTrack.get(trackId)?.push(note)],
    creating the entry on first use. *)
Definition notesByTrack (padMapping : option (gmap Z Z)) (midiData : MIDIData)
    : list (Z * list MIDINote) :=
  group_by (trackIdOf padMapping) (allNotes midiData).

Definition patternEvent (n : MIDINote) : MPCPatternEvent :=
  {| tick := time n; ev_duration := duration n; ev_velocity := velocity n;
     probability := PrimFloat.one |}.

Definition patternTrack (entry : Z * list MIDINote) : MPCPatternTrack :=
  {| track_id := str "track_" ++ toString entry.1;
     track_name := str "Track " ++ toString entry.1;
     padId := entry.1;
     track_events := patternEvent <$> entry.2 |}.

Definition maxTick (midiData : MIDIData) : Z :=
  foldl (λ m n, if m <? time n + duration n then time n + duration n else m)
        0 (allNotes midiData).

Definition convertToMPCPattern (midiData : MIDIData)
    (padMapping : option (gmap Z Z)) : MPCPatternData :=
  let m := scanMeta midiData in
  let ticksPerBar := ticksPerBeat (header midiData) * numerator (timeSignature m) in
  {| pat_name := match trackName m with [] => str "Imported Pattern" | n => n end;
     pat_bpm := bpm m;
     swing := 0;
     bars := Math_ceil (num (maxTick midiData) / num ticksPerBar)%float;
     timeSig := timeSignature m;
     pat_tracks := patternTrack <$> notesByTrack padMapping midiData |}.

(** The rule "bpm comes from the first tempo meta event of the file". *)
Definition firstTempoRule (midiData : MIDIData) : Prop :=
  ∀ l1 dt v l2,
    allEvents midiData = l1 ++ MetaTempo dt v :: l2 →
    Forall (λ e, ∀ dt' v', e ≠ MetaTempo dt' v') l1 →
    p_bpm (convertToProgression midiData) = Math_round (num 60000000 / num v)%float.

(** The rule "with a mapping supplied, no track is produced for pad 0". *)
Definition neverPadZero (midiData : MIDIData) (mapping : gmap Z Z) : Prop :=
  ∀ t, t ∈ pat_tracks (convertToMPCPattern midiData (Some mapping)) → padId t ≠ 0.

End Midi.

(** ** Instrument validator: [validateInstrument] *)

Module Validator.

Record Layer := {
  sample : jsstring;
  rootKey : option Z;
  lowKey : option Z;
  highKey : option Z;
  lowVelocity : option Z;
  highVelocity : option Z
}.

(** The messages pushed to [issues]; [message] gives the string. *)
Inductive Issue :=
| NoSamples
| NoAudioData (name : jsstring)
| PitchNotDetected (name : jsstring)
| AnalysisError (name error : jsstring)
| MissingVelocity (rootKey : Z)
| OverlappingVelocity (rootKey : Z).

Definition message (i : Issue) : jsstring :=
  match i with
  | NoSamples => str "No samples found in instrument."
  | NoAudioData name => str "Sample " ++ name ++ str " has no audio data."
  | PitchNotDetected name => str "Pitch not detected in: " ++ name
  | AnalysisError name error =>
      str "Error analyzing sample " ++ name ++ str ": " ++ error
  | MissingVelocity rootKey =>
      str "Missing velocity range for some layers with root key " ++ toString rootKey
  | OverlappingVelocity rootKey =>
      str "Overlapping velocity ranges for root key " ++ toString rootKey
  end.

#[global] Instance Issue_eq_dec : EqDecision Issue.
Proof. solve_decision. Defined.

Record VelocityCheckResult := {
  valid : bool;
  check_issues : list Issue
}.

(** The inner loop [for (let j = i + 1; ...)] for [layerA]: [true] when
    it pushes the overlap issue (and breaks), [false] when it runs to
    the end.  A pair with an undefined bound is skipped. *)
Fixpoint innerLoop (layerA : Layer) (rest : list Layer) : bool :=
  match rest with
  | [] => false
  | layerB :: rest' =>
      match lowVelocity layerA, highVelocity layerA,
            lowVelocity layerB, highVelocity layerB with
      | Some aLow, Some aHigh, Some bLow, Some bHigh =>
          if (aLow <=? bHigh) && (bLow <=? aHigh) then true
          else innerLoop layerA rest'
      | _, _, _, _ => innerLoop layerA rest'
      end
  end.

(** The outer loop [for (let i = 0; ...)]: the issues it pushes. *)
Fixpoint overlapIssues (rootKey : Z) (rootLayers : list Layer) : list Issue :=
  match rootLayers with
  | [] => []
  | layerA :: rest =>
      (if innerLoop layerA rest then [OverlappingVelocity rootKey] else [])
      ++ overlapIssues rootKey rest
  end.

Definition missingVelocity (rootLayers : list Layer) : bool :=
  existsb (λ layer, bool_decide (lowVelocity layer = None ∨ highVelocity layer = None))
          rootLayers.

(** Body of [for (const rootKey in layersByRoot)]. *)
Definition groupIssues (group : Z * list Layer) : list Issue :=
  if (1 <? length group.2)%nat then
    (if missingVelocity group.2 then [MissingVelocity group.1] else [])
    ++ overlapIssues group.1 group.2
  else [].

(** Layers without a root key are left out of the grouping. *)
Definition layersByRoot (layers : list Layer) : list (Z * list Layer) :=
  group_by (λ layer, default 0 (rootKey layer))
    (filter (λ layer, rootKey layer ≠ None) layers).

Definition parseVelocityLayers (layers : list Layer) : VelocityCheckResult :=
  let issues := mjoin (groupIssues <$> forIn (layersByRoot layers)) in
  {| valid := bool_decide (issues = []); check_issues := issues |}.

(** [extractPitchFromFilename]: leftmost match of
    [/([A-Ga-g][#b]?[0-9])/], upper-cased, then [noteToMidi]. *)
Definition isNoteLetter (c : ascii) : bool :=
  let n := Z.of_N (N_of_ascii c) in
  ((65 <=? n) && (n <=? 71)) || ((97 <=? n) && (n <=? 103)).

Definition isDigit (c : ascii) : bool :=
  let n := Z.of_N (N_of_ascii c) in (48 <=? n) && (n <=? 57).

Definition digitVal (c : ascii) : Z := Z.of_N (N_of_ascii c) - 48.

Definition toUpper (c : ascii) : ascii :=
  let n := N_of_ascii c in
  if ((97 <=? n) && (n <=? 122))%N then ascii_of_N (n - 32) else c.

(** [noteMap[note] || 0] for the upper-cased note name: naturals and
    sharps are found, an upper-cased flat ("DB") is not a key of the
    table and yields 0. *)
Definition noteMap (letter : ascii) (sharp : bool) : Z :=
  match Z.of_N (N_of_ascii letter), sharp with
  | 67, false => 0 | 67, true => 1
  | 68, false => 2 | 68, true => 3
  | 69, false => 4
  | 70, false => 5 | 70, true => 6
  | 71, false => 7 | 71, true => 8
  | 65, false => 9 | 65, true => 10
  | 66, false => 11
  | _, _ => 0
  end.

Fixpoint extractPitchFromFilename (filename : jsstring) : option Z :=
  match filename with
  | [] => None
  | c :: rest =>
      let here :=
        if isNoteLetter c then
          match rest with
          | a :: d :: _ =>
              if (bool_decide (a = "#"%char) || bool_decide (a = "b"%char)) && isDigit d
              then Some ((digitVal d + 1) * 12
                         + (if bool_decide (a = "#"%char) then noteMap (toUpper c) true else 0))
              else if isDigit a
              then Some ((digitVal a + 1) * 12 + noteMap (toUpper c) false)
              else None
          | [a] =>
              if isDigit a
              then Some ((digitVal a + 1) * 12 + noteMap (toUpper c) false)
              else None
          | [] => None
          end
        else None in
      match here with
      | Some n => Some n
      | None => extractPitchFromFilename rest
      end
  end.

Section Validate.

(** The decoded audio payload and the pitch estimator are external. *)
Context {AudioBuffer : Type}.

Inductive PitchResult :=
| Detected (midiNote : Z)
| Undetected
| Failed (error : jsstring).

Context (detectPitch : AudioBuffer → PitchResult).

Record Sample := {
  s_name : jsstring;
  buffer : option AudioBuffer
}.

Inductive Status := Valid | Invalid.

Record ValidationReport := {
  status : Status;
  issues : list Issue;
  samplesValidated : nat
}.

Record loopState := {
  report : ValidationReport;
  layers : list Layer
}.

Definition mkLayer (name : jsstring) (root : option Z) : Layer :=
  {| sample := name; rootKey := root; lowKey := None; highKey := None;
     lowVelocity := None; highVelocity := None |}.

(** Body of [for (const sample of samples)]. *)
Definition sampleStep (s : loopState) (smp : Sample) : loopState :=
  let r := report s in
  match buffer smp with
  | None =>
      {| report := {| status := Invalid;
                      issues := issues r ++ [NoAudioData (s_name smp)];
                      samplesValidated := samplesValidated r |};
         layers := layers s |}
  | Some buf =>
      match detectPitch buf with
      | Failed error =>
          {| report := {| status := Invalid;
                          issues := issues r ++ [AnalysisError (s_name smp) error];
                          samplesValidated := samplesValidated r |};
             layers := layers s |}
      | Detected midiNote =>
          {| report := {| status := status r; issues := issues r;
                          samplesValidated := S (samplesValidated r) |};
             layers := layers s ++ [mkLayer (s_name smp) (Some midiNote)] |}
      | Undetected =>
          match extractPitchFromFilename (s_name smp) with
          | Some extractedPitch =>
              if decide (extractedPitch = 0) then
                {| report := {| status := status r;
                                issues := issues r ++ [PitchNotDetected (s_name smp)];
                                samplesValidated := S (samplesValidated r) |};
                   layers := layers s ++ [mkLayer (s_name smp) None] |}
              else
                {| report := {| status := status r; issues := issues r;
                                samplesValidated := S (samplesValidated r) |};
                   layers := layers s ++ [mkLayer (s_name smp) (Some extractedPitch)] |}
          | None =>
              {| report := {| status := status r;
                              issues := issues r ++ [PitchNotDetected (s_name smp)];
                              samplesValidated := S (samplesValidated r) |};
                 layers := layers s ++ [mkLayer (s_name smp) None] |}
          end
      end
  end.

Definition validateInstrument (samples : list Sample) : ValidationReport :=
  match samples with
  | [] => {| status := Invalid; issues := [NoSamples]; samplesValidated := 0 |}
  | _ =>
      let s := foldl sampleStep
                 {| report := {| status := Valid; issues := []; samplesValidated := 0 |};
                    layers := [] |} samples in
      let velocityCheck := parseVelocityLayers (layers s) in
      if valid velocityCheck then report s
      else {| status := Invalid;
              issues := issues (report s) ++ check_issues velocityCheck;
              samplesValidated := samplesValidated (report s) |}
  end.

(** The rule "status is valid iff the issue list is empty". *)
Definition validIffNoIssues (r : ValidationReport) : Prop :=
  status r = Valid ↔ issues r = [].

End Validate.

(** The rule "the overlap issue is reported at most once per root". *)
Definition overlapOncePerRoot (layers : list Layer) : Prop :=
  ∀ rootKey,
    (count_occ Issue_eq_dec (check_issues (parseVelocityLayers layers))
       (OverlappingVelocity rootKey) ≤ 1)%nat.

End Validator.

(** ** The platform XML parser: [DOMParser.parseFromString(s, "text/xml")]

    The importer hands the text to the browser's XML parser and then
    walks the element tree.  The model covers the XML 1.0 constructs
    that the writers and the repair pass can produce: an optional XML
    declaration, start / end / empty-element tags, attributes in double
    or single quotes, the five predefined entity references, and
    character data.  Comments, CDATA sections, processing instructions,
    DOCTYPE declarations and numeric character references are outside
    the model and are reported as errors.  Only element nodes are kept:
    the importer never reads text nodes. *)

Module Xml.

#[local] Set Warnings "-register-all".

Inductive Node :=
| Element (tag : jsstring) (attrs : list (jsstring * jsstring)) (children : list Node).

Definition tagName (n : Node) : jsstring := match n with Element t _ _ => t end.
Definition attributes (n : Node) : list (jsstring * jsstring) :=
  match n with Element _ a _ => a end.
Definition childNodes (n : Node) : list Node := match n with Element _ _ c => c end.

Definition code (c : ascii) : Z := Z.of_N (N_of_ascii c).

Definition isSpace (c : ascii) : bool :=
  (code c =? 32) || (code c =? 9) || (code c =? 10) || (code c =? 13).

Definition isLetter (c : ascii) : bool :=
  ((65 <=? code c) && (code c <=? 90)) || ((97 <=? code c) && (code c <=? 122)).

Definition isDigit (c : ascii) : bool := (48 <=? code c) && (code c <=? 57).

(** NameStartChar and NameChar. *)
Definition isNameStart (c : ascii) : bool :=
  isLetter c || (code c =? 95) || (code c =? 58) || (128 <=? code c).

Definition isNameChar (c : ascii) : bool :=
  isNameStart c || isDigit c || (code c =? 45) || (code c =? 46).

(** The Char production: no control characters but tab, LF and CR. *)
Definition isChar (c : ascii) : bool :=
  (32 <=? code c) || (code c =? 9) || (code c =? 10) || (code c =? 13).

Definition LT : ascii := "<"%char.
Definition GT : ascii := ">"%char.
Definition AMP : ascii := "&"%char.
Definition QUOT : ascii := ascii_of_N 34.
Definition APOS : ascii := "'"%char.
Definition SLASH : ascii := "/"%char.
Definition EQUALS : ascii := "="%char.
Definition SPACE : ascii := " "%char.

Definition startsWith (p s : jsstring) : bool := bool_decide (take (length p) s = p).

(** End-of-line handling: CR LF and a lone CR become LF. *)
Fixpoint normalizeEOL (s : jsstring) : jsstring :=
  match s with
  | [] => []
  | c :: s' =>
      if code c =? 13 then
        match s' with
        | d :: _ => if code d =? 10 then normalizeEOL s'
                    else ascii_of_N 10 :: normalizeEOL s'
        | [] => [ascii_of_N 10]
        end
      else c :: normalizeEOL s'
  end.

Fixpoint skipSpace (s : jsstring) : jsstring :=
  match s with
  | c :: s' => if isSpace c then skipSpace s' else s
  | [] => []
  end.

Fixpoint scanNameChars (s : jsstring) : jsstring * jsstring :=
  match s with
  | c :: s' =>
      if isNameChar c then
        let '(n, r) := scanNameChars s' in (c :: n, r)
      else ([], s)
  | [] => ([], [])
  end.

Definition scanName (s : jsstring) : option (jsstring * jsstring) :=
  match s with
  | c :: _ => if isNameStart c then Some (scanNameChars s) else None
  | [] => None
  end.

(** The text after an ampersand: the character a predefined entity
    stands for, and the number of code units of the reference. *)
Definition entity (s : jsstring) : option (ascii * nat) :=
  if startsWith (str "amp;") s then Some (AMP, 4%nat)
  else if startsWith (str "lt;") s then Some (LT, 3%nat)
  else if startsWith (str "gt;") s then Some (GT, 3%nat)
  else if startsWith (str "apos;") s then Some (APOS, 5%nat)
  else if startsWith (str "quot;") s then Some (QUOT, 5%nat)
  else None.

(** Replacement of references in a literal; [attr] selects attribute
    value normalisation (white space becomes a space).  [skip] counts
    the code units of a reference still to be passed over. *)
Fixpoint decode (attr : bool) (s : jsstring) (skip : nat) : option jsstring :=
  match s with
  | [] => Some []
  | c :: s' =>
      match skip with
      | S k => decode attr s' k
      | O =>
          if bool_decide (c = AMP) then
            match entity s' with
            | Some (ch, len) => cons ch <$> decode attr s' len
            | None => None
            end
          else if negb (isChar c) then None
          else cons (if attr && isSpace c then SPACE else c) <$> decode attr s' 0%nat
      end
  end.

(** An attribute value after its opening quote [q]: the raw literal runs
    to the next [q] and must not contain a left angle bracket. *)
Fixpoint scanLiteral (q : ascii) (s : jsstring) : option (jsstring * jsstring) :=
  match s with
  | [] => None
  | c :: s' =>
      if bool_decide (c = q) then Some ([], s')
      else if bool_decide (c = LT) then None
      else '(v, r) ← scanLiteral q s'; Some (c :: v, r)
  end.

Definition scanAttValue (s : jsstring) : option (jsstring * jsstring) :=
  match s with
  | q :: s' =>
      if bool_decide (q = QUOT) || bool_decide (q = APOS) then
        '(raw, r) ← scanLiteral q s';
        v ← decode true raw 0%nat;
        Some (v, r)
      else None
  | [] => None
  end.

(** [(S Attribute)* S?]: the attributes and the text left after them.
    Every attribute is preceded by white space and its name is new. *)
Fixpoint scanAttrs (fuel : nat) (s : jsstring) (acc : list (jsstring * jsstring))
    : option (list (jsstring * jsstring) * jsstring) :=
  let s1 := skipSpace s in
  match s1 with
  | [] => Some (acc, [])
  | c :: _ =>
      if isNameStart c then
        match fuel with
        | O => None
        | S fuel' =>
            if bool_decide (s = s1) then None
            else
              '(n, r) ← scanName s1;
              match skipSpace r with
              | e :: r1 =>
                  if bool_decide (e = EQUALS) then
                    '(v, r2) ← scanAttValue (skipSpace r1);
                    if bool_decide (n ∈ acc.*1) then None
                    else scanAttrs fuel' r2 (acc ++ [(n, v)])
                  else None
              | [] => None
              end
        end
      else Some (acc, s1)
  end.

Inductive token :=
| TStart (tag : jsstring) (attrs : list (jsstring * jsstring))
| TEmpty (tag : jsstring) (attrs : list (jsstring * jsstring))
| TEnd (tag : jsstring)
| TText (nonSpace : bool).

(** Character data up to the next left angle bracket. *)
Fixpoint scanText (s : jsstring) : jsstring * jsstring :=
  match s with
  | [] => ([], [])
  | c :: s' =>
      if bool_decide (c = LT) then ([], s)
      else let '(t, r) := scanText s' in (c :: t, r)
  end.

Fixpoint contains (p s : jsstring) : bool :=
  match s with
  | [] => startsWith p []
  | _ :: s' => startsWith p s || contains p s'
  end.

(** One token at the head of a non-empty text. *)
Definition scanToken (s : jsstring) : option (token * jsstring) :=
  match s with
  | [] => None
  | c :: s' =>
      if bool_decide (c = LT) then
        match s' with
        | d :: s'' =>
            if bool_decide (d = SLASH) then
              '(n, r) ← scanName s'';
              match skipSpace r with
              | g :: r' => if bool_decide (g = GT) then Some (TEnd n, r') else None
              | [] => None
              end
            else
              '(n, r) ← scanName s';
              '(attrs, r1) ← scanAttrs (length r) r [];
              match r1 with
              | g :: r2 =>
                  if bool_decide (g = GT) then Some (TStart n attrs, r2)
                  else if bool_decide (g = SLASH) then
                    match r2 with
                    | g' :: r3 =>
                        if bool_decide (g' = GT) then Some (TEmpty n attrs, r3) else None
                    | [] => None
                    end
                  else None
              | [] => None
              end
        | [] => None
        end
      else
        let '(t, r) := scanText s in
        if contains (str "]]>") t then None
        else
          _ ← decode false t 0%nat;
          Some (TText (negb (forallb isSpace t)), r)
  end.

Fixpoint tokenize (fuel : nat) (s : jsstring) : option (list token) :=
  match s with
  | [] => Some []
  | _ =>
      match fuel with
      | O => None
      | S fuel' =>
          '(t, r) ← scanToken s;
          ts ← tokenize fuel' r;
          Some (t :: ts)
      end
  end.

(** An element whose end tag has not been read yet: tag, attributes,
    and the children read so far (latest first). *)
Definition frame : Type := jsstring * list (jsstring * jsstring) * list Node.

(** Attach a finished element to the innermost open element, or make it
    the root; a second root is an error. *)
Definition attach (n : Node) (stack : list frame) (root : option Node)
    : option (list frame * option Node) :=
  match stack with
  | (t, a, cs) :: stack' => Some ((t, a, n :: cs) :: stack', root)
  | [] => match root with
          | None => Some ([], Some n)
          | Some _ => None
          end
  end.

Fixpoint build (ts : list token) (stack : list frame) (root : option Node) : option Node :=
  match ts with
  | [] => match stack with [] => root | _ => None end
  | TText nonSpace :: ts' =>
      match stack with
      | [] => if nonSpace then None else build ts' stack root
      | _ => build ts' stack root
      end
  | TStart t a :: ts' =>
      match stack, root with
      | [], Some _ => None
      | _, _ => build ts' ((t, a, []) :: stack) root
      end
  | TEmpty t a :: ts' =>
      '(stack', root') ← attach (Element t a []) stack root;
      build ts' stack' root'
  | TEnd t :: ts' =>
      match stack with
      | (t', a, cs) :: stack' =>
          if bool_decide (t = t') then
            '(stack'', root') ← attach (Element t' a (rev cs)) stack' root;
            build ts' stack'' root'
          else None
      | [] => None
      end
  end.

(** The XML declaration, when the text starts with [<?xml] and white
    space: version, then optionally encoding and standalone. *)
Definition scanDecl (s : jsstring) : option jsstring :=
  '(attrs, r) ← scanAttrs (length s) s [];
  if startsWith (str "?>") r then
    match attrs.*1 with
    | v :: rest =>
        if bool_decide (v = str "version")
           && bool_decide (rest ∈ [[]; [str "encoding"]; [str "standalone"];
                                   [str "encoding"; str "standalone"]])
        then Some (drop 2 r) else None
    | [] => None
    end
  else None.

(** [None] stands for a document with a [parsererror]. *)
Definition parse (content : jsstring) : option Node :=
  let s := normalizeEOL content in
  body ← (if startsWith (str "<?xml") s && bool_decide (isSpace <$> s !! 5%nat = Some true)
          then scanDecl (drop 5 s) else Some s);
  ts ← tokenize (length body) body;
  build ts [] None.

(** Elements below [n], in document order. *)
Fixpoint descendants (n : Node) : list Node :=
  match n with
  | Element _ _ cs =>
      (fix go (l : list Node) : list Node :=
         match l with
         | [] => []
         | c :: l' => c :: descendants c ++ go l'
         end) cs
  end.

(** [querySelectorAll(name)] / [querySelector(name)] with a type
    selector, on an element and on the document. *)
Definition querySelectorAll (n : Node) (name : jsstring) : list Node :=
  filter (λ e, tagName e = name) (descendants n).

Definition querySelector (n : Node) (name : jsstring) : option Node :=
  head (querySelectorAll n name).

Definition docQuerySelectorAll (root : Node) (name : jsstring) : list Node :=
  filter (λ e, tagName e = name) (root :: descendants root).

(** [getAttribute(name)]: [null] when absent. *)
Definition getAttribute (n : Node) (name : jsstring) : option jsstring :=
  map_get name (attributes n).

End Xml.

(** ** Program codec: [XPMGenerator], [XPMImporter], [XPMUtils.fixXPMContent] *)

Module Codec.
Import Xml.

(** *** Writer: [XPMGenerator.generateInstrumentXPM] *)

(** Of a sample the writer only reads the name. *)
Record Sample := {
  sample_id : jsstring;
  sample_name : jsstring
}.

Record XPMOptions := {
  opt_name : jsstring;
  isDrumkit : bool;
  includeSettings : bool;
  useRelativePaths : bool;
  outputDirectory : option jsstring
}.

(** The character class of the [replace] in [formatSamplePath]:
    backslash, slash, colon, star, question mark, double quote, angle
    brackets and bar become an underscore. *)
Definition cleanChar (c : ascii) : ascii :=
  if bool_decide (c ∈ strq "\/:*?'<>|") then "_"%char else c.

Definition formatSamplePath (options : XPMOptions) (sampleName : jsstring) : jsstring :=
  if useRelativePaths options then
    let cleanName := cleanChar <$> sampleName in
    match outputDirectory options with
    | Some (_ :: _) => str "./samples/" ++ cleanName
    | _ => str "samples/" ++ cleanName
    end
  else sampleName.

Definition NL : jsstring := [ascii_of_N 10].

Definition xmlDeclaration : jsstring :=
  strq "<?xml version='1.0' encoding='UTF-8'?>" ++ NL.

(** [Array.from(keyMapping.entries()).sort((a, b) => a[0] - b[0])]:
    the keys of a [Map] are distinct, so the result does not depend on
    the order of insertion. *)
Definition sortedEntries (keyMapping : gmap Z Sample) : list (Z * Sample) :=
  sort_by fst (map_to_list keyMapping).

(** The key range computed for entry [index] (same statements as in the
    auto-mapper). *)
Definition lowKeyAt (entries : list (Z * Sample)) (index : nat) (midiNote : Z) : Z :=
  if (0 <? index)%nat
  then ((nth (index - 1) entries (midiNote, {| sample_id := []; sample_name := [] |})).1
        + midiNote) / 2 + 1
  else 0.

Definition highKeyAt (entries : list (Z * Sample)) (index : nat) (midiNote : Z) : Z :=
  if (index <? length entries - 1)%nat
  then (midiNote
        + (nth (index + 1) entries (midiNote, {| sample_id := []; sample_name := [] |})).1) / 2
  else 127.

(** Text appended by one call of the [forEach] callback. *)
Definition keygroupXml (options : XPMOptions) (entries : list (Z * Sample))
    (index : nat) (entry : Z * Sample) : jsstring :=
  let midiNote := entry.1 in
  let sample := entry.2 in
  let samplePath := formatSamplePath options (sample_name sample) in
  let lowKey := lowKeyAt entries index midiNote in
  let highKey := highKeyAt entries index midiNote in
  (strq "    <Keygroup index='" ++ toString (Z.of_nat index) ++ strq "'>" ++ NL)
  ++ (str "      <Zone>" ++ NL)
  ++ (strq "        <Sample name='" ++ sample_name sample ++ strq "' path='"
        ++ samplePath ++ strq "'/>" ++ NL)
  ++ (strq "        <KeyRange root='" ++ toString midiNote ++ strq "' low='"
        ++ toString lowKey ++ strq "' high='" ++ toString highKey ++ strq "'/>" ++ NL)
  ++ (strq "        <VelocityRange low='1' high='127'/>" ++ NL)
  ++ (str "      </Zone>" ++ NL)
  ++ (str "    </Keygroup>" ++ NL).

Definition generateInstrumentXPM (options : XPMOptions) (keyMapping : gmap Z Sample)
    : jsstring :=
  let entries := sortedEntries keyMapping in
  xmlDeclaration
  ++ (strq "<KeygroupProgram name='" ++ opt_name options ++ strq "'>" ++ NL)
  ++ (str "  <Keygroups>" ++ NL)
  ++ mjoin (imap (keygroupXml options entries) entries)
  ++ (str "  </Keygroups>" ++ NL)
  ++ str "</KeygroupProgram>".

(** Text that can stand between double quotes as it is: no control
    character, and none of double quote, ampersand, left angle
    bracket. *)
Definition safeChar (c : ascii) : bool :=
  (32 <=? code c) && negb (bool_decide (c = QUOT)) && negb (bool_decide (c = AMP))
  && negb (bool_decide (c = LT)).

Definition safe (s : jsstring) : bool := forallb safeChar s.

(** *** Reader: [XPMImporter.parseXPMContent] *)

Record XPMSample := {
  xs_name : jsstring;
  xs_path : jsstring
}.

(** Numeric fields come from [Number.parseInt] and are NaN ([None])
    when the attribute does not start with a number. *)
Record KeyRange := {
  kr_root : option Z;
  kr_low : option Z;
  kr_high : option Z
}.

Record VelocityRange := {
  vr_low : option Z;
  vr_high : option Z
}.

Record XPMZone := {
  z_sample : XPMSample;
  keyRange : KeyRange;
  velocityRange : VelocityRange
}.

Record XPMKeygroup := {
  kg_index : option Z;
  zones : list XPMZone
}.

Record XPMProgram := {
  prog_name : jsstring;
  prog_isDrumkit : bool;
  prog_samples : list XPMSample;
  prog_keygroups : list XPMKeygroup
}.

(** [Number.parseInt(s, 10)]: leading white space, an optional sign,
    then the longest run of digits; NaN without a digit. *)
Definition digitsValue (ds : jsstring) : Z :=
  foldl (λ acc c, 10 * acc + (code c - 48)) 0 ds.

Definition parseInt (s : jsstring) : option Z :=
  let s1 := skipSpace s in
  let '(neg, s2) :=
    match s1 with
    | c :: r => if bool_decide (c = "-"%char) then (true, r)
                else if bool_decide (c = "+"%char) then (false, r)
                else (false, s1)
    | [] => (false, s1)
    end in
  match takeWhile isDigit s2 with
  | [] => None
  | ds => Some (if neg then - digitsValue ds else digitsValue ds)
  end.

(** [a || b] on strings: the empty string and [null] are falsy. *)
Definition orElse (a : option jsstring) (b : jsstring) : jsstring :=
  match a with
  | Some (c :: s) => c :: s
  | _ => b
  end.

(** [element?.getAttribute(name) || dflt], then [parseInt]. *)
Definition intAttribute (element : option Node) (name : jsstring) (dflt : string)
    : option Z :=
  parseInt (orElse (element ≫= λ e, getAttribute e name) (str dflt)).

(** Body of [zoneElements.forEach]: the zone pushed, if any. *)
Definition extractZone (zoneElement : Node) : option XPMZone :=
  sampleElement ← querySelector zoneElement (str "Sample");
  let sampleName := orElse (getAttribute sampleElement (str "name")) [] in
  let samplePath := orElse (getAttribute sampleElement (str "path")) sampleName in
  let keyRangeElement := querySelector zoneElement (str "KeyRange") in
  let velocityRangeElement := querySelector zoneElement (str "VelocityRange") in
  Some {| z_sample := {| xs_name := sampleName; xs_path := samplePath |};
          keyRange := {| kr_root := intAttribute keyRangeElement (str "root") "60";
                         kr_low := intAttribute keyRangeElement (str "low") "0";
                         kr_high := intAttribute keyRangeElement (str "high") "127" |};
          velocityRange :=
            {| vr_low := intAttribute velocityRangeElement (str "low") "1";
               vr_high := intAttribute velocityRangeElement (str "high") "127" |} |}.

Definition extractKeygroup (index : nat) (keygroupElement : Node) : XPMKeygroup :=
  {| kg_index :=
       parseInt (orElse (getAttribute keygroupElement (str "index"))
                        (toString (Z.of_nat index)));
     zones := omap extractZone (querySelectorAll keygroupElement (str "Zone")) |}.

Definition extractKeygroups (root : Node) : list XPMKeygroup :=
  imap extractKeygroup (docQuerySelectorAll root (str "Keygroup")).

Definition toLower (c : ascii) : ascii :=
  if (65 <=? code c) && (code c <=? 90) then ascii_of_N (N_of_ascii c + 32) else c.

Definition determineProgramType (rootElement : Node) : bool :=
  let nodeName := toLower <$> tagName rootElement in
  bool_decide (nodeName = str "drumprogram")
  || (bool_decide (nodeName = str "pluginprogram")
      && bool_decide (getAttribute rootElement (str "type") = Some (str "drumkit"))).

(** Backslashes count as slashes; the part after the last slash. *)
Fixpoint lastPart (s acc : jsstring) : jsstring :=
  match s with
  | [] => acc
  | c :: s' =>
      if bool_decide (c = "/"%char) || bool_decide (c = "\"%char) then lastPart s' []
      else lastPart s' (acc ++ [c])
  end.

Definition extractFilenameFromPath (path : jsstring) : jsstring := lastPart path [].

(** [Array.from(new Set(paths))]: first occurrences, in order. *)
Fixpoint unique (l : list jsstring) (seen : list jsstring) : list jsstring :=
  match l with
  | [] => []
  | x :: l' => if bool_decide (x ∈ seen) then unique l' seen
               else x :: unique l' (seen ++ [x])
  end.

(** [parseXPMContent] for an instrument program; the drum-kit branch
    ([extractPads]) is not modelled and yields no keygroups. *)
Definition parseXPMContent (content : jsstring) : outcome XPMProgram :=
  match parse content with
  | None => Thrown (str "Failed to parse XPM content: Error: XML parsing error")
  | Some rootElement =>
      if bool_decide (docQuerySelectorAll rootElement (str "parsererror") ≠ [])
      then Thrown (str "Failed to parse XPM content: Error: XML parsing error")
      else
        let isDrum := determineProgramType rootElement in
        let keygroups := if isDrum then [] else extractKeygroups rootElement in
        let paths := unique ((λ z, xs_path (z_sample z)) <$> mjoin (zones <$> keygroups)) [] in
        Returned
          {| prog_name := orElse (getAttribute rootElement (str "name"))
                                 (str "Imported Program");
             prog_isDrumkit := isDrum;
             prog_samples :=
               (λ path, {| xs_name := extractFilenameFromPath path; xs_path := path |})
               <$> paths;
             prog_keygroups := keygroups |}
  end.

(** *** Repair: [XPMUtils.fixXPMContent] *)

(** Leftmost match of [<tag[^>]*>] in [s]: the text before it, the text
    captured by [[^>]*], and the text after the match. *)
Fixpoint findOpen (open : jsstring) (s : jsstring)
    : option (jsstring * jsstring * jsstring) :=
  match s with
  | [] => None
  | c :: s' =>
      let here :=
        if startsWith open s then
          let rest := drop (length open) s in
          let captured := takeWhile (λ c, negb (bool_decide (c = GT))) rest in
          match drop (length captured) rest with
          | _ :: after => Some ([], captured, after)
          | [] => None
          end
        else None in
      match here with
      | Some m => Some m
      | None => '(before, captured, after) ← findOpen open s'; Some (c :: before, captured, after)
      end
  end.

(** Number of matches of [new RegExp(`<${tag}[^>]*>`, "g")]. *)
Fixpoint countOpen (fuel : nat) (tag : jsstring) (s : jsstring) : nat :=
  match fuel with
  | O => 0
  | S fuel' =>
      match findOpen (LT :: tag) s with
      | Some (_, _, after) => S (countOpen fuel' tag after)
      | None => 0
      end
  end.

(** Number of matches of a literal pattern; [skip] counts the code
    units of the current match still to be passed over. *)
Fixpoint countLiteral (p s : jsstring) (skip : nat) : nat :=
  match s with
  | [] => 0
  | _ :: s' =>
      match skip with
      | S k => countLiteral p s' k
      | O => if startsWith p s then S (countLiteral p s' (length p - 1))
             else countLiteral p s' 0
      end
  end.

Definition closer (tag : jsstring) : jsstring := str "</" ++ tag ++ str ">".

Definition openCount (tag s : jsstring) : nat := countOpen (length s) tag s.
Definition closeCount (tag s : jsstring) : nat := countLiteral (closer tag) s 0.

(** Leftmost match of the name pattern in [attributes] (the word name,
    an equals sign, and a non-empty run of non-quote characters between
    double quotes): the capture. *)
Fixpoint nameMatch (attributes : jsstring) : option jsstring :=
  match attributes with
  | [] => None
  | _ :: s' =>
      let here :=
        if startsWith (strq "name='") attributes then
          let rest := drop 6 attributes in
          let captured := takeWhile (λ c, negb (bool_decide (c = QUOT))) rest in
          match captured, drop (length captured) rest with
          | _ :: _, _ :: _ => Some captured
          | _, _ => None
          end
        else None in
      match here with
      | Some m => Some m
      | None => nameMatch s'
      end
  end.

(** The callback of the [replace] over the Sample start tags; its
    argument is the text captured between the tag name and the closing
    angle bracket. *)
Definition fixSample (attributes : jsstring) : jsstring :=
  let unchanged := str "<Sample" ++ attributes ++ str ">" in
  if contains (str "path=") attributes then unchanged
  else
    match nameMatch attributes with
    | Some name => str "<Sample" ++ attributes ++ strq " path='" ++ name ++ strq "'>"
    | None => unchanged
    end.

Fixpoint fixSamples (fuel : nat) (s : jsstring) : jsstring :=
  match fuel with
  | O => s
  | S fuel' =>
      match findOpen (str "<Sample") s with
      | Some (before, attributes, after) =>
          before ++ fixSample attributes ++ fixSamples fuel' after
      | None => s
      end
  end.

Definition fixDeclaration (xpmContent : jsstring) : jsstring :=
  if contains (str "<?xml") xpmContent then xpmContent
  else xmlDeclaration ++ xpmContent.

Definition openTags : list jsstring :=
  str <$> ["DrumProgram"; "KeygroupProgram"; "Pads"; "Keygroups"; "Pad";
           "Keygroup"; "Zone"; "Sample"]%string.

(** Body of [openTags.forEach]. *)
Definition closeTag (xpmContent : jsstring) (tag : jsstring) : jsstring :=
  let openN := openCount tag xpmContent in
  let closeN := closeCount tag xpmContent in
  if (closeN <? openN)%nat
  then xpmContent ++ mjoin (replicate (openN - closeN) (closer tag ++ NL))
  else xpmContent.

Definition fixXPMContent (xpmContent : jsstring) : jsstring :=
  let withDecl := fixDeclaration xpmContent in
  let withPaths := fixSamples (length withDecl) withDecl in
  foldl closeTag withPaths openTags.

(** The number of zone records the importer extracts, when it parses. *)
Definition zoneRecords (content : jsstring) : option nat :=
  match parseXPMContent content with
  | Returned program => Some (length (mjoin (zones <$> prog_keygroups program)))
  | _ => None
  end.

End Codec.
(** ** The other writers of [XPMGenerator] and the pads of [XPMImporter] *)

Module Generator.
Import Xml Codec.

(** *** Writer: [XPMGenerator.generateDrumKitXPM] *)

(** Text appended by one call of the [forEach] callback. *)
Definition padXml (options : XPMOptions) (index : nat) (sample : Sample) : jsstring :=
  let samplePath := formatSamplePath options (sample_name sample) in
  (strq "    <Pad padIndex='" ++ toString (Z.of_nat index) ++ strq "'>" ++ NL)
  ++ (strq "      <Sample name='" ++ sample_name sample ++ strq "' path='"
        ++ samplePath ++ strq "'/>" ++ NL)
  ++ (if includeSettings options
      then strq "      <Settings level='1.0' pan='0.0' tune='0'/>" ++ NL
      else [])
  ++ (str "    </Pad>" ++ NL).

Definition generateDrumKitXPM (options : XPMOptions) (samples : list Sample) : jsstring :=
  xmlDeclaration
  ++ (strq "<DrumProgram name='" ++ opt_name options ++ strq "'>" ++ NL)
  ++ (str "  <Pads>" ++ NL)
  ++ mjoin (imap (padXml options) samples)
  ++ (str "  </Pads>" ++ NL)
  ++ str "</DrumProgram>".

(** *** Writer: [XPMGenerator.generateMultiVelocityXPM] *)

(** [Array.from(keyVelocityMapping.entries()).sort((a, b) => a[0] - b[0])] *)
Definition sortedLayers (keyVelocityMapping : gmap Z (list Sample))
    : list (Z * list Sample) :=
  sort_by fst (map_to_list keyVelocityMapping).

(** The key range of entry [index]: midpoints to the neighbouring
    notes, 0 for the first entry and 127 for the last. *)
Definition lowKeyOf (entries : list (Z * list Sample)) (index : nat) (midiNote : Z) : Z :=
  if (0 <? index)%nat
  then ((nth (index - 1) entries (midiNote, [])).1 + midiNote) / 2 + 1
  else 0.

Definition highKeyOf (entries : list (Z * list Sample)) (index : nat) (midiNote : Z) : Z :=
  if (index <? length entries - 1)%nat
  then (midiNote + (nth (index + 1) entries (midiNote, [])).1) / 2
  else 127.

(** [Math.floor(127 / velocitySamples.length)] and the velocity range
    of the sample at [velIndex]. *)
Definition velocityStep (count : nat) : Z :=
  Math_floor (num 127 / num (Z.of_nat count))%float.

Definition lowVel (count velIndex : nat) : Z :=
  Z.of_nat velIndex * velocityStep count + 1.

Definition highVel (count velIndex : nat) : Z :=
  if (velIndex =? count - 1)%nat then 127
  else (Z.of_nat velIndex + 1) * velocityStep count.

(** Text appended by one call of the inner [forEach] callback. *)
Definition zoneXml (options : XPMOptions) (midiNote lowKey highKey : Z) (count : nat)
    (velIndex : nat) (sample : Sample) : jsstring :=
  let samplePath := formatSamplePath options (sample_name sample) in
  (str "      <Zone>" ++ NL)
  ++ (strq "        <Sample name='" ++ sample_name sample ++ strq "' path='"
        ++ samplePath ++ strq "'/>" ++ NL)
  ++ (strq "        <KeyRange root='" ++ toString midiNote ++ strq "' low='"
        ++ toString lowKey ++ strq "' high='" ++ toString highKey ++ strq "'/>" ++ NL)
  ++ (strq "        <VelocityRange low='" ++ toString (lowVel count velIndex)
        ++ strq "' high='" ++ toString (highVel count velIndex) ++ strq "'/>" ++ NL)
  ++ (str "      </Zone>" ++ NL).

(** Text appended by one call of the outer [forEach] callback: nothing
    for a note without samples. *)
Definition layeredKeygroupXml (options : XPMOptions) (entries : list (Z * list Sample))
    (index : nat) (entry : Z * list Sample) : jsstring :=
  let midiNote := entry.1 in
  let velocitySamples := entry.2 in
  match velocitySamples with
  | [] => []
  | _ :: _ =>
      let lowKey := lowKeyOf entries index midiNote in
      let highKey := highKeyOf entries index midiNote in
      (strq "    <Keygroup index='" ++ toString (Z.of_nat index) ++ strq "'>" ++ NL)
      ++ mjoin (imap (zoneXml options midiNote lowKey highKey (length velocitySamples))
                     velocitySamples)
      ++ (str "    </Keygroup>" ++ NL)
  end.

Definition generateMultiVelocityXPM (options : XPMOptions)
    (keyVelocityMapping : gmap Z (list Sample)) : jsstring :=
  let entries := sortedLayers keyVelocityMapping in
  xmlDeclaration
  ++ (strq "<KeygroupProgram name='" ++ opt_name options ++ strq "'>" ++ NL)
  ++ (str "  <Keygroups>" ++ NL)
  ++ mjoin (imap (layeredKeygroupXml options entries) entries)
  ++ (str "  </Keygroups>" ++ NL)
  ++ str "</KeygroupProgram>".

End Generator.

(** *** Reader: [XPMImporter.parseXPMContent] with the pads of a drum kit *)

Module Importer.
Import Xml Codec.

Record PadSettings := {
  level : float;
  pan : float;
  tune : option Z
}.

Record XPMPad := {
  pad_index : option Z;
  pad_sample : XPMSample;
  settings : option PadSettings
}.

(** A program as [parseXPMContent] returns it: [keygroups] is set for
    an instrument, [pads] for a drum kit. *)
Record XPMProgram := {
  name : jsstring;
  isDrum : bool;
  samples : list XPMSample;
  keygroups : option (list XPMKeygroup);
  pads : option (list XPMPad)
}.

Section Pads.

(** [Number.parseFloat] is left to the platform. *)
Context (parseFloat : jsstring → float).

(** Body of [padElements.forEach]: the pad pushed, if any. *)
Definition extractPad (index : nat) (padElement : Node) : option XPMPad :=
  let padIndex :=
    parseInt (orElse (getAttribute padElement (str "padIndex"))
                (orElse (getAttribute padElement (str "id"))
                   (toString (Z.of_nat index)))) in
  sampleElement ← querySelector padElement (str "Sample");
  let sampleName := orElse (getAttribute sampleElement (str "name")) [] in
  let samplePath := orElse (getAttribute sampleElement (str "path")) sampleName in
  let settings :=
    (λ settingsElement,
       {| level := parseFloat (orElse (getAttribute settingsElement (str "level"))
                                      (str "1.0"));
          pan := parseFloat (orElse (getAttribute settingsElement (str "pan"))
                                    (str "0.0"));
          tune := parseInt (orElse (getAttribute settingsElement (str "tune"))
                                   (str "0")) |})
    <$> querySelector padElement (str "Settings") in
  Some {| pad_index := padIndex;
          pad_sample := {| xs_name := sampleName; xs_path := samplePath |};
          settings := settings |}.

Definition extractPads (root : Node) : list XPMPad :=
  omap id (imap extractPad (docQuerySelectorAll root (str "Pad"))).

(** The sample list: the distinct paths in order of first occurrence,
    each with its file name. *)
Definition sampleList (paths : list jsstring) : list XPMSample :=
  (λ path, {| xs_name := extractFilenameFromPath path; xs_path := path |})
  <$> unique paths [].

Definition parseXPMContent (content : jsstring) : outcome XPMProgram :=
  match parse content with
  | None => Thrown (str "Failed to parse XPM content: Error: XML parsing error")
  | Some rootElement =>
      if bool_decide (docQuerySelectorAll rootElement (str "parsererror") ≠ [])
      then Thrown (str "Failed to parse XPM content: Error: XML parsing error")
      else
        let programName :=
          orElse (getAttribute rootElement (str "name")) (str "Imported Program") in
        if determineProgramType rootElement then
          let pads := extractPads rootElement in
          Returned {| name := programName; isDrum := true;
                      samples := sampleList ((λ pad, xs_path (pad_sample pad)) <$> pads);
                      keygroups := None; pads := Some pads |}
        else
          let keygroups := extractKeygroups rootElement in
          Returned {| name := programName; isDrum := false;
                      samples :=
                        sampleList ((λ z, xs_path (z_sample z))
                                    <$> mjoin (zones <$> keygroups));
                      keygroups := Some keygroups; pads := None |}
  end.

End Pads.

End Importer.

(** ** Sample organisation: [VelocityLayerManager] and [XPMUtils] *)

Module Organizer.
Import Xml Codec Generator.

(** *** Note names in file names *)

(** The class [[#b]] of the accidental; under the [i] flag it also
    holds the capital B. *)
Definition isAccidental (ignoreCase : bool) (c : ascii) : bool :=
  bool_decide (c = "#"%char) || bool_decide (c = "b"%char)
  || (ignoreCase && bool_decide (c = "B"%char)).

(** Leftmost match of [[A-Ga-g][#b]?[0-9]]: a note letter, then either
    an accidental and a digit, or a digit. *)
Fixpoint noteMatch (ignoreCase : bool) (s : jsstring) : option jsstring :=
  match s with
  | [] => None
  | c :: rest =>
      let here :=
        if Validator.isNoteLetter c then
          match rest with
          | a :: d :: _ =>
              if isAccidental ignoreCase a && Validator.isDigit d then Some [c; a; d]
              else if Validator.isDigit a then Some [c; a]
              else None
          | [a] => if Validator.isDigit a then Some [c; a] else None
          | [] => None
          end
        else None in
      match here with
      | Some m => Some m
      | None => noteMatch ignoreCase rest
      end
  end.

(** [toUpperCase] on a match (letters a to g, the accidental, a digit). *)
Definition toUpperCase (s : jsstring) : jsstring := Validator.toUpper <$> s.

(** [extractNoteFromFilename] of [VelocityLayerManager]: the pattern
    without the [i] flag. *)
Definition extractNoteFromFilename (filename : jsstring) : option jsstring :=
  toUpperCase <$> noteMatch false filename.

(** The table of [noteNameToMidi]. *)
Definition noteMap : list (jsstring * Z) :=
  [ (str "C", 0); (str "C#", 1); (str "Db", 1); (str "D", 2); (str "D#", 3);
    (str "Eb", 3); (str "E", 4); (str "F", 5); (str "F#", 6); (str "Gb", 6);
    (str "G", 7); (str "G#", 8); (str "Ab", 8); (str "A", 9); (str "A#", 10);
    (str "Bb", 10); (str "B", 11) ].

(** [noteNameToMidi]: the pattern [([A-G][#b]?)([0-9])] with the [i]
    flag, the first group upper-cased and looked up ([noteMap[note] ||
    0]), the second read as the octave. *)
Definition noteNameToMidi (noteName : jsstring) : Z :=
  match noteMatch true noteName with
  | None => -1
  | Some m =>
      let note := toUpperCase (take (length m - 1) m) in
      let octave := Validator.digitVal (default "0"%char (last m)) in
      (octave + 1) * 12 + default 0 (map_get note noteMap)
  end.

(** [extractMidiNoteFromFilename] of [XPMUtils]: the pattern with the
    [i] flag. *)
Definition extractMidiNoteFromFilename (filename : jsstring) : option Z :=
  (λ m, noteNameToMidi (toUpperCase m)) <$> noteMatch true filename.

(** *** Velocity hints in file names *)

(** [toLowerCase] on code units 0..255: the letters A to Z and the
    capital letters of Latin-1. *)
Definition lowerChar (c : ascii) : ascii :=
  let n := code c in
  if ((65 <=? n) && (n <=? 90)) || ((192 <=? n) && (n <=? 222) && negb (n =? 215))
  then ascii_of_N (N_of_ascii c + 32) else c.

Definition toLowerCase (s : jsstring) : jsstring := lowerChar <$> s.

(** Leftmost match of [prefix] followed by one or more digits: the
    digits. *)
Fixpoint digitsAfter (prefix : jsstring) (s : jsstring) : option jsstring :=
  match s with
  | [] => None
  | _ :: rest =>
      let here :=
        if startsWith prefix s then
          match takeWhile Xml.isDigit (drop (length prefix) s) with
          | [] => None
          | ds => Some ds
          end
        else None in
      match here with
      | Some ds => Some ds
      | None => digitsAfter prefix rest
      end
  end.

(** The explicit velocity number, when there is one within 0..127. *)
Definition explicitVelocity (name : jsstring) : option Z :=
  let velocityMatch :=
    match digitsAfter (str "vel") name with
    | Some ds => Some ds
    | None => digitsAfter (str "v") name
    end in
  match velocityMatch with
  | Some ds =>
      let vel := digitsValue ds in
      if (0 <=? vel) && (vel <=? 127) then Some vel else None
  | None => None
  end.

(** The chain of dynamic markings. *)
Definition velocityWord (name : jsstring) : Z :=
  if contains (str "ppp") name || contains (str "pianississimo") name then 10
  else if contains (str "pp") name || contains (str "pianissimo") name then 25
  else if contains (str "p") name || contains (str "piano") name then 40
  else if contains (str "mp") name || contains (str "mezzo-piano") name then 60
  else if contains (str "mf") name || contains (str "mezzo-forte") name then 80
  else if contains (str "f") name || contains (str "forte") name then 100
  else if contains (str "ff") name || contains (str "fortissimo") name then 115
  else if contains (str "fff") name || contains (str "fortississimo") name then 127
  else 90.

Definition extractVelocityFromFilename (filename : jsstring) : Z :=
  let name := toLowerCase filename in
  match explicitVelocity name with
  | Some vel => vel
  | None => velocityWord name
  end.

(** *** [VelocityLayerManager.organizeVelocityLayers] *)

(** The first loop: samples with a note name, grouped by it. *)
Definition samplesByNote (samples : list Sample) : list (jsstring * list Sample) :=
  group_by (λ sample, default [] (extractNoteFromFilename (sample_name sample)))
           (filter (λ sample, extractNoteFromFilename (sample_name sample) ≠ None) samples).

(** Body of [samplesByNote.forEach]. *)
Definition organizeStep (samplesByKey : gmap Z (list Sample))
    (entry : jsstring * list Sample) : gmap Z (list Sample) :=
  let midiNote := noteNameToMidi entry.1 in
  if decide (midiNote = -1) then samplesByKey
  else <[midiNote := sort_by (λ sample, extractVelocityFromFilename (sample_name sample))
                             entry.2]> samplesByKey.

Definition organizeVelocityLayers (samples : list Sample) : gmap Z (list Sample) :=
  foldl organizeStep ∅ (samplesByNote samples).

(** *** [XPMUtils] *)

Record XPMFixOptions := {
  autoMapSamples : bool;
  detectVelocityLayers : bool;
  optimizeKeyRanges : bool;
  validateSamples : bool
}.

(** The options the constructor passes to the generator. *)
Definition generatorOptions (name : jsstring) (drumkit : bool) : XPMOptions :=
  {| opt_name := name; isDrumkit := drumkit; includeSettings := true;
     useRelativePaths := true; outputDirectory := None |}.

Section Utils.

(** The audio data of a sample, the pitch estimator and the sample
    analyser are external. *)
Context {AudioBuffer : Type} (buffer : Sample → option AudioBuffer).
Context (detectPitch : AudioBuffer → @Validator.PitchResult).
Context (validSamples : list Sample → list Sample).

(** The note under which [mapSamplesToKeys] files a sample: from the
    file name, else from the estimator when there is audio data. *)
Definition keyOf (sample : Sample) : option Z :=
  match extractMidiNoteFromFilename (sample_name sample) with
  | Some midiNote => Some midiNote
  | None =>
      match buffer sample with
      | Some buf =>
          match detectPitch buf with
          | Validator.Detected midiNote => Some midiNote
          | _ => None
          end
      | None => None
      end
  end.

Definition mapSamplesToKeys (samples : list Sample) : gmap Z Sample :=
  foldl (λ keyMapping sample,
           match keyOf sample with
           | Some midiNote => <[midiNote := sample]> keyMapping
           | None => keyMapping
           end) ∅ samples.

Definition createXPM (name : jsstring) (drumkit : bool) (samples : list Sample)
    (options : XPMFixOptions) : jsstring :=
  let processedSamples := if validateSamples options then validSamples samples else samples in
  if drumkit then generateDrumKitXPM (generatorOptions name drumkit) processedSamples
  else
    let keyMapping :=
      if autoMapSamples options then mapSamplesToKeys processedSamples else ∅ in
    if detectVelocityLayers options
    then generateMultiVelocityXPM (generatorOptions name drumkit)
           (organizeVelocityLayers processedSamples)
    else generateInstrumentXPM (generatorOptions name drumkit) keyMapping.

End Utils.

End Organizer.


(** ** The program writer of the instrument service: [XPMWriter] *)

Module Writer.
Import Xml Codec.

Inductive ProgramType := keygroup | drumkit.

(** The text a program type stands for in a template literal. *)
Definition typeName (t : ProgramType) : jsstring :=
  match t with
  | keygroup => str "keygroup"
  | drumkit => str "drumkit"
  end.

Record XPMWriter := {
  instrumentName : jsstring;
  programType : ProgramType
}.

(** [new XPMWriter(instrumentName)]: the program type defaults to
    "keygroup". *)
Definition newXPMWriter (instrumentName : jsstring) : XPMWriter :=
  {| instrumentName := instrumentName; programType := keygroup |}.

Section WriterMethods.

(** [SampleManager.getInstance().getSample] and the text of
    [new Date().toISOString()] are external. *)
Context (getSample : jsstring → option Sample).
Context (created : jsstring).

(** Body of the inner loop of [createZonesFromInstrument]: the zone
    pushed, if any.  A layer without a sample id (null or empty) and an
    id without a sample are passed over. *)
Definition zoneOf (keygroup : Mapper.Keygroup) (layer : Mapper.VelocityLayer)
    : option Layers.Zone :=
  match Mapper.sampleId layer with
  | Some (c :: sampleId) =>
      match getSample (c :: sampleId) with
      | Some sample =>
          Some {| Layers.file := sample_name sample;
                  Layers.root := Mapper.rootNote keygroup;
                  Layers.low := Mapper.lowNote keygroup;
                  Layers.high := Mapper.highNote keygroup;
                  Layers.velLow := Mapper.lowVelocity layer;
                  Layers.velHigh := Mapper.highVelocity layer |}
      | None => None
      end
  | _ => None
  end.

Definition createZonesFromInstrument (instrument : Mapper.Instrument)
    : list Layers.Zone :=
  mjoin ((λ keygroup, omap (zoneOf keygroup) (Mapper.velocityLayers keygroup))
         <$> Mapper.keygroups instrument).

(** Text appended for one zone. *)
Definition zoneXml (zone : Layers.Zone) : jsstring :=
  strq "    <Zone file='" ++ Layers.file zone
  ++ strq "' root='" ++ toString (Layers.root zone)
  ++ strq "' low='" ++ toString (Layers.low zone)
  ++ strq "' high='" ++ toString (Layers.high zone)
  ++ strq "' vel_low='" ++ toString (Layers.velLow zone)
  ++ strq "' vel_high='" ++ toString (Layers.velHigh zone)
  ++ strq "' />" ++ NL.

Definition generateXPMContent (this : XPMWriter) (zones : list Layers.Zone) : jsstring :=
  xmlDeclaration
  ++ (strq "<PluginProgram name='" ++ instrumentName this ++ strq "' type='"
        ++ typeName (programType this) ++ strq "'>" ++ NL)
  ++ (str "  <ProgramInfo>" ++ NL)
  ++ (str "    <Name>" ++ instrumentName this ++ str "</Name>" ++ NL)
  ++ (str "    <Type>" ++ typeName (programType this) ++ str "</Type>" ++ NL)
  ++ (str "    <Created>" ++ created ++ str "</Created>" ++ NL)
  ++ (str "  </ProgramInfo>" ++ NL)
  ++ (str "  <Keygroup>" ++ NL)
  ++ mjoin (zoneXml <$> zones)
  ++ (str "  </Keygroup>" ++ NL)
  ++ str "</PluginProgram>".

Definition createXPM (this : XPMWriter) (instrument : Mapper.Instrument) : jsstring :=
  generateXPMContent this (createZonesFromInstrument instrument).

(** Text appended for one property of [padAssignments]: nothing when
    the sample is not found. *)
Definition padXml (assignment : jsstring * jsstring) : jsstring :=
  let padId := assignment.1 in
  let sampleId := assignment.2 in
  match getSample sampleId with
  | Some sample =>
      strq "    <Pad id='" ++ padId ++ strq "' sample='" ++ sample_name sample
      ++ strq "' />" ++ NL
  | None => []
  end.

(** [padAssignments] is given by its properties, in the order in which
    [for ... in] visits them. *)
Definition createDrumKitXPM (kitName : jsstring)
    (padAssignments : list (jsstring * jsstring)) : jsstring :=
  xmlDeclaration
  ++ (strq "<PluginProgram name='" ++ kitName ++ strq "' type='drumkit'>" ++ NL)
  ++ (str "  <ProgramInfo>" ++ NL)
  ++ (str "    <Name>" ++ kitName ++ str "</Name>" ++ NL)
  ++ (str "    <Type>drumkit</Type>" ++ NL)
  ++ (str "    <Created>" ++ created ++ str "</Created>" ++ NL)
  ++ (str "  </ProgramInfo>" ++ NL)
  ++ (str "  <DrumKit>" ++ NL)
  ++ mjoin (padXml <$> padAssignments)
  ++ (str "  </DrumKit>" ++ NL)
  ++ str "</PluginProgram>".

End WriterMethods.

End Writer.

(** ** The multi-layer export: [MultiLayerExporter.processAndExport] *)

Module Exporter.
Import Xml Codec Layers.

(** [extractNoteFromFilename] and [noteToMidi]: the statements of
    [VelocityLayerManager.extractNoteFromFilename] and
    [VelocityLayerManager.noteNameToMidi]. *)
Definition extractNoteFromFilename (filename : jsstring) : option jsstring :=
  Organizer.toUpperCase <$> Organizer.noteMatch false filename.

Definition noteToMidi (noteName : jsstring) : Z := Organizer.noteNameToMidi noteName.

Definition extractVelocityFromFilename (filename : jsstring) : Z :=
  let name := Organizer.toLowerCase filename in
  if contains (str "soft") name then 40
  else if contains (str "med") name then 80
  else if contains (str "hard") name then 120
  else 100.

Record SampleInfo := {
  info_id : jsstring;
  noteName : option jsstring;
  info_velocity : Z;
  pitch : option Z
}.

Section ExporterMethods.

(** The sample store, the audio data of a sample, the pitch estimator
    and the text of [new Date().toISOString()] are external. *)
Context {AudioBuffer : Type}.
Context (getSample : jsstring → option Sample).
Context (buffer : Sample → option AudioBuffer).
Context (detectPitch : AudioBuffer → @Validator.PitchResult).
Context (created : jsstring).

(** [extractSampleInfo]: the estimated pitch when there is one, the
    note of the file name when the estimator finds nothing, no pitch
    when it throws (the error is caught and logged). *)
Definition extractSampleInfo (sample : Sample) : SampleInfo :=
  let noteName := extractNoteFromFilename (sample_name sample) in
  let velocity := extractVelocityFromFilename (sample_name sample) in
  {| info_id := sample_id sample;
     noteName := noteName;
     info_velocity := velocity;
     pitch :=
       match buffer sample with
       | Some buf =>
           match detectPitch buf with
           | Validator.Detected midiNote => Some midiNote
           | Validator.Undetected =>
               match noteName with
               | Some (c :: name) => Some (noteToMidi (c :: name))
               | _ => None
               end
           | Validator.Failed _ => None
           end
       | None => None
       end |}.

(** Body of [for (const sampleId of sampleIds)]: the zone pushed, if
    any.  A pitch of 0 is falsy and passed over like a missing one. *)
Definition zoneFor (sampleId : jsstring) : option Zone :=
  match getSample sampleId with
  | Some sample =>
      match buffer sample with
      | Some _ =>
          let sampleInfo := extractSampleInfo sample in
          match pitch sampleInfo with
          | Some p =>
              if decide (p = 0) then None
              else Some {| file := sample_name sample;
                           root := p; low := p; high := p;
                           velLow := info_velocity sampleInfo;
                           velHigh := info_velocity sampleInfo |}
          | None => None
          end
      | None => None
      end
  | None => None
  end.

Definition collectZones (sampleIds : list jsstring) : list Zone :=
  omap zoneFor sampleIds.

(** [processAndExport] of the exporter made by
    [new MultiLayerExporter(instrumentName)]. *)
Definition processAndExport (instrumentName : jsstring) (sampleIds : list jsstring)
    : jsstring :=
  let zones := collectZones sampleIds in
  let groupedZones := assignVelocityRanges zones in
  Writer.generateXPMContent created (Writer.newXPMWriter instrumentName) groupedZones.

End ExporterMethods.

End Exporter.

(** ** The note resolver of the auto-mapper: sample-mapper.ts *)

Module SampleMapper.
Import Xml Codec Mapper.

(** [extractNoteFromFilename] and [noteToMidi]: the statements of
    [VelocityLayerManager.extractNoteFromFilename] and
    [VelocityLayerManager.noteNameToMidi]. *)
Definition extractNoteFromFilename (filename : jsstring) : option jsstring :=
  Organizer.toUpperCase <$> Organizer.noteMatch false filename.

Definition noteToMidi (noteName : jsstring) : Z := Organizer.noteNameToMidi noteName.

Section Resolver.

(** The sample store, the audio data of a sample and the pitch
    estimator are external. *)
Context {AudioBuffer : Type}.
Context (getSample : jsstring → option Sample).
Context (buffer : Sample → option AudioBuffer).
Context (detectPitch : AudioBuffer → @Validator.PitchResult).

(** Body of [for (const sampleId of sampleIds)]: the entry pushed, if
    any.  The note of the file name comes first; the estimator is only
    asked when the name holds none, and an error it throws is caught. *)
Definition mappedSampleFor (sampleId : jsstring) : option MappedSample :=
  match getSample sampleId with
  | Some sample =>
      match buffer sample with
      | Some buf =>
          let noteFromFilename := extractNoteFromFilename (sample_name sample) in
          let midiNote :=
            match noteFromFilename with
            | Some (c :: noteName) => Some (noteToMidi (c :: noteName))
            | _ =>
                match detectPitch buf with
                | Validator.Detected midiNote => Some midiNote
                | _ => None
                end
            end in
          match midiNote with
          | Some midiNote =>
              Some {| ms_id := sampleId;
                      midiNote := midiNote;
                      velocity := 127;
                      rootPitch := match noteFromFilename with
                                   | Some (c :: noteName) => c :: noteName
                                   | _ => str "Unknown"
                                   end |}
          | None => None
          end
      | None => None
      end
  | None => None
  end.

Definition autoMapSamples (sampleIds : list jsstring) : list MappedSample :=
  omap mappedSampleFor sampleIds.


End Resolver.

End SampleMapper.

(** ** Loading the samples of a program: [XPMImporter.importProgram] *)

Module ProgramLoader.
Import Xml Codec.

Section LoaderMethods.

(** The files handed in (of which only the name is read) and
    [SampleManager.loadSample], which may throw ([None]), are
    external. *)
Context {File : Type}.
Context (fileName : File → jsstring).
Context (loadSample : File → option Sample).

(** The map from lower-cased file name to file. *)
Definition fileMap (sampleFiles : list File) : list (jsstring * File) :=
  foldl (λ fileMap file, map_set (Organizer.toLowerCase (fileName file)) file fileMap)
        [] sampleFiles.

(** Body of [for (const xpmSample of program.samples)]: the sample
    pushed, if any. *)
Definition loadFor (fileMap : list (jsstring * File)) (xpmSample : XPMSample)
    : option Sample :=
  let filename := extractFilenameFromPath (xs_path xpmSample) in
  match map_get (Organizer.toLowerCase filename) fileMap with
  | Some file => loadSample file
  | None => None
  end.

Definition importProgram (program : Importer.XPMProgram) (sampleFiles : list File)
    : list Sample :=
  omap (loadFor (fileMap sampleFiles)) (Importer.samples program).

End LoaderMethods.

End ProgramLoader.

(** ** The instrument scanner: [InstrumentScanner] *)

Module Scanner.
Import Xml Codec.


(** The separators of [split(/[_\s-]/)]: underscore, hyphen and white
    space (of the code units 0..255: 9 to 13, 32 and 160). *)
Definition isWhiteSpace (c : ascii) : bool :=
  ((9 <=? code c) && (code c <=? 13)) || (code c =? 32) || (code c =? 160).

Definition isDelimiter (c : ascii) : bool :=
  bool_decide (c = "_"%char) || bool_decide (c = "-"%char) || isWhiteSpace c.

(** [sample.name.split(/[_\s-]/)[0]]: the text before the first
    separator. *)
Definition prefixOf (name : jsstring) : jsstring :=
  takeWhile (λ c, negb (isDelimiter c)) name.

(** The properties an object literal inherits from [Object.prototype]:
    reading one of them from [groups] gives a value that is truthy and
    has no [push]. *)
Definition objectPrototype : list jsstring :=
  [ str "constructor"; str "__defineGetter__"; str "__defineSetter__";
    str "hasOwnProperty"; str "__lookupGetter__"; str "__lookupSetter__";
    str "isPrototypeOf"; str "propertyIsEnumerable"; str "toString"; str "valueOf";
    str "__proto__"; str "toLocaleString" ].

(** Body of the loop of [groupSamplesByPrefix] on the own properties of
    [groups]; [None] when [groups[prefix].push] is not a function (a
    TypeError). *)
Definition groupStep (groups : list (jsstring * list Sample)) (sample : Sample)
    : option (list (jsstring * list Sample)) :=
  let prefix := prefixOf (sample_name sample) in
  match map_get prefix groups with
  | Some _ => Some (map_push prefix sample groups)
  | None =>
      if bool_decide (prefix ∈ objectPrototype) then None
      else Some (map_push prefix sample groups)
  end.


(** A property key that is an array index: the canonical numeral of an
    integer from 0 to 2^32 - 2. *)
Definition arrayIndex (key : jsstring) : option Z :=
  match key with
  | [] => None
  | _ :: _ =>
      if forallb isDigit key then
        let n := digitsValue key in
        if bool_decide (toString n = key) && (n <? 2 ^ 32 - 1) then Some n else None
      else None
  end.

(** [Object.entries]: the array indices in ascending order, then the
    other keys in order of creation. *)
Definition entries {V} (obj : list (jsstring * V)) : list (jsstring * V) :=
  sort_by (λ e, default 0 (arrayIndex e.1)) (filter (λ e, is_Some (arrayIndex e.1)) obj)
  ++ filter (λ e, ¬ is_Some (arrayIndex e.1)) obj.

Definition drumKeywords : list jsstring :=
  [ str "kick"; str "snare"; str "hat"; str "tom"; str "cymbal"; str "perc";
    str "drum"; str "clap" ].

Definition hasDrumKeyword (sample : Sample) : bool :=
  let name := Organizer.toLowerCase (sample_name sample) in
  existsb (λ keyword, contains keyword name) drumKeywords.

(** [drumCount > samples.length * 0.3] in binary64; 0.3 is the double
    0x1.3333333333333p-2.  [true] stands for "drumkit". *)
Definition classifyInstrumentType (samples : list Sample) : bool :=
  let drumCount := length (filter (λ sample, hasDrumKeyword sample = true) samples) in
  PrimFloat.ltb (num (Z.of_nat (length samples)) * 0x1.3333333333333p-2)%float
                (num (Z.of_nat drumCount)).

Section Scan.

(** [Date.now()] at its k-th call and [String.prototype.toUpperCase]
    are left to the platform. *)
Context (now : nat → Z).
Context (toUpperCase : jsstring → jsstring).




End Scan.

End Scanner.
(** * Part II: vocabulary of the statements and test vectors *)

(** ** Terms for the facts about the auto-mapper *)

Module MapperTerms.
Import Mapper.

(** Three samples on C3, C4 and G4, and the default instrument. *)
Definition c1_samples : list MappedSample :=
  [ {| ms_id := str "a"; midiNote := 48; velocity := 127; rootPitch := str "C3" |};
    {| ms_id := str "b"; midiNote := 60; velocity := 127; rootPitch := str "C4" |};
    {| ms_id := str "c"; midiNote := 67; velocity := 127; rootPitch := str "G4" |} ].

Definition c1_instrument : Instrument :=
  {| inst_id := str "instrument_0"; inst_name := str "Default Instrument";
     keygroups := [] |}.

(** The promise made for an ascending sequence of distinct roots: the
    boundary formula, every key of 0..127 in exactly one range, and
    each root inside its own range. *)
Definition partitionRule (inst : Instrument) (ms : list MappedSample) : Prop :=
  let kgs := keygroups (autoMapSamples inst ms).1 in
  let root i := nth i (midiNote <$> ms) 0 in
  length kgs = length ms ∧
  (∀ i kg, kgs !! i = Some kg →
     lowNote kg = (match i with O => 0 | S j => (root j + root i) / 2 + 1 end) ∧
     highNote kg = (if decide (S i = length ms) then 127
                    else (root i + root (S i)) / 2)) ∧
  (∀ k, 0 ≤ k ≤ 127 →
     ∃ i kg, kgs !! i = Some kg ∧ lowNote kg ≤ k ≤ highNote kg ∧
       ∀ j kg', kgs !! j = Some kg' → lowNote kg' ≤ k ≤ highNote kg' → j = i) ∧
  (∀ i kg, kgs !! i = Some kg → lowNote kg ≤ rootNote kg ≤ highNote kg).

(** A store with one sample, named after the note B9, whose audio data
    is present; the pitch estimator is not reached. *)
Definition c1_store (sampleId : jsstring) : option Codec.Sample :=
  if decide (sampleId = str "s1")
  then Some {| Codec.sample_id := str "s1"; Codec.sample_name := str "Piano_B9.wav" |}
  else None.

Definition c1_high_samples : list MappedSample :=
  SampleMapper.autoMapSamples c1_store (λ _, Some tt) (λ _, Validator.Undetected)
    [str "s1"].

End MapperTerms.

(** ** Terms for the facts about velocity layering *)

Module LayersTerms.
Import Layers.

(** Three zones on one root with the velocity hints of "hard", "soft"
    and "med". *)
Definition c4_group : list Zone :=
  [ {| file := str "Piano_C3_hard.wav"; root := 48; low := 48; high := 48;
       velLow := 120; velHigh := 120 |};
    {| file := str "Piano_C3_soft.wav"; root := 48; low := 48; high := 48;
       velLow := 40; velHigh := 40 |};
    {| file := str "Piano_C3_med.wav"; root := 48; low := 48; high := 48;
       velLow := 80; velHigh := 80 |} ].

(** 129 zones on one root. *)
Definition c5_group : list Zone :=
  replicate 129 {| file := str "Piano_C3.wav"; root := 48; low := 48; high := 48;
                   velLow := 100; velHigh := 100 |}.

End LayersTerms.

(** ** Terms for the facts about the MIDI decoder *)

Module MidiTerms.
Import Midi.

(** Test vectors are written as byte values. *)
Definition bytes (l : list Z) : list Byte.byte :=
  (λ z, default Byte.x00 (Byte.of_N (Z.to_N z))) <$> l.

(** "MThd", length 6, format 0, one track, 480 ticks per quarter note. *)
Definition smf_header : list Z :=
  [0x4d; 0x54; 0x68; 0x64; 0; 0; 0; 6; 0; 0; 0; 1; 0x01; 0xe0].

Definition mtrk (body : list Z) : list Z :=
  [0x4d; 0x54; 0x72; 0x6b; 0; 0; 0; Z.of_nat (length body)] ++ body.

(** A track with a system-exclusive status byte (0xF0) between a tempo
    event (500000) and a note (60, velocity 100, 480 ticks). *)
Definition c3_track : list Z :=
  [0x00; 0xff; 0x51; 0x03; 0x07; 0xa1; 0x20;
   0x00; 0xf0; 0x01; 0x02;
   0x00; 0x90; 0x3c; 0x64;
   0x83; 0x60; 0x80; 0x3c; 0x00;
   0x00; 0xff; 0x2f; 0x00].

Definition c3_file : list Byte.byte := bytes (smf_header ++ mtrk c3_track).

Definition c3_events : list MIDIEvent :=
  [MetaTempo 0 500000; NoteOn 0 0 (Some 60) (Some 100);
   NoteOff 480 0 (Some 60) (Some 0); MetaEndOfTrack 0].

Definition c3_data : MIDIData :=
  {| header := {| format := 0; numTracks := 1; ticksPerBeat := 480 |};
     tracks :=
       [ {| name := None; events := c3_events;
            notes := [ {| note := 60; velocity := 100; time := 0;
                          duration := 480; channel := 0 |} ] |} ] |}.

(** The state of the track loop after the tempo event of [c3_track]. *)
Definition c3_state : state :=
  {| pos := 7; runningStatus := 0xff; parsed := [MetaTempo 0 500000]; warnings := [] |}.

(** A file with two tempo events: 500000, then 250000. *)
Definition c7_track : list Z :=
  [0x00; 0xff; 0x51; 0x03; 0x07; 0xa1; 0x20;
   0x00; 0xff; 0x51; 0x03; 0x03; 0xd0; 0x90;
   0x00; 0xff; 0x2f; 0x00].

Definition c7_file : list Byte.byte := bytes (smf_header ++ mtrk c7_track).

Definition c7_data : MIDIData :=
  {| header := {| format := 0; numTracks := 1; ticksPerBeat := 480 |};
     tracks :=
       [ {| name := None;
            events := [MetaTempo 0 500000; MetaTempo 0 250000; MetaEndOfTrack 0];
            notes := [] |} ] |}.

(** A file with one note on key 0 (velocity 100, 480 ticks). *)
Definition c10_track : list Z :=
  [0x00; 0x90; 0x00; 0x64;
   0x83; 0x60; 0x80; 0x00; 0x00;
   0x00; 0xff; 0x2f; 0x00].

Definition c10_file : list Byte.byte := bytes (smf_header ++ mtrk c10_track).

Definition c10_note : MIDINote :=
  {| note := 0; velocity := 100; time := 0; duration := 480; channel := 0 |}.

Definition c10_data : MIDIData :=
  {| header := {| format := 0; numTracks := 1; ticksPerBeat := 480 |};
     tracks :=
       [ {| name := None;
            events := [NoteOn 0 0 (Some 0) (Some 100); NoteOff 480 0 (Some 0) (Some 0);
                       MetaEndOfTrack 0];
            notes := [c10_note] |} ] |}.

(** The default pad mapping of the controller: notes 36 .. 51 to pads
    0 .. 15. *)
Definition defaultPadMapping : gmap Z Z :=
  list_to_map ((λ i, (36 + Z.of_nat i, Z.of_nat i)) <$> seq 0 16).

End MidiTerms.

(** ** Terms for the facts about the validator *)

Module ValidatorTerms.
Import Validator.

(** A layer with a root key and explicit velocity bounds. *)
Definition velLayer (name : string) (root lo hi : Z) : Layer :=
  {| sample := str name; rootKey := Some root; lowKey := None; highKey := None;
     lowVelocity := Some lo; highVelocity := Some hi |}.

(** The overlap test of the check: both layers carry explicit bounds
    and a.low ≤ b.high and b.low ≤ a.high. *)
Definition overlapping (a b : Layer) : Prop :=
  ∃ aLow aHigh bLow bHigh,
    lowVelocity a = Some aLow ∧ highVelocity a = Some aHigh ∧
    lowVelocity b = Some bLow ∧ highVelocity b = Some bHigh ∧
    aLow ≤ bHigh ∧ bLow ≤ aHigh.

(** Three layers on root 60, each spanning the whole velocity axis. *)
Definition c8_layers : list Layer :=
  [velLayer "a.wav" 60 0 127; velLayer "b.wav" 60 0 127; velLayer "c.wav" 60 0 127].

(** Two layers on root 60: 0..70 and 60..127. *)
Definition c8_pair : list Layer :=
  [velLayer "a.wav" 60 0 70; velLayer "b.wav" 60 60 127].

(** The issue pushed when neither the estimator nor the file name
    gives a pitch. *)
Definition isPitchNotice (i : Issue) : bool :=
  match i with PitchNotDetected _ => true | _ => false end.

(** The status is "invalid" exactly when an issue other than a
    "Pitch not detected" notice has been pushed. *)
Definition statusTracksIssues (r : @ValidationReport) : Prop :=
  status r = Invalid ↔ Exists (λ i, isPitchNotice i = false) (issues r).

(** One sample with audio data, no note name in its file name, and no
    detectable pitch. *)
Definition c9_samples : list (@Sample unit) :=
  [ {| s_name := str "kick.wav"; buffer := Some () |} ].

Definition c9_detectPitch (_ : unit) : @PitchResult := Undetected.

End ValidatorTerms.

(** ** Terms for the facts about the codec *)

Module CodecTerms.
Import Xml Codec.

(** The characters of a decimal numeral, most significant first. *)
Fixpoint digitChars (d : Decimal.uint) : jsstring :=
  match d with
  | Decimal.Nil => []
  | Decimal.D0 d => "0"%char :: digitChars d
  | Decimal.D1 d => "1"%char :: digitChars d
  | Decimal.D2 d => "2"%char :: digitChars d
  | Decimal.D3 d => "3"%char :: digitChars d
  | Decimal.D4 d => "4"%char :: digitChars d
  | Decimal.D5 d => "5"%char :: digitChars d
  | Decimal.D6 d => "6"%char :: digitChars d
  | Decimal.D7 d => "7"%char :: digitChars d
  | Decimal.D8 d => "8"%char :: digitChars d
  | Decimal.D9 d => "9"%char :: digitChars d
  end.

(** Big-endian value of a digit sequence, with accumulator. *)
Fixpoint bigEndian (d : Decimal.uint) (acc : N) : N :=
  match d with
  | Decimal.Nil => acc
  | Decimal.D0 d => bigEndian d (10 * acc)
  | Decimal.D1 d => bigEndian d (10 * acc + 1)
  | Decimal.D2 d => bigEndian d (10 * acc + 2)
  | Decimal.D3 d => bigEndian d (10 * acc + 3)
  | Decimal.D4 d => bigEndian d (10 * acc + 4)
  | Decimal.D5 d => bigEndian d (10 * acc + 5)
  | Decimal.D6 d => bigEndian d (10 * acc + 6)
  | Decimal.D7 d => bigEndian d (10 * acc + 7)
  | Decimal.D8 d => bigEndian d (10 * acc + 8)
  | Decimal.D9 d => bigEndian d (10 * acc + 9)
  end%N.

(** An XML name made of the characters the tokenizer accepts. *)
Definition wfName (n : jsstring) : bool :=
  match n with
  | c :: _ => isNameStart c && forallb isNameChar n
  | [] => false
  end.

(** The writer's attribute syntax: one space, name, equals sign, value
    in double quotes. *)
Definition renderAttr (a : jsstring * jsstring) : jsstring :=
  SPACE :: a.1 ++ EQUALS :: QUOT :: a.2 ++ [QUOT].

Definition renderAttrs (attrs : list (jsstring * jsstring)) : jsstring :=
  mjoin (renderAttr <$> attrs).

Definition wfAttr (a : jsstring * jsstring) : bool := wfName a.1 && safe a.2.

(** What may follow a run of attributes: neither white space nor the
    start of a name. *)
Definition tagEnd (r : jsstring) : Prop :=
  ∃ c r', r = c :: r' ∧ isSpace c = false ∧ isNameStart c = false.

(** The text of a tag as the writer prints it. *)
Definition renderTag (t : token) : jsstring :=
  match t with
  | TStart n a => LT :: n ++ renderAttrs a ++ [GT]
  | TEmpty n a => LT :: n ++ renderAttrs a ++ [SLASH; GT]
  | TEnd n => LT :: SLASH :: n ++ [GT]
  | TText _ => []
  end.

(** Tags the tokenizer reads back as they are: well-formed names,
    values without special characters, no attribute twice. *)
Definition wfTag (t : token) : bool :=
  match t with
  | TStart n a | TEmpty n a =>
      wfName n && forallb wfAttr a && bool_decide (NoDup a.*1)
  | TEnd n => wfName n
  | TText _ => false
  end.

(** The text ends here or goes on with a tag. *)
Definition startsTag (r : jsstring) : Prop := r = [] ∨ ∃ r', r = LT :: r'.

(** [s] splits into the tokens [ts]. *)
Definition tokens (s : jsstring) (ts : list token) : Prop :=
  tokenize (length s) s = Some ts.

(** A line break followed by [k] spaces of indentation. *)
Definition gap (k : nat) : jsstring := NL ++ replicate k SPACE.

(** The attributes and tags the writer prints for one entry, each tag
    with the indentation of its line. *)
Definition sampleAttrs (options : XPMOptions) (sample : Sample)
    : list (jsstring * jsstring) :=
  [(str "name", sample_name sample);
   (str "path", formatSamplePath options (sample_name sample))].

Definition keyRangeAttrs (entries : list (Z * Sample)) (index : nat) (midiNote : Z)
    : list (jsstring * jsstring) :=
  [(str "root", toString midiNote);
   (str "low", toString (lowKeyAt entries index midiNote));
   (str "high", toString (highKeyAt entries index midiNote))].

Definition velocityAttrs : list (jsstring * jsstring) :=
  [(str "low", str "1"); (str "high", str "127")].

Definition keygroupTags (options : XPMOptions) (entries : list (Z * Sample))
    (index : nat) (entry : Z * Sample) : list (nat * token) :=
  [(4%nat, TStart (str "Keygroup") [(str "index", toString (Z.of_nat index))]);
   (6%nat, TStart (str "Zone") []);
   (8%nat, TEmpty (str "Sample") (sampleAttrs options entry.2));
   (8%nat, TEmpty (str "KeyRange") (keyRangeAttrs entries index entry.1));
   (8%nat, TEmpty (str "VelocityRange") velocityAttrs);
   (6%nat, TEnd (str "Zone"));
   (4%nat, TEnd (str "Keygroup"))].

(** Lines of indented tags as text, and as the tokens they are read
    as (the white space before each tag is a text token). *)
Definition renderLines (l : list (nat * token)) : jsstring :=
  mjoin ((λ p, gap p.1 ++ renderTag p.2) <$> l).

Definition lineTokens (l : list (nat * token)) : list token :=
  mjoin ((λ p, [TText false; p.2]) <$> l).

(** The root start tag, the lines before and after the keygroups, and
    the whole document behind the declaration. *)
Definition programTag (options : XPMOptions) : token :=
  TStart (str "KeygroupProgram") [(str "name", opt_name options)].

Definition openingLines : list (nat * token) :=
  [(2%nat, TStart (str "Keygroups") [])].

Definition closingLines : list (nat * token) :=
  [(2%nat, TEnd (str "Keygroups")); (0%nat, TEnd (str "KeygroupProgram"))].

Definition documentBody (options : XPMOptions) (entries : list (Z * Sample)) : jsstring :=
  renderTag (programTag options)
  ++ renderLines openingLines
  ++ mjoin (imap (λ i e, renderLines (keygroupTags options entries i e)) entries)
  ++ renderLines closingLines.

(** Every sample name can stand between double quotes as it is. *)
Definition safeEntries (entries : list (Z * Sample)) : bool :=
  forallb (λ e, safe (sample_name e.2)) entries.

(** The tokens of the document and the element tree built from them. *)
Definition documentTokens (options : XPMOptions) (entries : list (Z * Sample))
    : list token :=
  programTag options
  :: lineTokens openingLines
  ++ mjoin (imap (λ i e, lineTokens (keygroupTags options entries i e)) entries)
  ++ lineTokens closingLines.

Definition keygroupNode (options : XPMOptions) (entries : list (Z * Sample))
    (index : nat) (entry : Z * Sample) : Node :=
  Element (str "Keygroup") [(str "index", toString (Z.of_nat index))]
    [ Element (str "Zone") []
        [ Element (str "Sample") (sampleAttrs options entry.2) [];
          Element (str "KeyRange") (keyRangeAttrs entries index entry.1) [];
          Element (str "VelocityRange") velocityAttrs [] ] ].

Definition documentTree (options : XPMOptions) (entries : list (Z * Sample)) : Node :=
  Element (str "KeygroupProgram") [(str "name", opt_name options)]
    [ Element (str "Keygroups") [] (imap (keygroupNode options entries) entries) ].

(** No carriage return, so that end-of-line handling changes nothing. *)
Definition noCR (s : jsstring) : bool := forallb (λ c, negb (code c =? 13)) s.

(** The pseudo-attributes of the declaration the writer prints. *)
Definition declarationAttrs : list (jsstring * jsstring) :=
  [(str "version", str "1.0"); (str "encoding", str "UTF-8")].

(** The keygroup record the reader is expected to return for entry
    [index] of the sorted key mapping. *)
Definition writtenZone (options : XPMOptions) (entries : list (Z * Sample))
    (index : nat) (entry : Z * Sample) : XPMZone :=
  {| z_sample := {| xs_name := sample_name entry.2;
                    xs_path := formatSamplePath options (sample_name entry.2) |};
     keyRange := {| kr_root := Some entry.1;
                    kr_low := Some (lowKeyAt entries index entry.1);
                    kr_high := Some (highKeyAt entries index entry.1) |};
     velocityRange := {| vr_low := Some 1; vr_high := Some 127 |} |}.

Definition writtenKeygroup (options : XPMOptions) (entries : list (Z * Sample))
    (index : nat) (entry : Z * Sample) : XPMKeygroup :=
  {| kg_index := Some (Z.of_nat index);
     zones := [writtenZone options entries index entry] |}.

(** Names that the writer can put between double quotes as they are. *)
Definition safeNames (options : XPMOptions) (keyMapping : gmap Z Sample) : Prop :=
  safe (opt_name options) = true ∧
  map_Forall (λ _ sample, safe (sample_name sample) = true) keyMapping.

(** Writing [keyMapping] and reading the text back returns an
    instrument program with one keygroup per mapped root note, in
    ascending order of the notes, each as the writer computed it. *)
Definition roundTrips (options : XPMOptions) (keyMapping : gmap Z Sample) : Prop :=
  ∃ program,
    parseXPMContent (generateInstrumentXPM options keyMapping) = Returned program ∧
    prog_isDrumkit program = false ∧
    prog_keygroups program
    = imap (writtenKeygroup options (sortedEntries keyMapping)) (sortedEntries keyMapping).

(** A program with two samples, and one whose sample name holds an
    ampersand. *)
Definition c2_options : XPMOptions :=
  {| opt_name := str "Grand Piano"; isDrumkit := false; includeSettings := true;
     useRelativePaths := true; outputDirectory := None |}.

Definition c2_mapping : gmap Z Sample :=
  <[72 := {| sample_id := str "s2"; sample_name := str "Piano_C5.wav" |}]>
  (<[60 := {| sample_id := str "s1"; sample_name := str "Piano_C4.wav" |}]> ∅).

Definition c2_unsafe_mapping : gmap Z Sample :=
  <[60 := {| sample_id := str "s1"; sample_name := str "Drum&Bass_C4.wav" |}]> ∅.

(** What one round of [openTags.forEach] appends. *)
Definition closers (tag : jsstring) (n : nat) : jsstring :=
  mjoin (replicate n (closer tag ++ NL)).

(** Start-tag matches in excess of closing tags. *)
Definition deficit (tag text : jsstring) : nat :=
  openCount tag text - closeCount tag text.

(** The text after the declaration and path repairs. *)
Definition repaired (xpmContent : jsstring) : jsstring :=
  fixSamples (length (fixDeclaration xpmContent)) (fixDeclaration xpmContent).

(** A keygroup with one closed and two unclosed zones, without
    declaration and without path attributes. *)
Definition c6_document : jsstring :=
  strq "<Keygroup index='0'>" ++ NL
  ++ strq "<Zone><Sample name='a.wav'></Sample></Zone>" ++ NL
  ++ strq "<Zone><Sample name='b.wav'></Sample>" ++ NL
  ++ strq "<Zone><Sample name='c.wav'></Sample>" ++ NL
  ++ str "</Keygroup>" ++ NL.

(** The promise made for a document with 3 opened and 1 closed Zone. *)
Definition reparseRule (xpmContent : jsstring) : Prop :=
  openCount (str "Zone") xpmContent = 3%nat →
  closeCount (str "Zone") xpmContent = 1%nat →
  zoneRecords (fixXPMContent xpmContent) = Some 3%nat.

End CodecTerms.
(** ** Terms of the further properties *)

Module AutoMapTerms.
Import Mapper MapperTerms.

Definition x1_samples : list MappedSample :=
  [ {| ms_id := str "g"; midiNote := 67; velocity := 127; rootPitch := str "G4" |};
    {| ms_id := str "c3"; midiNote := 48; velocity := 127; rootPitch := str "C3" |};
    {| ms_id := str "c4"; midiNote := 60; velocity := 127; rootPitch := str "C4" |} ].

(** Two samples on the same root. *)
Definition x2_samples : list MappedSample :=
  [ {| ms_id := str "a"; midiNote := 60; velocity := 127; rootPitch := str "C4" |};
    {| ms_id := str "b"; midiNote := 60; velocity := 127; rootPitch := str "C4" |} ].

End AutoMapTerms.

Module LayersMoreTerms.
Import Layers.

(** What the exporter leaves alone in a zone. *)
Definition zoneCore (zone : Zone) : jsstring * Z * Z * Z :=
  (file zone, root zone, low zone, high zone).

End LayersMoreTerms.

Module ValidatorMoreTerms.
Import Validator ValidatorTerms.

(** The layers that carry root key [k], and the root an issue of the
    velocity check speaks about. *)
Definition rootLayers (layers : list Layer) (k : Z) : list Layer :=
  filter (λ layer, rootKey layer = Some k) layers.

Definition issueRoot (i : Issue) : Z :=
  match i with
  | MissingVelocity k | OverlappingVelocity k => k
  | _ => 0
  end.

Definition lacksBound (layer : Layer) : Prop :=
  lowVelocity layer = None ∨ highVelocity layer = None.

Section ValidateMore.
Context {AudioBuffer : Type} (detectPitch : AudioBuffer → @PitchResult).

(** The layer made for a sample that reaches [layers.push]: with the
    detected pitch, else the pitch read from the file name. *)
Definition layerOf (smp : @Sample AudioBuffer) : option Layer :=
  match buffer smp with
  | None => None
  | Some buf =>
      match detectPitch buf with
      | Failed _ => None
      | Detected midiNote => Some (mkLayer (s_name smp) (Some midiNote))
      | Undetected =>
          Some (mkLayer (s_name smp)
                  (match extractPitchFromFilename (s_name smp) with
                   | Some p => if decide (p = 0) then None else Some p
                   | None => None
                   end))
      end
  end.

(** The root key under which a sample is checked, if any. *)
Definition sampleRoot (smp : @Sample AudioBuffer) : option Z :=
  layerOf smp ≫= rootKey.

End ValidateMore.

(** Two layers on different roots. *)
Definition x6_layers : list Layer :=
  [velLayer "a.wav" 60 0 127; velLayer "b.wav" 62 0 127].

End ValidatorMoreTerms.

Module ReaderTerms.
Import Xml Codec CodecTerms.

(** A slash or a backslash. *)
Definition isSeparator (c : ascii) : bool :=
  bool_decide (c = "/"%char) || bool_decide (c = "\"%char).

End ReaderTerms.

Module DecoderTerms.
Import Midi MidiTerms.

(** A byte with its high bit set: the quantity goes on. *)
Definition continues (b : Byte.byte) : bool := negb (Z.land (byteVal b) 0x80 =? 0).

(** The value of a variable-length quantity: seven bits per byte, most
    significant first. *)
Definition vlqValue (bs : list Byte.byte) : Z :=
  foldl (λ acc b, acc * 128 + Z.land (byteVal b) 0x7f) 0 bs.

(** The bytes of the chunk id "MThd". *)
Definition mthd : list Byte.byte := [Byte.x4d; Byte.x54; Byte.x68; Byte.x64].

(** A track record as [parseMIDIData] builds it from the events. *)
Definition derived (t : MIDITrack) : Prop :=
  notes t = extractNotes (events t) ∧ name t = extractTrackName (events t).

(** A note-on event that [extractNotes] takes up. *)
Definition isNoteOn (e : MIDIEvent) : bool :=
  match e with
  | NoteOn _ _ (Some _) (Some _) => true
  | _ => false
  end.

(** What the loop of [extractNotes] keeps true. *)
Record notesInv (seen : list MIDIEvent) (s : noteState) : Prop := {
  inv_count :
    (length (closed s) + length (activeNotes s) ≤ length (filter (λ e, isNoteOn e = true) seen))%nat;
  inv_closed :
    ∀ n, n ∈ closed s →
      (∃ dt, NoteOn dt (channel n) (Some (note n)) (Some (velocity n)) ∈ seen) ∧
      (Forall (λ e, 0 ≤ deltaTime e) seen → 0 ≤ time n ∧ 0 ≤ duration n);
  inv_active :
    ∀ x, x ∈ activeNotes s →
      (∃ dt, NoteOn dt (a_channel x.2) (Some (a_note x.2)) (Some (a_velocity x.2)) ∈ seen) ∧
      (Forall (λ e, 0 ≤ deltaTime e) seen → 0 ≤ a_time x.2 ≤ currentTime s);
  inv_time : Forall (λ e, 0 ≤ deltaTime e) seen → 0 ≤ currentTime s
}.

(** Number of bytes with the high bit set at the head of [bs]. *)
Fixpoint runLength (bs : list Byte.byte) : nat :=
  match bs with
  | b :: bs' => if continues b then S (runLength bs') else 0%nat
  | [] => 0%nat
  end.

(** Nowhere in [data] do four bytes with the high bit set follow one
    another: every variable-length quantity has at most four bytes. *)
Definition noLongRun (data : list Byte.byte) : Prop :=
  ∀ i, (runLength (drop i data) ≤ 3)%nat.

(** A track whose text event carries the length 0x8F 0xFF 0xFF 0xFF
    0x78, which is -8 as a 32-bit value. *)
Definition x14_track : list Byte.byte :=
  bytes [0x00; 0xff; 0x01; 0x8f; 0xff; 0xff; 0xff; 0x78].

(** The first bytes of a RIFF file. *)
Definition x12_file : list Byte.byte := bytes [0x52; 0x49; 0x46; 0x46; 0; 0; 0; 0].

End DecoderTerms.

(** ** Terms for the round trip of the auto-mapper's program *)

Module RoundTripTerms.
Import Codec.

(** The key mapping handed to the writer carries a program of the
    auto-mapper: its keys are the root notes of the keygroups, and under
    the root of a keygroup it holds the sample that the velocity layers
    of that keygroup name. *)
Definition carries (keyMapping : gmap Z Sample) (program : Mapper.Instrument) : Prop :=
  (∀ root, is_Some (keyMapping !! root)
           ↔ root ∈ Mapper.rootNote <$> Mapper.keygroups program) ∧
  (∀ kg layer, kg ∈ Mapper.keygroups program → layer ∈ Mapper.velocityLayers kg →
     ∃ sample, keyMapping !! Mapper.rootNote kg = Some sample ∧
               Mapper.sampleId layer = Some (sample_id sample)).

(** What a zone read back has in common with a velocity layer of
    keygroup [kg]: the key range, the sample, the upper velocity bound,
    and the lower velocity bound. *)
Definition sameKeyRange (kg : Mapper.Keygroup) (zone : XPMZone) : Prop :=
  kr_root (keyRange zone) = Some (Mapper.rootNote kg) ∧
  kr_low (keyRange zone) = Some (Mapper.lowNote kg) ∧
  kr_high (keyRange zone) = Some (Mapper.highNote kg).

Definition sameSample (keyMapping : gmap Z Sample) (kg : Mapper.Keygroup)
    (layer : Mapper.VelocityLayer) (zone : XPMZone) : Prop :=
  ∃ sample, keyMapping !! Mapper.rootNote kg = Some sample ∧
            Mapper.sampleId layer = Some (sample_id sample) ∧
            xs_name (z_sample zone) = sample_name sample.

Definition sameHighVelocity (layer : Mapper.VelocityLayer) (zone : XPMZone) : Prop :=
  vr_high (velocityRange zone) = Some (Mapper.highVelocity layer).

Definition sameLowVelocity (layer : Mapper.VelocityLayer) (zone : XPMZone) : Prop :=
  vr_low (velocityRange zone) = Some (Mapper.lowVelocity layer).

(** As many keygroups read back as the program has, in the same order,
    and for each keygroup as many zones as it has velocity layers, each
    zone agreeing with its layer in the sense of [zoneOk]. *)
Definition equivalentUpTo
    (zoneOk : Mapper.Keygroup → Mapper.VelocityLayer → XPMZone → Prop)
    (program : Mapper.Instrument) (read : XPMProgram) : Prop :=
  length (prog_keygroups read) = length (Mapper.keygroups program) ∧
  ∀ i kg, Mapper.keygroups program !! i = Some kg →
    ∃ kg', prog_keygroups read !! i = Some kg' ∧
           Forall2 (zoneOk kg) (Mapper.velocityLayers kg) (zones kg').

Definition readBack
    (zoneOk : Mapper.Keygroup → Mapper.VelocityLayer → XPMZone → Prop)
    (options : XPMOptions) (keyMapping : gmap Z Sample)
    (program : Mapper.Instrument) : Prop :=
  ∃ read,
    parseXPMContent (generateInstrumentXPM options keyMapping) = Returned read ∧
    prog_isDrumkit read = false ∧
    equivalentUpTo zoneOk program read.

(** The promise made: the same number of keygroups and zones, the same
    key-range and velocity-range bounds on every zone, and the same
    sample identities. *)
Definition roundTripRule (options : XPMOptions) (keyMapping : gmap Z Sample)
    (program : Mapper.Instrument) : Prop :=
  readBack (λ kg layer zone,
              sameKeyRange kg zone ∧ sameHighVelocity layer zone ∧
              sameLowVelocity layer zone ∧ sameSample keyMapping kg layer zone)
           options keyMapping program.

(** The same without the lower velocity bound. *)
Definition roundTripsButLowVelocity (options : XPMOptions) (keyMapping : gmap Z Sample)
    (program : Mapper.Instrument) : Prop :=
  readBack (λ kg layer zone,
              sameKeyRange kg zone ∧ sameHighVelocity layer zone ∧
              sameSample keyMapping kg layer zone)
           options keyMapping program.

(** The mapped samples behind the key mappings [c2_mapping] and
    [c2_unsafe_mapping], and one sample id handed in twice. *)
Definition c2_samples : list Mapper.MappedSample :=
  [ {| Mapper.ms_id := str "s2"; Mapper.midiNote := 72; Mapper.velocity := 127;
       Mapper.rootPitch := str "C5" |};
    {| Mapper.ms_id := str "s1"; Mapper.midiNote := 60; Mapper.velocity := 127;
       Mapper.rootPitch := str "C4" |} ].

Definition c2_unsafe_samples : list Mapper.MappedSample :=
  [ {| Mapper.ms_id := str "s1"; Mapper.midiNote := 60; Mapper.velocity := 127;
       Mapper.rootPitch := str "C4" |} ].

Definition c2_twice_samples : list Mapper.MappedSample :=
  c2_unsafe_samples ++ c2_unsafe_samples.

Definition c2_single_mapping : gmap Z Sample :=
  <[60 := {| sample_id := str "s1"; sample_name := str "Piano_C4.wav" |}]> ∅.

End RoundTripTerms.

(** ** Terms for the facts about the other writers and the pads *)

Module GeneratorTerms.
Import Xml Codec CodecTerms Generator Importer.

(** **** Drum kits *)

Definition padTags (options : XPMOptions) (index : nat) (sample : Sample)
    : list (nat * token) :=
  [(4%nat, TStart (str "Pad") [(str "padIndex", toString (Z.of_nat index))]);
   (6%nat, TEmpty (str "Sample") (sampleAttrs options sample))]
  ++ (if includeSettings options
      then [(6%nat, TEmpty (str "Settings")
                      [(str "level", str "1.0"); (str "pan", str "0.0");
                       (str "tune", str "0")])]
      else [])
  ++ [(4%nat, TEnd (str "Pad"))].

Definition drumLines (options : XPMOptions) (samples : list Sample)
    : list (nat * token) :=
  [(2%nat, TStart (str "Pads") [])]
  ++ mjoin (imap (padTags options) samples)
  ++ [(2%nat, TEnd (str "Pads")); (0%nat, TEnd (str "DrumProgram"))].

Definition drumTag (options : XPMOptions) : token :=
  TStart (str "DrumProgram") [(str "name", opt_name options)].

Definition padNode (options : XPMOptions) (index : nat) (sample : Sample) : Node :=
  Element (str "Pad") [(str "padIndex", toString (Z.of_nat index))]
    (Element (str "Sample") (sampleAttrs options sample) []
     :: (if includeSettings options
         then [Element (str "Settings")
                 [(str "level", str "1.0"); (str "pan", str "0.0");
                  (str "tune", str "0")] []]
         else [])).

Definition drumTree (options : XPMOptions) (samples : list Sample) : Node :=
  Element (str "DrumProgram") [(str "name", opt_name options)]
    [ Element (str "Pads") [] (imap (padNode options) samples) ].

(** The pad the reader is expected to return for sample [index]. *)
Definition writtenPad (parseFloat : jsstring → float) (options : XPMOptions)
    (index : nat) (sample : Sample) : XPMPad :=
  {| pad_index := Some (Z.of_nat index);
     pad_sample := {| xs_name := sample_name sample;
                      xs_path := formatSamplePath options (sample_name sample) |};
     settings :=
       if includeSettings options
       then Some {| level := parseFloat (str "1.0"); pan := parseFloat (str "0.0");
                    tune := Some 0 |}
       else None |}.

(** **** Velocity-layered instruments *)

Definition rangeAttrs (root low high : Z) : list (jsstring * jsstring) :=
  [(str "root", toString root); (str "low", toString low); (str "high", toString high)].

Definition velAttrs (low high : Z) : list (jsstring * jsstring) :=
  [(str "low", toString low); (str "high", toString high)].

Definition zoneTags (options : XPMOptions) (midiNote lowKey highKey : Z) (count : nat)
    (velIndex : nat) (sample : Sample) : list (nat * token) :=
  [(6%nat, TStart (str "Zone") []);
   (8%nat, TEmpty (str "Sample") (sampleAttrs options sample));
   (8%nat, TEmpty (str "KeyRange") (rangeAttrs midiNote lowKey highKey));
   (8%nat, TEmpty (str "VelocityRange")
             (velAttrs (lowVel count velIndex) (highVel count velIndex)));
   (6%nat, TEnd (str "Zone"))].

Definition layeredTags (options : XPMOptions) (entries : list (Z * list Sample))
    (index : nat) (entry : Z * list Sample) : list (nat * token) :=
  match entry.2 with
  | [] => []
  | _ :: _ =>
      [(4%nat, TStart (str "Keygroup") [(str "index", toString (Z.of_nat index))])]
      ++ mjoin (imap (zoneTags options entry.1 (lowKeyOf entries index entry.1)
                        (highKeyOf entries index entry.1) (length entry.2)) entry.2)
      ++ [(4%nat, TEnd (str "Keygroup"))]
  end.

Definition layeredLines (options : XPMOptions) (entries : list (Z * list Sample))
    : list (nat * token) :=
  openingLines ++ mjoin (imap (layeredTags options entries) entries) ++ closingLines.

Definition zoneNode (options : XPMOptions) (midiNote lowKey highKey : Z) (count : nat)
    (velIndex : nat) (sample : Sample) : Node :=
  Element (str "Zone") []
    [ Element (str "Sample") (sampleAttrs options sample) [];
      Element (str "KeyRange") (rangeAttrs midiNote lowKey highKey) [];
      Element (str "VelocityRange")
        (velAttrs (lowVel count velIndex) (highVel count velIndex)) [] ].

Definition layeredNodes (options : XPMOptions) (entries : list (Z * list Sample))
    (index : nat) (entry : Z * list Sample) : list Node :=
  match entry.2 with
  | [] => []
  | _ :: _ =>
      [ Element (str "Keygroup") [(str "index", toString (Z.of_nat index))]
          (imap (zoneNode options entry.1 (lowKeyOf entries index entry.1)
                   (highKeyOf entries index entry.1) (length entry.2)) entry.2) ]
  end.

Definition layeredTree (options : XPMOptions) (entries : list (Z * list Sample)) : Node :=
  Element (str "KeygroupProgram") [(str "name", opt_name options)]
    [ Element (str "Keygroups") [] (mjoin (imap (layeredNodes options entries) entries)) ].

(** The zone and the keygroup the reader is expected to return. *)
Definition writtenLayer (options : XPMOptions) (midiNote lowKey highKey : Z) (count : nat)
    (velIndex : nat) (sample : Sample) : XPMZone :=
  {| z_sample := {| xs_name := sample_name sample;
                    xs_path := formatSamplePath options (sample_name sample) |};
     keyRange := {| kr_root := Some midiNote; kr_low := Some lowKey;
                    kr_high := Some highKey |};
     velocityRange := {| vr_low := Some (lowVel count velIndex);
                         vr_high := Some (highVel count velIndex) |} |}.

Definition writtenLayered (options : XPMOptions) (entries : list (Z * list Sample))
    (index : nat) (entry : Z * list Sample) : list XPMKeygroup :=
  match entry.2 with
  | [] => []
  | _ :: _ =>
      [ {| kg_index := Some (Z.of_nat index);
           zones := imap (writtenLayer options entry.1 (lowKeyOf entries index entry.1)
                            (highKeyOf entries index entry.1) (length entry.2)) entry.2 |} ]
  end.

(** The velocity range of a zone read back (0 stands for NaN). *)
Definition zoneVelocity (zone : XPMZone) : Z * Z :=
  (default 0 (vr_low (velocityRange zone)), default 0 (vr_high (velocityRange zone))).

(** The velocity ranges written for [count] samples on one note. *)
Definition layerVelocities (count : nat) : list (Z * Z) :=
  (λ velIndex, (lowVel count velIndex, highVel count velIndex)) <$> seq 0 count.

(** A drum kit of two samples with settings, and a layered instrument
    with two samples on C4 and none on C5. *)
Definition x15_options : XPMOptions :=
  {| opt_name := str "Kit"; isDrumkit := true; includeSettings := true;
     useRelativePaths := true; outputDirectory := None |}.

Definition x15_samples : list Sample :=
  [ {| sample_id := str "k"; sample_name := str "Kick.wav" |};
    {| sample_id := str "s"; sample_name := str "Snare.wav" |} ].

Definition x16_mapping : gmap Z (list Sample) :=
  <[72 := []]>
  (<[60 := [ {| sample_id := str "a"; sample_name := str "Piano_C4_soft.wav" |};
             {| sample_id := str "b"; sample_name := str "Piano_C4_hard.wav" |} ]]> ∅).

End GeneratorTerms.

(** ** Terms for the facts about the repair of written documents *)

Module RepairTerms.
Import Xml Codec CodecTerms.

(** Text without an angle bracket. *)
Definition plainChar (c : ascii) : bool :=
  negb (bool_decide (c = LT)) && negb (bool_decide (c = GT)).

Definition plain (s : jsstring) : bool := forallb plainChar s.

(** A piece of markup: text without angle brackets, then a tag whose
    body (the text between its angle brackets) holds none either. *)
Definition segment : Type := jsstring * jsstring.

Definition renderSegment (g : segment) : jsstring := g.1 ++ LT :: g.2 ++ [GT].

Definition renderSegments (gs : list segment) : jsstring := mjoin (renderSegment <$> gs).

Definition plainSegment (g : segment) : bool := plain g.1 && plain g.2.

(** The body of a tag as the writer prints it. *)
Definition tagBody (t : token) : jsstring :=
  match t with
  | TStart n a => n ++ renderAttrs a
  | TEmpty n a => n ++ renderAttrs a ++ [SLASH]
  | TEnd n => SLASH :: n
  | TText _ => []
  end.

Definition isTag (t : token) : bool :=
  match t with TText _ => false | _ => true end.

Definition lineSegments (ls : list (nat * token)) : list segment :=
  (λ p, (gap p.1, tagBody p.2)) <$> ls.

(** The declaration as a segment. *)
Definition declarationSegment : segment :=
  ([], str "?xml" ++ renderAttrs declarationAttrs ++ str "?").

(** A segment is a match of the start-tag pattern of [tag], or is the
    closing tag of [tag]. *)
Definition opens (tag : jsstring) (g : segment) : bool := startsWith tag g.2.

Definition closes (tag : jsstring) (g : segment) : bool :=
  bool_decide (g.2 = SLASH :: tag).

Definition countb {A} (p : A → bool) (l : list A) : nat :=
  length (filter (λ x, p x = true) l).

(** A Sample tag that already carries a path. *)
Definition hasPath (g : segment) : bool :=
  negb (startsWith (str "Sample") g.2) || contains (str "path=") (drop 6 g.2).

(** Names that hold no control character, double quote, ampersand or
    angle bracket. *)
Definition plainText (s : jsstring) : bool := safe s && plain s.

Definition plainNames (options : XPMOptions) (keyMapping : gmap Z Sample) : Prop :=
  plainText (opt_name options) = true ∧
  map_Forall (λ _ sample, plainText (sample_name sample) = true) keyMapping.

(** Tags made of plain names and values. *)
Definition plainTag (t : token) : bool :=
  match t with
  | TStart n a | TEmpty n a => plain n && forallb (λ x, plain x.1 && plain x.2) a
  | TEnd n => plain n
  | TText _ => false
  end.

(** The document of [generateInstrumentXPM] as segments. *)
Definition instrumentLines (options : XPMOptions) (entries : list (Z * Sample))
    : list (nat * token) :=
  openingLines ++ mjoin (imap (keygroupTags options entries) entries) ++ closingLines.

Definition documentSegments (root : token) (ls : list (nat * token)) : list segment :=
  declarationSegment :: (NL, tagBody root) :: lineSegments ls.

(** The segments of [n] closing tags appended to text that ends with
    [tail]. *)
Definition closerSegments (tail tag : jsstring) (n : nat) : list segment :=
  match n with
  | O => []
  | S k => (tail, SLASH :: tag) :: replicate k (NL, SLASH :: tag)
  end.

(** A match of the scan reported behind the text [w]. *)
Definition prepend (w : jsstring) (m : jsstring * jsstring * jsstring)
    : jsstring * jsstring * jsstring :=
  (w ++ m.1.1, m.1.2, m.2).

End RepairTerms.

(** ** Terms for the facts about the repair pass *)

Module RepairPassTerms.
Import Xml Codec CodecTerms RepairTerms.

(** The element name of a tag: its text up to the first white space or
    slash. *)
Definition bodyName (body : jsstring) : jsstring :=
  takeWhile (λ c, negb (isSpace c) && negb (bool_decide (c = SLASH))) body.

(** A start tag of the element [tag] that is not an empty-element
    tag. *)
Definition startTag (tag : jsstring) (g : segment) : bool :=
  bool_decide (bodyName g.2 = tag) && negb (bool_decide (last g.2 = Some SLASH)).

(** A closing tag of the element [tag], with or without white space
    behind the name. *)
Definition endTag (tag : jsstring) (g : segment) : bool :=
  match g.2 with
  | c :: rest =>
      bool_decide (c = SLASH) && bool_decide (bodyName rest = tag)
      && forallb isSpace (drop (length tag) rest)
  | [] => false
  end.

(** Every tag that begins with the characters of [tag] is a start tag
    of that element, and every closing tag of the element is written
    without white space. *)
Definition faithfulFor (tag : jsstring) (gs : list segment) : bool :=
  forallb (λ g, implb (opens tag g) (startTag tag g)
                && implb (endTag tag g) (closes tag g)) gs.

(** What the callback of the path repair adds to a tag whose text after
    the characters of Sample is [attributes]. *)
Definition pathText (attributes : jsstring) : jsstring :=
  if contains (str "path=") attributes then []
  else match nameMatch attributes with
       | Some name => strq " path='" ++ name ++ [QUOT]
       | None => []
       end.

Definition repairSegment (g : segment) : segment :=
  if opens (str "Sample") g then (g.1, g.2 ++ pathText (drop 6 g.2)) else g.

(** A tag begins with the characters of the declaration. *)
Definition declared (gs : list segment) : bool := existsb (opens (str "?xml")) gs.

Definition header (gs : list segment) : jsstring :=
  if declared gs then [] else xmlDeclaration.

(** Closing tags, one per line, and the closing tags appended for the
    names [tags] when [count] tells how many each one gets. *)
Definition closeText (cs : list jsstring) : jsstring :=
  mjoin ((λ tag, closer tag ++ NL) <$> cs).

Definition appended (count : jsstring → nat) (tags : list jsstring) : jsstring :=
  mjoin ((λ tag, closers tag (count tag)) <$> tags).

(** Tags that match the start-tag pattern of [tag] in excess of its
    closing tags, and start tags of the element in excess of its
    closing tags. *)
Definition matchDeficit (gs : list segment) (tag : jsstring) : nat :=
  countb (opens tag) gs - countb (closes tag) gs.

Definition elementDeficit (gs : list segment) (tag : jsstring) : nat :=
  countb (startTag tag) gs - countb (endTag tag) gs.

(** Names made of letters. *)
Definition letters (tag : jsstring) : bool :=
  forallb isLetter tag && negb (bool_decide (tag = [])).

(** Closing tags as segments, behind text that ends with [tail]. *)
Definition closeSegments (tail : jsstring) (cs : list jsstring) : list segment :=
  match cs with
  | [] => []
  | tag :: cs' => (tail, SLASH :: tag) :: ((λ tag, (NL, SLASH :: tag)) <$> cs')
  end.

Definition endTail (tail : jsstring) (cs : list jsstring) : jsstring :=
  match cs with [] => tail | _ :: _ => NL end.

(** Segments and tail of the text [w ++ renderSegments gs ++ tail]. *)
Definition shiftGap (w : jsstring) (gs : list segment) (tail : jsstring)
    : list segment * jsstring :=
  match gs with
  | [] => ([], w ++ tail)
  | g :: gs' => ((w ++ g.1, g.2) :: gs', tail)
  end.

(** The promise "a declaration is prepended when none is present",
    where a declaration is what the reader takes for one; the promise
    "as many closing tags are appended for each known name as start
    tags of the element are left open"; and the promise "the path
    attribute is filled in from the name attribute". *)
Definition hasDeclaration (text : jsstring) : bool :=
  startsWith (str "<?xml") text && bool_decide (isSpace <$> text !! 5%nat = Some true).

Definition declarationRule (text : jsstring) : Prop :=
  hasDeclaration text = false → fixDeclaration text = xmlDeclaration ++ text.

Definition balanceRule (gs : list segment) (tail : jsstring) : Prop :=
  fixXPMContent (renderSegments gs ++ tail)
  = repaired (renderSegments gs ++ tail) ++ appended (elementDeficit gs) openTags.

Definition withPath (t : token) (path : jsstring) : token :=
  match t with
  | TStart n a => TStart n (a ++ [(str "path", path)])
  | TEmpty n a => TEmpty n (a ++ [(str "path", path)])
  | _ => t
  end.

Definition pathRule (t : token) (name : jsstring) : Prop :=
  fixSamples (length (renderTag t)) (renderTag t) = renderTag (withPath t name).

(** The segments of [c6_document]. *)
Definition c6_segments : list segment :=
  [ ([], strq "Keygroup index='0'");
    (NL, str "Zone"); ([], strq "Sample name='a.wav'"); ([], str "/Sample"); ([], str "/Zone");
    (NL, str "Zone"); ([], strq "Sample name='b.wav'"); ([], str "/Sample");
    (NL, str "Zone"); ([], strq "Sample name='c.wav'"); ([], str "/Sample");
    (NL, str "/Keygroup") ].

(** A well-formed text in which the name of one element begins with
    the name of another, and one with an empty-element tag. *)
Definition c6_nested : list segment :=
  [ ([], str "Keygroups"); (NL, strq "Keygroup index='0'"); (NL, str "/Keygroup");
    (NL, str "/Keygroups") ].

Definition c6_empty : list segment :=
  [ ([], str "Zone"); ([], strq "Sample name='a.wav'/"); ([], str "/Zone") ].

(** A closing tag with white space behind the name, and a text that
    begins with a processing instruction. *)
Definition c6_spaced : list segment := [ ([], str "Zone"); ([], str "/Zone ") ].

Definition c6_styled : jsstring :=
  strq "<?xml-stylesheet href='a.css'?><Zone></Zone>" ++ NL.

(** Sample start tags: with a right angle bracket in the name, with an
    empty name, with a file name before the name, and with an attribute
    whose own name ends like that of the path. *)
Definition c6_tags : list (token * jsstring) :=
  [ (TStart (str "Sample") [(str "name", str "a>b.wav")], str "a>b.wav");
    (TStart (str "Sample") [(str "name", [])], []);
    (TStart (str "Sample") [(str "filename", str "x.wav"); (str "name", str "a.wav")],
     str "a.wav");
    (TStart (str "Sample") [(str "name", str "a.wav"); (str "xpath", str "p")],
     str "a.wav") ].

End RepairPassTerms.

(** ** Terms for the facts about the sample organisation *)

Module OrganizerTerms.
Import Xml Codec Generator Organizer.

(** The note name and the key under which [organizeVelocityLayers]
    files a sample, and the velocity hint it sorts by. *)
Definition noteOf (sample : Sample) : option jsstring :=
  extractNoteFromFilename (sample_name sample).

Definition pitchOf (sample : Sample) : option Z := noteNameToMidi <$> noteOf sample.

Definition velocityHint (sample : Sample) : Z :=
  extractVelocityFromFilename (sample_name sample).

(** A note name with a flat, as [extractNoteFromFilename] returns it:
    a letter, the capital B, a digit. *)
Definition isFlat (noteName : jsstring) : bool :=
  bool_decide (noteName !! 1%nat = Some "B"%char) && bool_decide (length noteName = 3%nat).

(** The octave digit of a note name. *)
Definition octaveOf (noteName : jsstring) : Z :=
  Validator.digitVal (default "0"%char (last noteName)).

(** A C and a D flat of the same octave. *)
Definition x18_samples : list Sample :=
  [ {| sample_id := str "a"; sample_name := str "Piano_C3.wav" |};
    {| sample_id := str "b"; sample_name := str "Piano_Db3.wav" |} ].

(** Samples on C4, twice, and one without a note name. *)
Definition x19_samples : list Sample :=
  [ {| sample_id := str "a"; sample_name := str "Piano_C4_soft.wav" |};
    {| sample_id := str "b"; sample_name := str "Piano_C4_hard.wav" |};
    {| sample_id := str "c"; sample_name := str "Noise.wav" |} ].

Definition noFixes : XPMFixOptions :=
  {| autoMapSamples := false; detectVelocityLayers := false; optimizeKeyRanges := false;
     validateSamples := false |}.

End OrganizerTerms.


(** ** Terms for the facts about the writer, the exports and the loader *)

Module WriterTerms.
Import Xml Codec CodecTerms Writer.

(** Text that can stand between two tags as it is. *)
Definition charData (t : jsstring) : bool :=
  safe t && negb (contains (str "]]>") t).

(** The token a text between two tags is read as: none when empty. *)
Definition textTokens (t : jsstring) : list token :=
  match t with
  | [] => []
  | _ :: _ => [TText (negb (forallb isSpace t))]
  end.

(** An empty-element tag with a space before the slash, as [XPMWriter]
    prints it. *)
Definition spacedTag (n : jsstring) (a : list (jsstring * jsstring)) : jsstring :=
  LT :: n ++ renderAttrs a ++ [SPACE; SLASH; GT].

(** The lines of empty elements inside the container element: tag name
    and attributes of each. *)
Definition item : Type := jsstring * list (jsstring * jsstring).

Definition wfItem (it : item) : bool := wfTag (TEmpty it.1 it.2).

Definition renderItems (items : list item) : jsstring :=
  mjoin ((λ it, gap 4 ++ spacedTag it.1 it.2) <$> items).

Definition itemTokens (items : list item) : list token :=
  mjoin ((λ it, [TText false; TEmpty it.1 it.2]) <$> items).

Definition itemNode (it : item) : Node := Element it.1 it.2 [].

Definition programAttrs (name type : jsstring) : list (jsstring * jsstring) :=
  [(str "name", name); (str "type", type)].

(** The document of [XPMWriter] behind the declaration: the program
    element with its information block and one container element. *)
Definition writtenBody (created name type container : jsstring) (items : list item)
    : jsstring :=
  renderTag (TStart (str "PluginProgram") (programAttrs name type))
  ++ gap 2 ++ renderTag (TStart (str "ProgramInfo") [])
  ++ gap 4 ++ renderTag (TStart (str "Name") []) ++ name ++ renderTag (TEnd (str "Name"))
  ++ gap 4 ++ renderTag (TStart (str "Type") []) ++ type ++ renderTag (TEnd (str "Type"))
  ++ gap 4 ++ renderTag (TStart (str "Created") []) ++ created
  ++ renderTag (TEnd (str "Created"))
  ++ gap 2 ++ renderTag (TEnd (str "ProgramInfo"))
  ++ gap 2 ++ renderTag (TStart container [])
  ++ renderItems items
  ++ gap 2 ++ renderTag (TEnd container)
  ++ gap 0 ++ renderTag (TEnd (str "PluginProgram")).

Definition bodyTokens (created name type container : jsstring) (items : list item)
    : list token :=
  [TStart (str "PluginProgram") (programAttrs name type);
   TText false; TStart (str "ProgramInfo") [];
   TText false; TStart (str "Name") []]
  ++ textTokens name
  ++ [TEnd (str "Name"); TText false; TStart (str "Type") []]
  ++ textTokens type
  ++ [TEnd (str "Type"); TText false; TStart (str "Created") []]
  ++ textTokens created
  ++ [TEnd (str "Created"); TText false; TEnd (str "ProgramInfo");
      TText false; TStart container []]
  ++ itemTokens items
  ++ [TText false; TEnd container; TText false; TEnd (str "PluginProgram")].

Definition infoNode : Node :=
  Element (str "ProgramInfo") []
    [Element (str "Name") [] []; Element (str "Type") [] [];
     Element (str "Created") [] []].

Definition writtenTree (name type container : jsstring) (items : list item) : Node :=
  Element (str "PluginProgram") (programAttrs name type)
    [infoNode; Element container [] (itemNode <$> items)].

Definition zoneItem (zone : Layers.Zone) : item :=
  (str "Zone",
   [(str "file", Layers.file zone);
    (str "root", toString (Layers.root zone));
    (str "low", toString (Layers.low zone));
    (str "high", toString (Layers.high zone));
    (str "vel_low", toString (Layers.velLow zone));
    (str "vel_high", toString (Layers.velHigh zone))]).

Definition padItem (getSample : jsstring → option Sample)
    (assignment : jsstring * jsstring) : option item :=
  sample ← getSample assignment.2;
  Some (str "Pad", [(str "id", assignment.1); (str "sample", sample_name sample)]).

(** The names of the fixed elements of the document. *)
Definition fixedNames : list jsstring :=
  [str "PluginProgram"; str "ProgramInfo"; str "Name"; str "Type"; str "Created"].

(** A program type the importer takes for a drum kit. *)
Definition readAsDrum (t : ProgramType) : bool :=
  match t with
  | drumkit => true
  | keygroup => false
  end.

(** What [XPMImporter] makes of a document of [XPMWriter]. *)
Definition emptyProgram (name : jsstring) (drum : bool) : Importer.XPMProgram :=
  {| Importer.name := orElse (Some name) (str "Imported Program");
     Importer.isDrum := drum;
     Importer.samples := [];
     Importer.keygroups :=
       if drum then None else Some [ {| kg_index := Some 0; zones := [] |} ];
     Importer.pads := if drum then Some [] else None |}.

(** An instrument with two keygroups, the sample store that knows
    their samples, and a time stamp. *)
Definition x22_instrument : Mapper.Instrument :=
  (Mapper.autoMapSamples
     {| Mapper.inst_id := str "instrument_1"; Mapper.inst_name := str "Default Instrument";
        Mapper.keygroups := [] |}
     [ {| Mapper.ms_id := str "a"; Mapper.midiNote := 48; Mapper.velocity := 127;
          Mapper.rootPitch := str "C3" |};
       {| Mapper.ms_id := str "b"; Mapper.midiNote := 60; Mapper.velocity := 127;
          Mapper.rootPitch := str "C4" |} ]).1.

Definition x22_getSample (sampleId : jsstring) : option Sample :=
  if decide (sampleId = str "a")
  then Some {| sample_id := str "a"; sample_name := str "Piano_C3.wav" |}
  else if decide (sampleId = str "b")
  then Some {| sample_id := str "b"; sample_name := str "Piano_C4.wav" |}
  else None.

Definition x22_created : jsstring := str "2024-05-01T10:20:30.000Z".

Definition x23_pads : list (jsstring * jsstring) :=
  [(str "pad_1", str "a"); (str "pad_2", str "missing"); (str "pad_3", str "b")].

End WriterTerms.

Module ExporterTerms.
Import Xml Codec Layers Exporter.

(** The velocity hint in the file name of a zone. *)
Definition hint (zone : Zone) : Z := extractVelocityFromFilename (file zone).

End ExporterTerms.

Module SampleMapperTerms.
Import Xml Codec Mapper SampleMapper.


End SampleMapperTerms.

Module ProgramLoaderTerms.
Import Xml Codec ProgramLoader.

(** The lower-cased file name under which a program sample is looked
    up. *)
Definition lookupName (xpmSample : XPMSample) : jsstring :=
  Organizer.toLowerCase (extractFilenameFromPath (xs_path xpmSample)).

End ProgramLoaderTerms.

Module MetaTerms.
Import Midi.

(** The track name an event sets, and the time signature it sets:
    empty names and signatures with a zero are passed over. *)
Definition nameOf (event : MIDIEvent) : option jsstring :=
  match event with
  | MetaTrackName _ (c :: text) => Some (c :: text)
  | _ => None
  end.

Definition signatureOf (event : MIDIEvent) : option TimeSignature :=
  match event with
  | MetaTimeSignature _ (Some n) (Some d) =>
      if decide (n = 0 ∨ d = 0) then None
      else Some {| numerator := n; denominator := d |}
  | _ => None
  end.

(** Two tracks with a name each. *)
Definition x26_data : MIDIData :=
  {| header := {| format := 1; numTracks := 2; ticksPerBeat := 480 |};
     tracks :=
       [ {| name := Some (str "Piano");
            events := [MetaTrackName 0 (str "Piano"); MetaTrackName 0 (str "Left hand");
                       MetaEndOfTrack 0];
            notes := [] |};
         {| name := Some (str "Bass");
            events := [MetaTrackName 0 (str "Bass"); MetaEndOfTrack 0];
            notes := [] |} ] |}.

End MetaTerms.

Module ScannerTerms.
Import Xml Codec Scanner.

(** The prefix of a sample, and the prefixes that make the grouping
    fail. *)
Definition groupKey (sample : Sample) : jsstring := prefixOf (sample_name sample).

Definition inherited (sample : Sample) : Prop := groupKey sample ∈ objectPrototype.

#[global] Instance inherited_dec sample : Decision (inherited sample).
Proof. unfold inherited. apply _. Defined.


Definition drumCount (samples : list Sample) : nat :=
  length (filter (λ sample, hasDrumKeyword sample = true) samples).


(** The comparison of [classifyInstrumentType] agrees with the exact
    one for [n] samples, whatever the number of drum names. *)
Definition thresholdExact (n : nat) : bool :=
  forallb (λ d, Bool.eqb
                  (PrimFloat.ltb (num (Z.of_nat n) * 0x1.3333333333333p-2)%float
                                 (num (Z.of_nat d)))
                  (3 * Z.of_nat n <? 10 * Z.of_nat d))
          (seq 0 (S n)).

Definition x28_samples : list Sample :=
  [ {| sample_id := str "a"; sample_name := str "Piano_C3.wav" |};
    {| sample_id := str "b"; sample_name := str "toString_1.wav" |} ].

Definition x29_samples : list Sample :=
  [ {| sample_id := str "a"; sample_name := str "Kit_Kick.wav" |};
    {| sample_id := str "b"; sample_name := str "Kit_Bass.wav" |};
    {| sample_id := str "c"; sample_name := str "Kit_Lead.wav" |} ].

End ScannerTerms.

(** * Part III: facts *)

(** ** Tilings cover their interval exactly once *)

Section TilingFacts.

Lemma tiles_bounds lo hi rs i r :
  tiles lo hi rs → rs !! i = Some r → lo ≤ r.1 ∧ r.1 ≤ r.2 ∧ r.2 ≤ hi.
Proof.
  intros Ht. revert i r.
  induction Ht as [lo hi Hle|lo b hi rest Hle Ht IH]; intros i r Hi.
  - destruct i; simplify_eq/=. lia.
  - destruct i as [|i]; simplify_eq/=.
    + inversion Ht; subst; [lia|].
      destruct (IH 0%nat _ eq_refl); simpl in *; lia.
    + destruct (IH i _ Hi). lia.
Qed.

Lemma tiles_cover lo hi rs k :
  tiles lo hi rs → lo ≤ k ≤ hi → ∃ i r, rs !! i = Some r ∧ inRange k r.
Proof.
  induction 1 as [lo hi Hle|lo b hi rest Hle Ht IH]; intros Hk.
  - by exists 0%nat, (lo, hi).
  - destruct (decide (k ≤ b)) as [Hkb|Hkb].
    + exists 0%nat, (lo, b). split; [done|]. unfold inRange; simpl; lia.
    + destruct IH as (i & r & Hi & Hr); [lia|]. by exists (S i), r.
Qed.

Lemma tiles_disjoint lo hi rs k i j r r' :
  tiles lo hi rs → rs !! i = Some r → rs !! j = Some r' →
  inRange k r → inRange k r' → i = j.
Proof.
  intros Ht. revert i j.
  induction Ht as [lo hi Hle|lo b hi rest Hle Ht IH]; intros i j Hi Hj Hr Hr'.
  { destruct i, j; simplify_eq/=; done. }
  unfold inRange in *.
  destruct i as [|i], j as [|j]; simplify_eq/=; [done| | |].
  - destruct (tiles_bounds _ _ _ _ _ Ht Hj). lia.
  - destruct (tiles_bounds _ _ _ _ _ Ht Hi). lia.
  - f_equal. by eapply IH.
Qed.

(** Index-wise description of a tiling, as produced by a loop. *)
Lemma tiles_intro lo hi rs :
  rs ≠ [] →
  (∀ r, rs !! 0%nat = Some r → r.1 = lo) →
  (∀ i r, rs !! i = Some r → r.1 ≤ r.2) →
  (∀ i r r', rs !! i = Some r → rs !! S i = Some r' → r'.1 = r.2 + 1) →
  (∀ r, rs !! (length rs - 1)%nat = Some r → r.2 = hi) →
  tiles lo hi rs.
Proof.
  revert lo. induction rs as [|[a b] rest IH]; intros lo Hne H0 Hle Hnext Hlast; [done|].
  pose proof (H0 _ eq_refl) as Ha. pose proof (Hle 0%nat _ eq_refl) as Hab.
  simpl in Ha, Hab. subst a.
  destruct rest as [|r0 rest'].
  { pose proof (Hlast _ eq_refl) as Hb. simpl in Hb. subst b. by constructor. }
  constructor; [done|]. apply IH; [done| | | |].
  - intros r Hr. exact (Hnext 0%nat _ _ eq_refl Hr).
  - intros i r Hr. exact (Hle (S i) _ Hr).
  - intros i r r' Hr Hr'. exact (Hnext (S i) _ _ Hr Hr').
  - intros r Hr. apply Hlast. simpl in *. by rewrite Nat.sub_0_r in Hr.
Qed.

(** Ranges that follow one another without a gap reach every key
    between the start of the first and the end of the last. *)
Lemma chain_cover (rs : list (Z * Z)) hi k :
  (∀ i r r', rs !! i = Some r → rs !! S i = Some r' → r'.1 = r.2 + 1) →
  (∀ r, rs !! (length rs - 1)%nat = Some r → r.2 = hi) →
  k ≤ hi →
  ∀ r, rs !! 0%nat = Some r → r.1 ≤ k → ∃ i r', rs !! i = Some r' ∧ inRange k r'.
Proof.
  intros Hnext Hlast Hk.
  induction rs as [|r0 rest IH]; intros r Hr Hlo; [done|].
  injection Hr as <-.
  destruct (decide (k ≤ r0.2)) as [Hin|Hout].
  { by exists 0%nat, r0. }
  destruct rest as [|r1 rest'].
  { pose proof (Hlast _ eq_refl). lia. }
  destruct (IH) with (r := r1) as (i & r' & Hi & Hr').
  - intros i r r' Hi Hi'. exact (Hnext (S i) _ _ Hi Hi').
  - intros r Hr. apply Hlast. simpl in *. by rewrite Nat.sub_0_r in Hr.
  - done.
  - pose proof (Hnext 0%nat _ _ eq_refl eq_refl). lia.
  - by exists (S i), r'.
Qed.

End TilingFacts.

(** ** Facts about the stable sort *)

Section SortFacts.
Context {A : Type} (key : A → Z).

Lemma insert_by_perm x (l : list A) : insert_by key x l ≡ₚ x :: l.
Proof.
  induction l as [|y l IH]; simpl; [done|].
  destruct (key x <=? key y); [done|]. by rewrite IH, Permutation_swap.
Qed.

Lemma sort_by_perm (l : list A) : sort_by key l ≡ₚ l.
Proof.
  induction l as [|x l IH]; [done|].
  unfold sort_by in *. simpl. by rewrite insert_by_perm, IH.
Qed.

Lemma sort_by_length (l : list A) : length (sort_by key l) = length l.
Proof. by rewrite sort_by_perm. Qed.

Lemma insert_by_sorted x (l : list A) :
  StronglySorted (λ a b, key a ≤ key b) l →
  StronglySorted (λ a b, key a ≤ key b) (insert_by key x l).
Proof.
  induction 1 as [|y l Hl IH Hy]; simpl.
  { repeat constructor. }
  destruct (key x <=? key y) eqn:E.
  - apply Z.leb_le in E. constructor; [by constructor|].
    constructor; [done|]. eapply Forall_impl; [exact Hy|]. simpl. intros; lia.
  - apply Z.leb_gt in E. constructor; [done|].
    rewrite insert_by_perm. constructor; [lia|done].
Qed.

Lemma sort_by_ascending (l : list A) :
  StronglySorted (λ a b, key a ≤ key b) (sort_by key l).
Proof.
  induction l as [|x l IH]; [constructor|].
  unfold sort_by in *. simpl. by apply insert_by_sorted.
Qed.

(** Sorting a list whose keys already ascend leaves it unchanged. *)
Lemma sort_by_sorted (l : list A) :
  StronglySorted (λ a b, key a < key b) l → sort_by key l = l.
Proof.
  induction 1 as [|x l Hl IH Hx]; [done|].
  unfold sort_by in *. simpl. rewrite IH.
  destruct l as [|y l']; [done|]. simpl.
  inversion Hx as [|? ? Hxy _]; subst.
  by rewrite (proj2 (Z.leb_le _ _)) by lia.
Qed.

Lemma StronglySorted_lookup_lt (l : list A) i j a b :
  StronglySorted (λ a b, key a < key b) l →
  l !! i = Some a → l !! j = Some b → (i < j)%nat → key a < key b.
Proof.
  intros Hs. revert i j. induction Hs as [|x l Hl IH Hx]; intros i j Hi Hj Hij; [done|].
  destruct j as [|j]; [lia|]. destruct i as [|i]; simplify_eq/=.
  - rewrite Forall_forall in Hx. apply Hx. by eapply list_elem_of_lookup_2.
  - eapply IH; eauto with lia.
Qed.

End SortFacts.

(** ** Facts about the grouping idiom *)

Section GroupFacts.
Context {K V : Type} `{EqDecision K}.

Lemma map_push_keys (k : K) (v : V) m :
  (map_push k v m).*1 = if decide (k ∈ m.*1) then m.*1 else m.*1 ++ [k].
Proof.
  induction m as [|[k' vs] m IH].
  { case_decide as Hin; [by apply elem_of_nil in Hin|done]. }
  cbn [map_push]. destruct (decide (k' = k)) as [->|Hne]; rewrite !fmap_cons; cbn [fst].
  - clear IH. destruct (decide (k ∈ k :: m.*1)) as [Hin|Hin]; [done|].
    exfalso. apply Hin, elem_of_cons. by left.
  - rewrite IH. clear IH.
    destruct (decide (k ∈ m.*1)) as [Hin|Hin];
      destruct (decide (k ∈ k' :: m.*1)) as [Hin'|Hin']; try done.
    + exfalso. apply Hin', elem_of_cons. by right.
    + apply elem_of_cons in Hin' as [->|?]; done.
Qed.

Lemma map_push_NoDup (k : K) (v : V) m :
  NoDup m.*1 → NoDup (map_push k v m).*1.
Proof.
  intros Hnd. rewrite map_push_keys. destruct (decide (k ∈ m.*1)); [done|].
  apply NoDup_app. split; [done|]. split; [|apply NoDup_singleton].
  intros x Hx Hx'. apply list_elem_of_singleton in Hx'. by subst.
Qed.

Lemma map_push_get (k k' : K) (v : V) m :
  map_get k (map_push k' v m) =
    if decide (k = k') then Some (default [] (map_get k m) ++ [v])
    else map_get k m.
Proof.
  induction m as [|[k0 vs] m IH]; simpl.
  { destruct (decide (k' = k)), (decide (k = k')); done. }
  destruct (decide (k0 = k')) as [->|Hne]; simpl.
  - destruct (decide (k' = k)) as [->|Hne'].
    + by rewrite decide_True.
    + by rewrite decide_False.
  - destruct (decide (k0 = k)) as [->|Hne'].
    + by rewrite decide_False.
    + exact IH.
Qed.

Lemma map_get_elem {W} (k : K) (vs : W) (m : list (K * W)) :
  map_get k m = Some vs → (k, vs) ∈ m.
Proof.
  induction m as [|[k0 vs0] m IH]; simpl; [done|].
  destruct (decide (k0 = k)) as [->|Hne].
  - intros [= ->]. apply elem_of_cons; by left.
  - intros Hg. apply elem_of_cons; right. by apply IH.
Qed.

Lemma elem_map_get {W} (k : K) (vs : W) (m : list (K * W)) :
  NoDup m.*1 → (k, vs) ∈ m → map_get k m = Some vs.
Proof.
  induction m as [|[k0 vs0] m IH]; simpl.
  { intros _ Hin. by apply elem_of_nil in Hin. }
  intros Hnd Hin. apply NoDup_cons in Hnd as [Hk0 Hnd].
  apply elem_of_cons in Hin as [[= -> ->]|Hin].
  - by rewrite decide_True.
  - rewrite decide_False; [by apply IH|].
    intros ->. apply Hk0. apply list_elem_of_fmap. by exists (k, vs).
Qed.

(** What the grouping loop builds: one entry per key that occurs, in
    order of first occurrence, holding the elements with that key in
    their original order. *)
Lemma group_by_spec (f : V → K) (l : list V) :
  NoDup (group_by f l).*1 ∧
  ∀ k, map_get k (group_by f l) =
         match filter (λ v, f v = k) l with [] => None | vs => Some vs end.
Proof.
  induction l as [|v l IH] using rev_ind.
  { split; [constructor|done]. }
  destruct IH as [Hnd Hget]. unfold group_by in *. rewrite foldl_app. simpl.
  split; [by apply map_push_NoDup|].
  intros k. rewrite map_push_get, filter_app, Hget.
  destruct (decide (k = f v)) as [->|Hne].
  - rewrite filter_cons_True by done. rewrite filter_nil.
    destruct (filter (λ v0, f v0 = f v) l); done.
  - rewrite filter_cons_False by done. rewrite filter_nil, app_nil_r. done.
Qed.

Lemma group_by_elem (f : V → K) (l : list V) k vs :
  (k, vs) ∈ group_by f l ↔ vs = filter (λ v, f v = k) l ∧ vs ≠ [].
Proof.
  destruct (group_by_spec f l) as [Hnd Hget]. split.
  - intros Hin. apply (elem_map_get _ _ _ Hnd) in Hin. rewrite Hget in Hin.
    destruct (filter (λ v, f v = k) l); [done|]. by injection Hin as <-.
  - intros [-> Hne]. apply map_get_elem. rewrite Hget.
    destruct (filter (λ v, f v = k) l); done.
Qed.

End GroupFacts.

(** ** Facts about property enumeration *)

Lemma forIn_perm {V} (obj : list (Z * V)) : forIn obj ≡ₚ obj.
Proof.
  unfold forIn. rewrite sort_by_perm.
  apply (filter_app_complement (λ e : Z * V, isArrayIndex e.1 = true)).
Qed.

(** ** Facts about the auto-mapper *)

Module MapperFacts.
Import Mapper MapperTerms.

Lemma autoMap_sorted inst ms :
  ms ≠ [] → ascending ms →
  keygroups (autoMapSamples inst ms).1 = imap (keygroupAt ms) ms.
Proof.
  intros Hne Hs. unfold autoMapSamples.
  destruct (decide (length ms = 0%nat)) as [H0|_].
  { by destruct ms. }
  simpl. by rewrite (sort_by_sorted midiNote ms Hs).
Qed.

Lemma keygroupAt_low_first ms s : lowNote (keygroupAt ms 0 s) = 0.
Proof. done. Qed.

Lemma keygroupAt_low_next ms i p s :
  ms !! i = Some p →
  lowNote (keygroupAt ms (S i) s) = (midiNote p + midiNote s) / 2 + 1.
Proof.
  intros Hp. unfold keygroupAt; simpl.
  by rewrite Nat.sub_0_r, (nth_lookup_Some _ _ _ _ Hp).
Qed.

Lemma keygroupAt_high_last ms i s :
  S i = length ms → highNote (keygroupAt ms i s) = 127.
Proof.
  intros Hi. unfold keygroupAt; simpl.
  by rewrite (proj2 (Nat.ltb_ge _ _)) by lia.
Qed.

Lemma keygroupAt_high_next ms i s n :
  ms !! S i = Some n →
  highNote (keygroupAt ms i s) = (midiNote s + midiNote n) / 2.
Proof.
  intros Hn. unfold keygroupAt; simpl.
  pose proof (lookup_lt_Some _ _ _ Hn).
  rewrite (proj2 (Nat.ltb_lt _ _)) by lia.
  by rewrite Nat.add_1_r, (nth_lookup_Some _ _ _ _ Hn).
Qed.

(** Each root lies inside its own range. *)
Lemma keygroupAt_contains ms i s :
  ascending ms → Forall (λ s, 0 ≤ midiNote s ≤ 127) ms → ms !! i = Some s →
  lowNote (keygroupAt ms i s) ≤ midiNote s ≤ highNote (keygroupAt ms i s).
Proof.
  intros Hs Hr Hi. pose proof (Forall_lookup_1 _ _ _ _ Hr Hi) as Hsr. simpl in Hsr.
  split.
  - destruct i as [|i]; [rewrite keygroupAt_low_first; lia|].
    destruct (lookup_lt_is_Some_2 ms i) as [p Hp].
    { apply lookup_lt_Some in Hi. lia. }
    rewrite (keygroupAt_low_next _ _ _ _ Hp).
    pose proof (StronglySorted_lookup_lt midiNote ms i (S i) p s Hs Hp Hi).
    Z.div_mod_to_equations; lia.
  - destruct (decide (S i = length ms)) as [Hl|Hl].
    + rewrite keygroupAt_high_last by done. lia.
    + destruct (lookup_lt_is_Some_2 ms (S i)) as [n Hn].
      { apply lookup_lt_Some in Hi. lia. }
      rewrite (keygroupAt_high_next _ _ _ _ Hn).
      pose proof (StronglySorted_lookup_lt midiNote ms i (S i) s n Hs Hi Hn).
      Z.div_mod_to_equations; lia.
Qed.

Lemma lookup_keyRanges ms i r :
  (keyRange <$> imap (keygroupAt ms) ms) !! i = Some r →
  ∃ s, ms !! i = Some s ∧ r = keyRange (keygroupAt ms i s).
Proof.
  rewrite list_lookup_fmap, list_lookup_imap.
  destruct (ms !! i) as [s|]; [|done]. intros H.
  change (Some (keyRange (keygroupAt ms i s)) = Some r) in H.
  injection H as <-. by exists s.
Qed.

Lemma keygroups_tile ms :
  ms ≠ [] → ascending ms → Forall (λ s, 0 ≤ midiNote s ≤ 127) ms →
  tiles 0 127 (keyRange <$> imap (keygroupAt ms) ms).
Proof.
  intros Hne Hs Hr. apply tiles_intro.
  - destruct ms; done.
  - intros r (s & E & ->)%lookup_keyRanges. done.
  - intros i r (s & E & ->)%lookup_keyRanges.
    pose proof (keygroupAt_contains ms i s Hs Hr E). cbn [keyRange fst snd]. lia.
  - intros i r r' (s & E & ->)%lookup_keyRanges (n & E' & ->)%lookup_keyRanges.
    cbn [keyRange fst snd].
    by rewrite (keygroupAt_low_next _ _ _ _ E), (keygroupAt_high_next _ _ _ _ E').
  - intros r. rewrite length_fmap, length_imap.
    intros (s & E & ->)%lookup_keyRanges.
    cbn [keyRange fst snd]. apply keygroupAt_high_last.
    apply lookup_lt_Some in E. lia.
Qed.

(** The writer [XPMGenerator.generateInstrumentXPM] computes its key
    ranges with the same statements: on the same ascending roots it
    gets the same bounds. *)
Lemma writer_ranges_agree ms (entries : list (Z * Codec.Sample)) i e s :
  entries.*1 = midiNote <$> ms → entries !! i = Some e → ms !! i = Some s →
  e.1 = midiNote s ∧
  Codec.lowKeyAt entries i e.1 = lowNote (keygroupAt ms i s) ∧
  Codec.highKeyAt entries i e.1 = highNote (keygroupAt ms i s).
Proof.
  intros Hkeys He Hs.
  assert (Hkey : ∀ j x y, entries !! j = Some x → ms !! j = Some y → x.1 = midiNote y).
  { intros j x y Hx Hy.
    assert (H : entries.*1 !! j = Some x.1) by (by rewrite list_lookup_fmap, Hx).
    rewrite Hkeys, list_lookup_fmap, Hy in H. by injection H. }
  assert (Hlen : length entries = length ms).
  { by rewrite <- (length_fmap fst entries), Hkeys, length_fmap. }
  pose proof (Hkey _ _ _ He Hs) as Heq. split; [exact Heq|].
  unfold Codec.lowKeyAt, Codec.highKeyAt, keygroupAt. cbn [lowNote highNote].
  rewrite Hlen, Heq. split.
  - destruct (0 <? i)%nat eqn:Hi; [|done]. apply Nat.ltb_lt in Hi.
    destruct (lookup_lt_is_Some_2 ms (i - 1)) as [p Hp].
    { apply lookup_lt_Some in Hs. lia. }
    destruct (lookup_lt_is_Some_2 entries (i - 1)) as [x Hx].
    { apply lookup_lt_Some in He. lia. }
    rewrite (nth_lookup_Some _ _ _ _ Hp), (nth_lookup_Some _ _ _ _ Hx).
    by rewrite (Hkey _ _ _ Hx Hp).
  - destruct (i <? length ms - 1)%nat eqn:Hi; [|done]. apply Nat.ltb_lt in Hi.
    destruct (lookup_lt_is_Some_2 ms (i + 1)) as [n Hn]; [lia|].
    destruct (lookup_lt_is_Some_2 entries (i + 1)) as [x Hx]; [lia|].
    rewrite (nth_lookup_Some _ _ _ _ Hn), (nth_lookup_Some _ _ _ _ Hx).
    by rewrite (Hkey _ _ _ Hx Hn).
Qed.

(** Ascending roots keep their order at any two positions. *)
Lemma ascending_lookup_le ms i j a b :
  ascending ms → ms !! i = Some a → ms !! j = Some b → (i ≤ j)%nat →
  midiNote a ≤ midiNote b.
Proof.
  intros Hs Ha Hb Hij. destruct (decide (i = j)) as [->|Hne].
  - rewrite Ha in Hb. injection Hb as ->. lia.
  - pose proof (StronglySorted_lookup_lt midiNote ms i j a b Hs Ha Hb). lia.
Qed.

(** Where a root lies with respect to its own range: only the fixed
    ends 0 and 127 can leave it outside. *)
Lemma keygroupAt_contains_root ms i s :
  ascending ms → ms !! i = Some s →
  (lowNote (keygroupAt ms i s) ≤ midiNote s ↔ (i = 0%nat → 0 ≤ midiNote s)) ∧
  (midiNote s ≤ highNote (keygroupAt ms i s) ↔ (S i = length ms → midiNote s ≤ 127)).
Proof.
  intros Hs Hi. split.
  - destruct i as [|i]; [rewrite keygroupAt_low_first; by intuition|].
    destruct (lookup_lt_is_Some_2 ms i) as [p Hp].
    { apply lookup_lt_Some in Hi. lia. }
    rewrite (keygroupAt_low_next _ _ _ _ Hp).
    pose proof (StronglySorted_lookup_lt midiNote ms i (S i) p s Hs Hp Hi).
    split; [done|]. intros _. Z.div_mod_to_equations; lia.
  - destruct (decide (S i = length ms)) as [Hl|Hl].
    + rewrite keygroupAt_high_last by done. by intuition.
    + destruct (lookup_lt_is_Some_2 ms (S i)) as [n Hn].
      { apply lookup_lt_Some in Hi. lia. }
      rewrite (keygroupAt_high_next _ _ _ _ Hn).
      pose proof (StronglySorted_lookup_lt midiNote ms i (S i) s n Hs Hi Hn).
      split; [done|]. intros _. Z.div_mod_to_equations; lia.
Qed.

(** No key lies in two ranges, whatever the roots are. *)
Lemma keygroupAt_disjoint ms i j a b k :
  ascending ms → ms !! i = Some a → ms !! j = Some b → (i < j)%nat →
  lowNote (keygroupAt ms i a) ≤ k ≤ highNote (keygroupAt ms i a) →
  lowNote (keygroupAt ms j b) ≤ k ≤ highNote (keygroupAt ms j b) → False.
Proof.
  intros Hs Ha Hb Hij [_ Hhigh] [Hlow _].
  destruct j as [|j]; [lia|].
  destruct (lookup_lt_is_Some_2 ms j) as [p Hp].
  { apply lookup_lt_Some in Hb. lia. }
  destruct (lookup_lt_is_Some_2 ms (S i)) as [n Hn].
  { apply lookup_lt_Some in Hb. lia. }
  rewrite (keygroupAt_low_next _ _ _ _ Hp) in Hlow.
  rewrite (keygroupAt_high_next _ _ _ _ Hn) in Hhigh.
  pose proof (ascending_lookup_le ms i j a p Hs Ha Hp ltac:(lia)).
  pose proof (ascending_lookup_le ms (S i) (S j) n b Hs Hn Hb ltac:(lia)).
  Z.div_mod_to_equations; lia.
Qed.

(** Every key of 0..127 lies in some range, whatever the roots are. *)
Lemma keygroupAt_cover ms k :
  ms ≠ [] → 0 ≤ k ≤ 127 →
  ∃ i s, ms !! i = Some s ∧
         lowNote (keygroupAt ms i s) ≤ k ≤ highNote (keygroupAt ms i s).
Proof.
  intros Hne Hk.
  assert (∃ s0, ms !! 0%nat = Some s0) as [s0 H0] by (destruct ms; [done|by eexists]).
  destruct (chain_cover (keyRange <$> imap (keygroupAt ms) ms) 127 k)
    with (r := keyRange (keygroupAt ms 0 s0))
    as (i & r & Hi & Hin).
  - intros i r r' (s & E & ->)%lookup_keyRanges (n & E' & ->)%lookup_keyRanges.
    cbn [keyRange fst snd].
    by rewrite (keygroupAt_low_next _ _ _ _ E), (keygroupAt_high_next _ _ _ _ E').
  - intros r. rewrite length_fmap, length_imap.
    intros (s & E & ->)%lookup_keyRanges.
    cbn [keyRange fst snd]. apply keygroupAt_high_last.
    apply lookup_lt_Some in E. lia.
  - lia.
  - by rewrite list_lookup_fmap, list_lookup_imap, H0.
  - cbn [keyRange fst]. rewrite keygroupAt_low_first. lia.
  - apply lookup_keyRanges in Hi as (s & E & ->). by exists i, s.
Qed.

(** C1 (amended).  For an ascending sequence of distinct root notes
    handed to the auto-mapper, keygroup [i] has low = 0 if first, else
    floor((root[i-1]+root[i])/2)+1, and high = 127 if last, else
    floor((root[i]+root[i+1])/2); every key of 0..127 lies in exactly
    one range and no key at all lies in two.  A root lies at or above
    the low end of its range unless it is the first and negative, and
    at or below the high end unless it is the last and above 127; so
    every root within 0..127 lies inside its own range, and when all
    roots are within 0..127 the ranges tile 0..127.  The writer, given
    entries with the same roots, computes the same low and high for
    entry [i]. *)
Theorem autoMap_keygroups_partition inst (ms : list MappedSample) :
  ms ≠ [] → ascending ms →
  let kgs := keygroups (autoMapSamples inst ms).1 in
  let root i := nth i (midiNote <$> ms) 0 in
  length kgs = length ms ∧
  (∀ i kg, kgs !! i = Some kg →
     rootNote kg = root i ∧
     lowNote kg = (match i with O => 0 | S j => (root j + root i) / 2 + 1 end) ∧
     highNote kg = (if decide (S i = length ms) then 127
                    else (root i + root (S i)) / 2) ∧
     (lowNote kg ≤ rootNote kg ↔ (i = 0%nat → 0 ≤ rootNote kg)) ∧
     (rootNote kg ≤ highNote kg ↔ (S i = length ms → rootNote kg ≤ 127)) ∧
     (0 ≤ rootNote kg ≤ 127 → lowNote kg ≤ rootNote kg ≤ highNote kg)) ∧
  (∀ k, 0 ≤ k ≤ 127 →
     ∃ i kg, kgs !! i = Some kg ∧ lowNote kg ≤ k ≤ highNote kg ∧
       ∀ j kg', kgs !! j = Some kg' → lowNote kg' ≤ k ≤ highNote kg' → j = i) ∧
  (∀ k i j kg kg', kgs !! i = Some kg → kgs !! j = Some kg' →
     lowNote kg ≤ k ≤ highNote kg → lowNote kg' ≤ k ≤ highNote kg' → i = j) ∧
  (Forall (λ s, 0 ≤ midiNote s ≤ 127) ms → tiles 0 127 (keyRange <$> kgs)) ∧
  (∀ (entries : list (Z * Codec.Sample)) i e kg,
     entries.*1 = midiNote <$> ms → entries !! i = Some e → kgs !! i = Some kg →
     e.1 = rootNote kg ∧
     Codec.lowKeyAt entries i e.1 = lowNote kg ∧
     Codec.highKeyAt entries i e.1 = highNote kg).
Proof.
  intros Hne Hs kgs root. subst kgs.
  rewrite (autoMap_sorted inst ms Hne Hs).
  assert (Hroot : ∀ i s, ms !! i = Some s → root i = midiNote s).
  { intros i s Hi. unfold root. apply nth_lookup_Some.
    by rewrite list_lookup_fmap, Hi. }
  assert (Hlook : ∀ i kg, imap (keygroupAt ms) ms !! i = Some kg →
                          ∃ s, ms !! i = Some s ∧ kg = keygroupAt ms i s).
  { intros i kg. rewrite list_lookup_imap.
    destruct (ms !! i) as [s|]; simpl; [|done]. intros [= <-]. by exists s. }
  assert (Hdisjoint : ∀ k i j kg kg',
            imap (keygroupAt ms) ms !! i = Some kg →
            imap (keygroupAt ms) ms !! j = Some kg' →
            lowNote kg ≤ k ≤ highNote kg → lowNote kg' ≤ k ≤ highNote kg' → i = j).
  { intros k i j kg kg' (a & Ha & ->)%Hlook (b & Hb & ->)%Hlook Hin Hin'.
    destruct (Nat.lt_trichotomy i j) as [Hij|[Hij|Hij]]; [|done|].
    - destruct (keygroupAt_disjoint ms i j a b k Hs Ha Hb Hij Hin Hin').
    - destruct (keygroupAt_disjoint ms j i b a k Hs Hb Ha Hij Hin' Hin). }
  split; [by rewrite length_imap|]. split; [|split; [|split; [exact Hdisjoint|split]]].
  - intros i kg (s & E & ->)%Hlook.
    destruct (keygroupAt_contains_root ms i s Hs E) as [Hlow Hhigh].
    split; [by rewrite (Hroot _ _ E)|]. split; [|split; [|split; [done|split; [done|]]]].
    + destruct i as [|i]; [done|].
      destruct (lookup_lt_is_Some_2 ms i) as [p Hp].
      { apply lookup_lt_Some in E. lia. }
      by rewrite (keygroupAt_low_next _ _ _ _ Hp), (Hroot _ _ Hp), (Hroot _ _ E).
    + destruct (decide (S i = length ms)) as [Hl|Hl].
      * by apply keygroupAt_high_last.
      * destruct (lookup_lt_is_Some_2 ms (S i)) as [n Hn].
        { apply lookup_lt_Some in E. lia. }
        by rewrite (keygroupAt_high_next _ _ _ _ Hn), (Hroot _ _ Hn), (Hroot _ _ E).
    + cbn [rootNote keygroupAt] in *. intros Hr. split.
      * apply Hlow. lia.
      * apply Hhigh. lia.
  - intros k Hk. destruct (keygroupAt_cover ms k Hne Hk) as (i & s & E & Hin).
    exists i, (keygroupAt ms i s). split; [by rewrite list_lookup_imap, E|].
    split; [done|]. intros j kg' Hj Hin'.
    apply (Hdisjoint k j i kg' (keygroupAt ms i s)); [done| |done|done].
    by rewrite list_lookup_imap, E.
  - intros Hr. exact (keygroups_tile ms Hne Hs Hr).
  - intros entries i e kg Hkeys He (s & E & ->)%Hlook.
    exact (writer_ranges_agree ms entries i e s Hkeys He E).
Qed.

Lemma autoMap_keygroups_partition_witness :
  keyRange <$> keygroups (autoMapSamples c1_instrument c1_samples).1
    = [(0, 54); (55, 63); (64, 127)] ∧
  tiles 0 127 (keyRange <$> keygroups (autoMapSamples c1_instrument c1_samples).1).
Proof.
  split; [reflexivity|].
  refine (proj1 (proj2 (proj2 (proj2 (proj2
    (autoMap_keygroups_partition c1_instrument c1_samples _ _))))) _).
  - discriminate.
  - repeat constructor; simpl; lia.
  - repeat constructor; simpl; lia.
Defined.

(** C1 as stated fails in its last clause.  A sample named after the
    note B9 is resolved to root 131, the highest a file name can give;
    its keygroup is 0..127 and the root lies above it. *)
Lemma root_above_127_outside_its_range :
  c1_high_samples
  = [ {| ms_id := str "s1"; midiNote := 131; velocity := 127;
         rootPitch := str "B9" |} ] ∧
  ascending c1_high_samples ∧
  (λ kg, (lowNote kg, rootNote kg, highNote kg))
    <$> keygroups (autoMapSamples c1_instrument c1_high_samples).1
  = [(0, 131, 127)] ∧
  ¬ partitionRule c1_instrument c1_high_samples.
Proof.
  split; [vm_compute; reflexivity|]. split; [repeat constructor|].
  split; [vm_compute; reflexivity|].
  intros (_ & _ & _ & Hroot).
  destruct (keygroups (autoMapSamples c1_instrument c1_high_samples).1)
    as [|kg kgs] eqn:E; [vm_compute in E; discriminate|].
  pose proof (Hroot 0%nat kg eq_refl) as [_ Hhigh].
  assert (Hkg : (rootNote kg, highNote kg) = (131, 127)).
  { vm_compute in E. by injection E as <- _. }
  injection Hkg as Hr Hh. lia.
Qed.

End MapperFacts.

(** ** Facts about velocity layering *)

Module LayersFacts.
Import Layers LayersTerms.

Lemma tilesb_tiles lo hi rs : tilesb lo hi rs = true ↔ tiles lo hi rs.
Proof.
  split.
  - revert lo. induction rs as [|[a b] rest IH]; intros lo; simpl; [done|].
    rewrite !andb_true_iff, Z.eqb_eq, Z.leb_le. intros [[-> Hab] Hrest].
    destruct rest as [|r rest'].
    + apply Z.eqb_eq in Hrest as ->. by constructor.
    + constructor; [done|]. by apply IH.
  - induction 1 as [lo hi Hle|lo b hi rest Hle Ht IH]; simpl.
    + rewrite !andb_true_iff, !Z.eqb_eq, Z.leb_le. done.
    + rewrite !andb_true_iff, Z.eqb_eq, Z.leb_le. split; [done|].
      destruct rest; [inversion Ht|done].
Qed.

Lemma tiles_last_high lo hi rs r : tiles lo hi rs → last rs = Some r → r.2 = hi.
Proof.
  induction 1 as [lo hi Hle|lo b hi rest Hle Ht IH]; simpl.
  - by intros [= <-].
  - destruct rest; [inversion Ht|]. exact IH.
Qed.

(** In binary64 the layer bounds coincide with the exact quotients for
    every group of at most 97 zones (at 98 zones, layer 49 starts at 63
    instead of 64). *)
Lemma layers_exact_upto_97 : forallb agreesWithExact (seq 1 97) = true.
Proof. vm_compute. reflexivity. Qed.

Lemma layers_inexact_at_98 : layerLow 98 49 = 63 ∧ exactLow 98 49 = 64.
Proof. vm_compute. done. Qed.

Lemma layer_exact M i :
  (1 ≤ M ≤ 97)%nat → (i < M)%nat →
  layerLow M i = exactLow M i ∧
  (i ≠ (M - 1)%nat → layerHigh M i = exactHigh M i).
Proof.
  intros HM Hi. pose proof layers_exact_upto_97 as H.
  rewrite forallb_forall in H. specialize (H M).
  unfold agreesWithExact in H. rewrite forallb_forall in H.
  specialize (H ltac:(apply in_seq; lia) i ltac:(apply in_seq; lia)).
  apply andb_true_iff in H as [H1 H2]. apply Z.eqb_eq in H1.
  split; [done|]. intros Hne. apply orb_true_iff in H2 as [H2|H2].
  - by apply bool_decide_eq_true in H2.
  - by apply Z.eqb_eq.
Qed.

(** For at most 128 zones the assigned ranges tile 0..127. *)
Lemma layerRanges_tile_upto_128 :
  forallb (λ M, tilesb 0 127 (layerRanges M)) (seq 1 128) = true.
Proof. vm_compute. reflexivity. Qed.

Lemma imap_setVel_ranges (lo hi : nat → Z) (l : list Zone) :
  velRange <$> imap (λ i zone, setVel zone (lo i) (hi i)) l
  = (λ i, (lo i, hi i)) <$> seq 0 (length l).
Proof.
  apply list_eq; intros i.
  rewrite !list_lookup_fmap, list_lookup_imap.
  destruct (l !! i) as [z|] eqn:E.
  - rewrite (lookup_seq_lt _ _ _ (lookup_lt_Some _ _ _ E)). done.
  - rewrite (lookup_seq_ge _ _ _ (proj1 (lookup_ge_None _ _) E)). done.
Qed.

Lemma velRange_assignGroup group :
  velRange <$> assignGroup group = layerRanges (length group).
Proof.
  unfold assignGroup. rewrite <- (sort_by_length velLow group).
  destruct (sort_by velLow group) as [|z [|z' l]]; [done|done|].
  rewrite imap_setVel_ranges. done.
Qed.

Lemma assignGroup_lookup group i :
  (2 ≤ length group)%nat →
  assignGroup group !! i =
    (λ zone, setVel zone (layerLow (length group) i)
               (if decide (i = (length group - 1)%nat) then 127
                else layerHigh (length group) i))
    <$> sort_by velLow group !! i.
Proof.
  intros HM. unfold assignGroup. rewrite <- (sort_by_length velLow group) in *.
  destruct (sort_by velLow group) as [|z [|z' l]]; simpl in HM; [lia|lia|].
  by rewrite list_lookup_imap.
Qed.

(** Every group that [assignVelocityRanges] hands to the loop body is
    the non-empty list of all zones with one root, in their original
    order. *)
Lemma assignVelocityRanges_groups zones k group :
  (k, group) ∈ forIn (zonesByRoot zones)
  ↔ group = filter (λ zone, root zone = k) zones ∧ group ≠ [].
Proof. rewrite forIn_perm. apply group_by_elem. Qed.

(** C4 (as the code has it).  For a group of M ≥ 2 zones sharing a root,
    the zones are taken in ascending order of extracted velocity (stable
    sort) and layer [i] gets low = floor(i * (128 / M)) and
    high = floor((i + 1) * (128 / M) - 1), the quotient 128 / M not being
    floored first (binary64 arithmetic), except that the last layer's
    high is 127.  Up to M = 97 these are floor(128 i / M) and
    floor(128 (i + 1) / M) - 1. *)
Theorem assignGroup_layers (group : list Zone) :
  (2 ≤ length group)%nat →
  let M := length group in
  let sorted := sort_by velLow group in
  sorted ≡ₚ group ∧
  StronglySorted (λ a b, velLow a ≤ velLow b) sorted ∧
  length (assignGroup group) = M ∧
  ∀ i zone, sorted !! i = Some zone →
    ∃ out, assignGroup group !! i = Some out ∧
      file out = file zone ∧ root out = root zone ∧
      velLow out = layerLow M i ∧
      velHigh out = (if decide (i = (M - 1)%nat) then 127 else layerHigh M i) ∧
      ((M ≤ 97)%nat →
         velLow out = 128 * Z.of_nat i / Z.of_nat M ∧
         (i ≠ (M - 1)%nat →
            velHigh out = 128 * (Z.of_nat i + 1) / Z.of_nat M - 1)).
Proof.
  intros HM M sorted. split; [apply sort_by_perm|]. split; [apply sort_by_ascending|].
  split.
  { rewrite <- (length_fmap velRange), velRange_assignGroup.
    unfold layerRanges. fold M. assert (2 ≤ M)%nat as HM' by exact HM.
    destruct M as [|[|M']]; [lia|lia|].
    by rewrite length_fmap, length_seq. }
  intros i zone Hi. rewrite (assignGroup_lookup group i HM). fold sorted M.
  rewrite Hi. eexists; split; [done|]. simpl.
  split; [done|]. split; [done|]. split; [done|]. split; [done|].
  intros H97.
  assert (i < M)%nat as HiM.
  { apply lookup_lt_Some in Hi. unfold sorted in Hi.
    by rewrite sort_by_length in Hi. }
  destruct (layer_exact M i ltac:(lia) HiM) as [Hlo Hhi].
  split; [exact Hlo|]. intros Hne. rewrite decide_False by done. by apply Hhi.
Qed.

Lemma assignGroup_layers_witness :
  (file <$> assignGroup c4_group
     = [str "Piano_C3_soft.wav"; str "Piano_C3_med.wav"; str "Piano_C3_hard.wav"]) ∧
  (velRange <$> assignGroup c4_group = [(0, 41); (42, 84); (85, 127)]) ∧
  length (assignGroup c4_group) = 3%nat.
Proof.
  split; [vm_compute; reflexivity|]. split; [vm_compute; reflexivity|].
  refine (proj1 (proj2 (proj2 (assignGroup_layers c4_group _)))).
  simpl. lia.
Defined.

(** C4 as worded fails: with three zones on one root the band rule puts
    the third layer at 84, the code at 85. *)
Lemma bandRule_fails : ¬ bandRule c4_group.
Proof.
  intros H.
  destruct (H 2%nat
    {| file := str "Piano_C3_hard.wav"; root := 48; low := 48; high := 48;
       velLow := 85; velHigh := 127 |}) as [Hlo _].
  - vm_compute. reflexivity.
  - vm_compute in Hlo. discriminate.
Qed.

(** C5 (within the range where it can hold).  For a group of 1 ≤ M ≤ 128
    zones sharing a root the assigned velocity ranges tile 0..127
    (contiguous, no gap, no overlap, none empty), the last high is 127,
    and a single zone gets exactly 0..127 whatever its velocity hint. *)
Theorem assignGroup_partition (group : list Zone) :
  (1 ≤ length group ≤ 128)%nat →
  tiles 0 127 (velRange <$> assignGroup group) ∧
  (∀ zone, last (assignGroup group) = Some zone → velHigh zone = 127) ∧
  (∀ zone, group = [zone] → velRange <$> assignGroup group = [(0, 127)]).
Proof.
  intros HM.
  assert (Ht : tiles 0 127 (velRange <$> assignGroup group)).
  { rewrite velRange_assignGroup. apply tilesb_tiles.
    pose proof layerRanges_tile_upto_128 as H. rewrite forallb_forall in H.
    apply H, in_seq. lia. }
  split; [exact Ht|]. split.
  - intros zone Hl.
    apply (tiles_last_high _ _ _ (velRange zone) Ht).
    by rewrite fmap_last, Hl.
  - intros zone ->. done.
Qed.

Lemma assignGroup_partition_witness :
  tiles 0 127 (velRange <$> assignGroup c4_group).
Proof.
  refine (proj1 (assignGroup_partition c4_group _)). simpl. lia.
Defined.

(** C5 as worded (every M ≥ 1) fails: 129 zones on one root cannot
    split 0..127 into non-empty ranges; the first layer gets 0..-1. *)
Lemma assignGroup_partition_fails_129 :
  (1 ≤ length c5_group)%nat ∧
  (velRange <$> assignGroup c5_group) !! 0%nat = Some (0, -1) ∧
  ¬ tiles 0 127 (velRange <$> assignGroup c5_group).
Proof.
  split; [simpl; lia|]. split; [vm_compute; reflexivity|].
  rewrite <- tilesb_tiles. vm_compute. discriminate.
Qed.

End LayersFacts.

(** ** Facts about the MIDI decoder and the projections *)

Module MidiFacts.
Import Midi MidiTerms.

Lemma c3_decodes : parseMIDIData 64 c3_file = Returned c3_data.
Proof. vm_compute. reflexivity. Qed.

(** C3 as worded fails: the byte 0xF0 at offset 8 of the track is not a
    recognised status, yet the decoder returns normally, having skipped
    the two bytes after it and decoded the events that follow. *)
Lemma unknown_status_not_rejected :
  readStatus (bytes c3_track) c3_state = (0, 0xf0, 9, 0xf0) ∧
  unknownStatus 0xf0 = true ∧
  parseTrackEvents 64 (bytes c3_track) = Some c3_events ∧
  parseMIDIData 64 c3_file = Returned c3_data ∧
  ∀ msg, parseMIDIData 64 c3_file ≠ Thrown msg.
Proof.
  split; [vm_compute; reflexivity|]. split; [reflexivity|].
  split; [vm_compute; reflexivity|]. split; [exact c3_decodes|].
  intros msg. rewrite c3_decodes. discriminate.
Qed.

(** C3 (as the code has it).  At an event whose status is neither a
    channel message nor the meta marker, the track loop raises no error:
    it pushes no event, records a warning, moves two bytes past the
    status and goes on parsing from there. *)
Theorem unknown_status_skips_two_bytes data st dt ty p rs fuel :
  pos st < Z.of_nat (length data) →
  readStatus data st = (dt, ty, p, rs) →
  unknownStatus ty = true →
  let st' := {| pos := p + 2; runningStatus := rs; parsed := parsed st;
                warnings := warnings st ++ [ty] |} in
  parseEvent data st = st' ∧
  parseLoop (S fuel) data st = parseLoop fuel data st'.
Proof.
  intros Hpos Hrs Hunk st'.
  assert (Hev : parseEvent data st = st').
  { unfold parseEvent. rewrite Hrs. unfold unknownStatus in Hunk. cbn [existsb] in Hunk.
    repeat match goal with
           | |- context [Z.land ty 240 =? ?c] =>
               destruct (Z.land ty 240 =? c); [by simpl in Hunk|]
           end.
    destruct (ty =? 255); [by simpl in Hunk|done]. }
  split; [exact Hev|].
  cbn [parseLoop]. rewrite (proj2 (Z.ltb_lt _ _) Hpos). by rewrite Hev.
Qed.

Lemma unknown_status_skips_two_bytes_witness :
  parseEvent (bytes c3_track) c3_state =
    {| pos := 11; runningStatus := 0xf0; parsed := [MetaTempo 0 500000];
       warnings := [0xf0] |}.
Proof.
  refine (proj1 (unknown_status_skips_two_bytes (bytes c3_track) c3_state
                   0 0xf0 9 0xf0 0 _ _ _)).
  - vm_compute. reflexivity.
  - vm_compute. reflexivity.
  - reflexivity.
Defined.

(** *** Tempo *)

Lemma scan_bpm_no_tempo l m :
  Forall (λ e, isTempo e = false) l → bpm (foldl scanEvent m l) = bpm m.
Proof.
  revert m. induction l as [|e l IH]; intros m Hl; [done|].
  apply Forall_cons in Hl as [He Hl]. simpl. rewrite (IH _ Hl).
  destruct e; simpl in *; try done.
  - destruct text; done.
  - case_decide; [done|]. apply negb_false_iff, Z.eqb_eq in He. done.
  - destruct numerator0, denominator0; try done. case_decide; done.
Qed.

Lemma scan_bpm_tempo m dt v :
  v ≠ 0 → bpm (scanEvent m (MetaTempo dt v)) = Math_round (num 60000000 / num v)%float.
Proof. intros Hv. simpl. by rewrite decide_False. Qed.

(** C7 (as the code has it).  The flat projection's bpm is
    round(60,000,000 / v) for the value v of the last tempo meta event
    with a non-zero value (each such event overwrites the previous
    one), and 120 when the file has none; 500000 gives exactly 120. *)
Theorem progression_bpm_last_tempo (d : MIDIData) :
  (∀ l1 dt v l2,
     allEvents d = l1 ++ MetaTempo dt v :: l2 → v ≠ 0 →
     Forall (λ e, isTempo e = false) l2 →
     p_bpm (convertToProgression d) = Math_round (num 60000000 / num v)%float) ∧
  (Forall (λ e, isTempo e = false) (allEvents d) →
     p_bpm (convertToProgression d) = 120) ∧
  Math_round (num 60000000 / num 500000)%float = 120.
Proof.
  split; [|split].
  - intros l1 dt v l2 Hev Hv Hl2. unfold convertToProgression, scanMeta. cbn [p_bpm].
    rewrite Hev, foldl_app. cbn [foldl].
    by rewrite (scan_bpm_no_tempo _ _ Hl2), scan_bpm_tempo.
  - intros Hl. unfold convertToProgression, scanMeta. cbn [p_bpm].
    by rewrite (scan_bpm_no_tempo _ _ Hl).
  - vm_compute. reflexivity.
Qed.

Lemma progression_bpm_last_tempo_witness :
  p_bpm (convertToProgression c3_data) = Math_round (num 60000000 / num 500000)%float.
Proof.
  refine (proj1 (progression_bpm_last_tempo c3_data) [] 0 500000
            [NoteOn 0 0 (Some 60) (Some 100); NoteOff 480 0 (Some 60) (Some 0);
             MetaEndOfTrack 0] _ _ _).
  - reflexivity.
  - discriminate.
  - repeat constructor.
Defined.

(** C7 as worded fails: the first tempo event says 120 bpm, the
    projection reports 240. *)
Lemma first_tempo_rule_fails :
  parseMIDIData 64 c7_file = Returned c7_data ∧
  p_bpm (convertToProgression c7_data) = 240 ∧
  ¬ firstTempoRule c7_data.
Proof.
  split; [vm_compute; reflexivity|]. split; [vm_compute; reflexivity|].
  intros H.
  specialize (H [] 0 500000 [MetaTempo 0 250000; MetaEndOfTrack 0] eq_refl
                ltac:(constructor)).
  vm_compute in H. discriminate.
Qed.

(** *** Grid projection *)

Lemma pattern_tracks_elem d padMapping t :
  t ∈ pat_tracks (convertToMPCPattern d padMapping) ↔
  ∃ ns, ns = filter (λ n, trackIdOf padMapping n = padId t) (allNotes d) ∧
        ns ≠ [] ∧ t = patternTrack (padId t, ns).
Proof.
  unfold convertToMPCPattern, notesByTrack. cbn [pat_tracks].
  rewrite list_elem_of_fmap. split.
  - intros ([k ns] & -> & Hin). apply group_by_elem in Hin as [-> Hne].
    eexists. split; [done|]. split; [exact Hne|done].
  - intros (ns & -> & Hne & Ht). eexists. split; [exact Ht|].
    by apply group_by_elem.
Qed.

Lemma pattern_tracks_NoDup d padMapping :
  NoDup (padId <$> pat_tracks (convertToMPCPattern d padMapping)).
Proof.
  unfold convertToMPCPattern, notesByTrack. cbn [pat_tracks].
  rewrite <- list_fmap_compose.
  exact (proj1 (group_by_spec (trackIdOf padMapping) (allNotes d))).
Qed.

Lemma pattern_track_of_note d padMapping n :
  n ∈ allNotes d →
  ∃ t, t ∈ pat_tracks (convertToMPCPattern d padMapping) ∧
       padId t = trackIdOf padMapping n ∧ patternEvent n ∈ track_events t.
Proof.
  intros Hn.
  set (ns := filter (λ n', trackIdOf padMapping n' = trackIdOf padMapping n) (allNotes d)).
  assert (n ∈ ns) as Hin by (by apply list_elem_of_filter).
  exists (patternTrack (trackIdOf padMapping n, ns)).
  split; [|split; [done|]].
  - apply pattern_tracks_elem. exists ns. split; [done|]. split; [|done].
    intros E. rewrite E in Hin. by apply elem_of_nil in Hin.
  - simpl. apply list_elem_of_fmap. by exists n.
Qed.

(** C10 (as the code has it).  With a mapping supplied, the pad id of
    a note is its own note number exactly when the number has no entry
    in the mapping or its entry is pad 0, and the non-zero pad of its
    entry otherwise; it is the channel only when no mapping is
    supplied.  In both cases the tracks are the groups of that pad id
    and nothing else: pad ids are pairwise distinct, every note has the
    track of its pad id, and a track holds, in file order, the events
    of exactly the notes whose pad id is its own.  A pad id of 0 can
    still arise with a mapping, but only for a note whose own number is
    0 and which falls back to it; so the track for pad 0, if there is
    one, holds notes numbered 0 only. *)
Theorem grid_fallback_per_note (d : MIDIData) (mapping : gmap Z Z) :
  let fallback n := mapping !! note n = None ∨ mapping !! note n = Some 0 in
  let tracksOf padMapping := pat_tracks (convertToMPCPattern d padMapping) in
  (∀ n p, trackIdOf (Some mapping) n = p ↔
          (fallback n ∧ p = note n) ∨ (mapping !! note n = Some p ∧ p ≠ 0)) ∧
  (∀ n, trackIdOf None n = channel n) ∧
  (∀ padMapping, padMapping = Some mapping ∨ padMapping = None →
     NoDup (padId <$> tracksOf padMapping) ∧
     (∀ n, n ∈ allNotes d →
        ∃ t, t ∈ tracksOf padMapping ∧ padId t = trackIdOf padMapping n) ∧
     (∀ t, t ∈ tracksOf padMapping →
        track_events t ≠ [] ∧
        track_events t
        = patternEvent <$> filter (λ n, trackIdOf padMapping n = padId t) (allNotes d))) ∧
  (∀ n, trackIdOf (Some mapping) n = 0 ↔ note n = 0 ∧ fallback n) ∧
  (∀ t, t ∈ tracksOf (Some mapping) → padId t = 0 →
     ∃ ns, track_events t = patternEvent <$> ns ∧ ns ≠ [] ∧
           ns = filter (λ n, trackIdOf (Some mapping) n = 0) (allNotes d) ∧
           Forall (λ n, note n = 0 ∧ fallback n) ns).
Proof.
  intros fallback tracksOf.
  assert (Hid : ∀ n p, trackIdOf (Some mapping) n = p ↔
            (fallback n ∧ p = note n) ∨ (mapping !! note n = Some p ∧ p ≠ 0)).
  { intros n p. unfold fallback. cbn [trackIdOf].
    destruct (mapping !! note n) as [pad|] eqn:E.
    - destruct (decide (pad = 0)) as [->|Hp].
      + split.
        * intros <-. left. split; [by right|done].
        * intros [[_ ->]|[[= <-] Hp]]; done.
      + split.
        * intros <-. by right.
        * intros [[[?| [= ?]] _]|[[= <-] _]]; done.
    - split.
      + intros <-. left. split; [by left|done].
      + intros [[_ ->]|[? _]]; done. }
  assert (Hzero : ∀ n, trackIdOf (Some mapping) n = 0 ↔ note n = 0 ∧ fallback n).
  { intros n. rewrite Hid. split.
    - intros [[Hf ->]|[_ Hne]]; done.
    - intros [Hn0 Hf]. left. by split. }
  split; [exact Hid|]. split; [done|]. split; [|split; [exact Hzero|]].
  - intros padMapping _. split; [apply pattern_tracks_NoDup|]. split.
    + intros n Hn.
      destruct (pattern_track_of_note d padMapping n Hn) as (t & Ht & Hpad & _).
      by exists t.
    + intros t (ns & Hns & Hne & Ht)%pattern_tracks_elem.
      rewrite Ht. cbn [patternTrack track_events padId fst snd].
      split; [by destruct ns|]. by rewrite Hns.
  - intros t (ns & Hns & Hne & Ht)%pattern_tracks_elem H0.
    exists ns. rewrite H0 in Hns. split; [by rewrite Ht|]. split; [done|].
    split; [done|]. rewrite Hns. apply Forall_forall.
    intros n [Hn _]%list_elem_of_filter. by apply Hzero.
Qed.

Lemma grid_fallback_per_note_witness :
  trackIdOf (Some defaultPadMapping) c10_note = note c10_note ∧
  ∃ t, t ∈ pat_tracks (convertToMPCPattern c10_data (Some defaultPadMapping)) ∧
       padId t = trackIdOf (Some defaultPadMapping) c10_note.
Proof.
  pose proof (grid_fallback_per_note c10_data defaultPadMapping) as (Hid & _ & Htracks & _).
  split.
  - apply Hid. left. split; [|done]. left. vm_compute. reflexivity.
  - destruct (Htracks (Some defaultPadMapping)) as (_ & Hnote & _); [by left|].
    apply Hnote. apply elem_of_cons; by left.
Defined.

(** C10 as worded fails in its last clause: with the default mapping
    supplied, a note on key 0 yields a track for pad 0. *)
Lemma supplied_mapping_can_yield_pad_zero :
  parseMIDIData 64 c10_file = Returned c10_data ∧
  padId <$> pat_tracks (convertToMPCPattern c10_data (Some defaultPadMapping)) = [0] ∧
  ¬ neverPadZero c10_data defaultPadMapping.
Proof.
  split; [vm_compute; reflexivity|].
  assert (H : padId <$> pat_tracks (convertToMPCPattern c10_data (Some defaultPadMapping))
              = [0]) by (vm_compute; reflexivity).
  split; [exact H|]. intros Hn.
  destruct (pat_tracks (convertToMPCPattern c10_data (Some defaultPadMapping)))
    as [|t ts] eqn:E; [done|].
  injection H as H0 _. apply (Hn t); [|done]. rewrite E. apply elem_of_cons; by left.
Qed.

End MidiFacts.

(** ** Facts about the validator *)

Module ValidatorFacts.
Import Validator ValidatorTerms.

(** Every group the check looks at is the non-empty list of all
    layers with one root key, in their original order. *)
Lemma layersByRoot_groups layers k group :
  (k, group) ∈ forIn (layersByRoot layers)
  ↔ group = filter (λ layer, default 0 (rootKey layer) = k)
                   (filter (λ layer, rootKey layer ≠ None) layers)
    ∧ group ≠ [].
Proof. rewrite forIn_perm. apply group_by_elem. Qed.

(** The inner loop succeeds exactly when a later layer overlaps. *)
Lemma innerLoop_overlapping layerA rest :
  innerLoop layerA rest = true ↔ ∃ layerB, layerB ∈ rest ∧ overlapping layerA layerB.
Proof.
  induction rest as [|b rest IH]; cbn [innerLoop].
  { split; [done|]. intros (b & Hb & _). by apply elem_of_nil in Hb. }
  assert (Htail : (∃ layerB, layerB ∈ rest ∧ overlapping layerA layerB) →
                  ∃ layerB, layerB ∈ b :: rest ∧ overlapping layerA layerB).
  { intros (x & Hx & Ho). exists x. split; [by apply elem_of_cons; right|done]. }
  assert (Hsplit : (∃ layerB, layerB ∈ b :: rest ∧ overlapping layerA layerB) →
                   overlapping layerA b ∨ ∃ layerB, layerB ∈ rest ∧ overlapping layerA layerB).
  { intros (x & [->|Hx]%elem_of_cons & Ho); [by left|right; by exists x]. }
  destruct (lowVelocity layerA) as [aLow|] eqn:E1, (highVelocity layerA) as [aHigh|] eqn:E2,
    (lowVelocity b) as [bLow|] eqn:E3, (highVelocity b) as [bHigh|] eqn:E4;
    try (rewrite IH; split; [exact Htail|];
         intros [(? & ? & ? & ? & ? & ? & ? & ? & ?)|H]%Hsplit; [congruence|exact H]).
  destruct ((aLow <=? bHigh) && (bLow <=? aHigh)) eqn:Ec.
  - apply andb_true_iff in Ec as [H1%Z.leb_le H2%Z.leb_le]. split; [|done]. intros _.
    exists b. split; [by apply elem_of_cons; left|]. by exists aLow, aHigh, bLow, bHigh.
  - rewrite IH. split; [exact Htail|].
    intros [(x1 & x2 & x3 & x4 & ? & ? & ? & ? & H1 & H2)|H]%Hsplit; [|exact H].
    simplify_eq. apply andb_false_iff in Ec as [Ec|Ec]; apply Z.leb_gt in Ec; lia.
Qed.

(** The outer loop reports once for every layer that overlaps a later
    one, so at most (number of layers - 1) times. *)
Lemma overlapIssues_length rootKey rootLayers :
  (length (overlapIssues rootKey rootLayers) ≤ length rootLayers - 1)%nat.
Proof.
  induction rootLayers as [|a rest IH]; simpl; [lia|].
  rewrite length_app. destruct rest as [|b rest'].
  - simpl. lia.
  - destruct (innerLoop a (b :: rest')); simpl in *; lia.
Qed.

(** The check called on its own, on layers with explicit velocity
    bounds (which [validateInstrument] never builds): the overlap is
    reported once for every layer of the group that overlaps a later
    layer, since the [break] leaves only the inner loop.  For the pair
    0..70 / 60..127 on one root that is once; for three mutually
    overlapping layers on one root it would be twice. *)
Lemma overlap_check_on_bounded_layers :
  (∀ rootKey layerA rest,
     overlapIssues rootKey (layerA :: rest)
     = (if innerLoop layerA rest then [OverlappingVelocity rootKey] else [])
       ++ overlapIssues rootKey rest) ∧
  (∀ layerA rest,
     innerLoop layerA rest = true ↔ ∃ layerB, layerB ∈ rest ∧ overlapping layerA layerB) ∧
  (∀ rootKey rootLayers,
     (length (overlapIssues rootKey rootLayers) ≤ length rootLayers - 1)%nat) ∧
  check_issues (parseVelocityLayers c8_pair) = [OverlappingVelocity 60] ∧
  check_issues (parseVelocityLayers c8_layers)
    = [OverlappingVelocity 60; OverlappingVelocity 60] ∧
  message <$> check_issues (parseVelocityLayers c8_layers)
    = [str "Overlapping velocity ranges for root key 60";
       str "Overlapping velocity ranges for root key 60"] ∧
  ¬ overlapOncePerRoot c8_layers.
Proof.
  split; [done|]. split; [exact innerLoop_overlapping|].
  split; [exact overlapIssues_length|].
  split; [vm_compute; reflexivity|]. split; [vm_compute; reflexivity|].
  split; [vm_compute; reflexivity|].
  intros H. specialize (H 60). vm_compute in H. lia.
Qed.

Section Report.
Context {AudioBuffer : Type} (detectPitch : AudioBuffer → @PitchResult).

Lemma sampleStep_status s smp :
  statusTracksIssues (report s) →
  statusTracksIssues (report (sampleStep detectPitch s smp)).
Proof.
  unfold statusTracksIssues, sampleStep. intros Hinv.
  destruct (buffer smp) as [buf|]; simpl.
  - destruct (detectPitch buf); simpl; [done| |].
    + destruct (extractPitchFromFilename (s_name smp)) as [p|]; [case_decide|]; simpl;
        rewrite ?Exists_app, ?Exists_cons, ?Exists_nil; simpl;
        intuition congruence.
    + rewrite Exists_app, Exists_cons. simpl. intuition congruence.
  - rewrite Exists_app, Exists_cons. simpl. intuition congruence.
Qed.

Lemma foldl_sampleStep_status samples s :
  statusTracksIssues (report s) →
  statusTracksIssues (report (foldl (sampleStep detectPitch) s samples)).
Proof.
  revert s. induction samples as [|smp samples IH]; intros s Hs; [done|].
  simpl. by apply IH, sampleStep_status.
Qed.

Lemma groupIssues_not_notice g :
  Forall (λ i, isPitchNotice i = false) (groupIssues g).
Proof.
  unfold groupIssues. destruct (1 <? length g.2)%nat; [|constructor].
  apply Forall_app. split.
  - destruct (missingVelocity g.2); repeat constructor.
  - generalize g.2. intros l. induction l as [|a rest IH]; simpl; [constructor|].
    apply Forall_app. split; [|done]. destruct (innerLoop a rest); repeat constructor.
Qed.

Lemma check_issues_not_notice layers :
  Forall (λ i, isPitchNotice i = false) (check_issues (parseVelocityLayers layers)).
Proof.
  unfold parseVelocityLayers. simpl.
  induction (forIn (layersByRoot layers)) as [|g gs IH]; simpl; [constructor|].
  apply Forall_app. split; [apply groupIssues_not_notice|exact IH].
Qed.

Lemma validateInstrument_status samples :
  statusTracksIssues (validateInstrument detectPitch samples).
Proof.
  unfold validateInstrument. destruct samples as [|smp samples].
  { unfold statusTracksIssues. simpl. split; [|done]. intros _. by constructor. }
  set (s := foldl _ _ _).
  assert (Hs : statusTracksIssues (report s)).
  { apply foldl_sampleStep_status. unfold statusTracksIssues. simpl.
    split; [done|]. intros H. by apply Exists_nil in H. }
  pose proof (check_issues_not_notice (layers s)) as Hc.
  destruct (valid (parseVelocityLayers (layers s))) eqn:Ev; [done|].
  unfold statusTracksIssues. simpl. split; [|done]. intros _.
  apply Exists_app. right.
  unfold parseVelocityLayers in *. simpl in *.
  apply bool_decide_eq_false in Ev.
  destruct (mjoin _) as [|i rest]; [done|].
  apply Forall_cons in Hc as [Hi _]. by constructor.
Qed.

End Report.

(** C9.  Evaluation of the validator on a sample whose pitch is found
    neither by the estimator nor in its file name: the notice is pushed
    and the status stays "valid", so "valid iff no issues" does not
    hold; the notice is the only way for that to happen. *)
Theorem pitch_notice_leaves_status_valid :
  validateInstrument c9_detectPitch c9_samples
    = {| status := Valid; issues := [PitchNotDetected (str "kick.wav")];
         samplesValidated := 1 |} ∧
  ¬ validIffNoIssues (validateInstrument c9_detectPitch c9_samples) ∧
  (∀ (AudioBuffer : Type) (detectPitch : AudioBuffer → @PitchResult)
     (samples : list (@Sample AudioBuffer)),
     statusTracksIssues (validateInstrument detectPitch samples)).
Proof.
  split; [vm_compute; reflexivity|]. split.
  - intros [H _]. vm_compute in H. by specialize (H eq_refl).
  - intros AudioBuffer detectPitch samples. apply validateInstrument_status.
Qed.

End ValidatorFacts.

(** ** Facts about the codec *)

Module CodecFacts.
Import Xml Codec CodecTerms.

(** *** Printing and reading back an integer *)

Lemma str_string_of_uint d : str (NilEmpty.string_of_uint d) = digitChars d.
Proof. induction d; simpl; unfold str in *; simpl; by f_equal. Qed.

Lemma digitChars_digits d : forallb isDigit (digitChars d) = true.
Proof. induction d; simpl; done. Qed.

Lemma digitChars_nonnil d : d ≠ Decimal.Nil → digitChars d ≠ [].
Proof. destruct d; done. Qed.

Lemma takeWhile_all {A} (p : A → bool) l : forallb p l = true → takeWhile p l = l.
Proof.
  induction l as [|x l IH]; simpl; [done|].
  intros [Hx Hl]%andb_true_iff. rewrite Hx. f_equal. by apply IH.
Qed.

Lemma foldl_digitChars d acc :
  foldl (λ a c, 10 * a + (code c - 48)) (Z.of_N acc) (digitChars d)
  = Z.of_N (bigEndian d acc).
Proof.
  revert acc. induction d; intros acc; simpl; [done|..];
    rewrite <- IHd; f_equal; unfold code; simpl; lia.
Qed.

Lemma bigEndian_rev d acc :
  bigEndian d acc
  = (DecimalPos.Unsigned.of_lu (Decimal.rev d)
     + acc * 10 ^ DecimalPos.Unsigned.usize d)%N.
Proof.
  revert acc. induction d; intros acc; cbn [bigEndian DecimalPos.Unsigned.usize].
  { cbn. rewrite N.mul_1_r. reflexivity. }
  all: rewrite IHd; unfold Decimal.rev at 2; cbn [Decimal.revapp];
    rewrite (DecimalPos.Unsigned.of_lu_revapp d);
    cbn [DecimalPos.Unsigned.of_lu]; rewrite N.pow_succ_r';
    generalize (10 ^ DecimalPos.Unsigned.usize d)%N;
    generalize (DecimalPos.Unsigned.of_lu (Decimal.rev d)); intros; lia.
Qed.

Lemma digitsValue_digitChars d :
  digitsValue (digitChars d) = Z.of_N (Pos.of_uint d).
Proof.
  unfold digitsValue. change 0 with (Z.of_N 0).
  rewrite foldl_digitChars, bigEndian_rev, DecimalPos.Unsigned.of_uint_alt.
  f_equal. lia.
Qed.

(** What [toString] prints: the digits, after a minus sign for a
    negative number. *)
Lemma toString_cases z :
  ∃ d, d ≠ Decimal.Nil ∧
    ((0 ≤ z ∧ toString z = digitChars d ∧ z = Z.of_N (Pos.of_uint d)) ∨
     (z < 0 ∧ toString z = "-"%char :: digitChars d ∧ z = - Z.of_N (Pos.of_uint d))).
Proof.
  pose proof (DecimalZ.of_to z) as Hz. unfold toString.
  destruct z as [|p|p]; simpl in *.
  - exists (Decimal.D0 Decimal.Nil). split; [done|]. left. done.
  - exists (Pos.to_uint p). split; [apply DecimalPos.Unsigned.to_uint_nonnil|]. left.
    split; [lia|]. split; [|done].
    unfold NilZero.string_of_uint.
    pose proof (DecimalPos.Unsigned.to_uint_nonnil p).
    destruct (Pos.to_uint p); try done; apply str_string_of_uint.
  - exists (Pos.to_uint p). split; [apply DecimalPos.Unsigned.to_uint_nonnil|]. right.
    split; [lia|]. split; [|done].
    unfold NilZero.string_of_uint, str. simpl. f_equal.
    pose proof (DecimalPos.Unsigned.to_uint_nonnil p).
    destruct (Pos.to_uint p); try done; apply str_string_of_uint.
Qed.

Lemma parseInt_digitChars d :
  d ≠ Decimal.Nil → parseInt (digitChars d) = Some (Z.of_N (Pos.of_uint d)).
Proof.
  intros Hd. unfold parseInt.
  assert (skipSpace (digitChars d) = digitChars d) as ->.
  { destruct d; done. }
  assert (∀ r, (match digitChars d with
                | c :: r0 => if bool_decide (c = "-"%char) then (true, r0)
                             else if bool_decide (c = "+"%char) then (false, r0)
                             else (false, digitChars d)
                | [] => (false, digitChars d)
                end) = r → r = (false, digitChars d)) as Hsign.
  { intros r <-. destruct d; done. }
  rewrite (Hsign _ eq_refl).
  rewrite (takeWhile_all _ _ (digitChars_digits d)).
  pose proof (digitChars_nonnil d Hd).
  destruct (digitChars d) eqn:E; [done|]. rewrite <- E.
  by rewrite digitsValue_digitChars.
Qed.

Lemma parseInt_toString z : parseInt (toString z) = Some z.
Proof.
  destruct (toString_cases z) as (d & Hd & [(_ & -> & ->)|(_ & -> & ->)]).
  - by apply parseInt_digitChars.
  - unfold parseInt. simpl.
    rewrite (takeWhile_all _ _ (digitChars_digits d)).
    pose proof (digitChars_nonnil d Hd).
    destruct (digitChars d) eqn:E; [done|]. rewrite <- E.
    by rewrite digitsValue_digitChars.
Qed.

Lemma toString_nonempty z : toString z ≠ [].
Proof.
  destruct (toString_cases z) as (d & Hd & [(_ & -> & _)|(_ & -> & _)]); [|done].
  by apply digitChars_nonnil.
Qed.

(** *** Scanning what the writer prints *)

Lemma code_inj c d : code c = code d → c = d.
Proof.
  unfold code. intros H. apply N2Z.inj in H.
  by rewrite <- (ascii_N_embedding c), <- (ascii_N_embedding d), H.
Qed.

Lemma safeChar_spec c :
  safeChar c = true → 32 ≤ code c ∧ c ≠ QUOT ∧ c ≠ AMP ∧ c ≠ LT.
Proof.
  unfold safeChar. rewrite !andb_true_iff, !negb_true_iff, !bool_decide_eq_false.
  rewrite Z.leb_le. tauto.
Qed.

Lemma safe_app s t : safe (s ++ t) = safe s && safe t.
Proof. apply forallb_app. Qed.

Lemma decode_safe attr v : safe v = true → decode attr v 0 = Some v.
Proof.
  induction v as [|c v IH]; [done|]. cbn [safe forallb].
  intros [Hc Hv]%andb_true_iff. destruct (safeChar_spec c Hc) as (H32 & _ & Hamp & _).
  cbn [decode]. rewrite bool_decide_eq_false_2 by done.
  assert (isChar c = true) as ->.
  { unfold isChar. rewrite (proj2 (Z.leb_le _ _) H32). done. }
  cbn [negb]. rewrite (IH Hv). cbn. f_equal. f_equal.
  destruct attr; [|done]. cbn [andb].
  destruct (isSpace c) eqn:Es; [|done].
  apply code_inj. unfold isSpace in Es.
  rewrite !orb_true_iff, !Z.eqb_eq in Es. change (code SPACE) with 32. lia.
Qed.

Lemma scanLiteral_safe v r :
  safe v = true → scanLiteral QUOT (v ++ QUOT :: r) = Some (v, r).
Proof.
  induction v as [|c v IH]; cbn [safe forallb].
  { intros _. cbn. by rewrite bool_decide_eq_true_2. }
  intros [Hc Hv]%andb_true_iff. destruct (safeChar_spec c Hc) as (_ & Hq & _ & Hlt).
  cbn [app scanLiteral]. rewrite !bool_decide_eq_false_2 by done.
  by rewrite (IH Hv).
Qed.

Lemma scanAttValue_safe v r :
  safe v = true → scanAttValue (QUOT :: v ++ QUOT :: r) = Some (v, r).
Proof.
  intros Hv. cbn [scanAttValue]. rewrite bool_decide_eq_true_2 by done. cbn [orb].
  rewrite (scanLiteral_safe v r Hv). cbn. by rewrite (decode_safe true v Hv).
Qed.

Lemma scanNameChars_app n c r :
  forallb isNameChar n = true → isNameChar c = false →
  scanNameChars (n ++ c :: r) = (n, c :: r).
Proof.
  intros Hn Hc. induction n as [|x n IH]; cbn [app scanNameChars].
  { by rewrite Hc. }
  cbn [forallb] in Hn. apply andb_true_iff in Hn as [Hx Hn].
  by rewrite Hx, (IH Hn).
Qed.

Lemma scanName_app n c r :
  wfName n = true → isNameChar c = false →
  scanName (n ++ c :: r) = Some (n, c :: r).
Proof.
  intros Hn Hc. destruct n as [|x n]; [done|].
  cbn [wfName] in Hn. apply andb_true_iff in Hn as [Hx Hn].
  unfold scanName. cbn [app]. rewrite Hx.
  change (x :: n ++ c :: r) with ((x :: n) ++ c :: r).
  by rewrite scanNameChars_app.
Qed.

Lemma wfName_not_space n r :
  wfName n = true → skipSpace (n ++ r) = n ++ r ∧
  ∃ c r', n ++ r = c :: r' ∧ isNameStart c = true.
Proof.
  destruct n as [|x n]; [done|]. cbn [wfName]. intros [Hx _]%andb_true_iff.
  split; [|by exists x, (n ++ r)].
  cbn [app skipSpace]. destruct (isSpace x) eqn:E; [|done].
  exfalso. unfold isSpace in E. unfold isNameStart, isLetter in Hx.
  rewrite !orb_true_iff, !andb_true_iff, !Z.eqb_eq, !Z.leb_le in *. lia.
Qed.

Lemma mjoin_cons {A} (x : list A) (l : list (list A)) : mjoin (x :: l) = x ++ mjoin l.
Proof. done. Qed.

Lemma renderAttrs_cons n v attrs r :
  renderAttrs ((n, v) :: attrs) ++ r
  = SPACE :: n ++ EQUALS :: QUOT :: v ++ QUOT :: (renderAttrs attrs ++ r).
Proof.
  unfold renderAttrs. rewrite fmap_cons, mjoin_cons.
  unfold renderAttr at 1. cbn [fst snd].
  repeat (rewrite <- ?app_assoc; cbn [app]). done.
Qed.

Lemma scanAttrs_step fuel n v rest acc :
  wfName n = true → safe v = true → n ∉ acc.*1 →
  scanAttrs (S fuel) (SPACE :: n ++ EQUALS :: QUOT :: v ++ QUOT :: rest) acc
  = scanAttrs fuel rest (acc ++ [(n, v)]).
Proof.
  intros Hn Hv Hin.
  set (tail := QUOT :: v ++ QUOT :: rest).
  destruct (wfName_not_space n (EQUALS :: tail) Hn) as (Hsk & c & r' & Hc & Hcs).
  cbn [scanAttrs].
  change (skipSpace (SPACE :: n ++ EQUALS :: tail)) with (skipSpace (n ++ EQUALS :: tail)).
  rewrite Hsk. rewrite Hc. rewrite Hcs. rewrite <- Hc.
  rewrite bool_decide_eq_false_2.
  2:{ intros Heq. apply (f_equal length) in Heq. simpl in Heq. lia. }
  rewrite (scanName_app n EQUALS tail Hn eq_refl). cbn [mbind option_bind].
  change (skipSpace (EQUALS :: tail)) with (EQUALS :: tail).
  cbv beta iota. rewrite bool_decide_eq_true_2 by done.
  change (skipSpace tail) with tail. subst tail.
  rewrite (scanAttValue_safe v _ Hv). cbn [mbind option_bind].
  by rewrite bool_decide_eq_false_2.
Qed.

Lemma scanAttrs_render fuel attrs acc r :
  (length attrs ≤ fuel)%nat →
  forallb wfAttr attrs = true →
  NoDup (acc.*1 ++ attrs.*1) →
  tagEnd r →
  scanAttrs fuel (renderAttrs attrs ++ r) acc = Some (acc ++ attrs, r).
Proof.
  revert fuel acc. induction attrs as [|[n v] attrs IH]; intros fuel acc Hf Hwf Hnd Hr.
  - destruct Hr as (c & r' & -> & Hs & Hn).
    change (renderAttrs [] ++ c :: r') with (c :: r'). rewrite app_nil_r.
    destruct fuel; cbn [scanAttrs skipSpace]; by rewrite Hs, Hn.
  - destruct fuel as [|fuel]; [simpl in Hf; lia|].
    cbn [forallb] in Hwf. apply andb_true_iff in Hwf as [Hnv Hwf].
    unfold wfAttr in Hnv. cbn [fst snd] in Hnv. apply andb_true_iff in Hnv as [Hn Hv].
    rewrite renderAttrs_cons, scanAttrs_step; [|done|done|].
    + rewrite (IH fuel (acc ++ [(n, v)])); [by rewrite <- app_assoc| |done| |done].
      * simpl in Hf. lia.
      * rewrite fmap_app, <- app_assoc. done.
    + intros Hin. rewrite fmap_cons in Hnd. cbn [fst] in Hnd.
      apply NoDup_app in Hnd as (_ & Hnd & _). apply (Hnd n Hin).
      apply elem_of_cons. by left.
Qed.

Lemma renderAttrs_head attrs x r :
  isNameChar x = false →
  ∃ c r', renderAttrs attrs ++ x :: r = c :: r' ∧ isNameChar c = false.
Proof.
  intros Hx. destruct attrs as [|[n v] attrs].
  - by exists x, r.
  - rewrite renderAttrs_cons. eexists _, _. split; [done|done].
Qed.

Lemma length_renderAttrs attrs : (length attrs ≤ length (renderAttrs attrs))%nat.
Proof.
  induction attrs as [|a attrs IH]; [done|].
  unfold renderAttrs in *. rewrite fmap_cons, mjoin_cons.
  rewrite length_app. unfold renderAttr at 1. cbn [length]. lia.
Qed.

Lemma wfName_head n :
  wfName n = true → ∃ x n', n = x :: n' ∧ isNameStart x = true ∧ x ≠ SLASH.
Proof.
  destruct n as [|x n']; [done|]. cbn [wfName]. intros [Hx _]%andb_true_iff.
  exists x, n'. split; [done|]. split; [done|]. by intros ->.
Qed.

Lemma scanToken_open n a (e r : jsstring) :
  wfName n = true → forallb wfAttr a = true → NoDup a.*1 →
  (∃ c r', e ++ r = c :: r' ∧ (c = GT ∨ c = SLASH)) →
  scanToken (LT :: n ++ renderAttrs a ++ e ++ r)
  = '(attrs, r1) ← Some (a, e ++ r);
    match r1 with
    | g :: r2 =>
        if bool_decide (g = GT) then Some (TStart n attrs, r2)
        else if bool_decide (g = SLASH) then
          match r2 with
          | g' :: r3 => if bool_decide (g' = GT) then Some (TEmpty n attrs, r3) else None
          | [] => None
          end
        else None
    | [] => None
    end.
Proof.
  intros Hn Ha Hnd He.
  destruct (wfName_head n Hn) as (x & n' & -> & Hx & Hxs).
  cbn [scanToken app]. rewrite bool_decide_eq_true_2 by done.
  rewrite bool_decide_eq_false_2 by done.
  change (x :: n' ++ renderAttrs a ++ e ++ r) with ((x :: n') ++ renderAttrs a ++ e ++ r).
  destruct He as (c & r' & Her & Hc).
  assert (isNameChar c = false) as Hcn by (destruct Hc as [-> | ->]; done).
  rewrite Her.
  destruct (renderAttrs_head a c r' Hcn) as (c' & r'' & Heq & Hc').
  rewrite Heq, (scanName_app _ c' r'' Hn Hc'). cbn [mbind option_bind].
  rewrite <- Heq. rewrite scanAttrs_render; [done| |done|by rewrite app_nil_l|].
  - rewrite length_app. pose proof (length_renderAttrs a). lia.
  - exists c, r'. split; [done|]. destruct Hc as [-> | ->]; done.
Qed.

Lemma scanToken_tag t r :
  wfTag t = true → scanToken (renderTag t ++ r) = Some (t, r).
Proof.
  destruct t as [n a|n a|n|]; cbn [wfTag renderTag]; [| | |done].
  - rewrite !andb_true_iff, bool_decide_eq_true. intros [[Hn Ha] Hnd].
    rewrite <- app_comm_cons, <- !app_assoc.
    rewrite (scanToken_open n a [GT] r); [|done|done|done|].
    2:{ exists GT, r. split; [done|by left]. }
    cbn [mbind option_bind app]. by rewrite bool_decide_eq_true_2.
  - rewrite !andb_true_iff, bool_decide_eq_true. intros [[Hn Ha] Hnd].
    rewrite <- app_comm_cons, <- !app_assoc.
    rewrite (scanToken_open n a [SLASH; GT] r); [|done|done|done|].
    2:{ exists SLASH, (GT :: r). split; [done|by right]. }
    cbn [mbind option_bind app]. rewrite bool_decide_eq_false_2 by done.
    by rewrite !bool_decide_eq_true_2.
  - intros Hn.
    assert ((LT :: SLASH :: n ++ [GT]) ++ r = LT :: SLASH :: n ++ GT :: r) as ->.
    { cbn [app]. by rewrite <- app_assoc. }
    unfold scanToken. rewrite !bool_decide_eq_true_2 by done.
    rewrite (scanName_app _ GT r Hn eq_refl). cbn [mbind option_bind].
    change (skipSpace (GT :: r)) with (GT :: r). cbv beta iota.
    by rewrite bool_decide_eq_true_2.
Qed.

Lemma renderTag_head t r : wfTag t = true → ∃ r', renderTag t ++ r = LT :: r'.
Proof. destruct t; cbn [wfTag renderTag]; try done; intros _; by eexists. Qed.

Lemma space_cases c : isSpace c = true → c ≠ LT ∧ c ≠ AMP ∧ isChar c = true ∧ c ≠ "]"%char.
Proof.
  unfold isSpace, isChar. rewrite !orb_true_iff, !Z.eqb_eq. intros H.
  split; [|split; [|split]].
  - intros ->. vm_compute in H. lia.
  - intros ->. vm_compute in H. lia.
  - rewrite Z.leb_le. lia.
  - intros ->. vm_compute in H. lia.
Qed.

Lemma scanText_spaces w r :
  forallb isSpace w = true → startsTag r → scanText (w ++ r) = (w, r).
Proof.
  intros Hw Hr. induction w as [|c w IH]; cbn [app scanText].
  - destruct Hr as [-> | [r' ->]]; [done|]. cbn. by rewrite bool_decide_eq_true_2.
  - cbn [forallb] in Hw. apply andb_true_iff in Hw as [Hc Hw].
    destruct (space_cases c Hc) as (Hlt & _).
    rewrite bool_decide_eq_false_2 by done. by rewrite (IH Hw).
Qed.

Lemma decode_spaces w : forallb isSpace w = true → decode false w 0 = Some w.
Proof.
  induction w as [|c w IH]; [done|]. cbn [forallb].
  intros [Hc Hw]%andb_true_iff. destruct (space_cases c Hc) as (_ & Hamp & Hch & _).
  cbn [decode]. rewrite bool_decide_eq_false_2 by done. rewrite Hch. cbn [negb andb].
  by rewrite (IH Hw).
Qed.

Lemma contains_spaces w : forallb isSpace w = true → contains (str "]]>") w = false.
Proof.
  induction w as [|c w IH]; [done|]. cbn [forallb].
  intros [Hc Hw]%andb_true_iff. destruct (space_cases c Hc) as (_ & _ & _ & Hb).
  cbn [contains]. rewrite (IH Hw), orb_false_r.
  unfold startsWith. apply bool_decide_eq_false. cbn. intros [= H _]. done.
Qed.

Lemma scanToken_spaces w r :
  w ≠ [] → forallb isSpace w = true → startsTag r →
  scanToken (w ++ r) = Some (TText false, r).
Proof.
  intros Hne Hw Hr. destruct w as [|c w]; [done|].
  pose proof Hw as Hw'. cbn [forallb] in Hw'. apply andb_true_iff in Hw' as [Hc _].
  destruct (space_cases c Hc) as (Hlt & _).
  change ((c :: w) ++ r) with (c :: (w ++ r)). unfold scanToken.
  rewrite bool_decide_eq_false_2 by done.
  change (c :: (w ++ r)) with ((c :: w) ++ r).
  rewrite (scanText_spaces _ r Hw Hr), (contains_spaces _ Hw), (decode_spaces _ Hw).
  cbn [mbind option_bind]. by rewrite Hw.
Qed.

Lemma tokenize_mono f f' s ts :
  tokenize f s = Some ts → (f ≤ f')%nat → tokenize f' s = Some ts.
Proof.
  revert f' s ts. induction f as [|f IH]; intros f' s ts H Hle.
  - destruct s; [|done]. destruct f'; done.
  - destruct s as [|c s]; [destruct f'; done|].
    destruct f' as [|f']; [lia|]. cbn [tokenize] in *.
    destruct (scanToken (c :: s)) as [[t r]|]; [|done]. cbn [mbind option_bind] in *.
    destruct (tokenize f r) as [ts'|] eqn:E; [|done].
    rewrite (IH f' r ts' E); [done|lia].
Qed.

Lemma tokens_cons s t r ts :
  s ≠ [] → (length r < length s)%nat → scanToken s = Some (t, r) →
  tokens r ts → tokens s (t :: ts).
Proof.
  unfold tokens. intros Hne Hlen Hscan Hr.
  destruct s as [|c s]; [done|]. cbn [length tokenize]. rewrite Hscan.
  cbn [mbind option_bind]. rewrite (tokenize_mono _ (length s) _ _ Hr); [done|].
  simpl in Hlen. lia.
Qed.

Lemma tokens_nil : tokens [] [].
Proof. done. Qed.

Lemma tokens_tag t r ts :
  wfTag t = true → tokens r ts → tokens (renderTag t ++ r) (t :: ts).
Proof.
  intros Ht Hr. destruct (renderTag_head t r Ht) as [r' Heq].
  apply (tokens_cons _ t r ts); [by rewrite Heq| |by apply scanToken_tag|done].
  rewrite length_app. destruct t; cbn [wfTag renderTag] in *; try done; simpl; lia.
Qed.

Lemma tokens_spaces w r ts :
  w ≠ [] → forallb isSpace w = true → startsTag r → tokens r ts →
  tokens (w ++ r) (TText false :: ts).
Proof.
  intros Hne Hw Hr Hts.
  apply (tokens_cons _ (TText false) r ts); [by destruct w| |by apply scanToken_spaces|done].
  rewrite length_app. destruct w; [done|]. simpl. lia.
Qed.

Lemma startsTag_tag t r : wfTag t = true → startsTag (renderTag t ++ r).
Proof. intros Ht. right. by apply renderTag_head. Qed.

(** *** The document the writer prints, tag by tag *)

(** Both sides of a text equation are brought to the same shape:
    literals evaluated, concatenations associated to the right. *)
Ltac eval_literals :=
  repeat match goal with
         | |- context [strq ?s] =>
             let v := eval vm_compute in (strq s) in change (strq s) with v
         | |- context [str ?s] =>
             let v := eval vm_compute in (str s) in change (str s) with v
         | |- context [replicate ?k SPACE] =>
             let v := eval vm_compute in (replicate k SPACE) in
             change (replicate k SPACE) with v
         end.

Ltac same_text :=
  eval_literals; unfold NL;
  repeat (rewrite <- ?app_assoc; cbn [app mjoin list_join]);
  reflexivity.

Lemma keygroupXml_lines options entries index entry :
  NL ++ keygroupXml options entries index entry
  = renderLines (keygroupTags options entries index entry) ++ NL.
Proof.
  unfold keygroupXml, renderLines, keygroupTags, sampleAttrs, keyRangeAttrs,
    velocityAttrs, gap.
  cbn [fmap list_fmap fst snd renderTag]. rewrite !mjoin_cons.
  unfold renderAttrs. cbn [fmap list_fmap]. rewrite !mjoin_cons.
  unfold renderAttr. cbn [fst snd].
  same_text.
Qed.

Lemma shift_newline {X} (f g : nat → X → jsstring) (l : list X) (rest : jsstring) :
  (∀ i x, NL ++ f i x = g i x ++ NL) →
  NL ++ mjoin (imap f l) ++ rest = mjoin (imap g l) ++ NL ++ rest.
Proof.
  revert f g. induction l as [|x l IH]; intros f g Hfg; [done|].
  rewrite !imap_cons, !mjoin_cons, <- !app_assoc.
  rewrite (app_assoc NL), Hfg, <- app_assoc. f_equal.
  apply IH. intros i y. apply Hfg.
Qed.

Lemma generateInstrumentXPM_body options keyMapping :
  generateInstrumentXPM options keyMapping
  = xmlDeclaration ++ documentBody options (sortedEntries keyMapping).
Proof.
  unfold generateInstrumentXPM, documentBody. f_equal.
  set (entries := sortedEntries keyMapping).
  set (lines := imap (λ i e, renderLines (keygroupTags options entries i e)) entries).
  assert (∀ rest,
    NL ++ mjoin (imap (keygroupXml options entries) entries) ++ rest
    = mjoin lines ++ NL ++ rest) as Hshift.
  { intros rest. apply shift_newline. intros i x. apply keygroupXml_lines. }
  transitivity
    (renderTag (programTag options) ++ gap 2 ++ renderTag (TStart (str "Keygroups") [])
     ++ (NL ++ mjoin (imap (keygroupXml options entries) entries)
         ++ (str "  </Keygroups>" ++ NL) ++ str "</KeygroupProgram>")).
  - generalize (mjoin (imap (keygroupXml options entries) entries)). intros body.
    unfold programTag, gap. cbn [renderTag]. unfold renderAttrs.
    cbn [fmap list_fmap]. rewrite ?mjoin_cons. unfold renderAttr. cbn [fst snd].
    same_text.
  - rewrite Hshift. generalize (mjoin lines). intros body.
    unfold renderLines, openingLines, closingLines, gap.
    cbn [fmap list_fmap fst snd renderTag]. rewrite ?mjoin_cons.
    same_text.
Qed.

(** *** Tokens of the document *)

Lemma gap_spaces k : gap k ≠ [] ∧ forallb isSpace (gap k) = true.
Proof.
  split; [done|]. unfold gap. rewrite forallb_app. cbn [andb forallb NL].
  induction k; [done|]. cbn [replicate forallb]. done.
Qed.

Lemma tokens_lines l r ts :
  forallb (λ p, wfTag p.2) l = true → tokens r ts →
  tokens (renderLines l ++ r) (lineTokens l ++ ts).
Proof.
  intros Hl Hts. induction l as [|[k t] l IH]; [done|].
  cbn [forallb snd] in Hl. apply andb_true_iff in Hl as [Ht Hl].
  unfold renderLines, lineTokens in *. rewrite !fmap_cons, !mjoin_cons. cbn [fst snd].
  rewrite <- !app_assoc. destruct (gap_spaces k) as [Hne Hsp].
  cbn [app]. apply (tokens_spaces (gap k)); [done|done|by apply startsTag_tag|].
  apply tokens_tag; [done|]. by apply IH.
Qed.

Lemma safe_toString z : safe (toString z) = true.
Proof.
  assert (∀ d, safe (digitChars d) = true) as Hd.
  { induction d; cbn [digitChars safe forallb]; [done|..]; by rewrite andb_true_iff. }
  destruct (toString_cases z) as (d & _ & [(_ & -> & _)|(_ & -> & _)]); [done|].
  cbn [safe forallb]. by rewrite andb_true_iff.
Qed.

Lemma safe_cleanChar c : safeChar c = true → safeChar (cleanChar c) = true.
Proof. unfold cleanChar. case_bool_decide; done. Qed.

Lemma safe_formatSamplePath options name :
  safe name = true → safe (formatSamplePath options name) = true.
Proof.
  intros Hn. unfold formatSamplePath. destruct (useRelativePaths options); [|done].
  assert (safe (cleanChar <$> name) = true) as Hc.
  { induction name as [|c name IH]; [done|]. cbn [safe forallb fmap list_fmap] in *.
    apply andb_true_iff in Hn as [Hc Hn]. rewrite andb_true_iff.
    split; [by apply safe_cleanChar|by apply IH]. }
  destruct (outputDirectory options) as [[|? ?]|]; rewrite safe_app, Hc; done.
Qed.

Lemma wf_keygroupTags options entries index entry :
  safe (sample_name entry.2) = true →
  forallb (λ p, wfTag p.2) (keygroupTags options entries index entry) = true.
Proof.
  intros Hs. unfold keygroupTags. cbn [forallb snd wfTag].
  unfold sampleAttrs, keyRangeAttrs, velocityAttrs. cbn [forallb fmap list_fmap fst].
  unfold wfAttr. cbn [fst snd].
  rewrite !safe_toString, Hs, (safe_formatSamplePath _ _ Hs).
  vm_compute. reflexivity.
Qed.

Lemma tokens_lines_end l :
  forallb (λ p, wfTag p.2) l = true → tokens (renderLines l) (lineTokens l).
Proof.
  intros Hl. rewrite <- (app_nil_r (renderLines l)), <- (app_nil_r (lineTokens l)).
  apply tokens_lines; [done|]. apply tokens_nil.
Qed.

Lemma tokens_imap_lines {X} (F : nat → X → list (nat * token)) (l : list X) r ts :
  (∀ i e, e ∈ l → forallb (λ p, wfTag p.2) (F i e) = true) →
  tokens r ts →
  tokens (mjoin (imap (λ i e, renderLines (F i e)) l) ++ r)
         (mjoin (imap (λ i e, lineTokens (F i e)) l) ++ ts).
Proof.
  revert F. induction l as [|x l IH]; intros F HF Hts; [done|].
  rewrite !imap_cons, !mjoin_cons, <- !app_assoc.
  apply tokens_lines; [apply HF, elem_of_cons; by left|].
  apply (IH (F ∘ S)); [|done]. intros i e He. apply HF, elem_of_cons. by right.
Qed.

Lemma tokens_documentBody options entries :
  safe (opt_name options) = true → safeEntries entries = true →
  tokens (documentBody options entries) (documentTokens options entries).
Proof.
  intros Hname Hentries. unfold documentBody, documentTokens.
  apply tokens_tag.
  { unfold programTag. cbn [wfTag forallb fmap list_fmap fst]. unfold wfAttr. cbn [fst snd].
    rewrite Hname. vm_compute. reflexivity. }
  apply tokens_lines; [done|].
  apply tokens_imap_lines.
  - intros i e He. apply wf_keygroupTags.
    unfold safeEntries in Hentries. rewrite forallb_forall in Hentries.
    apply (Hentries e). by apply list_elem_of_In.
  - apply tokens_lines_end. done.
Qed.

(** *** The element tree *)

Lemma build_keygroup options entries index entry ts t a cs stack root :
  build (lineTokens (keygroupTags options entries index entry) ++ ts)
        ((t, a, cs) :: stack) root
  = build ts ((t, a, keygroupNode options entries index entry :: cs) :: stack) root.
Proof. reflexivity. Qed.

Lemma build_imap_keygroups {X} (F : nat → X → list (nat * token)) (N : nat → X → Node)
    (l : list X) ts t a cs stack root :
  (∀ i e ts' cs', build (lineTokens (F i e) ++ ts') ((t, a, cs') :: stack) root
                  = build ts' ((t, a, N i e :: cs') :: stack) root) →
  build (mjoin (imap (λ i e, lineTokens (F i e)) l) ++ ts) ((t, a, cs) :: stack) root
  = build ts ((t, a, rev (imap N l) ++ cs) :: stack) root.
Proof.
  revert F N cs. induction l as [|x l IH]; intros F N cs HF; [done|].
  rewrite !imap_cons, mjoin_cons, <- app_assoc, HF.
  rewrite (IH (F ∘ S) (N ∘ S)); [|intros; apply HF].
  cbn [rev]. by rewrite <- app_assoc.
Qed.

Lemma build_document options entries :
  build (TText false :: documentTokens options entries) [] None
  = Some (documentTree options entries).
Proof.
  unfold documentTokens, programTag.
  change (lineTokens openingLines) with [TText false; TStart (str "Keygroups") []].
  change (lineTokens closingLines)
    with [TText false; TEnd (str "Keygroups"); TText false; TEnd (str "KeygroupProgram")].
  cbn [build app].
  rewrite (build_imap_keygroups _ (keygroupNode options entries)).
  2:{ intros. apply build_keygroup. }
  rewrite app_nil_r. cbn [build]. rewrite rev_involutive. reflexivity.
Qed.

(** *** The prolog and the whole document *)

Lemma normalizeEOL_noCR s : noCR s = true → normalizeEOL s = s.
Proof.
  induction s as [|c s IH]; [done|]. cbn [noCR forallb normalizeEOL].
  intros [Hc Hs]%andb_true_iff. apply negb_true_iff in Hc. rewrite Hc.
  f_equal. by apply IH.
Qed.

Lemma noCR_app s t : noCR (s ++ t) = noCR s && noCR t.
Proof. apply forallb_app. Qed.

Lemma noCR_safe s : safe s = true → noCR s = true.
Proof.
  unfold safe, noCR. rewrite !forallb_forall. intros H c Hc.
  destruct (safeChar_spec c (H c Hc)) as (Hge & _).
  apply negb_true_iff, Z.eqb_neq. lia.
Qed.

Lemma noCR_nameChars n : forallb isNameChar n = true → noCR n = true.
Proof.
  unfold noCR. rewrite !forallb_forall. intros H c Hc. specialize (H c Hc).
  apply negb_true_iff, Z.eqb_neq. intros E.
  unfold isNameChar, isNameStart, isLetter, isDigit in H. rewrite E in H.
  vm_compute in H. done.
Qed.

Lemma noCR_name n : wfName n = true → noCR n = true.
Proof.
  destruct n as [|c n]; [done|]. cbn [wfName]. intros [_ H]%andb_true_iff.
  by apply noCR_nameChars.
Qed.

Lemma noCR_renderAttrs a : forallb wfAttr a = true → noCR (renderAttrs a) = true.
Proof.
  induction a as [|[n v] a IH]; [done|]. cbn [forallb].
  intros [[Hn Hv]%andb_true_iff Ha]%andb_true_iff. cbn [fst snd] in *.
  rewrite <- (app_nil_r (renderAttrs _)), renderAttrs_cons, app_nil_r.
  change (SPACE :: n ++ EQUALS :: QUOT :: v ++ QUOT :: renderAttrs a)
    with ([SPACE] ++ n ++ [EQUALS; QUOT] ++ v ++ [QUOT] ++ renderAttrs a).
  rewrite !noCR_app, (noCR_name n Hn), (noCR_safe v Hv), (IH Ha). done.
Qed.

Lemma noCR_renderTag t : wfTag t = true → noCR (renderTag t) = true.
Proof.
  destruct t as [n a|n a|n|]; cbn [wfTag renderTag]; [| | |done].
  - intros [[Hn Ha]%andb_true_iff _]%andb_true_iff.
    change (LT :: n ++ renderAttrs a ++ [GT]) with ([LT] ++ n ++ renderAttrs a ++ [GT]).
    by rewrite !noCR_app, (noCR_name n Hn), (noCR_renderAttrs a Ha).
  - intros [[Hn Ha]%andb_true_iff _]%andb_true_iff.
    change (LT :: n ++ renderAttrs a ++ [SLASH; GT])
      with ([LT] ++ n ++ renderAttrs a ++ [SLASH; GT]).
    by rewrite !noCR_app, (noCR_name n Hn), (noCR_renderAttrs a Ha).
  - intros Hn. change (LT :: SLASH :: n ++ [GT]) with ([LT; SLASH] ++ n ++ [GT]).
    by rewrite !noCR_app, (noCR_name n Hn).
Qed.

Lemma noCR_gap k : noCR (gap k) = true.
Proof.
  unfold gap. rewrite noCR_app. apply andb_true_iff. split; [done|].
  induction k as [|k IH]; [done|]. unfold noCR in *. cbn [replicate forallb].
  by rewrite IH.
Qed.

Lemma noCR_renderLines l :
  forallb (λ p, wfTag p.2) l = true → noCR (renderLines l) = true.
Proof.
  induction l as [|[k t] l IH]; [done|]. cbn [forallb snd].
  intros [Ht Hl]%andb_true_iff. unfold renderLines in *.
  rewrite fmap_cons, mjoin_cons. cbn [fst snd].
  by rewrite !noCR_app, noCR_gap, (noCR_renderTag t Ht), (IH Hl).
Qed.

Lemma noCR_imap_lines {X} (F : nat → X → list (nat * token)) (l : list X) :
  (∀ i e, e ∈ l → forallb (λ p, wfTag p.2) (F i e) = true) →
  noCR (mjoin (imap (λ i e, renderLines (F i e)) l)) = true.
Proof.
  revert F. induction l as [|x l IH]; intros F HF; [done|].
  rewrite imap_cons, mjoin_cons, noCR_app.
  rewrite noCR_renderLines by (apply HF, elem_of_cons; by left).
  apply (IH (F ∘ S)). intros i e He. apply HF, elem_of_cons. by right.
Qed.

Lemma wf_programTag options :
  safe (opt_name options) = true → wfTag (programTag options) = true.
Proof.
  intros Hname. unfold programTag. cbn [wfTag forallb fmap list_fmap fst].
  unfold wfAttr. cbn [fst snd]. rewrite Hname. vm_compute. reflexivity.
Qed.

Lemma wf_entries options entries i e :
  safeEntries entries = true → e ∈ entries →
  forallb (λ p, wfTag p.2) (keygroupTags options entries i e) = true.
Proof.
  intros Hentries He. apply wf_keygroupTags.
  unfold safeEntries in Hentries. rewrite forallb_forall in Hentries.
  apply (Hentries e). by apply list_elem_of_In.
Qed.

Lemma noCR_documentBody options entries :
  safe (opt_name options) = true → safeEntries entries = true →
  noCR (documentBody options entries) = true.
Proof.
  intros Hname Hentries. unfold documentBody.
  rewrite !noCR_app, (noCR_renderTag _ (wf_programTag _ Hname)).
  rewrite !noCR_renderLines by done.
  rewrite noCR_imap_lines; [done|]. intros i e He. by apply wf_entries.
Qed.

Lemma xmlDeclaration_attrs :
  xmlDeclaration = str "<?xml" ++ renderAttrs declarationAttrs ++ str "?>" ++ NL.
Proof. vm_compute. reflexivity. Qed.

Lemma parse_declaration body ts :
  noCR body = true → startsTag body → tokens body ts →
  parse (xmlDeclaration ++ body) = build (TText false :: ts) [] None.
Proof.
  intros Hcr Hstart Hts. unfold parse.
  rewrite normalizeEOL_noCR by (by rewrite noCR_app, Hcr).
  rewrite xmlDeclaration_attrs, <- !app_assoc.
  change (startsWith (str "<?xml") (str "<?xml" ++ ?r)) with true.
  set (r := str "?>" ++ NL ++ body).
  assert (Hfive : ∀ x : jsstring, drop 5 (str "<?xml" ++ x) = x) by done.
  rewrite Hfive.
  assert (Hsp : (str "<?xml" ++ renderAttrs declarationAttrs ++ r) !! 5%nat = Some SPACE)
    by done.
  rewrite Hsp. cbn [fmap option_fmap option_map andb].
  rewrite bool_decide_eq_true_2 by done.
  unfold scanDecl.
  rewrite (scanAttrs_render _ declarationAttrs [] r).
  - cbn [mbind option_bind app]. subst r.
    change (startsWith (str "?>") (str "?>" ++ ?x)) with true. cbv iota.
    change (declarationAttrs.*1) with [str "version"; str "encoding"].
    cbv iota. rewrite bool_decide_eq_true_2 by done.
    rewrite bool_decide_eq_true_2 by (apply elem_of_cons; right; apply elem_of_cons; by left).
    cbn [andb mbind option_bind].
    change (drop 2 (str "?>" ++ NL ++ body)) with (NL ++ body).
    assert (Htok : tokens (NL ++ body) (TText false :: ts)).
    { apply tokens_spaces; done. }
    unfold tokens in Htok. rewrite Htok. done.
  - rewrite length_app. pose proof (length_renderAttrs declarationAttrs). lia.
  - done.
  - apply (bool_decide_unpack _). vm_compute. exact I.
  - exists "?"%char, (tail (str "?>") ++ NL ++ body). done.
Qed.

Lemma startsTag_documentBody options entries : startsTag (documentBody options entries).
Proof. right. unfold documentBody, programTag. cbn [renderTag app]. by eexists. Qed.

Lemma parse_generated options keyMapping :
  safe (opt_name options) = true → safeEntries (sortedEntries keyMapping) = true →
  parse (generateInstrumentXPM options keyMapping)
  = Some (documentTree options (sortedEntries keyMapping)).
Proof.
  intros Hname Hentries. rewrite generateInstrumentXPM_body.
  rewrite (parse_declaration _ (documentTokens options (sortedEntries keyMapping))).
  - apply build_document.
  - by apply noCR_documentBody.
  - apply startsTag_documentBody.
  - by apply tokens_documentBody.
Qed.

(** *** Reading the tree *)

Lemma descendants_children t a cs :
  descendants (Element t a cs) = mjoin ((λ c, c :: descendants c) <$> cs).
Proof.
  cbn [descendants]. induction cs as [|c cs IH]; [done|].
  rewrite fmap_cons, mjoin_cons, <- IH. done.
Qed.

Lemma select_children {X} (N : nat → X → Node) (l : list X) name :
  (∀ i e, tagName (N i e) = name) →
  (∀ i e, filter (λ n, tagName n = name) (descendants (N i e)) = []) →
  filter (λ n, tagName n = name) (mjoin ((λ c, c :: descendants c) <$> imap N l))
  = imap N l.
Proof.
  revert N. induction l as [|x l IH]; intros N Htag Hsub; [done|].
  rewrite imap_cons, fmap_cons, mjoin_cons, filter_app, filter_cons_True by apply Htag.
  rewrite Hsub. cbn [app]. f_equal. apply (IH (N ∘ S)); intros; [apply Htag|apply Hsub].
Qed.

Lemma keygroup_elements options entries :
  docQuerySelectorAll (documentTree options entries) (str "Keygroup")
  = imap (keygroupNode options entries) entries.
Proof.
  unfold docQuerySelectorAll, documentTree.
  rewrite filter_cons_False by done.
  rewrite descendants_children. cbn [fmap list_fmap]. rewrite mjoin_cons.
  change (mjoin []) with (@nil Node). rewrite app_nil_r.
  rewrite filter_cons_False by done.
  rewrite descendants_children. apply select_children; done.
Qed.

Lemma select_none {X} (N : nat → X → Node) (l : list X) name :
  (∀ i e, filter (λ n, tagName n = name) (N i e :: descendants (N i e)) = []) →
  filter (λ n, tagName n = name) (mjoin ((λ c, c :: descendants c) <$> imap N l)) = [].
Proof.
  revert N. induction l as [|x l IH]; intros N HN; [done|].
  rewrite imap_cons, fmap_cons, mjoin_cons, filter_app, HN. cbn [app].
  apply (IH (N ∘ S)). intros. apply HN.
Qed.

Lemma no_parsererror options entries :
  docQuerySelectorAll (documentTree options entries) (str "parsererror") = [].
Proof.
  unfold docQuerySelectorAll, documentTree.
  rewrite filter_cons_False by done.
  rewrite descendants_children. cbn [fmap list_fmap]. rewrite mjoin_cons.
  change (mjoin []) with (@nil Node). rewrite app_nil_r.
  rewrite filter_cons_False by done.
  rewrite descendants_children. apply select_none. done.
Qed.

Lemma orElse_toString z d : orElse (Some (toString z)) d = toString z.
Proof. pose proof (toString_nonempty z). by destruct (toString z). Qed.

Lemma orElse_path options name :
  orElse (Some (formatSamplePath options name)) (orElse (Some name) [])
  = formatSamplePath options name.
Proof.
  destruct (formatSamplePath options name) as [|c p] eqn:E; [|done].
  cbn [orElse]. unfold formatSamplePath in E.
  destruct (useRelativePaths options).
  - by destruct (outputDirectory options) as [[|? ?]|].
  - by subst.
Qed.

Lemma orElse_name name : orElse (Some name) [] = name.
Proof. by destruct name. Qed.

Lemma extractZone_written options entries index entry :
  extractZone
    (Element (str "Zone") []
       [ Element (str "Sample") (sampleAttrs options entry.2) [];
         Element (str "KeyRange") (keyRangeAttrs entries index entry.1) [];
         Element (str "VelocityRange") velocityAttrs [] ])
  = Some (writtenZone options entries index entry).
Proof.
  unfold extractZone.
  change (querySelector _ (str "Sample"))
    with (Some (Element (str "Sample") (sampleAttrs options entry.2) [])).
  change (querySelector _ (str "KeyRange"))
    with (Some (Element (str "KeyRange") (keyRangeAttrs entries index entry.1) [])).
  change (querySelector _ (str "VelocityRange"))
    with (Some (Element (str "VelocityRange") velocityAttrs [])).
  cbn [mbind option_bind]. unfold intAttribute. cbn [mbind option_bind].
  change (getAttribute _ (str "name")) with (Some (sample_name entry.2)).
  change (getAttribute _ (str "path"))
    with (Some (formatSamplePath options (sample_name entry.2))).
  change (getAttribute (Element (str "KeyRange") _ _) (str "root"))
    with (Some (toString entry.1)).
  change (getAttribute (Element (str "KeyRange") _ _) (str "low"))
    with (Some (toString (lowKeyAt entries index entry.1))).
  change (getAttribute (Element (str "KeyRange") _ _) (str "high"))
    with (Some (toString (highKeyAt entries index entry.1))).
  change (getAttribute (Element (str "VelocityRange") _ _) (str "low"))
    with (Some (toString 1)).
  change (getAttribute (Element (str "VelocityRange") _ _) (str "high"))
    with (Some (toString 127)).
  rewrite !orElse_toString, !parseInt_toString, orElse_path, orElse_name.
  reflexivity.
Qed.

Lemma extractKeygroup_written options entries index entry :
  extractKeygroup index (keygroupNode options entries index entry)
  = writtenKeygroup options entries index entry.
Proof.
  unfold extractKeygroup, keygroupNode, writtenKeygroup.
  change (getAttribute _ (str "index")) with (Some (toString (Z.of_nat index))).
  rewrite orElse_toString, parseInt_toString.
  change (querySelectorAll _ (str "Zone"))
    with [ Element (str "Zone") []
             [ Element (str "Sample") (sampleAttrs options entry.2) [];
               Element (str "KeyRange") (keyRangeAttrs entries index entry.1) [];
               Element (str "VelocityRange") velocityAttrs [] ] ].
  cbn [omap list_omap]. by rewrite extractZone_written.
Qed.

Lemma imap_imap_same {X Y W} (f : nat → Y → W) (g : nat → X → Y) (h : nat → X → W)
    (l : list X) :
  (∀ i x, f i (g i x) = h i x) → imap f (imap g l) = imap h l.
Proof.
  revert f g h. induction l as [|x l IH]; intros f g h H; [done|].
  rewrite !imap_cons, H. f_equal. apply (IH (f ∘ S) (g ∘ S) (h ∘ S)). intros. apply H.
Qed.

Lemma extractKeygroups_written options entries :
  extractKeygroups (documentTree options entries)
  = imap (writtenKeygroup options entries) entries.
Proof.
  unfold extractKeygroups. rewrite keygroup_elements.
  apply imap_imap_same. intros. apply extractKeygroup_written.
Qed.

Lemma safeNames_entries options keyMapping :
  safeNames options keyMapping → safeEntries (sortedEntries keyMapping) = true.
Proof.
  intros [_ H]. unfold safeEntries. rewrite forallb_forall. intros [k v] Hin.
  apply list_elem_of_In in Hin. unfold sortedEntries in Hin.
  rewrite sort_by_perm in Hin. apply elem_of_map_to_list in Hin. by apply (H k).
Qed.

(** For every key mapping (root note to sample) whose program name and
    sample names can stand between double quotes as they are, the text
    written by [generateInstrumentXPM] is read back by
    [parseXPMContent] as an instrument program with one keygroup per
    mapped note, in ascending note order, each as the writer computed
    it. *)
Lemma generated_round_trip options keyMapping :
  safeNames options keyMapping → roundTrips options keyMapping.
Proof.
  intros Hsafe. pose proof (safeNames_entries _ _ Hsafe) as Hentries.
  destruct Hsafe as [Hname _].
  unfold roundTrips, parseXPMContent. rewrite (parse_generated _ _ Hname Hentries).
  rewrite no_parsererror. rewrite bool_decide_eq_false_2 by (by intros H).
  change (determineProgramType (documentTree _ _)) with false. cbv iota.
  eexists. split; [reflexivity|]. cbn [prog_isDrumkit prog_keygroups].
  split; [done|]. apply extractKeygroups_written.
Qed.

(** *** The repair pass *)

Lemma takeWhile_split {A} (p : A → bool) (l : list A) :
  l = takeWhile p l ++ drop (length (takeWhile p l)) l
  ∧ forallb p (takeWhile p l) = true
  ∧ match drop (length (takeWhile p l)) l with
    | x :: _ => p x = false
    | [] => True
    end.
Proof.
  induction l as [|x l (IH1 & IH2 & IH3)]; [done|]. cbn [takeWhile].
  destruct (p x) eqn:E; [|done]. cbn [length drop app forallb].
  rewrite E, IH2. split; [by rewrite <- IH1|done].
Qed.

Lemma startsWith_true p s : startsWith p s = true → s = p ++ drop (length p) s.
Proof.
  unfold startsWith. intros H%bool_decide_eq_true.
  rewrite <- H at 1. by rewrite take_drop.
Qed.

(** A match of [findOpen] splits the text around a start tag. *)
Lemma findOpen_spec open s before captured after :
  findOpen open s = Some (before, captured, after) →
  s = before ++ open ++ captured ++ GT :: after ∧ GT ∉ captured.
Proof.
  revert before. induction s as [|c s IH]; intros before; [done|].
  cbn [findOpen].
  destruct (startsWith open (c :: s)) eqn:Hsw.
  - set (rest := drop (length open) (c :: s)).
    destruct (takeWhile_split (λ c, negb (bool_decide (c = GT))) rest) as (H1 & H2 & H3).
    destruct (drop (length (takeWhile (λ c, negb (bool_decide (c = GT))) rest)) rest)
      as [|g after'] eqn:Hd.
    + destruct (findOpen open s) as [[[b a] r]|] eqn:E; [|done].
      cbn [mbind option_bind]. intros [= <- <- <-].
      destruct (IH b eq_refl) as [-> Hn]. done.
    + intros [= <- <- <-]. apply negb_false_iff, bool_decide_eq_true in H3 as ->.
      split.
      * cbn [app]. rewrite (startsWith_true _ _ Hsw) at 1. f_equal. exact H1.
      * rewrite forallb_forall in H2. intros Hin%list_elem_of_In.
        specialize (H2 _ Hin). by rewrite bool_decide_eq_true_2 in H2.
  - destruct (findOpen open s) as [[[b a] r]|] eqn:E; [|done].
    cbn [mbind option_bind]. intros [= <- <- <-].
    destruct (IH b eq_refl) as [-> Hn]. done.
Qed.

Lemma findOpen_shorter open s before captured after :
  findOpen open s = Some (before, captured, after) → (length after < length s)%nat.
Proof.
  intros [-> _]%findOpen_spec. rewrite !length_app. cbn [length]. lia.
Qed.

(** The fuel given to the two scans is never used up. *)
Lemma countOpen_fuel tag s fuel :
  (length s ≤ fuel)%nat → countOpen fuel tag s = countOpen (length s) tag s.
Proof.
  revert s. induction (lt_wf fuel) as [fuel _ IH]. intros s Hle.
  destruct fuel as [|fuel].
  { assert (s = []) as -> by (destruct s; [done|simpl in Hle; lia]). done. }
  destruct s as [|c s]; cbn [countOpen length].
  { destruct fuel; done. }
  destruct (findOpen (LT :: tag) (c :: s)) as [[[b a] r]|] eqn:E; [|done].
  apply findOpen_shorter in E. cbn [length] in *. f_equal.
  rewrite (IH fuel) by lia. rewrite (IH (length s)) by lia. done.
Qed.

Lemma fixSamples_fuel s fuel :
  (length s ≤ fuel)%nat → fixSamples fuel s = fixSamples (length s) s.
Proof.
  revert s. induction (lt_wf fuel) as [fuel _ IH]. intros s Hle.
  destruct fuel as [|fuel].
  { assert (s = []) as -> by (destruct s; [done|simpl in Hle; lia]). done. }
  destruct s as [|c s]; cbn [fixSamples length].
  { destruct fuel; done. }
  destruct (findOpen (str "<Sample") (c :: s)) as [[[b a] r]|] eqn:E; [|done].
  apply findOpen_shorter in E. cbn [length] in *. do 2 f_equal.
  rewrite (IH fuel) by lia. rewrite (IH (length s)) by lia. done.
Qed.

(** The leftmost Sample start tag is rewritten by the callback and the
    scan goes on behind it. *)
Lemma fixSamples_match s before attributes after :
  findOpen (str "<Sample") s = Some (before, attributes, after) →
  s = before ++ str "<Sample" ++ attributes ++ str ">" ++ after
  ∧ fixSamples (length s) s
    = before ++ fixSample attributes ++ fixSamples (length after) after.
Proof.
  intros E. pose proof (findOpen_spec _ _ _ _ _ E) as [Hs _]. split; [exact Hs|].
  pose proof (findOpen_shorter _ _ _ _ _ E) as Hlt.
  destruct (length s) as [|n] eqn:Hn; [lia|]. cbn [fixSamples]. rewrite E.
  do 2 f_equal. apply fixSamples_fuel. lia.
Qed.

Lemma fixSample_adds_path attributes name :
  contains (str "path=") attributes = false → nameMatch attributes = Some name →
  fixSample attributes
  = str "<Sample" ++ attributes ++ strq " path='" ++ name ++ strq "'>".
Proof. intros Hp Hn. unfold fixSample. by rewrite Hp, Hn. Qed.

Lemma fixSample_keeps attributes :
  contains (str "path=") attributes = true ∨ nameMatch attributes = None →
  fixSample attributes = str "<Sample" ++ attributes ++ str ">".
Proof.
  unfold fixSample. intros [->| ->]; [done|]. by destruct (contains _ _).
Qed.

(** The captured name is what stands between the double quotes. *)
Lemma nameMatch_spec attributes name :
  nameMatch attributes = Some name →
  name ≠ [] ∧ (QUOT ∉ name) ∧
  ∃ before after, attributes = before ++ strq "name='" ++ name ++ QUOT :: after.
Proof.
  induction attributes as [|c s IH]; [done|]. cbn [nameMatch].
  destruct (startsWith (strq "name='") (c :: s)) eqn:Hsw.
  - set (rest := drop 6 (c :: s)).
    destruct (takeWhile_split (λ c, negb (bool_decide (c = QUOT))) rest) as (H1 & H2 & H3).
    destruct (takeWhile (λ c, negb (bool_decide (c = QUOT))) rest) as [|x captured] eqn:Ht.
    { intros H. destruct (IH H) as (? & ? & b & a & ->). split; [done|]. split; [done|].
      by exists (c :: b), a. }
    destruct (drop (length (x :: captured)) rest) as [|q after] eqn:Hd.
    { intros H. destruct (IH H) as (? & ? & b & a & ->). split; [done|]. split; [done|].
      by exists (c :: b), a. }
    intros [= <-]. split; [done|]. split.
    + rewrite forallb_forall in H2. intros Hin%list_elem_of_In.
      specialize (H2 _ Hin). by rewrite bool_decide_eq_true_2 in H2.
    + apply negb_false_iff, bool_decide_eq_true in H3 as ->.
      exists [], after. cbn [app]. rewrite (startsWith_true _ _ Hsw) at 1.
      change (length (strq "name='")) with 6%nat. fold rest. by rewrite H1 at 1.
  - intros H. destruct (IH H) as (? & ? & b & a & ->). split; [done|]. split; [done|].
    by exists (c :: b), a.
Qed.

Lemma closeTag_appends text tag :
  closeTag text tag = text ++ closers tag (deficit tag text).
Proof.
  unfold closeTag, closers, deficit.
  destruct (Nat.ltb_spec (closeCount tag text) (openCount tag text)) as [H|H]; [done|].
  replace (openCount tag text - closeCount tag text)%nat with 0%nat by lia.
  by rewrite app_nil_r.
Qed.

End CodecFacts.
(** ** Further properties of the code *)

(** ** More facts about the stable sort *)

Section SortMore.
Context {A : Type} (key : A → Z).

(** With pairwise distinct keys the sorted list ascends strictly. *)
Lemma sorted_distinct_strict (l : list A) :
  StronglySorted (λ a b, key a ≤ key b) l → NoDup (key <$> l) →
  StronglySorted (λ a b, key a < key b) l.
Proof.
  induction 1 as [|x l Hl IH Hx]; intros Hnd; [constructor|].
  rewrite fmap_cons in Hnd. apply NoDup_cons in Hnd as [Hx' Hnd].
  constructor; [by apply IH|].
  rewrite Forall_forall in *. intros y Hy. specialize (Hx y Hy). simpl in Hx.
  assert (key x ≠ key y); [|lia].
  intros E. apply Hx'. rewrite E. apply list_elem_of_fmap. by exists y.
Qed.

Lemma sort_by_strict (l : list A) :
  NoDup (key <$> l) → StronglySorted (λ a b, key a < key b) (sort_by key l).
Proof.
  intros Hnd. apply sorted_distinct_strict; [apply sort_by_ascending|].
  by rewrite (sort_by_perm key l).
Qed.

Lemma sort_by_idem (l : list A) : sort_by key (sort_by key l) = sort_by key l.
Proof.
  assert (H : ∀ l' : list A, StronglySorted (λ a b, key a ≤ key b) l' → sort_by key l' = l').
  { induction 1 as [|x l' Hl IH Hx]; [done|].
    unfold sort_by in *. simpl. rewrite IH.
    destruct l' as [|y l'']; [done|]. simpl.
    inversion Hx as [|? ? Hxy _]; subst. simpl in Hxy.
    by rewrite (proj2 (Z.leb_le _ _) Hxy). }
  apply H, sort_by_ascending.
Qed.

End SortMore.

Module AutoMapFacts.
Import Mapper MapperTerms MapperFacts AutoMapTerms.

Lemma autoMap_keygroups inst ms :
  ms ≠ [] →
  keygroups (autoMapSamples inst ms).1
  = imap (keygroupAt (sort_by midiNote ms)) (sort_by midiNote ms).
Proof.
  intros Hne. unfold autoMapSamples.
  destruct (decide (length ms = 0%nat)) as [H0|_]; [by destruct ms|done].
Qed.

Lemma autoMap_count inst ms : (autoMapSamples inst ms).2 = length ms.
Proof.
  unfold autoMapSamples. destruct (decide (length ms = 0%nat)) as [H0|_]; [done|].
  simpl. apply sort_by_length.
Qed.

(** X1.  The auto-mapper sorts before it computes the ranges: for
    samples in any order whose root notes are pairwise distinct MIDI
    note numbers, the count returned is the number of samples, the
    keygroups come in strictly ascending root order and hold the roots
    given, their key ranges tile 0..127, and each root lies inside its
    own range. *)
Theorem autoMap_any_order inst (ms : list MappedSample) :
  ms ≠ [] → NoDup (midiNote <$> ms) → Forall (λ s, 0 ≤ midiNote s ≤ 127) ms →
  let kgs := keygroups (autoMapSamples inst ms).1 in
  (autoMapSamples inst ms).2 = length ms ∧
  length kgs = length ms ∧
  rootNote <$> kgs ≡ₚ midiNote <$> ms ∧
  StronglySorted Z.lt (rootNote <$> kgs) ∧
  tiles 0 127 (keyRange <$> kgs) ∧
  (∀ i kg, kgs !! i = Some kg → lowNote kg ≤ rootNote kg ≤ highNote kg).
Proof.
  intros Hne Hnd Hr kgs. subst kgs. rewrite (autoMap_keygroups inst ms Hne).
  set (sorted := sort_by midiNote ms).
  assert (Hperm : sorted ≡ₚ ms) by apply sort_by_perm.
  assert (Hs : ascending sorted) by (by apply sort_by_strict).
  assert (Hne' : sorted ≠ []).
  { intros E. apply Hne. apply Permutation_nil_r. by rewrite <- Hperm, E. }
  assert (Hr' : Forall (λ s, 0 ≤ midiNote s ≤ 127) sorted) by (by rewrite Hperm).
  assert (Hroots : rootNote <$> imap (keygroupAt sorted) sorted = midiNote <$> sorted).
  { apply list_eq. intros i. rewrite !list_lookup_fmap, list_lookup_imap.
    by destruct (sorted !! i). }
  split; [apply autoMap_count|]. split; [by rewrite length_imap, Hperm|].
  split; [by rewrite Hroots, Hperm|]. split.
  { rewrite Hroots. clear -Hs. induction Hs as [|x l Hl IH Hx]; [constructor|].
    rewrite fmap_cons. constructor; [done|]. by apply Forall_fmap. }
  split; [by apply keygroups_tile|].
  intros i kg. rewrite list_lookup_imap.
  destruct (sorted !! i) as [s|] eqn:E; simpl; [|done]. intros [= <-].
  exact (keygroupAt_contains sorted i s Hs Hr' E).
Qed.

Lemma autoMap_any_order_witness :
  rootNote <$> keygroups (autoMapSamples MapperTerms.c1_instrument x1_samples).1 = [48; 60; 67] ∧
  tiles 0 127 (keyRange <$> keygroups (autoMapSamples MapperTerms.c1_instrument x1_samples).1).
Proof.
  split; [reflexivity|].
  refine (proj1 (proj2 (proj2 (proj2 (proj2
    (autoMap_any_order MapperTerms.c1_instrument x1_samples _ _ _)))))).
  - discriminate.
  - apply (bool_decide_unpack _). vm_compute. exact I.
  - repeat constructor; simpl; lia.
Defined.

(** X2.  Whatever the roots are (duplicates and values outside 0..127
    included), the keygroups built from a non-empty list are in
    ascending root order, the first starts at 0, the last ends at 127
    and each one starts right after its predecessor ends; every keygroup
    has exactly one velocity layer, 0..127, holding its sample.  Two
    samples on the same root give the second one a range that starts
    above its root.  An empty list leaves the instrument untouched and
    counts 0. *)
Theorem autoMap_contiguous inst (ms : list MappedSample) :
  let kgs := keygroups (autoMapSamples inst ms).1 in
  (ms = [] → autoMapSamples inst ms = (inst, 0%nat)) ∧
  (ms ≠ [] →
     length kgs = length ms ∧
     (∀ kg, kgs !! 0%nat = Some kg → lowNote kg = 0) ∧
     (∀ kg, kgs !! (length kgs - 1)%nat = Some kg → highNote kg = 127) ∧
     (∀ i a b, kgs !! i = Some a → kgs !! S i = Some b →
        rootNote a ≤ rootNote b ∧ lowNote b = highNote a + 1 ∧
        (rootNote a = rootNote b → highNote a = rootNote a ∧ rootNote b < lowNote b)) ∧
     (∀ i kg, kgs !! i = Some kg →
        kg_id kg = str "keygroup_" ++ toString (Z.of_nat i) ∧
        ∃ s, sort_by midiNote ms !! i = Some s ∧ rootNote kg = midiNote s ∧
             velocityLayers kg
             = [ {| vl_id := str "velocity_" ++ toString (Z.of_nat i) ++ str "_0";
                    lowVelocity := 0; highVelocity := 127;
                    sampleId := Some (ms_id s) |} ])).
Proof.
  intros kgs. split; [by intros ->|]. intros Hne. subst kgs.
  rewrite (autoMap_keygroups inst ms Hne). set (sorted := sort_by midiNote ms).
  assert (Hlook : ∀ i kg, imap (keygroupAt sorted) sorted !! i = Some kg →
                          ∃ s, sorted !! i = Some s ∧ kg = keygroupAt sorted i s).
  { intros i kg. rewrite list_lookup_imap.
    destruct (sorted !! i) as [s|]; simpl; [|done]. intros [= <-]. by exists s. }
  assert (Hsorted : StronglySorted (λ a b, midiNote a ≤ midiNote b) sorted)
    by apply sort_by_ascending.
  split; [rewrite length_imap; apply sort_by_length|].
  split; [by intros kg (s & _ & ->)%Hlook|]. split; [|split].
  - intros kg (s & Hs & ->)%Hlook. rewrite length_imap in Hs |- *.
    apply keygroupAt_high_last. apply lookup_lt_Some in Hs. lia.
  - intros i a b (s & Hs & ->)%Hlook (n & Hn & ->)%Hlook.
    rewrite (keygroupAt_low_next _ _ _ _ Hs), (keygroupAt_high_next _ _ _ _ Hn).
    assert (Hle : midiNote s ≤ midiNote n).
    { clear -Hsorted Hs Hn. revert i Hs Hn.
      induction Hsorted as [|x l Hl IH Hx]; intros i Hs Hn; [done|].
      destruct i as [|i]; simplify_eq/=.
      - rewrite Forall_forall in Hx. apply Hx. by eapply list_elem_of_lookup_2.
      - by eapply IH. }
    cbn [rootNote keygroupAt]. split; [done|]. split; [done|].
    intros ->. split; Z.div_mod_to_equations; lia.
  - intros i kg (s & Hs & ->)%Hlook. split; [done|]. by exists s.
Qed.

Lemma autoMap_contiguous_witness :
  x2_samples ≠ [] ∧
  length (keygroups (autoMapSamples c1_instrument x2_samples).1) = length x2_samples.
Proof.
  split; [discriminate|].
  refine (proj1 (proj2 (autoMap_contiguous c1_instrument x2_samples) _)). discriminate.
Defined.

End AutoMapFacts.

Lemma join_cons {X} (x : list X) (l : list (list X)) : mjoin (x :: l) = x ++ mjoin l.
Proof. done. Qed.

Section GroupMore.
Context {K V : Type} `{EqDecision K}.

Lemma map_push_values (k : K) (v : V) m :
  mjoin (map_push k v m).*2 ≡ₚ mjoin m.*2 ++ [v].
Proof.
  induction m as [|[k' vs] m IH]; [done|]. cbn [map_push].
  destruct (decide (k' = k)) as [->|Hne]; rewrite !fmap_cons, !join_cons; cbn [snd].
  - rewrite <- !app_assoc. apply Permutation_app_head, Permutation_app_comm.
  - rewrite IH. by rewrite app_assoc.
Qed.

(** The groups hold every element once. *)
Lemma group_by_values (f : V → K) (l : list V) : mjoin (group_by f l).*2 ≡ₚ l.
Proof.
  induction l as [|v l IH] using rev_ind; [done|].
  unfold group_by in *. rewrite foldl_app. cbn [foldl].
  by rewrite map_push_values, IH.
Qed.

(** Selecting by key from the concatenation of per-group results gives
    the result of that key's group. *)
Lemma filter_groups {W} (key : W → K) (F : K * list V → list W) (G : list (K * list V)) k :
  NoDup G.*1 →
  (∀ g, g ∈ G → Forall (λ w, key w = g.1) (F g)) →
  filter (λ w, key w = k) (mjoin (F <$> G))
  = match map_get k G with Some vs => F (k, vs) | None => [] end.
Proof.
  induction G as [|[k' vs] G IH]; intros Hnd HF; [done|].
  rewrite fmap_cons in Hnd. apply NoDup_cons in Hnd as [Hk' Hnd].
  rewrite fmap_cons, join_cons, filter_app. cbn [map_get].
  assert (Hhead : Forall (λ w, key w = k') (F (k', vs))).
  { apply (HF (k', vs)). apply elem_of_cons. by left. }
  assert (Htail : ∀ g, g ∈ G → Forall (λ w, key w = g.1) (F g)).
  { intros g Hg. apply HF. apply elem_of_cons. by right. }
  specialize (IH Hnd Htail).
  destruct (decide (k' = k)) as [->|Hne].
  - replace (filter (λ w, key w = k) (F (k, vs))) with (F (k, vs)).
    2:{ symmetry. clear -Hhead. induction Hhead as [|w l Hw Hl IHl]; [done|].
        rewrite filter_cons_True by done. by f_equal. }
    rewrite IH. destruct (map_get k G) as [vs'|] eqn:E; [|by rewrite app_nil_r].
    exfalso. apply Hk'. apply map_get_elem in E. apply list_elem_of_fmap. by exists (k, vs').
  - replace (filter (λ w, key w = k) (F (k', vs))) with (@nil W); [exact IH|].
    symmetry. clear -Hhead Hne. induction Hhead as [|w l Hw Hl IHl]; [done|].
    rewrite filter_cons_False by congruence. done.
Qed.

End GroupMore.

Lemma forIn_keys_NoDup {V} (obj : list (Z * V)) : NoDup obj.*1 → NoDup (forIn obj).*1.
Proof. intros H. by rewrite forIn_perm. Qed.

Lemma map_get_perm {V} (m m' : list (Z * V)) k :
  NoDup m.*1 → m ≡ₚ m' → map_get k m' = map_get k m.
Proof.
  intros Hnd Hp.
  assert (Hnd' : NoDup m'.*1) by (by rewrite <- Hp).
  destruct (map_get k m) as [v|] eqn:E.
  - apply elem_map_get; [done|]. rewrite <- Hp. by apply map_get_elem.
  - destruct (map_get k m') as [v|] eqn:E'; [|done].
    apply map_get_elem in E'. rewrite <- Hp in E'.
    by rewrite (elem_map_get _ _ _ Hnd E') in E.
Qed.

Module LayersMoreFacts.
Import Layers LayersTerms LayersFacts LayersMoreTerms.

Lemma assignGroup_sorted_core group :
  zoneCore <$> assignGroup group = zoneCore <$> sort_by velLow group.
Proof.
  unfold assignGroup.
  destruct (sort_by velLow group) as [|z [|z' l]]; [done|done|].
  generalize (length (z :: z' :: l)) (z :: z' :: l). intros M zs.
  apply list_eq. intros i. rewrite !list_lookup_fmap, list_lookup_imap.
  by destruct (zs !! i).
Qed.

Lemma assignGroup_roots k group :
  Forall (λ zone, root zone = k) group →
  Forall (λ zone, root zone = k) (assignGroup group).
Proof.
  intros Hg.
  assert (H : Forall (λ c : jsstring * Z * Z * Z, c.1.1.2 = k) (zoneCore <$> assignGroup group)).
  { rewrite assignGroup_sorted_core, (sort_by_perm velLow group).
    apply Forall_fmap. eapply Forall_impl; [exact Hg|]. by intros zone. }
  apply Forall_fmap in H. eapply Forall_impl; [exact H|]. by intros zone.
Qed.

Lemma zonesByRoot_get zones k :
  map_get k (forIn (zonesByRoot zones))
  = match filter (λ zone, root zone = k) zones with [] => None | g => Some g end.
Proof.
  destruct (group_by_spec root zones) as [Hnd Hget].
  rewrite (map_get_perm (zonesByRoot zones) _ k Hnd); [apply Hget|].
  symmetry. apply forIn_perm.
Qed.

Lemma assignVelocityRanges_core zones :
  zoneCore <$> assignVelocityRanges zones ≡ₚ zoneCore <$> zones.
Proof.
  unfold assignVelocityRanges.
  transitivity (zoneCore <$> mjoin (forIn (zonesByRoot zones)).*2).
  - generalize (forIn (zonesByRoot zones)). intros G.
    induction G as [|g G IH]; [done|].
    rewrite !fmap_cons, !join_cons, !fmap_app.
    rewrite IH, assignGroup_sorted_core. by rewrite (sort_by_perm velLow g.2).
  - apply fmap_Permutation.
    rewrite (forIn_perm (zonesByRoot zones)). apply group_by_values.
Qed.

Lemma assignVelocityRanges_root zones k :
  filter (λ zone, root zone = k) (assignVelocityRanges zones)
  = assignGroup (filter (λ zone, root zone = k) zones).
Proof.
  unfold assignVelocityRanges.
  rewrite (filter_groups root (λ g, assignGroup g.2) _ k).
  - rewrite zonesByRoot_get.
    by destruct (filter (λ zone, root zone = k) zones).
  - apply forIn_keys_NoDup, group_by_spec.
  - intros [k' g] Hg. apply assignGroup_roots.
    rewrite forIn_perm in Hg. apply group_by_elem in Hg as [-> _].
    apply Forall_forall. by intros zone [? ?]%list_elem_of_filter.
Qed.

(** X3.  [assignVelocityRanges] neither drops nor adds a zone and
    leaves file, root, low and high of every zone as they were; the
    zones of one root come out together, as the loop body made them from
    all the zones of that root; and when a root has between 1 and 128
    zones, their velocity ranges tile 0..127. *)
Theorem assignVelocityRanges_keeps_zones (zones : list Zone) :
  zoneCore <$> assignVelocityRanges zones ≡ₚ zoneCore <$> zones ∧
  length (assignVelocityRanges zones) = length zones ∧
  ∀ k, let group := filter (λ zone, root zone = k) zones in
       let out := filter (λ zone, root zone = k) (assignVelocityRanges zones) in
       out = assignGroup group ∧
       ((1 ≤ length group ≤ 128)%nat → tiles 0 127 (velRange <$> out)).
Proof.
  pose proof (assignVelocityRanges_core zones) as Hperm.
  split; [exact Hperm|]. split.
  { by rewrite <- (length_fmap zoneCore), Hperm, length_fmap. }
  intros k group out.
  assert (Hout : out = assignGroup group) by apply assignVelocityRanges_root.
  split; [exact Hout|]. intros HM. rewrite Hout, velRange_assignGroup.
  apply tilesb_tiles.
  pose proof layerRanges_tile_upto_128 as H. rewrite forallb_forall in H.
  apply H, in_seq. lia.
Qed.

Lemma assignVelocityRanges_keeps_zones_witness :
  (1 ≤ length (filter (λ zone, root zone = 48%Z) c4_group) ≤ 128)%nat ∧
  tiles 0 127 (velRange <$> filter (λ zone, root zone = 48) (assignVelocityRanges c4_group)).
Proof.
  split; [vm_compute; lia|].
  refine (proj2 (proj2 (proj2 (assignVelocityRanges_keeps_zones c4_group)) 48) _).
  vm_compute; lia.
Defined.

End LayersMoreFacts.

Section SortStable.
Context {A : Type} (key : A → Z).

Lemma insert_by_filter x (l : list A) t :
  filter (λ a, key a = t) (insert_by key x l)
  = if decide (key x = t) then x :: filter (λ a, key a = t) l
    else filter (λ a, key a = t) l.
Proof.
  induction l as [|y l IH]; cbn [insert_by].
  { destruct (decide (key x = t)); [by rewrite filter_cons_True|by rewrite filter_cons_False]. }
  destruct (key x <=? key y) eqn:E.
  - destruct (decide (key x = t)); [by rewrite filter_cons_True|by rewrite filter_cons_False].
  - apply Z.leb_gt in E.
    destruct (decide (key y = t)) as [Hy|Hy].
    + rewrite !(filter_cons_True _ y) by done. rewrite IH.
      destruct (decide (key x = t)); [lia|done].
    + rewrite !(filter_cons_False _ y) by done. exact IH.
Qed.

(** The sort is stable: elements with equal keys keep their order. *)
Lemma sort_by_stable (l : list A) t :
  filter (λ a, key a = t) (sort_by key l) = filter (λ a, key a = t) l.
Proof.
  induction l as [|x l IH]; [done|].
  unfold sort_by in *. cbn [foldr]. rewrite insert_by_filter, IH.
  destruct (decide (key x = t)); [by rewrite filter_cons_True|by rewrite filter_cons_False].
Qed.

End SortStable.

Module ProjectionFacts.
Import Midi MidiFacts.

(** X4.  The flat projection holds every note of every track exactly
    once, in ascending order of start time, notes that start together
    staying in file order; its source is "midi" and its name is absent
    exactly when no track name was found. *)
Theorem progression_notes_sorted (d : MIDIData) :
  let p := convertToProgression d in
  p_notes p ≡ₚ allNotes d ∧
  StronglySorted (λ a b, time a ≤ time b) (p_notes p) ∧
  (∀ t, filter (λ n, time n = t) (p_notes p) = filter (λ n, time n = t) (allNotes d)) ∧
  p_source p = str "midi" ∧
  (p_name p = None ↔ trackName (scanMeta d) = []).
Proof.
  cbn [convertToProgression p_notes p_source p_name].
  split; [apply sort_by_perm|]. split; [apply sort_by_ascending|].
  split; [intros t; apply sort_by_stable|]. split; [done|].
  by destruct (trackName (scanMeta d)).
Qed.

(** X5.  The grid projection deals the notes out to its tracks without
    losing or repeating one: every track is non-empty and holds, in file
    order, the events of exactly the notes whose track id is its pad id;
    pad ids are pairwise distinct; the events of all tracks together are
    the events of all notes; a file without notes gives no track. *)
Theorem pattern_tracks_partition (d : MIDIData) (padMapping : option (gmap Z Z)) :
  let ts := pat_tracks (convertToMPCPattern d padMapping) in
  NoDup (padId <$> ts) ∧
  (∀ t, t ∈ ts →
     track_events t ≠ [] ∧
     track_events t
     = patternEvent <$> filter (λ n, trackIdOf padMapping n = padId t) (allNotes d) ∧
     track_id t = str "track_" ++ toString (padId t) ∧
     track_name t = str "Track " ++ toString (padId t)) ∧
  mjoin (track_events <$> ts) ≡ₚ patternEvent <$> allNotes d ∧
  (allNotes d = [] → ts = []).
Proof.
  intros ts. split; [apply pattern_tracks_NoDup|]. split; [|split].
  - intros t (ns & Hns & Hne & Ht)%pattern_tracks_elem.
    rewrite Ht. cbn [patternTrack track_events track_id track_name padId fst snd].
    split; [by destruct ns|]. by rewrite Hns.
  - subst ts. unfold convertToMPCPattern, notesByTrack. cbn [pat_tracks].
    rewrite <- (group_by_values (trackIdOf padMapping) (allNotes d)) at 2.
    generalize (group_by (trackIdOf padMapping) (allNotes d)). intros G.
    induction G as [|g G IH]; [done|].
    rewrite !fmap_cons, !join_cons, fmap_app. by rewrite IH.
  - subst ts. unfold convertToMPCPattern, notesByTrack. cbn [pat_tracks]. by intros ->.
Qed.

End ProjectionFacts.

Lemma count_occ_filter {A} (dec : ∀ x y : A, {x = y} + {x ≠ y}) (P : A → Prop)
    `{∀ x, Decision (P x)} (l : list A) x :
  P x → count_occ dec (filter P l) x = count_occ dec l x.
Proof.
  intros Hx. induction l as [|y l IH]; [done|].
  destruct (decide (P y)) as [Hy|Hy].
  - rewrite filter_cons_True by done. cbn [count_occ]. by rewrite IH.
  - rewrite filter_cons_False by done. cbn [count_occ].
    destruct (dec y x) as [->|_]; [done|exact IH].
Qed.

Module ValidatorMoreFacts.
Import Validator ValidatorTerms ValidatorFacts ValidatorMoreTerms.

Lemma layersByRoot_get layers k :
  map_get k (forIn (layersByRoot layers))
  = match rootLayers layers k with [] => None | g => Some g end.
Proof.
  unfold layersByRoot.
  set (withRoot := filter (λ layer, rootKey layer ≠ None) layers).
  destruct (group_by_spec (λ layer, default 0 (rootKey layer)) withRoot) as [Hnd Hget].
  rewrite (map_get_perm (group_by _ withRoot) _ k Hnd); [|symmetry; apply forIn_perm].
  rewrite Hget. subst withRoot. rewrite list_filter_filter.
  replace (filter (λ a, default 0 (rootKey a) = k ∧ rootKey a ≠ None) layers)
    with (rootLayers layers k); [done|].
  apply list_filter_iff. intros layer. destruct (rootKey layer) as [r|]; simpl.
  - split; [intros [= E]; by subst|intros [E _]; by subst].
  - split; [done|]. intros [_ Hn]. by destruct Hn.
Qed.

Lemma overlapIssues_root k g : Forall (λ i, i = OverlappingVelocity k) (overlapIssues k g).
Proof.
  induction g as [|a rest IH]; cbn [overlapIssues]; [constructor|].
  apply Forall_app. split; [|exact IH]. destruct (innerLoop a rest); repeat constructor.
Qed.

Lemma groupIssues_root g : Forall (λ i, issueRoot i = g.1) (groupIssues g).
Proof.
  unfold groupIssues. destruct (1 <? length g.2)%nat; [|constructor].
  apply Forall_app. split.
  - destruct (missingVelocity g.2); repeat constructor.
  - eapply Forall_impl; [apply overlapIssues_root|]. by intros i ->.
Qed.

(** The issues about root [k] are those of the loop body run on all
    layers with that root. *)
Lemma issues_of_root layers k :
  filter (λ i, issueRoot i = k) (check_issues (parseVelocityLayers layers))
  = groupIssues (k, rootLayers layers k).
Proof.
  unfold parseVelocityLayers. cbn [check_issues].
  rewrite (filter_groups issueRoot groupIssues _ k).
  - rewrite layersByRoot_get. by destruct (rootLayers layers k).
  - apply forIn_keys_NoDup. unfold layersByRoot. apply group_by_spec.
  - intros g _. apply groupIssues_root.
Qed.

Lemma missingVelocity_spec g :
  missingVelocity g = true ↔ ∃ layer, layer ∈ g ∧ lacksBound layer.
Proof.
  unfold missingVelocity. rewrite existsb_exists. split.
  - intros (layer & Hin & Hl). exists layer. split; [by apply list_elem_of_In|].
    by apply bool_decide_eq_true in Hl.
  - intros (layer & Hin & Hl). exists layer. split; [by apply list_elem_of_In|].
    by apply bool_decide_eq_true.
Qed.

Lemma missing_issue_iff layers k :
  MissingVelocity k ∈ check_issues (parseVelocityLayers layers)
  ↔ (2 ≤ length (rootLayers layers k))%nat ∧
    ∃ layer, layer ∈ rootLayers layers k ∧ lacksBound layer.
Proof.
  transitivity (MissingVelocity k ∈ groupIssues (k, rootLayers layers k)).
  { rewrite <- issues_of_root, list_elem_of_filter. split; [done|by intros [_ ?]]. }
  unfold groupIssues. cbn [fst snd].
  destruct (Nat.ltb_spec 1 (length (rootLayers layers k))) as [Hlen|Hlen].
  - rewrite elem_of_app, <- missingVelocity_spec.
    destruct (missingVelocity (rootLayers layers k)).
    + split; [intros _; split; [lia|done]|]. intros _. left. by apply list_elem_of_singleton.
    + split; [|by intros [_ ?]]. intros [H|H]; [by apply elem_of_nil in H|].
      pose proof (overlapIssues_root k (rootLayers layers k)) as Ho.
      rewrite Forall_forall in Ho. by specialize (Ho _ H).
  - split; [by intros H%elem_of_nil|]. intros [? _]. lia.
Qed.

Lemma issue_needs_two layers i :
  i ∈ check_issues (parseVelocityLayers layers) →
  (i = MissingVelocity (issueRoot i) ∨ i = OverlappingVelocity (issueRoot i)) ∧
  (2 ≤ length (rootLayers layers (issueRoot i)))%nat.
Proof.
  intros Hin.
  assert (Hg : i ∈ groupIssues (issueRoot i, rootLayers layers (issueRoot i))).
  { rewrite <- issues_of_root. by apply list_elem_of_filter. }
  unfold groupIssues in Hg. cbn [fst snd] in Hg.
  destruct (Nat.ltb_spec 1 (length (rootLayers layers (issueRoot i)))) as [Hlen|Hlen];
    [|by apply elem_of_nil in Hg].
  split; [|lia]. apply elem_of_app in Hg as [Hg|Hg].
  - destruct (missingVelocity _); [|by apply elem_of_nil in Hg].
    apply list_elem_of_singleton in Hg. left. by rewrite Hg.
  - pose proof (overlapIssues_root (issueRoot i) (rootLayers layers (issueRoot i))) as Ho.
    rewrite Forall_forall in Ho. right. exact (Ho _ Hg).
Qed.

(** X6.  The velocity check only ever speaks about a root key that two
    or more layers share.  "Missing velocity range" is reported for a
    root exactly when it has two or more layers and one of them lacks a
    bound, and never more than once per root.  When no two layers share
    a root the check finds nothing and the result is valid. *)
Theorem velocity_issues_per_root (layers : list Layer) :
  let r := parseVelocityLayers layers in
  (∀ i, i ∈ check_issues r →
     (i = MissingVelocity (issueRoot i) ∨ i = OverlappingVelocity (issueRoot i)) ∧
     (2 ≤ length (rootLayers layers (issueRoot i)))%nat) ∧
  (∀ k, MissingVelocity k ∈ check_issues r
        ↔ (2 ≤ length (rootLayers layers k))%nat ∧
          ∃ layer, layer ∈ rootLayers layers k ∧ lacksBound layer) ∧
  (∀ k, (count_occ Issue_eq_dec (check_issues r) (MissingVelocity k) ≤ 1)%nat) ∧
  ((∀ k, (length (rootLayers layers k) ≤ 1)%nat) → check_issues r = [] ∧ valid r = true).
Proof.
  intros r. split; [exact (issue_needs_two layers)|]. split; [exact (missing_issue_iff layers)|].
  split.
  - intros k.
    rewrite <- (count_occ_filter Issue_eq_dec (λ i, issueRoot i = k) (check_issues r)
                 (MissingVelocity k) eq_refl).
    subst r. rewrite issues_of_root. unfold groupIssues. cbn [fst snd].
    destruct (1 <? length (rootLayers layers k))%nat; [|simpl; lia].
    rewrite count_occ_app.
    assert (Ho : count_occ Issue_eq_dec (overlapIssues k (rootLayers layers k))
                   (MissingVelocity k) = 0%nat).
    { apply count_occ_not_In. intros Hin%list_elem_of_In.
      pose proof (overlapIssues_root k (rootLayers layers k)) as Ho.
      rewrite Forall_forall in Ho. by specialize (Ho _ Hin). }
    rewrite Ho. destruct (missingVelocity _); cbn [count_occ]; [|lia].
    destruct (Issue_eq_dec (MissingVelocity k) (MissingVelocity k)); lia.
  - intros Hone.
    assert (Hnil : check_issues r = []).
    { destruct (check_issues r) as [|i rest] eqn:E; [done|]. exfalso.
      destruct (issue_needs_two layers i) as [_ Hlen].
      { fold r. rewrite E. apply elem_of_cons. by left. }
      specialize (Hone (issueRoot i)). lia. }
    split; [exact Hnil|]. subst r. unfold parseVelocityLayers in *. cbn [check_issues valid] in *.
    by rewrite Hnil.
Qed.

Lemma velocity_issues_per_root_witness :
  (∀ k, (length (rootLayers x6_layers k) ≤ 1)%nat) ∧
  valid (parseVelocityLayers x6_layers) = true.
Proof.
  assert (H : ∀ k, (length (rootLayers x6_layers k) ≤ 1)%nat).
  { intros k. unfold rootLayers, x6_layers.
    rewrite !filter_cons, filter_nil. cbn [rootKey velLayer].
    repeat case_decide; simplify_eq; cbn [length]; lia. }
  split; [exact H|].
  exact (proj2 (proj2 (proj2 (proj2 (velocity_issues_per_root x6_layers))) H)).
Defined.




(** *** The validator as a whole *)

Section ValidateMore.
Context {AudioBuffer : Type} (detectPitch : AudioBuffer → @PitchResult).

Lemma sampleStep_layers s smp :
  layers (sampleStep detectPitch s smp) = layers s ++ option_list (layerOf detectPitch smp) ∧
  samplesValidated (report (sampleStep detectPitch s smp))
  = (samplesValidated (report s) + length (option_list (layerOf detectPitch smp)))%nat.
Proof.
  unfold sampleStep, layerOf. destruct (buffer smp) as [buf|]; cbn.
  2:{ rewrite app_nil_r. split; [done|lia]. }
  destruct (detectPitch buf); cbn.
  - split; [done|lia].
  - destruct (extractPitchFromFilename (s_name smp)) as [p|]; [case_decide|]; cbn;
      (split; [done|lia]).
  - rewrite app_nil_r. split; [done|lia].
Qed.

Lemma foldl_sampleStep_layers samples s :
  layers (foldl (sampleStep detectPitch) s samples) = layers s ++ omap (layerOf detectPitch) samples ∧
  samplesValidated (report (foldl (sampleStep detectPitch) s samples))
  = (samplesValidated (report s) + length (omap (layerOf detectPitch) samples))%nat.
Proof.
  revert s. induction samples as [|smp samples IH]; intros s.
  { cbn. rewrite app_nil_r. split; [done|lia]. }
  cbn [foldl]. destruct (IH (sampleStep detectPitch s smp)) as [-> ->].
  destruct (sampleStep_layers s smp) as [-> ->].
  cbn [omap list_omap]. destruct (layerOf detectPitch smp) as [layer|]; cbn [option_list].
  - rewrite <- app_assoc. cbn. split; [done|lia].
  - rewrite app_nil_r. split; [done|]. cbn. lia.
Qed.

Lemma foldl_sampleStep_issues samples s :
  Forall (λ i, ∀ k, i ≠ MissingVelocity k ∧ i ≠ OverlappingVelocity k) (issues (report s)) →
  Forall (λ i, ∀ k, i ≠ MissingVelocity k ∧ i ≠ OverlappingVelocity k)
         (issues (report (foldl (sampleStep detectPitch) s samples))).
Proof.
  revert s. induction samples as [|smp samples IH]; intros s Hs; [done|].
  cbn [foldl]. apply IH. unfold sampleStep.
  destruct (buffer smp) as [buf|]; cbn.
  - destruct (detectPitch buf); cbn; [done| |].
    + destruct (extractPitchFromFilename (s_name smp)) as [p|]; [case_decide|]; cbn;
        try done; apply Forall_app; (split; [done|]); by repeat constructor.
    + apply Forall_app. split; [done|]. by repeat constructor.
  - apply Forall_app. split; [done|]. by repeat constructor.
Qed.

Lemma layerOf_unbounded smp layer : layerOf detectPitch smp = Some layer → lacksBound layer.
Proof.
  unfold layerOf. destruct (buffer smp) as [buf|]; [|done].
  destruct (detectPitch buf); [| |done]; intros [= <-]; by left.
Qed.

Lemma innerLoop_unbounded a rest : lacksBound a → innerLoop a rest = false.
Proof.
  intros Ha. destruct (innerLoop a rest) eqn:E; [|done].
  apply innerLoop_overlapping in E as (b & _ & (? & ? & ? & ? & H1 & H2 & _)).
  destruct Ha; congruence.
Qed.

Lemma overlapIssues_unbounded k g : Forall lacksBound g → overlapIssues k g = [].
Proof.
  induction 1 as [|a rest Ha Hrest IH]; [done|]. cbn [overlapIssues].
  by rewrite (innerLoop_unbounded a rest Ha), IH.
Qed.

Lemma rootLayers_samples samples k :
  length (rootLayers (omap (layerOf detectPitch) samples) k)
  = length (filter (λ smp, sampleRoot detectPitch smp = Some k) samples).
Proof.
  unfold rootLayers, sampleRoot. induction samples as [|smp samples IH]; [done|].
  cbn [omap list_omap]. destruct (layerOf detectPitch smp) as [layer|] eqn:E; cbn [mbind option_bind].
  - destruct (decide (rootKey layer = Some k)) as [Hk|Hk].
    + rewrite filter_cons_True by done. rewrite (filter_cons_True _ smp); [cbn; by rewrite IH|].
      by rewrite E.
    + rewrite filter_cons_False by done. rewrite (filter_cons_False _ smp); [done|].
      by rewrite E.
  - rewrite (filter_cons_False _ smp); [done|]. by rewrite E.
Qed.





(** X7.  For a non-empty sample list the validator counts as validated
    exactly the samples that have audio data and whose analysis did not
    throw; it never reports overlapping velocity ranges (the layers it
    builds carry no velocity bounds); and it reports "Missing velocity
    range" for a root key exactly when two or more validated samples
    resolve to that root, so such an instrument is always invalid.  An
    empty list gives the single issue "No samples found". *)
Theorem validate_accounting (samples : list (@Sample AudioBuffer)) :
  let r := validateInstrument detectPitch samples in
  (samples = [] → r = {| status := Invalid; issues := [NoSamples]; samplesValidated := 0 |}) ∧
  (samples ≠ [] →
     samplesValidated r = length (omap (layerOf detectPitch) samples) ∧
     (∀ k, OverlappingVelocity k ∉ issues r) ∧
     (∀ k, MissingVelocity k ∈ issues r
           ↔ (2 ≤ length (filter (λ smp, sampleRoot detectPitch smp = Some k) samples))%nat) ∧
     (∀ k, (2 ≤ length (filter (λ smp, sampleRoot detectPitch smp = Some k) samples))%nat →
           status r = Invalid)).
Proof.
  intros r. split; [by intros ->|]. intros Hne. subst r.
  unfold validateInstrument. destruct samples as [|smp0 samples0] eqn:Es; [done|].
  rewrite <- Es. clear Hne.
  set (s0 := {| report := {| status := Valid; issues := []; samplesValidated := 0 |};
                layers := [] |}).
  set (s := foldl (sampleStep detectPitch) s0 samples).
  destruct (foldl_sampleStep_layers samples s0) as [Hlayers Hcount]. fold s in Hlayers, Hcount.
  cbn in Hlayers, Hcount.
  assert (Hloop : Forall (λ i, ∀ k, i ≠ MissingVelocity k ∧ i ≠ OverlappingVelocity k)
                         (issues (report s))).
  { apply foldl_sampleStep_issues. constructor. }
  assert (Hunb : Forall lacksBound (omap (layerOf detectPitch) samples)).
  { apply Forall_forall. intros layer (smp & _ & Hl)%list_elem_of_omap.
    by eapply layerOf_unbounded. }
  assert (Hover : ∀ k, OverlappingVelocity k ∉ check_issues (parseVelocityLayers (layers s))).
  { intros k Hin. destruct (issue_needs_two _ _ Hin) as [_ _].
    assert (Hg : OverlappingVelocity k ∈ groupIssues (k, rootLayers (layers s) k)).
    { rewrite <- issues_of_root. by apply list_elem_of_filter. }
    unfold groupIssues in Hg. cbn [fst snd] in Hg.
    destruct (1 <? length _)%nat; [|by apply elem_of_nil in Hg].
    rewrite overlapIssues_unbounded, app_nil_r in Hg.
    - destruct (missingVelocity _); [|by apply elem_of_nil in Hg].
      by apply list_elem_of_singleton in Hg.
    - unfold rootLayers. rewrite Hlayers. apply Forall_forall.
      intros x [_ Hx]%list_elem_of_filter. rewrite Forall_forall in Hunb. by apply Hunb. }
  assert (Hmiss : ∀ k, MissingVelocity k ∈ check_issues (parseVelocityLayers (layers s))
                       ↔ (2 ≤ length (filter (λ smp, sampleRoot detectPitch smp = Some k) samples))%nat).
  { intros k. rewrite missing_issue_iff, Hlayers, rootLayers_samples. split; [by intros [? _]|].
    intros Hlen. split; [done|].
    destruct (rootLayers (omap (layerOf detectPitch) samples) k) as [|layer rest] eqn:E.
    { pose proof (rootLayers_samples samples k) as Hl. rewrite E in Hl. cbn in Hl. lia. }
    exists layer. split; [apply elem_of_cons; by left|].
    rewrite Forall_forall in Hunb. apply Hunb.
    assert (Hin : layer ∈ rootLayers (omap (layerOf detectPitch) samples) k)
      by (rewrite E; apply elem_of_cons; by left).
    unfold rootLayers in Hin. by apply list_elem_of_filter in Hin as [_ ?]. }
  rewrite Forall_forall in Hloop.
  destruct (valid (parseVelocityLayers (layers s))) eqn:Ev.
  - assert (Hnil : check_issues (parseVelocityLayers (layers s)) = []).
    { unfold parseVelocityLayers in *. cbn [valid check_issues] in *.
      by apply bool_decide_eq_true in Ev. }
    split; [exact Hcount|]. split; [|split].
    + intros k Hin. by destruct (Hloop _ Hin k).
    + intros k. rewrite <- Hmiss, Hnil. split.
      * intros Hin. by destruct (Hloop _ Hin k).
      * by intros H%elem_of_nil.
    + intros k Hk. apply Hmiss in Hk. rewrite Hnil in Hk. by apply elem_of_nil in Hk.
  - cbn [samplesValidated issues status]. split; [exact Hcount|]. split; [|split].
    + intros k [Hin|Hin]%elem_of_app; [by destruct (Hloop _ Hin k)|by apply (Hover k)].
    + intros k. rewrite <- Hmiss, elem_of_app. split; [|by right].
      intros [Hin|Hin]; [by destruct (Hloop _ Hin k)|done].
    + done.
Qed.

End ValidateMore.

Lemma validate_accounting_witness :
  c9_samples ≠ [] ∧
  samplesValidated (validateInstrument c9_detectPitch c9_samples) = 1%nat.
Proof.
  split; [discriminate|].
  refine (proj1 (proj2 (validate_accounting c9_detectPitch c9_samples) _)). discriminate.
Defined.

(** *** Pitch from a file name *)

(** X8.  A pitch read from a file name is (octave + 1) * 12 plus a
    semitone 0..11 with a one-digit octave: never below 12, and up to
    131, beyond the MIDI range. *)
Theorem extractPitchFromFilename_bounds (filename : jsstring) n :
  extractPitchFromFilename filename = Some n → 12 ≤ n ≤ 131.
Proof.
  assert (Hd : ∀ d, isDigit d = true → 0 ≤ digitVal d ≤ 9).
  { intros d. unfold isDigit, digitVal. rewrite andb_true_iff, !Z.leb_le. lia. }
  assert (Hm : ∀ c b, 0 ≤ noteMap c b ≤ 11).
  { intros c b. unfold noteMap.
    destruct (Z.of_N (N_of_ascii c)) as [|p|p]; [destruct b; lia| |destruct b; lia].
    do 7 (destruct p as [p|p|]; try (destruct b; lia)). }
  induction filename as [|c rest IH]; [done|]. cbn [extractPitchFromFilename].
  destruct (isNoteLetter c); [|exact IH].
  destruct rest as [|a [|d rest']].
  - done.
  - destruct (isDigit a) eqn:Ea; [|exact IH].
    intros [= <-]. specialize (Hd a Ea). specialize (Hm (toUpper c) false). lia.
  - destruct ((bool_decide (a = "#"%char) || bool_decide (a = "b"%char)) && isDigit d) eqn:E1.
    + apply andb_true_iff in E1 as [_ Ed]. intros [= <-]. specialize (Hd d Ed).
      specialize (Hm (toUpper c) true). destruct (bool_decide (a = "#"%char)); lia.
    + destruct (isDigit a) eqn:Ea; [|exact IH].
      intros [= <-]. specialize (Hd a Ea). specialize (Hm (toUpper c) false). lia.
Qed.

Lemma extractPitchFromFilename_bounds_witness :
  extractPitchFromFilename (str "Piano_C3.wav") = Some 48 ∧ 12 ≤ 48 ≤ 131.
Proof.
  split; [reflexivity|].
  apply (extractPitchFromFilename_bounds (str "Piano_C3.wav") 48). reflexivity.
Defined.

End ValidatorMoreFacts.

Module ReaderFacts.
Import Xml Codec CodecTerms CodecFacts ReaderTerms.

Lemma lastPart_plain s acc :
  Forall (λ c, isSeparator c = false) s → lastPart s acc = acc ++ s.
Proof.
  intros Hs. revert acc. induction Hs as [|c s Hc Hs IH]; intros acc.
  { by rewrite app_nil_r. }
  cbn [lastPart]. unfold isSeparator in Hc. rewrite Hc.
  rewrite IH, <- app_assoc. done.
Qed.

Lemma lastPart_after pre c s acc :
  isSeparator c = true → lastPart (pre ++ c :: s) acc = lastPart s [].
Proof.
  intros Hc. revert acc. induction pre as [|x pre IH]; intros acc.
  - cbn [app lastPart]. unfold isSeparator in Hc. by rewrite Hc.
  - cbn [app lastPart]. destruct (_ || _); apply IH.
Qed.

Lemma lastPart_clean s acc :
  Forall (λ c, isSeparator c = false) acc →
  Forall (λ c, isSeparator c = false) (lastPart s acc).
Proof.
  revert acc. induction s as [|c s IH]; intros acc Hacc; [done|].
  cbn [lastPart]. destruct (bool_decide (c = "/"%char) || bool_decide (c = "\"%char)) eqn:E.
  - apply IH. constructor.
  - apply IH. apply Forall_app. split; [done|]. by repeat constructor.
Qed.

Lemma lastPart_suffix s acc : ∃ pre, acc ++ s = pre ++ lastPart s acc.
Proof.
  revert acc. induction s as [|c s IH]; intros acc.
  { exists []. by rewrite app_nil_r. }
  cbn [lastPart]. destruct (_ || _).
  - destruct (IH []) as [pre Hpre]. exists (acc ++ c :: pre).
    rewrite <- app_assoc. cbn [app]. by rewrite <- Hpre.
  - destruct (IH (acc ++ [c])) as [pre Hpre]. exists pre.
    rewrite <- Hpre, <- app_assoc. done.
Qed.

Lemma cleanChar_plain c : isSeparator (cleanChar c) = false.
Proof.
  unfold cleanChar. case_bool_decide as Hc; [done|].
  unfold isSeparator. apply orb_false_iff.
  split; apply bool_decide_eq_false; intros ->; apply Hc;
    apply (bool_decide_unpack _); vm_compute; exact I.
Qed.

(** X9.  [extractFilenameFromPath] returns the part of the path behind
    its last slash or backslash: a suffix of the path without any
    separator, the path itself when it has none.  Applied to a path made
    by [formatSamplePath] with relative paths on, it gives back the
    sample name with its forbidden characters replaced, whatever the
    output directory. *)
Theorem extractFilename_of_formatted (options : XPMOptions) (path name : jsstring) :
  Forall (λ c, isSeparator c = false) (extractFilenameFromPath path) ∧
  (∃ pre, path = pre ++ extractFilenameFromPath path) ∧
  (Forall (λ c, isSeparator c = false) path → extractFilenameFromPath path = path) ∧
  (useRelativePaths options = true →
     extractFilenameFromPath (formatSamplePath options name) = cleanChar <$> name).
Proof.
  unfold extractFilenameFromPath. split; [by apply lastPart_clean|]. split; [|split].
  - destruct (lastPart_suffix path []) as [pre Hpre]. by exists pre.
  - intros Hp. by rewrite lastPart_plain.
  - intros Hrel. unfold formatSamplePath. rewrite Hrel.
    assert (Hclean : Forall (λ c, isSeparator c = false) (cleanChar <$> name)).
    { apply Forall_fmap, Forall_forall. intros c _. apply cleanChar_plain. }
    destruct (outputDirectory options) as [[|? ?]|].
    + change (str "samples/" ++ ?x) with (str "samples" ++ "/"%char :: x).
      rewrite lastPart_after by done. by rewrite lastPart_plain.
    + change (str "./samples/" ++ ?x) with (str "./samples" ++ "/"%char :: x).
      rewrite lastPart_after by done. by rewrite lastPart_plain.
    + change (str "samples/" ++ ?x) with (str "samples" ++ "/"%char :: x).
      rewrite lastPart_after by done. by rewrite lastPart_plain.
Qed.

Lemma extractFilename_of_formatted_witness :
  useRelativePaths c2_options = true ∧
  extractFilenameFromPath (formatSamplePath c2_options (str "kits/Piano_C4.wav"))
  = str "kits_Piano_C4.wav".
Proof.
  split; [reflexivity|].
  exact (proj2 (proj2 (proj2
    (extractFilename_of_formatted c2_options [] (str "kits/Piano_C4.wav")))) eq_refl).
Defined.

Lemma unique_spec l seen :
  NoDup (unique l seen) ∧ ∀ x, x ∈ unique l seen ↔ x ∈ l ∧ x ∉ seen.
Proof.
  revert seen. induction l as [|y l IH]; intros seen.
  { split; [constructor|]. intros x. split; [by intros H%elem_of_nil|].
    by intros [H%elem_of_nil _]. }
  cbn [unique]. case_bool_decide as Hy.
  - destruct (IH seen) as [Hnd Hin]. split; [done|]. intros x. rewrite Hin, elem_of_cons.
    split; [by intros [? ?]; split; [right|]|]. intros [[->|?] ?]; done.
  - destruct (IH (seen ++ [y])) as [Hnd Hin]. split.
    + constructor; [|done]. rewrite Hin, elem_of_app, list_elem_of_singleton. intros [_ H].
      apply H. by right.
    + intros x. rewrite elem_of_cons, Hin, elem_of_app, list_elem_of_singleton, elem_of_cons.
      split.
      * intros [->|[? Hn]]; [by split; [left|]|]. split; [by right|]. intros ?. apply Hn. by left.
      * intros [[->|Hl] Hs]; [by left|]. destruct (decide (x = y)) as [->|Hne]; [by left|].
        right. split; [done|]. by intros [?|?].
Qed.

(** X10.  Whatever instrument document the reader accepts, the program
    it returns has a non-empty name, and its sample list holds exactly
    the paths that occur in its zones, each once, in order of first
    occurrence, each with the file part of the path as its name. *)
Theorem reader_sample_list (content : jsstring) (program : XPMProgram) :
  parseXPMContent content = Returned program → prog_isDrumkit program = false →
  prog_name program ≠ [] ∧
  NoDup (xs_path <$> prog_samples program) ∧
  (∀ sample, sample ∈ prog_samples program →
     xs_name sample = extractFilenameFromPath (xs_path sample)) ∧
  (∀ path, path ∈ xs_path <$> prog_samples program
           ↔ ∃ keygroup zone, keygroup ∈ prog_keygroups program ∧ zone ∈ zones keygroup ∧
                              xs_path (z_sample zone) = path).
Proof.
  unfold parseXPMContent. destruct (parse content) as [rootElement|]; [|done].
  case_bool_decide; [done|]. intros [= <-]. cbn [prog_isDrumkit prog_name prog_samples prog_keygroups].
  intros Hdrum. rewrite Hdrum.
  set (keygroups := extractKeygroups rootElement).
  set (allZones := mjoin (zones <$> keygroups)).
  destruct (unique_spec ((λ z, xs_path (z_sample z)) <$> allZones) []) as [Hnd Hin].
  assert (Hpaths : xs_path <$>
            ((λ path, {| xs_name := extractFilenameFromPath path; xs_path := path |})
             <$> unique ((λ z, xs_path (z_sample z)) <$> allZones) [])
          = unique ((λ z, xs_path (z_sample z)) <$> allZones) []).
  { rewrite <- list_fmap_compose. generalize (unique ((λ z, xs_path (z_sample z)) <$> allZones) []).
    intros l. induction l as [|x l IH]; [done|]. rewrite fmap_cons. by f_equal. }
  split; [|split; [|split]].
  - unfold orElse. by destruct (getAttribute rootElement _) as [[|c n]|].
  - by rewrite Hpaths.
  - intros sample (path & -> & _)%list_elem_of_fmap. done.
  - intros path. rewrite Hpaths, Hin. split.
    + intros [(zone & -> & Hz)%list_elem_of_fmap _].
      apply list_elem_of_join in Hz as (zs & Hzone & (kg & -> & Hkg)%list_elem_of_fmap).
      by exists kg, zone.
    + intros (kg & zone & Hkg & Hzone & <-). split; [|by intros H0%elem_of_nil].
      apply list_elem_of_fmap. exists zone. split; [done|].
      apply list_elem_of_join. exists (zones kg). split; [done|].
      apply list_elem_of_fmap. by exists kg.
Qed.

Lemma reader_sample_list_witness :
  ∃ program,
    parseXPMContent (generateInstrumentXPM c2_options c2_mapping) = Returned program ∧
    prog_isDrumkit program = false ∧
    NoDup (xs_path <$> prog_samples program).
Proof.
  eexists. split; [vm_compute; reflexivity|]. split; [reflexivity|].
  refine (proj1 (proj2 (reader_sample_list
    (generateInstrumentXPM c2_options c2_mapping) _ _ _))).
  - vm_compute. reflexivity.
  - reflexivity.
Defined.

End ReaderFacts.

(** ** 32-bit operators on small values *)

Lemma toInt32_small z : - 2147483648 ≤ z < 2147483648 → toInt32 z = z.
Proof.
  intros Hz. unfold toInt32. change (2 ^ 31) with 2147483648.
  change (2 ^ 32) with 4294967296. rewrite Z.mod_small; lia.
Qed.

Lemma land_shifted_low a x n :
  0 ≤ n → 0 ≤ x < 2 ^ n → Z.land (a * 2 ^ n) x = 0.
Proof.
  intros Hn Hx. apply Z.bits_inj'. intros i Hi.
  rewrite Z.land_spec, Z.bits_0.
  destruct (Z.lt_ge_cases i n) as [Hlt|Hge].
  - by rewrite Z.mul_pow2_bits_low.
  - rewrite andb_false_iff. right.
    destruct (Z.eq_dec x 0) as [->|Hx0]; [apply Z.bits_0|].
    apply Z.bits_above_log2; [lia|].
    apply Z.log2_lt_pow2; [lia|]. 
    apply Z.lt_le_trans with (2 ^ n); [lia|]. apply Z.pow_le_mono_r; lia.
Qed.

Lemma lor_shifted_low a x n :
  0 ≤ n → 0 ≤ x < 2 ^ n → Z.lor (a * 2 ^ n) x = a * 2 ^ n + x.
Proof.
  intros Hn Hx. pose proof (Z.add_lor_land (a * 2 ^ n) x) as H.
  rewrite (land_shifted_low a x n Hn Hx) in H. lia.
Qed.

(** One step of the variable-length loop on a value that still fits. *)
Lemma varLen_step acc x :
  0 ≤ acc < 2 ^ 21 → 0 ≤ x < 128 → bor (shl acc 7) x = acc * 128 + x.
Proof.
  intros Hacc Hx. unfold bor, shl. rewrite Z.shiftl_mul_pow2 by lia.
  change (2 ^ 21) with 2097152 in Hacc.
  rewrite (toInt32_small (acc * 2 ^ 7)) by (change (2 ^ 7) with 128; lia).
  rewrite (lor_shifted_low acc x 7) by (change (2 ^ 7) with 128; lia).
  change (2 ^ 7) with 128. apply toInt32_small. lia.
Qed.

Lemma land_127 b : 0 ≤ Z.land (byteVal b) 0x7f < 128.
Proof.
  change 0x7f with (Z.ones 7). rewrite Z.land_ones by lia.
  apply Z.mod_pos_bound. lia.
Qed.

Module DecoderFacts.
Import Midi MidiTerms MidiFacts DecoderTerms.

Lemma vlq_bound (bs : list Byte.byte) acc :
  0 ≤ acc →
  0 ≤ foldl (λ acc b, acc * 128 + Z.land (byteVal b) 0x7f) acc bs
  < (acc + 1) * 128 ^ Z.of_nat (length bs).
Proof.
  revert acc. induction bs as [|b bs IH]; intros acc Hacc.
  { cbn. lia. }
  cbn [foldl length]. pose proof (land_127 b) as Hb.
  specialize (IH (acc * 128 + Z.land (byteVal b) 127) ltac:(lia)).
  rewrite Nat2Z.inj_succ, Z.pow_succ_r by lia.
  split; [lia|]. eapply Z.lt_le_trans; [apply IH|].
  assert (0 < 128 ^ Z.of_nat (length bs)) by (apply Z.pow_pos_nonneg; lia). nia.
Qed.

Lemma varLenFrom_spec body acc reads :
  Forall (λ b, continues b = true) body →
  0 ≤ acc → (acc + 1) * 128 ^ Z.of_nat (length body) ≤ 2 ^ 21 →
  (∀ last rest, continues last = false →
     varLenFrom (body ++ last :: rest) acc reads
     = (foldl (λ acc b, acc * 128 + Z.land (byteVal b) 0x7f) acc (body ++ [last]),
        reads + Z.of_nat (length body) + 1)) ∧
  varLenFrom body acc reads
  = (foldl (λ acc b, acc * 128 + Z.land (byteVal b) 0x7f) acc body * 128,
     reads + Z.of_nat (length body) + 1).
Proof.
  intros Hbody. revert acc reads.
  induction Hbody as [|b body Hb Hbody IH]; intros acc reads Hacc Hfit.
  - cbn [length Z.of_nat] in Hfit. rewrite Z.pow_0_r in Hfit. split.
    + intros last rest Hlast. cbn [app varLenFrom foldl length].
      unfold continues in Hlast. apply negb_false_iff in Hlast. rewrite Hlast.
      rewrite varLen_step by (pose proof (land_127 last); lia).
      f_equal. cbn. lia.
    + cbn [varLenFrom foldl length]. rewrite varLen_step by lia. f_equal; cbn; lia.
  - cbn [length] in Hfit. rewrite Nat2Z.inj_succ, Z.pow_succ_r in Hfit by lia.
    assert (0 < 128 ^ Z.of_nat (length body)) by (apply Z.pow_pos_nonneg; lia).
    pose proof (land_127 b) as Hb7.
    assert (Hstep : bor (shl acc 7) (Z.land (byteVal b) 127) = acc * 128 + Z.land (byteVal b) 127).
    { apply varLen_step; [nia|done]. }
    destruct (IH (acc * 128 + Z.land (byteVal b) 127) (reads + 1)) as [IH1 IH2]; [lia|nia|].
    unfold continues in Hb. apply negb_true_iff in Hb.
    split.
    + intros last rest Hlast. cbn [app varLenFrom foldl length]. rewrite Hb, Hstep.
      rewrite (IH1 last rest Hlast). f_equal. lia.
    + cbn [varLenFrom foldl length]. rewrite Hb, Hstep, IH2. f_equal. lia.
Qed.

(** X11.  [readVarLen] decodes a MIDI variable-length quantity of up to
    four bytes (up to three bytes with the high bit set, then one
    without) as seven bits per byte, most significant first, and moves
    just past it; the value is below 2^28.  When the data ends inside
    the quantity, the missing byte counts as 0 and the position moves one
    past the end of the data. *)
Theorem readVarLen_decodes (pre body : list Byte.byte) :
  Forall (λ b, continues b = true) body → (length body ≤ 3)%nat →
  (∀ last rest, continues last = false →
     readVarLen (pre ++ body ++ last :: rest) (Z.of_nat (length pre))
     = (vlqValue (body ++ [last]), Z.of_nat (length pre + length body + 1)) ∧
     0 ≤ vlqValue (body ++ [last]) < 2 ^ 28) ∧
  readVarLen (pre ++ body) (Z.of_nat (length pre))
  = (vlqValue body * 128, Z.of_nat (length (pre ++ body)) + 1).
Proof.
  intros Hbody Hlen.
  assert (Hfit : (0 + 1) * 128 ^ Z.of_nat (length body) ≤ 2 ^ 21).
  { rewrite Z.mul_1_l. change (2 ^ 21) with (128 ^ 3). apply Z.pow_le_mono_r; lia. }
  destruct (varLenFrom_spec body 0 0 Hbody ltac:(lia) Hfit) as [H1 H2].
  assert (Hdrop : ∀ x : list Byte.byte,
            (if Z.of_nat (length pre) <? 0 then [] else drop (Z.to_nat (Z.of_nat (length pre))) (pre ++ x)) = x).
  { intros x. rewrite (proj2 (Z.ltb_ge _ _)) by lia. by rewrite Nat2Z.id, drop_app_length. }
  split.
  - intros last rest Hlast. split.
    + unfold readVarLen. rewrite Hdrop, (H1 last rest Hlast). unfold vlqValue. f_equal. lia.
    + pose proof (vlq_bound (body ++ [last]) 0 ltac:(lia)) as Hb. unfold vlqValue.
      rewrite length_app in Hb. cbn [length] in Hb.
      split; [lia|]. eapply Z.lt_le_trans; [apply Hb|].
      rewrite Z.mul_1_l. change (2 ^ 28) with (128 ^ 4). apply Z.pow_le_mono_r; lia.
  - unfold readVarLen. rewrite Hdrop, H2. unfold vlqValue. f_equal. rewrite length_app. lia.
Qed.

Lemma readVarLen_decodes_witness :
  Forall (λ b, continues b = true) (bytes [0x83]) ∧
  continues Byte.x60 = false ∧
  readVarLen (bytes [0x83; 0x60; 0x80]) 0 = (480, 2).
Proof.
  assert (H : Forall (λ b, continues b = true) (bytes [0x83])) by (by repeat constructor).
  split; [exact H|]. split; [reflexivity|].
  refine (proj1 (proj1 (readVarLen_decodes [] (bytes [0x83]) H _) Byte.x60 [Byte.x80] eq_refl)).
  simpl. lia.
Defined.

(** *** The file header and the track list *)

Lemma fromCharCode_byte b : fromCharCode (Some (byteVal b)) = ascii_of_byte b.
Proof. destruct b; reflexivity. Qed.

Lemma byteVal_bound b : 0 ≤ byteVal b < 256.
Proof. destruct b; vm_compute; split; congruence. Qed.

Lemma header_id data :
  chunk_id (readChunk data 0) = str "MThd" ↔ ∃ rest, data = mthd ++ rest.
Proof.
  assert (Hchar : ∀ b c, fromCharCode (Some (byteVal b)) = c → b = byte_of_ascii c).
  { intros b c <-. by rewrite fromCharCode_byte, byte_of_ascii_of_byte. }
  unfold readChunk. cbn [chunk_id]. split.
  - destruct data as [|b0 [|b1 [|b2 [|b3 rest]]]]; cbn; try (intros [= ?]; done).
    intros [= H0 H1 H2 H3].
    apply Hchar in H0 as ->. apply Hchar in H1 as ->.
    apply Hchar in H2 as ->. apply Hchar in H3 as ->. by exists rest.
  - by intros [rest ->].
Qed.

Lemma getUint16_bound buf offset v : getUint16 buf offset = Some v → 0 ≤ v < 65536.
Proof.
  unfold getUint16. destruct (buf !! offset) as [hi|]; [|done].
  destruct (buf !! S offset) as [lo|]; [|done]. intros [= <-].
  pose proof (byteVal_bound hi). pose proof (byteVal_bound lo). lia.
Qed.

Lemma parseTracks_spec fuel data remaining pos tracks ts :
  parseTracks fuel data remaining pos tracks = Returned ts →
  ∃ new, ts = tracks ++ new ∧ (length new ≤ remaining)%nat ∧ Forall derived new ∧
         (Z.of_nat (length data) ≤ pos → new = []).
Proof.
  revert pos tracks. induction remaining as [|remaining IH]; intros pos tracks.
  { cbn. intros [= <-]. exists []. by rewrite app_nil_r. }
  cbn [parseTracks]. destruct (Z.leb_spec (Z.of_nat (length data)) pos) as [Hend|Hmore].
  { intros [= <-]. exists []. rewrite app_nil_r. split; [done|]. split; [cbn; lia|done]. }
  case_decide; [|done].
  destruct (parseTrackEvents fuel (chunk_data (readChunk data pos))) as [evs|]; [|done].
  intros (new & -> & Hlen & Hnew & _)%IH.
  eexists (_ :: new). rewrite <- app_assoc. split; [done|]. split; [cbn; lia|].
  split; [by constructor|]. lia.
Qed.

(** X12.  A file that does not begin with the four bytes "MThd" (an
    empty or shorter file included) is rejected with "Invalid MIDI file:
    missing MThd header".  Whenever the decoder returns, the file begins
    with "MThd", the three header fields are unsigned 16-bit values, the
    track list is no longer than the header's track count, each track's
    notes and name are derived from its own events, and there is no
    track at all when the data ends with the header chunk. *)
Theorem parseMIDIData_header (fuel : nat) (data : list Byte.byte) :
  ((∀ rest, data ≠ mthd ++ rest) →
     parseMIDIData fuel data = Thrown (str "Invalid MIDI file: missing MThd header")) ∧
  (∀ d, parseMIDIData fuel data = Returned d →
     (∃ rest, data = mthd ++ rest) ∧
     0 ≤ format (header d) < 65536 ∧
     0 ≤ numTracks (header d) < 65536 ∧
     0 ≤ ticksPerBeat (header d) < 65536 ∧
     (length (tracks d) ≤ Z.to_nat (numTracks (header d)))%nat ∧
     Forall derived (tracks d) ∧
     (Z.of_nat (length data) ≤ 8 + chunk_length (readChunk data 0) → tracks d = [])).
Proof.
  unfold parseMIDIData. split.
  - intros Hno. rewrite decide_False; [done|]. intros (rest & ->)%header_id. by apply (Hno rest).
  - intros d. case_decide as Hid; [|done]. apply header_id in Hid.
    destruct (getUint16 _ 0) as [fmt|] eqn:E0; [|done].
    destruct (getUint16 _ 2) as [n|] eqn:E2; [|done].
    destruct (getUint16 _ 4) as [tpb|] eqn:E4; [|done].
    destruct (parseTracks _ _ _ _ _) as [ts| |] eqn:Et; [|done|done].
    intros [= <-]. cbn [header tracks format numTracks ticksPerBeat].
    apply parseTracks_spec in Et as (new & -> & Hlen & Hnew & Hend).
    split; [exact Hid|]. split; [by eapply getUint16_bound|].
    split; [by eapply getUint16_bound|]. split; [by eapply getUint16_bound|].
    split; [done|]. split; [done|]. intros Hshort. apply Hend. lia.
Qed.

Lemma parseMIDIData_header_witness :
  (∀ rest, x12_file ≠ mthd ++ rest) ∧
  parseMIDIData 0 x12_file = Thrown (str "Invalid MIDI file: missing MThd header").
Proof.
  assert (H : ∀ rest, x12_file ≠ mthd ++ rest) by (intros rest E; discriminate E).
  split; [exact H|]. exact (proj1 (parseMIDIData_header 0 x12_file) H).
Defined.

(** *** Notes from events *)

Section MapFacts.
Context {K V : Type} `{EqDecision K}.

Lemma map_set_elem (k : K) (v : V) m x : x ∈ map_set k v m → x = (k, v) ∨ x ∈ m.
Proof.
  induction m as [|[k' v'] m IH]; cbn [map_set].
  { intros ->%list_elem_of_singleton. by left. }
  destruct (decide (k' = k)) as [->|Hne].
  - intros [->|Hx]%elem_of_cons; [by left|]. right. apply elem_of_cons. by right.
  - intros [->|Hx]%elem_of_cons; [right; apply elem_of_cons; by left|].
    destruct (IH Hx) as [->|Hm]; [by left|]. right. apply elem_of_cons. by right.
Qed.

Lemma map_set_length (k : K) (v : V) m : (length (map_set k v m) ≤ S (length m))%nat.
Proof.
  induction m as [|[k' v'] m IH]; cbn [map_set]; [done|].
  destruct (decide (k' = k)); cbn [length]; lia.
Qed.

Lemma map_delete_elem (k : K) (m : list (K * V)) x : x ∈ map_delete k m → x ∈ m.
Proof.
  induction m as [|[k' v'] m IH]; cbn [map_delete]; [done|].
  destruct (decide (k' = k)).
  - intros Hx. apply elem_of_cons. by right.
  - intros [->|Hx]%elem_of_cons; apply elem_of_cons; [by left|right; by apply IH].
Qed.

Lemma map_delete_length (k : K) (m : list (K * V)) v :
  map_get k m = Some v → S (length (map_delete k m)) = length m.
Proof.
  induction m as [|[k' v'] m IH]; cbn [map_get map_delete]; [done|].
  destruct (decide (k' = k)); [done|]. intros Hg. cbn [length]. by rewrite IH.
Qed.

End MapFacts.

Lemma notesInv_step seen s e : notesInv seen s → notesInv (seen ++ [e]) (noteStep s e).
Proof.
  intros [Hcount Hclosed Hactive Htime].
  assert (Hseen : ∀ x, x ∈ seen → x ∈ seen ++ [e]) by (intros; apply elem_of_app; by left).
  assert (Hdelta : Forall (λ e, 0 ≤ deltaTime e) (seen ++ [e]) →
                   Forall (λ e, 0 ≤ deltaTime e) seen ∧ 0 ≤ deltaTime e).
  { intros H. apply Forall_app in H as [H1 H2]. split; [exact H1|]. by inversion H2. }
  assert (Hold_closed : ∀ n, n ∈ closed s →
      (∃ dt, NoteOn dt (channel n) (Some (note n)) (Some (velocity n)) ∈ seen ++ [e]) ∧
      (Forall (λ e, 0 ≤ deltaTime e) (seen ++ [e]) → 0 ≤ time n ∧ 0 ≤ duration n)).
  { intros n Hn. destruct (Hclosed n Hn) as [[dt Hdt] Hpos]. split; [exists dt; auto|].
    intros [Hd _]%Hdelta. auto. }
  assert (Hold_active : ∀ x, x ∈ activeNotes s →
      (∃ dt, NoteOn dt (a_channel x.2) (Some (a_note x.2)) (Some (a_velocity x.2)) ∈ seen ++ [e]) ∧
      (Forall (λ e, 0 ≤ deltaTime e) (seen ++ [e]) →
         0 ≤ a_time x.2 ≤ currentTime s + deltaTime e)).
  { intros x Hx. destruct (Hactive x Hx) as [[dt Hdt] Hpos]. split; [exists dt; auto|].
    intros [Hd He]%Hdelta. specialize (Hpos Hd). lia. }
  assert (Hcount' : ∀ b, isNoteOn e = b →
      length (filter (λ e, isNoteOn e = true) (seen ++ [e]))
      = (length (filter (λ e, isNoteOn e = true) seen) + (if b then 1 else 0))%nat).
  { intros b Hb. rewrite filter_app, length_app. f_equal.
    destruct b; [by rewrite filter_cons_True|rewrite filter_cons_False; [done|congruence]]. }
  assert (Hidle : notesInv (seen ++ [e])
            {| currentTime := currentTime s + deltaTime e; closed := closed s;
               activeNotes := activeNotes s |}).
  { constructor; cbn [closed activeNotes currentTime].
    - rewrite (Hcount' (isNoteOn e) eq_refl). lia.
    - exact Hold_closed.
    - exact Hold_active.
    - intros [Hd He]%Hdelta. specialize (Htime Hd). lia. }
  destruct e as [dt ch n v|dt ch n v| | | | | | | | | | | |]; try exact Hidle.
  - (* note off *)
    destruct n as [n|]; [|exact Hidle]. cbn [noteStep].
    destruct (map_get (n, ch) (activeNotes s)) as [start|] eqn:Eg; [|exact Hidle].
    pose proof (map_get_elem _ _ _ Eg) as Hin.
    constructor; cbn [closed activeNotes currentTime deltaTime].
    + rewrite (Hcount' false eq_refl), length_app. cbn [length].
      pose proof (map_delete_length _ _ _ Eg). lia.
    + intros x [Hx|Hx]%elem_of_app; [by apply Hold_closed|].
      apply list_elem_of_singleton in Hx as ->. cbn [channel note velocity time duration].
      destruct (Hold_active _ Hin) as [Ho Hpos]. split; [exact Ho|].
      intros Hd. specialize (Hpos Hd). cbn [snd deltaTime] in Hpos. lia.
    + intros x Hx%map_delete_elem. by apply Hold_active.
    + intros [Hd He]%Hdelta. specialize (Htime Hd). cbn [deltaTime] in He. lia.
  - (* note on *)
    destruct n as [n|]; [|exact Hidle]. destruct v as [v|]; [|exact Hidle]. cbn [noteStep].
    constructor; cbn [closed activeNotes currentTime deltaTime].
    + rewrite (Hcount' true eq_refl). pose proof (map_set_length (n, ch)
        {| a_note := n; a_velocity := v; a_time := currentTime s + dt; a_channel := ch |}
        (activeNotes s)). lia.
    + exact Hold_closed.
    + intros x [->|Hx]%map_set_elem; [|by apply Hold_active].
      cbn [snd a_channel a_note a_velocity a_time]. split.
      * exists dt. apply elem_of_app. right. by apply list_elem_of_singleton.
      * intros [Hd He]%Hdelta. specialize (Htime Hd). cbn [deltaTime] in He. lia.
    + intros [Hd He]%Hdelta. specialize (Htime Hd). cbn [deltaTime] in He. lia.
Qed.

Lemma notesInv_foldl events seen s :
  notesInv seen s → notesInv (seen ++ events) (foldl noteStep s events).
Proof.
  revert seen s. induction events as [|e events IH]; intros seen s Hs.
  { by rewrite app_nil_r. }
  cbn [foldl]. replace (seen ++ e :: events) with ((seen ++ [e]) ++ events)
    by (by rewrite <- app_assoc).
  by apply IH, notesInv_step.
Qed.

(** X13.  [extractNotes] yields at most one note per note-on event it
    takes up (a repeated note-on for a key that is still sounding
    replaces the pending one); every note it yields carries the key,
    velocity and channel of a note-on event of the track; and when no
    delta time is negative, every note has a start time and a duration
    that are not negative. *)
Theorem extractNotes_sound (events : list MIDIEvent) :
  (length (extractNotes events) ≤ length (filter (λ e, isNoteOn e = true) events))%nat ∧
  (∀ n, n ∈ extractNotes events →
     ∃ dt, NoteOn dt (channel n) (Some (note n)) (Some (velocity n)) ∈ events) ∧
  (Forall (λ e, 0 ≤ deltaTime e) events →
     ∀ n, n ∈ extractNotes events → 0 ≤ time n ∧ 0 ≤ duration n).
Proof.
  unfold extractNotes.
  set (s0 := {| currentTime := 0; closed := []; activeNotes := [] |}).
  assert (H0 : notesInv [] s0).
  { constructor; cbn; [lia| | |done]; by intros ? ?%elem_of_nil. }
  destruct (notesInv_foldl events [] s0 H0) as [Hcount Hclosed Hactive Htime].
  cbn [app] in *. set (s := foldl noteStep s0 events) in *.
  split; [by rewrite length_app, length_fmap|]. split.
  - intros n [Hn|Hn]%elem_of_app; [by apply Hclosed|].
    apply list_elem_of_fmap in Hn as (x & -> & Hx). by apply Hactive.
  - intros Hd n [Hn|Hn]%elem_of_app; [by apply Hclosed|].
    apply list_elem_of_fmap in Hn as (x & -> & Hx).
    destruct (Hactive x Hx) as [_ Hpos]. specialize (Hpos Hd).
    cbn [time duration]. lia.
Qed.

Lemma extractNotes_sound_witness :
  Forall (λ e, 0 ≤ deltaTime e) c3_events ∧
  ∀ n, n ∈ extractNotes c3_events → 0 ≤ time n ∧ 0 ≤ duration n.
Proof.
  assert (H : Forall (λ e, 0 ≤ deltaTime e) c3_events) by (repeat constructor; simpl; lia).
  split; [exact H|]. exact (proj2 (proj2 (extractNotes_sound c3_events)) H).
Defined.

(** *** Termination of the track loop *)

Lemma run_split bs :
  ∃ body tail, bs = body ++ tail ∧ Forall (λ b, continues b = true) body ∧
               length body = runLength bs ∧
               (tail = [] ∨ ∃ last rest, tail = last :: rest ∧ continues last = false).
Proof.
  induction bs as [|b bs (body & tail & -> & Hbody & Hlen & Htail)].
  { exists [], []. split; [done|]. split; [constructor|]. split; [done|by left]. }
  cbn [runLength]. destruct (continues b) eqn:Eb.
  - exists (b :: body), tail. split; [done|]. split; [by constructor|].
    split; [cbn; by rewrite Hlen|done].
  - exists [], (b :: body ++ tail). split; [done|]. split; [constructor|]. split; [done|].
    right. by exists b, (body ++ tail).
Qed.

Lemma readVarLen_advances data p :
  noLongRun data → 0 ≤ p → 0 ≤ (readVarLen data p).1 ∧ p < (readVarLen data p).2.
Proof.
  intros Hrun Hp. unfold readVarLen. rewrite (proj2 (Z.ltb_ge _ _)) by lia.
  specialize (Hrun (Z.to_nat p)).
  destruct (run_split (drop (Z.to_nat p) data)) as (body & tail & Heq & Hbody & Hlen & Htail).
  rewrite <- Hlen in Hrun. rewrite Heq.
  assert (Hfit : (0 + 1) * 128 ^ Z.of_nat (length body) ≤ 2 ^ 21).
  { rewrite Z.mul_1_l. change (2 ^ 21) with (128 ^ 3). apply Z.pow_le_mono_r; lia. }
  destruct (varLenFrom_spec body 0 0 Hbody ltac:(lia) Hfit) as [H1 H2].
  destruct Htail as [->|(last & rest & -> & Hlast)].
  - rewrite app_nil_r, H2. cbn [fst snd].
    pose proof (vlq_bound body 0 ltac:(lia)). lia.
  - rewrite (H1 last rest Hlast). cbn [fst snd].
    pose proof (vlq_bound (body ++ [last]) 0 ltac:(lia)). lia.
Qed.

Lemma parseEvent_advances data st :
  noLongRun data → 0 ≤ pos st → pos st < pos (parseEvent data st).
Proof.
  intros Hrun Hpos. unfold parseEvent, readStatus.
  pose proof (readVarLen_advances data (pos st) Hrun Hpos) as [_ Hp1].
  destruct (readVarLen data (pos st)) as [dt p1]. cbn [fst snd] in Hp1.
  destruct (Z.land (int (get data p1)) 128 =? 0);
    repeat (match goal with
            | |- context [if ?c then _ else _] => destruct c
            end; cbn [pos]; try lia);
    match goal with
    | |- context [readVarLen data ?q] =>
        pose proof (readVarLen_advances data q Hrun ltac:(lia)) as [Hlen Hq];
        destruct (readVarLen data q) as [len p2]; cbn [fst snd pos] in *; lia
    end.
Qed.

Lemma parseLoop_terminates data fuel st :
  noLongRun data → 0 ≤ pos st → Z.of_nat (length data) - pos st ≤ Z.of_nat fuel →
  ∃ st', parseLoop fuel data st = Some st'.
Proof.
  intros Hrun. revert st. induction fuel as [|fuel IH]; intros st Hpos Hfuel.
  - cbn [parseLoop]. rewrite (proj2 (Z.ltb_ge _ _)) by lia. by eexists.
  - cbn [parseLoop]. destruct (Z.ltb_spec (pos st) (Z.of_nat (length data))); [|by eexists].
    pose proof (parseEvent_advances data st Hrun Hpos). apply IH; lia.
Qed.

Lemma parseLoop_mono data fuel fuel' st st' :
  parseLoop fuel data st = Some st' → (fuel ≤ fuel')%nat → parseLoop fuel' data st = Some st'.
Proof.
  revert fuel' st. induction fuel as [|fuel IH]; intros fuel' st H Hle.
  - cbn [parseLoop] in H. destruct (pos st <? _) eqn:E; [done|].
    destruct fuel'; cbn [parseLoop]; by rewrite E.
  - destruct fuel' as [|fuel']; [lia|]. cbn [parseLoop] in *.
    destruct (pos st <? _); [|done]. apply IH; [done|lia].
Qed.

Lemma looping_event st : pos st = 0 → pos (parseEvent x14_track st) = 0.
Proof. destruct st as [p rs ev w]. cbn [pos]. intros ->. reflexivity. Qed.

(** X14.  The track loop comes to an end within as many iterations as
    the track has bytes, whenever the track nowhere has four bytes in a
    row with the high bit set; more fuel does not change the result.
    Without that condition it need not end: a meta event whose length
    field decodes to a negative 32-bit value sends the position back to
    the start of the track, for ever. *)
Theorem parseTrackEvents_terminates :
  (∀ data, noLongRun data →
     ∃ events, ∀ fuel, (length data ≤ fuel)%nat →
       parseTrackEvents fuel data = Some events) ∧
  (∀ fuel, parseTrackEvents fuel x14_track = None).
Proof.
  split.
  - intros data Hrun.
    destruct (parseLoop_terminates data (length data) initial Hrun) as [st' Hst'];
      [done|cbn; lia|].
    exists (parsed st'). intros fuel Hfuel. unfold parseTrackEvents.
    by rewrite (parseLoop_mono _ _ _ _ _ Hst' Hfuel).
  - intros fuel. unfold parseTrackEvents.
    assert (H : ∀ st, pos st = 0 → parseLoop fuel x14_track st = None).
    { induction fuel as [|fuel IH]; intros st Hst; cbn [parseLoop]; rewrite Hst.
      - reflexivity.
      - change (0 <? Z.of_nat (length x14_track)) with true. cbv iota.
        apply IH. by apply looping_event. }
    by rewrite H.
Qed.

(** The condition of X14 can be checked by running over the track. *)
Lemma noLongRun_check data :
  forallb (λ i, runLength (drop i data) <=? 3)%nat (seq 0 (length data)) = true →
  noLongRun data.
Proof.
  intros H i. destruct (decide (i < length data)%nat) as [Hi|Hi].
  - rewrite forallb_forall in H. apply Nat.leb_le, H, in_seq. lia.
  - rewrite drop_ge by lia. simpl. lia.
Qed.

Lemma parseTrackEvents_terminates_witness :
  noLongRun (bytes c3_track) ∧
  ∃ events, ∀ fuel, (length (bytes c3_track) ≤ fuel)%nat →
    parseTrackEvents fuel (bytes c3_track) = Some events.
Proof.
  assert (H : noLongRun (bytes c3_track)) by (apply noLongRun_check; reflexivity).
  split; [exact H|]. exact (proj1 parseTrackEvents_terminates (bytes c3_track) H).
Defined.

End DecoderFacts.


(** ** The round trip of the auto-mapper's program *)

Module RoundTripFacts.
Import Codec CodecTerms MapperTerms MapperFacts CodecFacts AutoMapFacts RoundTripTerms.

Lemma program_roots inst ms :
  ms ≠ [] →
  Mapper.rootNote <$> Mapper.keygroups (Mapper.autoMapSamples inst ms).1
  = Mapper.midiNote <$> sort_by Mapper.midiNote ms.
Proof.
  intros Hne. rewrite (autoMap_keygroups inst ms Hne).
  apply list_eq. intros i. rewrite !list_lookup_fmap, list_lookup_imap.
  by destruct (sort_by Mapper.midiNote ms !! i).
Qed.

(** The writer visits the roots of the program in the order of its
    keygroups. *)
Lemma carried_roots inst ms keyMapping :
  ms ≠ [] → NoDup (Mapper.midiNote <$> ms) →
  carries keyMapping (Mapper.autoMapSamples inst ms).1 →
  (sortedEntries keyMapping).*1 = Mapper.midiNote <$> sort_by Mapper.midiNote ms.
Proof.
  intros Hne Hnd [Hkeys _]. rewrite (program_roots inst ms Hne) in Hkeys.
  apply (StronglySorted_unique Z.le).
  - apply (StronglySorted_fmap fst (λ a b, a.1 ≤ b.1)); [done|].
    apply sort_by_ascending.
  - apply (StronglySorted_fmap Mapper.midiNote
             (λ a b, Mapper.midiNote a ≤ Mapper.midiNote b)); [done|].
    apply sort_by_ascending.
  - apply NoDup_Permutation.
    + unfold sortedEntries. rewrite sort_by_perm. apply NoDup_fst_map_to_list.
    + by rewrite sort_by_perm.
    + intros k. rewrite <- Hkeys. unfold sortedEntries. rewrite sort_by_perm.
      rewrite list_elem_of_fmap. split.
      * intros ([k' v] & -> & Hin). apply elem_of_map_to_list in Hin. by exists v.
      * intros [v Hv]. exists (k, v). split; [done|]. by apply elem_of_map_to_list.
Qed.

(** C2 (amended).  Take a program the auto-mapper made from at least
    one mapped sample, the root notes being pairwise distinct, and a
    key mapping that carries it to the writer, with a program name and
    sample names free of control characters, double quotes, ampersands
    and left angle brackets.  Writing the mapping with
    [generateInstrumentXPM] and reading the text with
    [parseXPMContent] returns an instrument program with as many
    keygroups as the auto-mapper's program, in the same order, each
    with as many zones as the keygroup has velocity layers (one); every
    zone has the root, low and high key of its keygroup, the upper
    velocity bound of its layer, and the name of the sample that the
    layer names.  The lower velocity bound is left out. *)
Theorem write_read_round_trip options inst (ms : list Mapper.MappedSample) keyMapping :
  ms ≠ [] → NoDup (Mapper.midiNote <$> ms) →
  carries keyMapping (Mapper.autoMapSamples inst ms).1 →
  safeNames options keyMapping →
  roundTripsButLowVelocity options keyMapping (Mapper.autoMapSamples inst ms).1.
Proof.
  intros Hne Hnd Hcarries Hsafe.
  pose proof (carried_roots inst ms keyMapping Hne Hnd Hcarries) as Hroots.
  destruct (generated_round_trip options keyMapping Hsafe) as (read & Hread & Hdrum & Hkgs).
  exists read. split; [exact Hread|]. split; [exact Hdrum|].
  unfold equivalentUpTo. rewrite Hkgs, (autoMap_keygroups inst ms Hne).
  set (sorted := sort_by Mapper.midiNote ms) in *.
  set (entries := sortedEntries keyMapping) in *.
  assert (Hlen : length entries = length sorted).
  { by rewrite <- (length_fmap fst entries), Hroots, length_fmap. }
  split; [by rewrite !length_imap|].
  intros i kg. rewrite list_lookup_imap.
  destruct (sorted !! i) as [s|] eqn:Es; simpl; [|done]. intros [= <-].
  destruct (lookup_lt_is_Some_2 entries i) as [e He].
  { rewrite Hlen. by eapply lookup_lt_Some. }
  exists (writtenKeygroup options entries i e).
  split; [by rewrite list_lookup_imap, He|].
  destruct (writer_ranges_agree sorted entries i e s Hroots He Es) as (Hkey & Hlow & Hhigh).
  cbn [Mapper.keygroupAt Mapper.velocityLayers writtenKeygroup zones].
  constructor; [|constructor].
  split; [|split].
  - unfold sameKeyRange. cbn [writtenZone keyRange kr_root kr_low kr_high].
    rewrite Hlow, Hhigh, Hkey. done.
  - done.
  - exists e.2.
    cbn [Mapper.rootNote Mapper.keygroupAt Mapper.sampleId writtenZone z_sample xs_name].
    assert (Hin : keyMapping !! e.1 = Some e.2).
    { apply elem_of_map_to_list. rewrite <- (sort_by_perm fst (map_to_list keyMapping)).
      destruct e. by eapply list_elem_of_lookup_2. }
    rewrite <- Hkey. split; [exact Hin|]. split; [|done].
    destruct Hcarries as [_ Hsample].
    destruct (Hsample (Mapper.keygroupAt sorted i s)
                {| Mapper.vl_id := str "velocity_" ++ toString (Z.of_nat i) ++ str "_0";
                   Mapper.lowVelocity := 0; Mapper.highVelocity := 127;
                   Mapper.sampleId := Some (Mapper.ms_id s) |})
      as (sample & Hs & Hid).
    + rewrite (autoMap_keygroups inst ms Hne). fold sorted.
      apply (list_elem_of_lookup_2 _ i). by rewrite list_lookup_imap, Es.
    + apply elem_of_cons; by left.
    + cbn [Mapper.rootNote Mapper.keygroupAt] in Hs. rewrite <- Hkey, Hin in Hs.
      injection Hs as <-. exact Hid.
Qed.

(** Carrying, for a given list of keygroups. *)
Lemma carries_intro keyMapping program :
  (∀ root, is_Some (keyMapping !! root)
           ↔ root ∈ Mapper.rootNote <$> Mapper.keygroups program) →
  Forall (λ kg, Forall (λ layer,
            ∃ sample, keyMapping !! Mapper.rootNote kg = Some sample ∧
                      Mapper.sampleId layer = Some (sample_id sample))
          (Mapper.velocityLayers kg)) (Mapper.keygroups program) →
  carries keyMapping program.
Proof.
  intros Hkeys Hall. split; [exact Hkeys|]. intros kg layer Hkg Hlayer.
  rewrite Forall_forall in Hall. specialize (Hall kg Hkg).
  rewrite Forall_forall in Hall. exact (Hall layer Hlayer).
Qed.

Lemma c2_mapping_carries :
  carries c2_mapping (Mapper.autoMapSamples c1_instrument c2_samples).1.
Proof.
  apply carries_intro.
  - intros root. change (Mapper.rootNote <$> _) with [60; 72]. unfold c2_mapping.
    rewrite <- elem_of_dom, !dom_insert_L, dom_empty_L.
    rewrite !elem_of_union, !elem_of_singleton, elem_of_empty, !elem_of_cons, elem_of_nil.
    tauto.
  - repeat constructor; eexists; (split; [vm_compute; reflexivity|reflexivity]).
Qed.

Lemma c2_unsafe_mapping_carries :
  carries c2_unsafe_mapping (Mapper.autoMapSamples c1_instrument c2_unsafe_samples).1.
Proof.
  apply carries_intro.
  - intros root. change (Mapper.rootNote <$> _) with [60]. unfold c2_unsafe_mapping.
    rewrite <- elem_of_dom, !dom_insert_L, dom_empty_L.
    rewrite !elem_of_union, !elem_of_singleton, elem_of_empty, !elem_of_cons, elem_of_nil.
    tauto.
  - repeat constructor; eexists; (split; [vm_compute; reflexivity|reflexivity]).
Qed.

Lemma c2_single_mapping_carries :
  carries c2_single_mapping (Mapper.autoMapSamples c1_instrument c2_twice_samples).1.
Proof.
  apply carries_intro.
  - intros root. change (Mapper.rootNote <$> _) with [60; 60]. unfold c2_single_mapping.
    rewrite <- elem_of_dom, !dom_insert_L, dom_empty_L.
    rewrite !elem_of_union, !elem_of_singleton, elem_of_empty, !elem_of_cons, elem_of_nil.
    tauto.
  - repeat constructor; eexists; (split; [vm_compute; reflexivity|reflexivity]).
Qed.

Lemma write_read_round_trip_witness :
  roundTripsButLowVelocity c2_options c2_mapping
    (Mapper.autoMapSamples c1_instrument c2_samples).1.
Proof.
  apply (write_read_round_trip c2_options c1_instrument c2_samples c2_mapping).
  - discriminate.
  - apply (bool_decide_unpack _). vm_compute. exact I.
  - exact c2_mapping_carries.
  - split; [reflexivity|]. apply (bool_decide_unpack _). vm_compute. exact I.
Defined.

(** C2 as stated fails in three ways.  A sample whose name holds an
    ampersand is written without escaping, and the reader throws.  The
    lower velocity bound of every zone reads back as 1, where the layer
    of the auto-mapper has 0.  And of two keygroups on one root (one
    sample id handed to the auto-mapper twice) a single one reads
    back. *)
Lemma round_trip_rule_fails :
  (carries c2_unsafe_mapping (Mapper.autoMapSamples c1_instrument c2_unsafe_samples).1 ∧
   parseXPMContent (generateInstrumentXPM c2_options c2_unsafe_mapping)
   = Thrown (str "Failed to parse XPM content: Error: XML parsing error") ∧
   ¬ roundTripRule c2_options c2_unsafe_mapping
       (Mapper.autoMapSamples c1_instrument c2_unsafe_samples).1) ∧
  (carries c2_mapping (Mapper.autoMapSamples c1_instrument c2_samples).1 ∧
   safeNames c2_options c2_mapping ∧
   ¬ roundTripRule c2_options c2_mapping
       (Mapper.autoMapSamples c1_instrument c2_samples).1) ∧
  (carries c2_single_mapping (Mapper.autoMapSamples c1_instrument c2_twice_samples).1 ∧
   safeNames c2_options c2_single_mapping ∧
   ¬ roundTripRule c2_options c2_single_mapping
       (Mapper.autoMapSamples c1_instrument c2_twice_samples).1).
Proof.
  split; [|split].
  - split; [exact c2_unsafe_mapping_carries|].
    assert (H : parseXPMContent (generateInstrumentXPM c2_options c2_unsafe_mapping)
                = Thrown (str "Failed to parse XPM content: Error: XML parsing error")).
    { vm_compute. reflexivity. }
    split; [exact H|]. intros (read & Hread & _). rewrite H in Hread. discriminate.
  - split; [exact c2_mapping_carries|]. split.
    { split; [reflexivity|]. apply (bool_decide_unpack _). vm_compute. exact I. }
    intros (read & Hread & _ & _ & Hzones).
    edestruct (Hzones 0%nat) as (kg' & Hkg' & Hall); [vm_compute; reflexivity|].
    cbn [Mapper.velocityLayers] in Hall.
    apply Forall2_cons_inv_l in Hall as (zone & rest & (_ & _ & Hlow & _) & _ & Ezones).
    unfold sameLowVelocity in Hlow. cbn [Mapper.lowVelocity] in Hlow.
    vm_compute in Hread. injection Hread as <-.
    vm_compute in Hkg'. injection Hkg' as <-.
    cbn [zones] in Ezones. injection Ezones as <- _.
    vm_compute in Hlow. discriminate.
  - split; [exact c2_single_mapping_carries|]. split.
    { split; [reflexivity|]. apply (bool_decide_unpack _). vm_compute. exact I. }
    intros (read & Hread & _ & Hlen & _).
    vm_compute in Hread. injection Hread as <-. vm_compute in Hlen. discriminate.
Qed.

End RoundTripFacts.

(** ** The other writers and the pads *)

Module GeneratorFacts.
Import Xml Codec CodecTerms CodecFacts Generator Importer GeneratorTerms.

(** *** Documents as lines of tags *)

Lemma renderLines_app l1 l2 : renderLines (l1 ++ l2) = renderLines l1 ++ renderLines l2.
Proof. unfold renderLines. by rewrite fmap_app, join_app. Qed.

Lemma lineTokens_app l1 l2 : lineTokens (l1 ++ l2) = lineTokens l1 ++ lineTokens l2.
Proof. unfold lineTokens. by rewrite fmap_app, join_app. Qed.

Lemma renderLines_blocks {X} (F : nat → X → list (nat * token)) (l : list X) :
  renderLines (mjoin (imap F l)) = mjoin (imap (λ i e, renderLines (F i e)) l).
Proof.
  revert F. induction l as [|x l IH]; intros F; [done|].
  rewrite !imap_cons, !mjoin_cons, renderLines_app. f_equal. apply (IH (F ∘ S)).
Qed.

Lemma lineTokens_blocks {X} (F : nat → X → list (nat * token)) (l : list X) :
  lineTokens (mjoin (imap F l)) = mjoin (imap (λ i e, lineTokens (F i e)) l).
Proof.
  revert F. induction l as [|x l IH]; intros F; [done|].
  rewrite !imap_cons, !mjoin_cons, lineTokens_app. f_equal. apply (IH (F ∘ S)).
Qed.

Lemma wf_blocks {X} (F : nat → X → list (nat * token)) (l : list X) :
  (∀ i e, e ∈ l → forallb (λ p, wfTag p.2) (F i e) = true) →
  forallb (λ p, wfTag p.2) (mjoin (imap F l)) = true.
Proof.
  revert F. induction l as [|x l IH]; intros F HF; [done|].
  rewrite imap_cons, mjoin_cons, forallb_app, HF by (apply elem_of_cons; by left).
  apply (IH (F ∘ S)). intros i e He. apply HF, elem_of_cons. by right.
Qed.

(** A declaration, a root start tag and lines of well-formed tags are
    parsed into what the tree builder makes of the tags. *)
Lemma parse_lines root ls :
  wfTag root = true → forallb (λ p, wfTag p.2) ls = true →
  parse (xmlDeclaration ++ renderTag root ++ renderLines ls)
  = build (TText false :: root :: lineTokens ls) [] None.
Proof.
  intros Hroot Hls. apply parse_declaration.
  - by rewrite noCR_app, (noCR_renderTag _ Hroot), (noCR_renderLines _ Hls).
  - by apply startsTag_tag.
  - apply tokens_tag; [done|]. by apply tokens_lines_end.
Qed.

(** Blocks of lines that each add some elements to the open element. *)
Lemma build_blocks {X} (F : nat → X → list (nat * token)) (N : nat → X → list Node)
    (l : list X) ts t a cs stack root :
  (∀ i e ts' cs', build (lineTokens (F i e) ++ ts') ((t, a, cs') :: stack) root
                  = build ts' ((t, a, rev (N i e) ++ cs') :: stack) root) →
  build (lineTokens (mjoin (imap F l)) ++ ts) ((t, a, cs) :: stack) root
  = build ts ((t, a, rev (mjoin (imap N l)) ++ cs) :: stack) root.
Proof.
  revert F N cs. induction l as [|x l IH]; intros F N cs HF; [done|].
  rewrite !imap_cons, !mjoin_cons, lineTokens_app, <- app_assoc, HF.
  rewrite (IH (F ∘ S) (N ∘ S)); [|intros; apply HF].
  by rewrite rev_app_distr, <- app_assoc.
Qed.

Lemma build_lines {X} (F : nat → X → list (nat * token)) (N : nat → X → Node)
    (l : list X) ts t a cs stack root :
  (∀ i e ts' cs', build (lineTokens (F i e) ++ ts') ((t, a, cs') :: stack) root
                  = build ts' ((t, a, N i e :: cs') :: stack) root) →
  build (lineTokens (mjoin (imap F l)) ++ ts) ((t, a, cs) :: stack) root
  = build ts ((t, a, rev (imap N l) ++ cs) :: stack) root.
Proof.
  intros HF. rewrite lineTokens_blocks. by apply build_imap_keygroups.
Qed.

(** Selecting by tag name among elements and what lies below them. *)
Lemma select_all (nodes : list Node) name :
  Forall (λ n, tagName n = name ∧ filter (λ e, tagName e = name) (descendants n) = [])
         nodes →
  filter (λ e, tagName e = name) (mjoin ((λ c, c :: descendants c) <$> nodes)) = nodes.
Proof.
  induction 1 as [|n nodes [Hn Hsub] _ IH]; [done|].
  rewrite fmap_cons, mjoin_cons, filter_app, filter_cons_True by done.
  by rewrite Hsub, IH.
Qed.

Lemma select_nothing (nodes : list Node) name :
  Forall (λ n, filter (λ e, tagName e = name) (n :: descendants n) = []) nodes →
  filter (λ e, tagName e = name) (mjoin ((λ c, c :: descendants c) <$> nodes)) = [].
Proof.
  induction 1 as [|n nodes Hn _ IH]; [done|].
  by rewrite fmap_cons, mjoin_cons, filter_app, Hn, IH.
Qed.

Lemma Forall_blocks {X Y} (P : Y → Prop) (N : nat → X → list Y) (l : list X) :
  (∀ i e, Forall P (N i e)) → Forall P (mjoin (imap N l)).
Proof.
  revert N. induction l as [|x l IH]; intros N HN; [constructor|].
  rewrite imap_cons, mjoin_cons. apply Forall_app. split; [apply HN|].
  apply (IH (N ∘ S)). intros. apply HN.
Qed.

Lemma Forall_imap {X Y} (P : Y → Prop) (N : nat → X → Y) (l : list X) :
  (∀ i e, P (N i e)) → Forall P (imap N l).
Proof.
  revert N. induction l as [|x l IH]; intros N HN; [constructor|].
  rewrite imap_cons. constructor; [apply HN|]. apply (IH (N ∘ S)). intros. apply HN.
Qed.

Lemma omap_imap {X Y W} (f : Y → option W) (g : nat → X → Y) (h : nat → X → W)
    (l : list X) :
  (∀ i x, f (g i x) = Some (h i x)) → omap f (imap g l) = imap h l.
Proof.
  revert g h. induction l as [|x l IH]; intros g h H; [done|].
  rewrite !imap_cons. cbn [omap list_omap]. rewrite H. f_equal.
  apply (IH (g ∘ S) (h ∘ S)). intros. apply H.
Qed.


(** *** The drum-kit document *)

Lemma padXml_lines options index sample :
  NL ++ padXml options index sample = renderLines (padTags options index sample) ++ NL.
Proof.
  unfold padXml, renderLines, padTags, sampleAttrs, gap.
  destruct (includeSettings options);
    cbn [app fmap list_fmap fst snd renderTag]; rewrite !mjoin_cons;
    unfold renderAttrs; cbn [fmap list_fmap]; rewrite ?mjoin_cons;
    unfold renderAttr; cbn [fst snd]; same_text.
Qed.

Lemma generateDrumKitXPM_lines options samples :
  generateDrumKitXPM options samples
  = xmlDeclaration ++ renderTag (drumTag options) ++ renderLines (drumLines options samples).
Proof.
  unfold generateDrumKitXPM, drumLines. f_equal.
  rewrite !renderLines_app, renderLines_blocks.
  set (lines := imap (λ i e, renderLines (padTags options i e)) samples).
  assert (∀ rest,
    NL ++ mjoin (imap (padXml options) samples) ++ rest = mjoin lines ++ NL ++ rest) as Hshift.
  { intros rest. apply shift_newline. intros i x. apply padXml_lines. }
  transitivity
    (renderTag (drumTag options) ++ gap 2 ++ renderTag (TStart (str "Pads") [])
     ++ (NL ++ mjoin (imap (padXml options) samples)
         ++ (str "  </Pads>" ++ NL) ++ str "</DrumProgram>")).
  - generalize (mjoin (imap (padXml options) samples)). intros body.
    unfold drumTag, gap. cbn [renderTag]. unfold renderAttrs.
    cbn [fmap list_fmap]. rewrite ?mjoin_cons. unfold renderAttr. cbn [fst snd].
    same_text.
  - rewrite Hshift. generalize (mjoin lines). intros body.
    unfold renderLines, gap.
    cbn [fmap list_fmap fst snd renderTag]. rewrite ?mjoin_cons.
    same_text.
Qed.

Lemma wf_sampleAttrs options sample :
  safe (sample_name sample) = true →
  wfTag (TEmpty (str "Sample") (sampleAttrs options sample)) = true.
Proof.
  intros Hs. cbn [wfTag]. unfold sampleAttrs. cbn [forallb fmap list_fmap fst].
  unfold wfAttr. cbn [fst snd]. rewrite Hs, (safe_formatSamplePath _ _ Hs).
  vm_compute. reflexivity.
Qed.

Lemma wf_padTags options index sample :
  safe (sample_name sample) = true →
  forallb (λ p, wfTag p.2) (padTags options index sample) = true.
Proof.
  intros Hs. unfold padTags. rewrite !forallb_app. cbn [forallb snd].
  rewrite (wf_sampleAttrs _ _ Hs).
  assert (Hpad : wfTag (TStart (str "Pad") [(str "padIndex", toString (Z.of_nat index))])
                 = true).
  { cbn [wfTag forallb fmap list_fmap fst]. unfold wfAttr. cbn [fst snd].
    rewrite safe_toString. vm_compute. reflexivity. }
  rewrite Hpad. by destruct (includeSettings options).
Qed.

Lemma wf_drumTag options :
  safe (opt_name options) = true → wfTag (drumTag options) = true.
Proof.
  intros Hname. unfold drumTag. cbn [wfTag forallb fmap list_fmap fst].
  unfold wfAttr. cbn [fst snd]. rewrite Hname. vm_compute. reflexivity.
Qed.

Lemma wf_drumLines options samples :
  Forall (λ s, safe (sample_name s) = true) samples →
  forallb (λ p, wfTag p.2) (drumLines options samples) = true.
Proof.
  intros Hs. unfold drumLines. rewrite !forallb_app, wf_blocks; [done|].
  intros i e He. apply wf_padTags. rewrite Forall_forall in Hs. by apply Hs.
Qed.

Lemma build_pad options index sample ts t a cs stack root :
  build (lineTokens (padTags options index sample) ++ ts) ((t, a, cs) :: stack) root
  = build ts ((t, a, padNode options index sample :: cs) :: stack) root.
Proof. unfold padTags, padNode. by destruct (includeSettings options). Qed.

Lemma build_drum options samples :
  build (TText false :: drumTag options :: lineTokens (drumLines options samples)) [] None
  = Some (drumTree options samples).
Proof.
  unfold drumLines, drumTag. rewrite !lineTokens_app.
  change (lineTokens [(2%nat, TStart (str "Pads") [])])
    with [TText false; TStart (str "Pads") []].
  change (lineTokens [(2%nat, TEnd (str "Pads")); (0%nat, TEnd (str "DrumProgram"))])
    with [TText false; TEnd (str "Pads"); TText false; TEnd (str "DrumProgram")].
  cbn [build app].
  rewrite (build_lines _ (padNode options)).
  2:{ intros. apply build_pad. }
  rewrite app_nil_r. cbn [build]. rewrite rev_involutive. reflexivity.
Qed.

Lemma parse_drum options samples :
  safe (opt_name options) = true → Forall (λ s, safe (sample_name s) = true) samples →
  parse (generateDrumKitXPM options samples) = Some (drumTree options samples).
Proof.
  intros Hname Hs. rewrite generateDrumKitXPM_lines, parse_lines.
  - apply build_drum.
  - by apply wf_drumTag.
  - by apply wf_drumLines.
Qed.

(** *** Reading the pads *)

Lemma padNode_tag options i s : tagName (padNode options i s) = str "Pad".
Proof. done. Qed.

Lemma padNode_below options i s name :
  name ≠ str "Sample" → name ≠ str "Settings" →
  filter (λ e, tagName e = name) (descendants (padNode options i s)) = [].
Proof.
  intros H1 H2. unfold padNode. destruct (includeSettings options); cbn [descendants app].
  - rewrite filter_cons_False by (intros E; apply H1; symmetry; exact E).
    by rewrite filter_cons_False by (intros E; apply H2; symmetry; exact E).
  - by rewrite filter_cons_False by (intros E; apply H1; symmetry; exact E).
Qed.

Lemma pad_elements options samples :
  docQuerySelectorAll (drumTree options samples) (str "Pad") = imap (padNode options) samples.
Proof.
  unfold docQuerySelectorAll, drumTree.
  rewrite filter_cons_False by done.
  rewrite descendants_children. cbn [fmap list_fmap]. rewrite mjoin_cons.
  change (mjoin []) with (@nil Node). rewrite app_nil_r.
  rewrite filter_cons_False by done.
  rewrite descendants_children. apply select_all, Forall_imap.
  intros i e. split; [done|]. by apply padNode_below.
Qed.

Lemma drum_no_parsererror options samples :
  docQuerySelectorAll (drumTree options samples) (str "parsererror") = [].
Proof.
  unfold docQuerySelectorAll, drumTree.
  rewrite filter_cons_False by done.
  rewrite descendants_children. cbn [fmap list_fmap]. rewrite mjoin_cons.
  change (mjoin []) with (@nil Node). rewrite app_nil_r.
  rewrite filter_cons_False by done.
  rewrite descendants_children. apply select_nothing, Forall_imap.
  intros i e. rewrite filter_cons_False by done. by apply padNode_below.
Qed.

Lemma extractPad_written parseFloat options k index sample :
  extractPad parseFloat k (padNode options index sample)
  = Some (writtenPad parseFloat options index sample).
Proof.
  unfold extractPad, padNode, writtenPad.
  change (getAttribute _ (str "padIndex")) with (Some (toString (Z.of_nat index))).
  rewrite orElse_toString, parseInt_toString.
  destruct (includeSettings options).
  - change (querySelector _ (str "Sample"))
      with (Some (Element (str "Sample") (sampleAttrs options sample) [])).
    cbn [mbind option_bind].
    change (getAttribute _ (str "name")) with (Some (sample_name sample)).
    change (getAttribute _ (str "path"))
      with (Some (formatSamplePath options (sample_name sample))).
    rewrite orElse_path, orElse_name. reflexivity.
  - change (querySelector _ (str "Sample"))
      with (Some (Element (str "Sample") (sampleAttrs options sample) [])).
    cbn [mbind option_bind].
    change (getAttribute _ (str "name")) with (Some (sample_name sample)).
    change (getAttribute _ (str "path"))
      with (Some (formatSamplePath options (sample_name sample))).
    rewrite orElse_path, orElse_name. reflexivity.
Qed.

Lemma omap_id_imap {X Y W} (f : nat → Y → option W) (g : nat → X → Y) (h : nat → X → W)
    (l : list X) :
  (∀ k i x, f k (g i x) = Some (h i x)) → omap id (imap f (imap g l)) = imap h l.
Proof.
  revert f g h. induction l as [|x l IH]; intros f g h H; [done|].
  rewrite !imap_cons. cbn [omap list_omap]. rewrite H. cbn [id]. f_equal.
  apply (IH (f ∘ S) (g ∘ S) (h ∘ S)). intros. apply H.
Qed.

Lemma extractPads_written parseFloat options samples :
  extractPads parseFloat (drumTree options samples)
  = imap (writtenPad parseFloat options) samples.
Proof.
  unfold extractPads. rewrite pad_elements. apply omap_id_imap.
  intros. apply extractPad_written.
Qed.

Lemma imap_fmap_const {X Y W} (f : Y → W) (g : nat → X → Y) (h : X → W) (l : list X) :
  (∀ i x, f (g i x) = h x) → f <$> imap g l = h <$> l.
Proof.
  revert g. induction l as [|x l IH]; intros g H; [done|].
  rewrite imap_cons, !fmap_cons, H. f_equal. apply (IH (g ∘ S)). intros. apply H.
Qed.

(** X15.  A drum kit written by [generateDrumKitXPM] is read back by
    [parseXPMContent] as a drum program with one pad per sample, in
    order, pad [i] carrying index [i], the sample's name unchanged and
    its formatted path, and the settings level 1.0, pan 0.0 and tune 0
    exactly when settings were written; the sample list holds the
    distinct paths.  This holds whenever the program name and the sample
    names contain no control character, double quote, ampersand or left
    angle bracket; an empty program name is read back as "Imported
    Program". *)
Theorem drum_kit_round_trip (parseFloat : jsstring → float) (options : XPMOptions)
    (samples : list Sample) :
  safe (opt_name options) = true →
  Forall (λ s, safe (sample_name s) = true) samples →
  Importer.parseXPMContent parseFloat (generateDrumKitXPM options samples)
  = Returned
      {| Importer.name := orElse (Some (opt_name options)) (str "Imported Program");
         Importer.isDrum := true;
         Importer.samples :=
           sampleList ((λ s, formatSamplePath options (sample_name s)) <$> samples);
         Importer.keygroups := None;
         Importer.pads := Some (imap (writtenPad parseFloat options) samples) |}.
Proof.
  intros Hname Hs. unfold Importer.parseXPMContent.
  rewrite (parse_drum _ _ Hname Hs), drum_no_parsererror.
  rewrite bool_decide_eq_false_2 by (by intros H).
  change (determineProgramType (drumTree _ _)) with true. cbv iota.
  rewrite extractPads_written.
  by rewrite (imap_fmap_const _ _ (λ s, formatSamplePath options (sample_name s))).
Qed.



(** *** The velocity-layered document *)

Lemma zoneXml_lines options midiNote lowKey highKey count velIndex sample :
  NL ++ zoneXml options midiNote lowKey highKey count velIndex sample
  = renderLines (zoneTags options midiNote lowKey highKey count velIndex sample) ++ NL.
Proof.
  unfold zoneXml, renderLines, zoneTags, sampleAttrs, rangeAttrs, velAttrs, gap.
  cbn [fmap list_fmap fst snd renderTag]. rewrite !mjoin_cons.
  unfold renderAttrs. cbn [fmap list_fmap]. rewrite !mjoin_cons.
  unfold renderAttr. cbn [fst snd].
  same_text.
Qed.

Lemma layeredKeygroupXml_lines options entries index entry :
  NL ++ layeredKeygroupXml options entries index entry
  = renderLines (layeredTags options entries index entry) ++ NL.
Proof.
  unfold layeredKeygroupXml, layeredTags.
  destruct entry as [midiNote velocitySamples]. cbn [fst snd].
  destruct velocitySamples as [|s0 rest]; [done|].
  set (samples := s0 :: rest).
  rewrite !renderLines_app, renderLines_blocks.
  set (lowKey := lowKeyOf entries index midiNote).
  set (highKey := highKeyOf entries index midiNote).
  set (lines := imap (λ i e, renderLines (zoneTags options midiNote lowKey highKey
                                            (length samples) i e)) samples).
  assert (∀ tail,
    NL ++ mjoin (imap (zoneXml options midiNote lowKey highKey (length samples)) samples)
       ++ tail
    = mjoin lines ++ NL ++ tail) as Hshift.
  { intros tail. apply shift_newline. intros i x. apply zoneXml_lines. }
  transitivity
    (gap 4 ++ renderTag (TStart (str "Keygroup") [(str "index", toString (Z.of_nat index))])
     ++ (NL ++ mjoin (imap (zoneXml options midiNote lowKey highKey (length samples)) samples)
         ++ (str "    </Keygroup>" ++ NL))).
  - generalize (mjoin (imap (zoneXml options midiNote lowKey highKey (length samples))
                            samples)). intros body.
    unfold gap. cbn [renderTag]. unfold renderAttrs.
    cbn [fmap list_fmap]. rewrite ?mjoin_cons. unfold renderAttr. cbn [fst snd].
    same_text.
  - rewrite Hshift. generalize (mjoin lines). intros body.
    unfold renderLines, gap.
    cbn [fmap list_fmap fst snd renderTag]. rewrite ?mjoin_cons.
    same_text.
Qed.

Lemma generateMultiVelocityXPM_lines options keyVelocityMapping :
  generateMultiVelocityXPM options keyVelocityMapping
  = xmlDeclaration ++ renderTag (programTag options)
    ++ renderLines (layeredLines options (sortedLayers keyVelocityMapping)).
Proof.
  unfold generateMultiVelocityXPM, layeredLines. f_equal.
  set (entries := sortedLayers keyVelocityMapping).
  rewrite !renderLines_app, renderLines_blocks.
  set (lines := imap (λ i e, renderLines (layeredTags options entries i e)) entries).
  assert (∀ tail,
    NL ++ mjoin (imap (layeredKeygroupXml options entries) entries) ++ tail
    = mjoin lines ++ NL ++ tail) as Hshift.
  { intros tail. apply shift_newline. intros i x. apply layeredKeygroupXml_lines. }
  transitivity
    (renderTag (programTag options) ++ gap 2 ++ renderTag (TStart (str "Keygroups") [])
     ++ (NL ++ mjoin (imap (layeredKeygroupXml options entries) entries)
         ++ (str "  </Keygroups>" ++ NL) ++ str "</KeygroupProgram>")).
  - generalize (mjoin (imap (layeredKeygroupXml options entries) entries)). intros body.
    unfold programTag, gap. cbn [renderTag]. unfold renderAttrs.
    cbn [fmap list_fmap]. rewrite ?mjoin_cons. unfold renderAttr. cbn [fst snd].
    same_text.
  - rewrite Hshift. generalize (mjoin lines). intros body.
    unfold renderLines, openingLines, closingLines, gap.
    cbn [fmap list_fmap fst snd renderTag]. rewrite ?mjoin_cons.
    same_text.
Qed.

Lemma wf_zoneTags options midiNote lowKey highKey count velIndex sample :
  safe (sample_name sample) = true →
  forallb (λ p, wfTag p.2)
          (zoneTags options midiNote lowKey highKey count velIndex sample) = true.
Proof.
  intros Hs. unfold zoneTags. cbn [forallb snd]. rewrite (wf_sampleAttrs _ _ Hs).
  cbn [wfTag]. unfold rangeAttrs, velAttrs. cbn [forallb fmap list_fmap fst].
  unfold wfAttr. cbn [fst snd]. rewrite !safe_toString.
  vm_compute. reflexivity.
Qed.

Lemma wf_layeredTags options entries index entry :
  Forall (λ s, safe (sample_name s) = true) entry.2 →
  forallb (λ p, wfTag p.2) (layeredTags options entries index entry) = true.
Proof.
  intros Hs. unfold layeredTags. destruct entry as [midiNote samples]. cbn [fst snd] in *.
  destruct samples as [|s0 rest]; [done|].
  rewrite !forallb_app, wf_blocks.
  - cbn [forallb snd wfTag fmap list_fmap fst]. unfold wfAttr. cbn [fst snd].
    rewrite safe_toString. vm_compute. reflexivity.
  - intros i e He. apply wf_zoneTags. rewrite Forall_forall in Hs. by apply Hs.
Qed.

Lemma wf_layeredLines options entries :
  Forall (λ e, Forall (λ s, safe (sample_name s) = true) e.2) entries →
  forallb (λ p, wfTag p.2) (layeredLines options entries) = true.
Proof.
  intros Hs. unfold layeredLines. rewrite !forallb_app, wf_blocks; [done|].
  intros i e He. apply wf_layeredTags. rewrite Forall_forall in Hs. by apply Hs.
Qed.

Lemma build_zone options midiNote lowKey highKey count velIndex sample ts t a cs stack root :
  build (lineTokens (zoneTags options midiNote lowKey highKey count velIndex sample) ++ ts)
        ((t, a, cs) :: stack) root
  = build ts ((t, a, zoneNode options midiNote lowKey highKey count velIndex sample :: cs)
              :: stack) root.
Proof. reflexivity. Qed.

Lemma build_layered options entries index entry ts t a cs stack root :
  build (lineTokens (layeredTags options entries index entry) ++ ts) ((t, a, cs) :: stack) root
  = build ts ((t, a, rev (layeredNodes options entries index entry) ++ cs) :: stack) root.
Proof.
  unfold layeredTags, layeredNodes. destruct entry as [midiNote samples]. cbn [fst snd].
  destruct samples as [|s0 rest]; [done|].
  set (samples := s0 :: rest). rewrite !lineTokens_app, <- !app_assoc.
  change (lineTokens [(4%nat, TStart (str "Keygroup")
                         [(str "index", toString (Z.of_nat index))])])
    with [TText false; TStart (str "Keygroup") [(str "index", toString (Z.of_nat index))]].
  change (lineTokens [(4%nat, TEnd (str "Keygroup"))])
    with [TText false; TEnd (str "Keygroup")].
  cbn [build app].
  rewrite (build_lines _ (zoneNode options midiNote (lowKeyOf entries index midiNote)
                            (highKeyOf entries index midiNote) (length samples))).
  2:{ intros. apply build_zone. }
  rewrite app_nil_r. cbn [build]. rewrite bool_decide_eq_true_2 by done.
  cbn [attach mbind option_bind rev app]. by rewrite rev_involutive.
Qed.

Lemma build_layeredTree options entries :
  build (TText false :: programTag options :: lineTokens (layeredLines options entries))
        [] None
  = Some (layeredTree options entries).
Proof.
  unfold layeredLines, programTag. rewrite !lineTokens_app.
  change (lineTokens openingLines) with [TText false; TStart (str "Keygroups") []].
  change (lineTokens closingLines)
    with [TText false; TEnd (str "Keygroups"); TText false; TEnd (str "KeygroupProgram")].
  cbn [build app].
  rewrite (build_blocks _ (layeredNodes options entries)).
  2:{ intros. apply build_layered. }
  rewrite app_nil_r. cbn [build]. rewrite rev_involutive. reflexivity.
Qed.

Lemma sortedLayers_safe keyVelocityMapping :
  map_Forall (λ _ samples, Forall (λ s, safe (sample_name s) = true) samples)
             keyVelocityMapping →
  Forall (λ e, Forall (λ s, safe (sample_name s) = true) e.2)
         (sortedLayers keyVelocityMapping).
Proof.
  intros H. apply Forall_forall. intros [k v] Hin. unfold sortedLayers in Hin.
  rewrite sort_by_perm in Hin. apply elem_of_map_to_list in Hin. by apply (H k).
Qed.

Lemma parse_layered options keyVelocityMapping :
  safe (opt_name options) = true →
  map_Forall (λ _ samples, Forall (λ s, safe (sample_name s) = true) samples)
             keyVelocityMapping →
  parse (generateMultiVelocityXPM options keyVelocityMapping)
  = Some (layeredTree options (sortedLayers keyVelocityMapping)).
Proof.
  intros Hname Hs. rewrite generateMultiVelocityXPM_lines, parse_lines.
  - apply build_layeredTree.
  - by apply wf_programTag.
  - by apply wf_layeredLines, sortedLayers_safe.
Qed.


(** *** Reading the layers *)

Lemma zoneNode_only options midiNote lowKey highKey count velIndex sample name :
  name ≠ str "Zone" → name ≠ str "Sample" → name ≠ str "KeyRange" →
  name ≠ str "VelocityRange" →
  filter (λ e, tagName e = name)
         (zoneNode options midiNote lowKey highKey count velIndex sample
          :: descendants (zoneNode options midiNote lowKey highKey count velIndex sample))
  = [].
Proof.
  intros H1 H2 H3 H4. unfold zoneNode. cbn [descendants app].
  rewrite filter_cons_False by (intros E; apply H1; symmetry; exact E).
  rewrite filter_cons_False by (intros E; apply H2; symmetry; exact E).
  rewrite filter_cons_False by (intros E; apply H3; symmetry; exact E).
  by rewrite filter_cons_False by (intros E; apply H4; symmetry; exact E).
Qed.

Lemma layeredNodes_only options entries index entry name :
  name ≠ str "Keygroup" → name ≠ str "Zone" → name ≠ str "Sample" →
  name ≠ str "KeyRange" → name ≠ str "VelocityRange" →
  Forall (λ n, filter (λ e, tagName e = name) (n :: descendants n) = [])
         (layeredNodes options entries index entry).
Proof.
  intros H0 H1 H2 H3 H4. unfold layeredNodes. destruct entry.2 as [|s0 rest]; constructor;
    [|constructor].
  rewrite filter_cons_False by (intros E; apply H0; symmetry; exact E).
  rewrite descendants_children. apply select_nothing, Forall_imap.
  intros i e. by apply zoneNode_only.
Qed.

Lemma layeredNodes_keygroups options entries index entry :
  Forall (λ n, tagName n = str "Keygroup"
               ∧ filter (λ e, tagName e = str "Keygroup") (descendants n) = [])
         (layeredNodes options entries index entry).
Proof.
  unfold layeredNodes. destruct entry.2 as [|s0 rest]; constructor; [|constructor].
  split; [done|]. rewrite descendants_children. apply select_nothing, Forall_imap.
  intros i e. by apply zoneNode_only.
Qed.

Lemma layered_elements options entries :
  docQuerySelectorAll (layeredTree options entries) (str "Keygroup")
  = mjoin (imap (layeredNodes options entries) entries).
Proof.
  unfold docQuerySelectorAll, layeredTree.
  rewrite filter_cons_False by done.
  rewrite descendants_children. cbn [fmap list_fmap]. rewrite mjoin_cons.
  change (mjoin []) with (@nil Node). rewrite app_nil_r.
  rewrite filter_cons_False by done.
  rewrite descendants_children. apply select_all, Forall_blocks.
  intros. apply layeredNodes_keygroups.
Qed.

Lemma layered_no_parsererror options entries :
  docQuerySelectorAll (layeredTree options entries) (str "parsererror") = [].
Proof.
  unfold docQuerySelectorAll, layeredTree.
  rewrite filter_cons_False by done.
  rewrite descendants_children. cbn [fmap list_fmap]. rewrite mjoin_cons.
  change (mjoin []) with (@nil Node). rewrite app_nil_r.
  rewrite filter_cons_False by done.
  rewrite descendants_children. apply select_nothing, Forall_blocks.
  intros. by apply layeredNodes_only.
Qed.

Lemma extractZone_layer options midiNote lowKey highKey count velIndex sample :
  extractZone (zoneNode options midiNote lowKey highKey count velIndex sample)
  = Some (writtenLayer options midiNote lowKey highKey count velIndex sample).
Proof.
  unfold extractZone, zoneNode.
  change (querySelector _ (str "Sample"))
    with (Some (Element (str "Sample") (sampleAttrs options sample) [])).
  change (querySelector _ (str "KeyRange"))
    with (Some (Element (str "KeyRange") (rangeAttrs midiNote lowKey highKey) [])).
  change (querySelector _ (str "VelocityRange"))
    with (Some (Element (str "VelocityRange")
                  (velAttrs (lowVel count velIndex) (highVel count velIndex)) [])).
  cbn [mbind option_bind]. unfold intAttribute. cbn [mbind option_bind].
  change (getAttribute _ (str "name")) with (Some (sample_name sample)).
  change (getAttribute _ (str "path"))
    with (Some (formatSamplePath options (sample_name sample))).
  change (getAttribute (Element (str "KeyRange") _ _) (str "root"))
    with (Some (toString midiNote)).
  change (getAttribute (Element (str "KeyRange") _ _) (str "low"))
    with (Some (toString lowKey)).
  change (getAttribute (Element (str "KeyRange") _ _) (str "high"))
    with (Some (toString highKey)).
  change (getAttribute (Element (str "VelocityRange") _ _) (str "low"))
    with (Some (toString (lowVel count velIndex))).
  change (getAttribute (Element (str "VelocityRange") _ _) (str "high"))
    with (Some (toString (highVel count velIndex))).
  rewrite !orElse_toString, !parseInt_toString, orElse_path, orElse_name.
  reflexivity.
Qed.

Lemma extractKeygroup_layered options entries k index entry :
  imap (λ j, extractKeygroup (k + j)) (layeredNodes options entries index entry)
  = writtenLayered options entries index entry.
Proof.
  unfold layeredNodes, writtenLayered. destruct entry as [midiNote samples]. cbn [fst snd].
  destruct samples as [|s0 rest]; [done|]. set (samples := s0 :: rest).
  cbn [imap]. f_equal. unfold extractKeygroup.
  change (getAttribute _ (str "index")) with (Some (toString (Z.of_nat index))).
  rewrite orElse_toString, parseInt_toString. f_equal.
  unfold querySelectorAll. rewrite descendants_children.
  rewrite select_all.
  - apply omap_imap. intros. apply extractZone_layer.
  - apply Forall_imap. intros i e. split; [done|]. reflexivity.
Qed.

Lemma imap_blocks {X Y W} (f : nat → Y → W) (N : nat → X → list Y)
    (R : nat → X → list W) (l : list X) :
  (∀ k i e, imap (λ j, f (k + j)%nat) (N i e) = R i e) →
  imap f (mjoin (imap N l)) = mjoin (imap R l).
Proof.
  revert f N R. induction l as [|x l IH]; intros f N R H; [done|].
  rewrite !imap_cons, !mjoin_cons, imap_app. f_equal.
  - apply (H 0%nat).
  - apply (IH _ (N ∘ S) (R ∘ S)). intros k i e. unfold compose.
    rewrite <- (H (length (N 0%nat x) + k)%nat (S i) e).
    apply imap_ext. intros j y _. f_equal. lia.
Qed.

Lemma extractKeygroups_layered options entries :
  extractKeygroups (layeredTree options entries)
  = mjoin (imap (writtenLayered options entries) entries).
Proof.
  unfold extractKeygroups. rewrite layered_elements.
  apply imap_blocks. intros. apply extractKeygroup_layered.
Qed.

(** *** The velocity ranges of the layers *)

Lemma layerVelocities_tile_upto_127 :
  forallb (λ count, Layers.tilesb 1 127 (layerVelocities count)) (seq 1 127) = true.
Proof. vm_compute. reflexivity. Qed.

Lemma zoneVelocity_layers options midiNote lowKey highKey (samples : list Sample) count :
  zoneVelocity <$> imap (writtenLayer options midiNote lowKey highKey count) samples
  = (λ velIndex, (lowVel count velIndex, highVel count velIndex))
    <$> seq 0 (length samples).
Proof.
  apply list_eq. intros i. rewrite !list_lookup_fmap, list_lookup_imap.
  destruct (samples !! i) as [s|] eqn:E; cbn.
  - rewrite lookup_seq_lt; [done|]. by eapply lookup_lt_Some.
  - rewrite lookup_seq_ge; [done|]. by apply lookup_ge_None.
Qed.

Lemma written_keygroup options entries kg :
  kg ∈ mjoin (imap (writtenLayered options entries) entries) →
  ∃ index midiNote samples,
    entries !! index = Some (midiNote, samples) ∧ samples ≠ [] ∧
    kg = {| kg_index := Some (Z.of_nat index);
            zones := imap (writtenLayer options midiNote (lowKeyOf entries index midiNote)
                             (highKeyOf entries index midiNote) (length samples))
                          samples |}.
Proof.
  intros Hin. apply list_elem_of_join in Hin as (block & Hkg & Hblock).
  apply list_elem_of_lookup in Hblock as [index Hblock].
  rewrite list_lookup_imap in Hblock.
  destruct (entries !! index) as [[midiNote samples]|] eqn:E; [|done].
  cbn in Hblock. injection Hblock as <-. unfold writtenLayered in Hkg. cbn [fst snd] in Hkg.
  destruct samples as [|s0 rest]; [by apply elem_of_nil in Hkg|].
  apply list_elem_of_singleton in Hkg. by exists index, midiNote, (s0 :: rest).
Qed.


(** X16.  A velocity-layered instrument written by
    [generateMultiVelocityXPM] is read back by [parseXPMContent] as an
    instrument program with one keygroup per note that has samples, in
    ascending note order; the keygroup of entry [i] carries index [i]
    (entries without samples leave gaps in the numbering) and one zone
    per sample, in order, with the sample's name, its formatted path,
    the key range of the entry and the velocity range the writer
    computed.  Every keygroup read back has at least one zone, and when
    it has at most 127 zones their velocity ranges tile 1..127.  This
    holds whenever the program name and the sample names contain no
    control character, double quote, ampersand or left angle bracket. *)
Theorem multi_velocity_round_trip (options : XPMOptions)
    (keyVelocityMapping : gmap Z (list Sample)) :
  safe (opt_name options) = true →
  map_Forall (λ _ samples, Forall (λ s, safe (sample_name s) = true) samples)
             keyVelocityMapping →
  let entries := sortedLayers keyVelocityMapping in
  ∃ program,
    Codec.parseXPMContent (generateMultiVelocityXPM options keyVelocityMapping)
    = Returned program ∧
    prog_isDrumkit program = false ∧
    prog_keygroups program = mjoin (imap (writtenLayered options entries) entries) ∧
    (∀ keygroup, keygroup ∈ prog_keygroups program →
       zones keygroup ≠ [] ∧
       ((length (zones keygroup) ≤ 127)%nat →
        tiles 1 127 (zoneVelocity <$> zones keygroup))).
Proof.
  intros Hname Hs entries. unfold Codec.parseXPMContent.
  rewrite (parse_layered _ _ Hname Hs), layered_no_parsererror.
  rewrite bool_decide_eq_false_2 by (by intros H).
  change (determineProgramType (layeredTree _ _)) with false. cbv iota.
  eexists. split; [reflexivity|]. cbn [prog_isDrumkit prog_keygroups].
  split; [done|]. rewrite extractKeygroups_layered. split; [done|].
  intros keygroup (index & midiNote & samples & _ & Hne & ->)%written_keygroup.
  cbn [zones]. split; [by destruct samples|].
  rewrite length_imap, zoneVelocity_layers. intros Hlen.
  apply LayersFacts.tilesb_tiles.
  pose proof layerVelocities_tile_upto_127 as H. rewrite forallb_forall in H.
  apply (H (length samples)), in_seq. destruct samples; [done|]. cbn [length] in *. lia.
Qed.

Lemma multi_velocity_round_trip_witness :
  ∃ program,
    Codec.parseXPMContent (generateMultiVelocityXPM c2_options x16_mapping)
    = Returned program ∧
    (kg_index <$> prog_keygroups program) = [Some 0] ∧
    (zoneVelocity <$> mjoin (zones <$> prog_keygroups program)) = [(1, 63); (64, 127)].
Proof.
  assert (Hs : map_Forall (λ _ samples, Forall (λ s, safe (sample_name s) = true) samples)
                          x16_mapping).
  { apply (bool_decide_unpack _). vm_compute. exact I. }
  destruct (multi_velocity_round_trip c2_options x16_mapping eq_refl Hs)
    as (program & Hp & _ & Hk & _).
  exists program. split; [exact Hp|]. rewrite Hk. split; reflexivity.
Defined.

Lemma drum_kit_round_trip_witness :
  Forall (λ s, safe (sample_name s) = true) x15_samples ∧
  ∃ program,
    Importer.parseXPMContent (λ _, PrimFloat.one) (generateDrumKitXPM x15_options x15_samples)
    = Returned program ∧
    (pad_index <$> default [] (Importer.pads program)) = [Some 0; Some 1].
Proof.
  assert (Hs : Forall (λ s, safe (sample_name s) = true) x15_samples)
    by (repeat constructor).
  split; [exact Hs|]. eexists. split.
  - exact (drum_kit_round_trip (λ _, PrimFloat.one) x15_options x15_samples eq_refl Hs).
  - reflexivity.
Defined.

End GeneratorFacts.

(** ** The repair pass on written documents *)

Module RepairFacts.
Import Xml Codec CodecTerms CodecFacts RepairTerms GeneratorFacts.

(** *** Scanning text that is made of segments *)

Lemma plain_app s t : plain (s ++ t) = plain s && plain t.
Proof. apply forallb_app. Qed.

Lemma plain_no_LT s : plain s = true → LT ∉ s.
Proof.
  unfold plain. rewrite forallb_forall. intros H Hin%list_elem_of_In.
  specialize (H _ Hin). unfold plainChar in H. by rewrite bool_decide_eq_true_2 in H.
Qed.

Lemma plain_no_GT s : plain s = true → GT ∉ s.
Proof.
  unfold plain. rewrite forallb_forall. intros H Hin%list_elem_of_In.
  specialize (H _ Hin). unfold plainChar in H.
  rewrite (bool_decide_eq_true_2 (GT = GT)) in H by done. by rewrite andb_false_r in H.
Qed.

Lemma startsWith_cons_ne c d p s : c ≠ d → startsWith (c :: p) (d :: s) = false.
Proof. intros H. unfold startsWith. apply bool_decide_eq_false_2. cbn. congruence. Qed.

Lemma startsWith_cons c p s : startsWith (c :: p) (c :: s) = startsWith p s.
Proof.
  unfold startsWith. cbn [length take]. apply bool_decide_ext. split; [by intros [= ->]|by intros ->].
Qed.

(** No match begins inside text without a left angle bracket. *)
Lemma findOpen_skip tag w s :
  LT ∉ w →
  findOpen (LT :: tag) (w ++ s) = prepend w <$> findOpen (LT :: tag) s.
Proof.
  intros Hw. induction w as [|c w IH].
  { cbn [app]. by destruct (findOpen _ s) as [[[b a] r]|]. }
  apply not_elem_of_cons in Hw as [Hc Hw]. cbn [app findOpen].
  rewrite (startsWith_cons_ne LT c) by done. rewrite (IH Hw).
  by destruct (findOpen _ s) as [[[b a] r]|].
Qed.

Lemma startsWith_body tag body rest :
  GT ∉ tag → startsWith tag (body ++ GT :: rest) = startsWith tag body.
Proof.
  intros Htag. unfold startsWith. apply bool_decide_ext.
  destruct (decide (length tag ≤ length body)%nat) as [Hle|Hgt].
  - by rewrite take_app_le.
  - rewrite take_app_ge by lia. split.
    + intros E. exfalso. apply Htag. rewrite <- E. apply elem_of_app. right.
      destruct (length tag - length body)%nat eqn:El; [lia|]. cbn. apply elem_of_cons. by left.
    + intros E. exfalso. apply (f_equal length) in E. rewrite length_take in E. lia.
Qed.

Lemma takeWhile_plain body rest :
  GT ∉ body →
  takeWhile (λ c, negb (bool_decide (c = GT))) (body ++ GT :: rest) = body.
Proof.
  induction body as [|c body IH]; intros H.
  { cbn. by rewrite bool_decide_eq_true_2. }
  apply not_elem_of_cons in H as [Hc H]. cbn [app takeWhile].
  rewrite bool_decide_eq_false_2 by done. cbn [negb]. by rewrite IH.
Qed.

(** The scan at a segment: a match when the body begins with the
    element name, else the scan goes on behind the segment. *)
Lemma findOpen_segment tag g rest :
  GT ∉ tag → plainSegment g = true →
  findOpen (LT :: tag) (renderSegment g ++ rest)
  = if opens tag g then Some (g.1, drop (length tag) g.2, rest)
    else prepend (renderSegment g) <$> findOpen (LT :: tag) rest.
Proof.
  intros Htag [Hw Hb]%andb_true_iff. destruct g as [w body]. unfold renderSegment, opens.
  cbn [fst snd] in *. rewrite <- app_assoc, findOpen_skip by (by apply plain_no_LT).
  cbn [app]. rewrite <- app_assoc. cbn [app findOpen].
  rewrite startsWith_cons, (startsWith_body tag body rest Htag).
  destruct (startsWith tag body) eqn:E.
  - cbn [length drop].
    assert (Hlen : (length tag ≤ length body)%nat).
    { apply startsWith_true, (f_equal length) in E. rewrite length_app in E. lia. }
    assert (Hd : GT ∉ drop (length tag) body).
    { intros Hin. apply (plain_no_GT _ Hb). rewrite <- (take_drop (length tag) body).
      apply elem_of_app. by right. }
    rewrite (drop_app_le body) by done.
    rewrite (takeWhile_plain _ _ Hd), drop_app_length.
    unfold prepend. cbn [fmap option_fmap option_map fst snd]. by rewrite app_nil_r.
  - assert (Hno : LT ∉ body ++ [GT]).
    { rewrite elem_of_app, list_elem_of_singleton. intros [H|H]; [|done].
      by apply (plain_no_LT _ Hb). }
    replace (body ++ GT :: rest) with ((body ++ [GT]) ++ rest) by (by rewrite <- app_assoc).
    rewrite (findOpen_skip tag (body ++ [GT]) rest Hno).
    destruct (findOpen (LT :: tag) rest) as [[[b a] r]|]; [|done].
    unfold prepend. cbn [fmap option_fmap option_map mbind option_bind fst snd].
    do 3 f_equal. rewrite <- !app_assoc. cbn [app]. by rewrite <- app_assoc.
Qed.


Lemma renderSegments_cons g gs : renderSegments (g :: gs) = renderSegment g ++ renderSegments gs.
Proof. done. Qed.

Lemma renderSegments_app gs hs :
  renderSegments (gs ++ hs) = renderSegments gs ++ renderSegments hs.
Proof. unfold renderSegments. by rewrite fmap_app, join_app. Qed.

Lemma countb_cons {A} (p : A → bool) x l :
  countb p (x :: l) = ((if p x then 1 else 0) + countb p l)%nat.
Proof.
  unfold countb. destruct (p x) eqn:E.
  - by rewrite filter_cons_True.
  - rewrite filter_cons_False; [done|]. by rewrite E.
Qed.

Lemma countb_app {A} (p : A → bool) l1 l2 :
  countb p (l1 ++ l2) = (countb p l1 + countb p l2)%nat.
Proof. unfold countb. by rewrite filter_app, length_app. Qed.

(** The number of start-tag matches, one scan at a time. *)
Lemma openCount_unfold tag s :
  openCount tag s
  = match findOpen (LT :: tag) s with
    | Some (_, _, after) => S (openCount tag after)
    | None => 0%nat
    end.
Proof.
  unfold openCount. destruct s as [|c s]; [done|]. cbn [length countOpen].
  destruct (findOpen (LT :: tag) (c :: s)) as [[[b a] r]|] eqn:E; [|done].
  f_equal. apply countOpen_fuel. apply findOpen_shorter in E. cbn [length] in E. lia.
Qed.

Lemma openCount_plain tag s : plain s = true → openCount tag s = 0%nat.
Proof.
  intros Hs. rewrite openCount_unfold.
  rewrite <- (app_nil_r s), findOpen_skip by (by apply plain_no_LT). done.
Qed.

(** In text made of segments, the start-tag matches of [tag] are the
    segments whose body begins with [tag]. *)
Lemma openCount_segments tag gs tail :
  GT ∉ tag → forallb plainSegment gs = true → plain tail = true →
  openCount tag (renderSegments gs ++ tail) = countb (opens tag) gs.
Proof.
  intros Htag Hgs Htail. induction gs as [|g gs IH].
  { by apply openCount_plain. }
  cbn [forallb] in Hgs. apply andb_true_iff in Hgs as [Hg Hgs].
  rewrite renderSegments_cons, <- app_assoc, countb_cons, openCount_unfold.
  rewrite (findOpen_segment tag g _ Htag Hg).
  destruct (opens tag g).
  - by rewrite (IH Hgs).
  - rewrite <- (IH Hgs), (openCount_unfold tag (renderSegments gs ++ tail)).
    by destruct (findOpen _ _) as [[[b a] r]|].
Qed.

(** Closing tags. *)
Lemma countLiteral_skip p w s :
  LT ∉ w → countLiteral (LT :: p) (w ++ s) 0 = countLiteral (LT :: p) s 0.
Proof.
  intros Hw. induction w as [|c w IH]; [done|].
  apply not_elem_of_cons in Hw as [Hc Hw]. cbn [app countLiteral].
  rewrite (startsWith_cons_ne LT c) by done. by apply IH.
Qed.

Lemma countLiteral_pass p x s :
  countLiteral p (x ++ s) (length x) = countLiteral p s 0.
Proof. induction x as [|c x IH]; [done|]. cbn [app length countLiteral]. exact IH. Qed.

Lemma startsWith_closer tag body rest :
  GT ∉ tag → GT ∉ body →
  startsWith (SLASH :: tag ++ [GT]) (body ++ GT :: rest) = bool_decide (body = SLASH :: tag).
Proof.
  intros Htag Hbody. unfold startsWith. apply bool_decide_ext.
  change (SLASH :: tag ++ [GT]) with ((SLASH :: tag) ++ [GT]).
  set (t := SLASH :: tag). assert (Ht : GT ∉ t).
  { subst t. apply not_elem_of_cons. split; [done|exact Htag]. }
  clearbody t. rewrite length_app. cbn [length]. split.
  - intros E.
    destruct (decide (length body = length t)) as [Hl|Hl].
    + rewrite take_app_ge in E by lia. replace (length t + 1 - length body)%nat with 1%nat in E by lia.
      cbn [take] in E. by apply app_inj_tail in E as [-> _].
    + exfalso. destruct (decide (length body < length t)%nat) as [Hlt|Hge].
      * apply Ht. assert (Hin : GT ∈ take (length t + 1) (body ++ GT :: rest)).
        { rewrite take_app_ge by lia. apply elem_of_app. right.
          destruct (length t + 1 - length body)%nat eqn:El; [lia|]. cbn. apply elem_of_cons. by left. }
        rewrite E in Hin. apply elem_of_app in Hin as [Hin|Hin]; [done|].
        apply list_elem_of_singleton in Hin.
        apply (f_equal (λ l, l !! length body)) in E.
        rewrite lookup_take_lt, lookup_app_r, Nat.sub_diag in E by lia. cbn in E.
        rewrite lookup_app_l in E by lia. symmetry in E.
        by apply list_elem_of_lookup_2 in E.
      * apply Hbody. rewrite take_app_le in E by lia.
        assert (Hin : GT ∈ take (length t + 1) body).
        { rewrite E. apply elem_of_app. right. by apply list_elem_of_singleton. }
        by apply subseteq_take in Hin.
  - intros ->. rewrite take_app_ge by lia.
    replace (length t + 1 - length t)%nat with 1%nat by lia. done.
Qed.

Lemma closeCount_segment tag g rest :
  GT ∉ tag → plainSegment g = true →
  closeCount tag (renderSegment g ++ rest)
  = ((if closes tag g then 1 else 0) + closeCount tag rest)%nat.
Proof.
  intros Htag [Hw Hb]%andb_true_iff. destruct g as [w body]. unfold renderSegment, closes.
  cbn [fst snd] in *. unfold closeCount, closer.
  change (str "</" ++ tag ++ str ">") with (LT :: SLASH :: tag ++ [GT]).
  rewrite <- app_assoc, countLiteral_skip by (by apply plain_no_LT).
  cbn [app]. rewrite <- app_assoc. cbn [app countLiteral].
  rewrite startsWith_cons, (startsWith_closer tag body rest Htag (plain_no_GT _ Hb)).
  case_bool_decide as Hc.
  - subst body. cbn [Nat.add]. f_equal.
    replace ((SLASH :: tag) ++ GT :: rest) with ((SLASH :: tag ++ [GT]) ++ rest)
      by (cbn [app]; by rewrite <- app_assoc).
    replace (length (LT :: SLASH :: tag ++ [GT]) - 1)%nat
      with (length (SLASH :: tag ++ [GT])) by (cbn [length]; lia).
    apply countLiteral_pass.
  - cbn [Nat.add].
    replace (body ++ GT :: rest) with ((body ++ [GT]) ++ rest) by (by rewrite <- app_assoc).
    apply countLiteral_skip.
    rewrite elem_of_app, list_elem_of_singleton. intros [H|H]; [|done].
    by apply (plain_no_LT _ Hb).
Qed.

Lemma closeCount_plain tag s : plain s = true → closeCount tag s = 0%nat.
Proof.
  intros Hs. unfold closeCount, closer.
  change (str "</" ++ tag ++ str ">") with (LT :: SLASH :: tag ++ [GT]).
  rewrite <- (app_nil_r s), countLiteral_skip by (by apply plain_no_LT). done.
Qed.

(** In text made of segments, the closing tags of [tag] are the
    segments whose body is a slash and [tag]. *)
Lemma closeCount_segments tag gs tail :
  GT ∉ tag → forallb plainSegment gs = true → plain tail = true →
  closeCount tag (renderSegments gs ++ tail) = countb (closes tag) gs.
Proof.
  intros Htag Hgs Htail. induction gs as [|g gs IH].
  { by apply closeCount_plain. }
  cbn [forallb] in Hgs. apply andb_true_iff in Hgs as [Hg Hgs].
  rewrite renderSegments_cons, <- app_assoc, countb_cons.
  by rewrite (closeCount_segment tag g _ Htag Hg), (IH Hgs).
Qed.

(** The path repair leaves text alone in which every Sample tag has a
    path. *)
Lemma fixSamples_unfold s :
  fixSamples (length s) s
  = match findOpen (str "<Sample") s with
    | Some (before, attributes, after) =>
        before ++ fixSample attributes ++ fixSamples (length after) after
    | None => s
    end.
Proof.
  destruct (findOpen (str "<Sample") s) as [[[b a] r]|] eqn:E.
  - by destruct (fixSamples_match _ _ _ _ E) as [_ ->].
  - destruct (length s); cbn [fixSamples]; [done|]. by rewrite E.
Qed.

Lemma fixSamples_segments gs tail :
  forallb plainSegment gs = true → plain tail = true → forallb hasPath gs = true →
  fixSamples (length (renderSegments gs ++ tail)) (renderSegments gs ++ tail)
  = renderSegments gs ++ tail.
Proof.
  intros Hgs Htail Hp. induction gs as [|g gs IH].
  { rewrite fixSamples_unfold. change (str "<Sample") with (LT :: str "Sample").
    cbn [renderSegments fmap list_fmap mjoin list_join app].
    rewrite <- (app_nil_r tail), findOpen_skip by (by apply plain_no_LT). done. }
  cbn [forallb] in Hgs, Hp. apply andb_true_iff in Hgs as [Hg Hgs].
  apply andb_true_iff in Hp as [Hpg Hp].
  rewrite renderSegments_cons, <- app_assoc, fixSamples_unfold.
  change (str "<Sample") with (LT :: str "Sample").
  assert (Htag : GT ∉ str "Sample") by (apply (bool_decide_unpack _); vm_compute; exact I).
  rewrite (findOpen_segment (str "Sample") g _ Htag Hg).
  unfold hasPath in Hpg. unfold opens.
  destruct (startsWith (str "Sample") g.2) eqn:E.
  - cbn [negb orb] in Hpg. change (length (str "Sample")) with 6%nat.
    rewrite (fixSample_keeps _ (or_introl Hpg)), (IH Hgs Hp).
    destruct g as [w body]. unfold renderSegment. cbn [fst snd] in *.
    apply startsWith_true in E. change (length (str "Sample")) with 6%nat in E.
    rewrite E at 2. change (str "<Sample") with (LT :: str "Sample").
    rewrite <- !app_assoc. cbn [app]. by rewrite <- !app_assoc.
  - rewrite <- (IH Hgs Hp) at 2. rewrite (fixSamples_unfold (renderSegments gs ++ tail)).
    change (str "<Sample") with (LT :: str "Sample").
    destruct (findOpen _ _) as [[[b a] r]|]; [|done].
    unfold prepend. cbn [fmap option_fmap option_map fst snd]. by rewrite <- app_assoc.
Qed.


(** *** Written documents as segments *)

Lemma renderTag_body t : isTag t = true → renderTag t = LT :: tagBody t ++ [GT].
Proof. destruct t as [n a|n a|n|]; [| | |done]; intros _; cbn; by rewrite <- ?app_assoc. Qed.

Lemma renderLines_segments ls :
  forallb (λ p, isTag p.2) ls = true → renderLines ls = renderSegments (lineSegments ls).
Proof.
  induction ls as [|[k t] ls IH]; [done|]. cbn [forallb snd].
  intros [Ht Hls]%andb_true_iff. unfold renderLines, lineSegments in *.
  rewrite !fmap_cons, mjoin_cons, renderSegments_cons, (IH Hls). cbn [fst snd].
  unfold renderSegment. cbn [fst snd]. by rewrite (renderTag_body t Ht), <- app_assoc.
Qed.

Lemma document_segments root ls :
  isTag root = true → forallb (λ p, isTag p.2) ls = true →
  xmlDeclaration ++ renderTag root ++ renderLines ls
  = renderSegments (documentSegments root ls).
Proof.
  intros Hroot Hls. unfold documentSegments.
  rewrite !renderSegments_cons, (renderLines_segments ls Hls), (renderTag_body root Hroot).
  unfold renderSegment. cbn [fst snd].
  change xmlDeclaration with (([] ++ LT :: declarationSegment.2 ++ [GT]) ++ NL).
  by rewrite <- !app_assoc.
Qed.

Lemma wfTag_isTag t : wfTag t = true → isTag t = true.
Proof. by destruct t. Qed.

Lemma plain_gap k : plain (gap k) = true.
Proof.
  unfold gap. rewrite plain_app. apply andb_true_iff. split; [done|].
  induction k as [|k IH]; [done|]. unfold plain in *. cbn [replicate forallb]. by rewrite IH.
Qed.

Lemma plain_renderAttrs a :
  forallb (λ x, plain x.1 && plain x.2) a = true → plain (renderAttrs a) = true.
Proof.
  induction a as [|[n v] a IH]; [done|]. cbn [forallb fst snd].
  intros [[Hn Hv]%andb_true_iff Ha]%andb_true_iff.
  unfold renderAttrs in *. rewrite fmap_cons, mjoin_cons. unfold renderAttr at 1. cbn [fst snd].
  change (SPACE :: n ++ EQUALS :: QUOT :: v ++ [QUOT])
    with ([SPACE] ++ n ++ [EQUALS; QUOT] ++ v ++ [QUOT]).
  by rewrite !plain_app, Hn, Hv, (IH Ha).
Qed.

Lemma plain_tagBody t : plainTag t = true → plain (tagBody t) = true.
Proof.
  destruct t as [n a|n a|n|]; cbn [plainTag tagBody]; [| | |done].
  - intros [Hn Ha]%andb_true_iff. by rewrite plain_app, Hn, (plain_renderAttrs a Ha).
  - intros [Hn Ha]%andb_true_iff. by rewrite !plain_app, Hn, (plain_renderAttrs a Ha).
  - intros Hn. change (SLASH :: n) with ([SLASH] ++ n). by rewrite plain_app, Hn.
Qed.

Lemma plain_lineSegments ls :
  forallb (λ p, plainTag p.2) ls = true → forallb plainSegment (lineSegments ls) = true.
Proof.
  induction ls as [|[k t] ls IH]; [done|]. cbn [forallb snd].
  intros [Ht Hls]%andb_true_iff. unfold lineSegments in *. rewrite fmap_cons.
  cbn [forallb fst snd]. rewrite (IH Hls). unfold plainSegment. cbn [fst snd].
  by rewrite plain_gap, (plain_tagBody t Ht).
Qed.

Lemma plain_documentSegments root ls :
  plainTag root = true → forallb (λ p, plainTag p.2) ls = true →
  forallb plainSegment (documentSegments root ls) = true.
Proof.
  intros Hroot Hls. unfold documentSegments. cbn [forallb].
  rewrite (plain_lineSegments ls Hls). unfold plainSegment at 2. cbn [fst snd].
  by rewrite (plain_tagBody root Hroot).
Qed.

Lemma plain_toString z : plain (toString z) = true.
Proof.
  assert (∀ d, plain (digitChars d) = true) as Hd.
  { induction d; cbn [digitChars plain forallb]; [done|..]; by rewrite andb_true_iff. }
  destruct (toString_cases z) as (d & _ & [(_ & -> & _)|(_ & -> & _)]); [done|].
  cbn [plain forallb]. by rewrite andb_true_iff.
Qed.

Lemma plain_formatSamplePath options name :
  plain name = true → plain (formatSamplePath options name) = true.
Proof.
  intros Hn. unfold formatSamplePath. destruct (useRelativePaths options); [|done].
  assert (plain (cleanChar <$> name) = true) as Hc.
  { induction name as [|c name IH]; [done|]. cbn [plain forallb fmap list_fmap] in *.
    apply andb_true_iff in Hn as [Hc Hn]. rewrite andb_true_iff.
    split; [|by apply IH]. unfold cleanChar. by case_bool_decide. }
  destruct (outputDirectory options) as [[|? ?]|]; rewrite plain_app, Hc; done.
Qed.

Lemma plain_blocks {X} (F : nat → X → list (nat * token)) (l : list X) :
  (∀ i e, e ∈ l → forallb (λ p, plainTag p.2) (F i e) = true) →
  forallb (λ p, plainTag p.2) (mjoin (imap F l)) = true.
Proof.
  revert F. induction l as [|x l IH]; intros F HF; [done|].
  rewrite imap_cons, mjoin_cons, forallb_app, HF by (apply elem_of_cons; by left).
  apply (IH (F ∘ S)). intros i e He. apply HF, elem_of_cons. by right.
Qed.

Lemma plain_keygroupTags options entries index entry :
  plain (sample_name entry.2) = true →
  forallb (λ p, plainTag p.2) (keygroupTags options entries index entry) = true.
Proof.
  intros Hs. unfold keygroupTags. cbn [forallb snd plainTag].
  unfold sampleAttrs, keyRangeAttrs, velocityAttrs. cbn [forallb fst snd].
  rewrite !plain_toString, Hs, (plain_formatSamplePath _ _ Hs).
  vm_compute. reflexivity.
Qed.

(** *** Counting in blocks *)

Lemma lineSegments_app l1 l2 : lineSegments (l1 ++ l2) = lineSegments l1 ++ lineSegments l2.
Proof. apply fmap_app. Qed.

Lemma countb_blocks {X} (p : segment → bool) (F : nat → X → list (nat * token))
    (l : list X) (c : nat) :
  (∀ i e, countb p (lineSegments (F i e)) = c) →
  countb p (lineSegments (mjoin (imap F l))) = (c * length l)%nat.
Proof.
  revert F. induction l as [|x l IH]; intros F HF; [cbn; lia|].
  rewrite imap_cons, mjoin_cons, lineSegments_app, countb_app, HF.
  rewrite (IH (F ∘ S)) by (intros; apply HF). cbn [length]. lia.
Qed.

Lemma forallb_blocks {X} (p : segment → bool) (F : nat → X → list (nat * token))
    (l : list X) :
  (∀ i e, forallb p (lineSegments (F i e)) = true) →
  forallb p (lineSegments (mjoin (imap F l))) = true.
Proof.
  revert F. induction l as [|x l IH]; intros F HF; [done|].
  rewrite imap_cons, mjoin_cons, lineSegments_app, forallb_app, HF.
  apply (IH (F ∘ S)). intros; apply HF.
Qed.

Lemma contains_here p r : contains p (p ++ r) = true.
Proof.
  assert (H : startsWith p (p ++ r) = true).
  { unfold startsWith. apply bool_decide_eq_true_2. by rewrite take_app_length. }
  destruct (p ++ r) as [|c s] eqn:E; cbn [contains].
  - by destruct p.
  - by rewrite H.
Qed.

Lemma contains_later p w s : contains p s = true → contains p (w ++ s) = true.
Proof.
  intros H. induction w as [|c w IH]; [done|]. cbn [app contains]. rewrite IH.
  apply orb_true_r.
Qed.

Lemma hasPath_sample options sample k :
  hasPath (k, tagBody (TEmpty (str "Sample") (sampleAttrs options sample))) = true.
Proof.
  unfold hasPath. cbn [snd tagBody]. apply orb_true_iff. right.
  change (drop 6 (str "Sample" ++ ?x)) with x.
  set (name := sample_name sample). set (path := formatSamplePath options name).
  replace (renderAttrs (sampleAttrs options sample) ++ [SLASH])
    with ((SPACE :: str "name=" ++ QUOT :: name ++ [QUOT; SPACE])
          ++ str "path=" ++ QUOT :: path ++ [QUOT; SLASH]).
  { apply contains_later, contains_here. }
  unfold sampleAttrs, renderAttrs. cbn [fmap list_fmap]. rewrite !mjoin_cons.
  unfold renderAttr. cbn [fst snd]. fold name. fold path. same_text.
Qed.


Lemma plainTag_isTag t : plainTag t = true → isTag t = true.
Proof. by destruct t. Qed.

Lemma plain_isTag (ls : list (nat * token)) :
  forallb (λ p, plainTag p.2) ls = true → forallb (λ p, isTag p.2) ls = true.
Proof.
  rewrite !forallb_forall. intros H p Hp. apply plainTag_isTag. by apply H.
Qed.

Lemma deficit_segments tag gs tail :
  GT ∉ tag → forallb plainSegment gs = true → plain tail = true →
  deficit tag (renderSegments gs ++ tail)
  = (countb (opens tag) gs - countb (closes tag) gs)%nat.
Proof.
  intros Htag Hgs Htail. unfold deficit.
  by rewrite (openCount_segments _ _ _ Htag Hgs Htail), (closeCount_segments _ _ _ Htag Hgs Htail).
Qed.

(** Closing tags appended to text that ends with [tail]. *)
Lemma closers_lines tag k :
  NL ++ closers tag k = renderSegments (replicate k (NL, SLASH :: tag)) ++ NL.
Proof.
  unfold closers. induction k as [|k IH]; [done|].
  cbn [replicate]. rewrite mjoin_cons, renderSegments_cons, <- !app_assoc, <- IH.
  unfold renderSegment, closer. cbn [fst snd].
  change (str "</" ++ tag ++ str ">") with (LT :: SLASH :: tag ++ [GT]).
  rewrite <- !app_assoc. cbn [app]. by rewrite <- !app_assoc.
Qed.

Lemma closers_segments gs tail tag k :
  (renderSegments gs ++ tail) ++ closers tag (S k)
  = renderSegments (gs ++ closerSegments tail tag (S k)) ++ NL.
Proof.
  rewrite renderSegments_app, <- !app_assoc. f_equal. cbn [closerSegments].
  rewrite renderSegments_cons, <- app_assoc, <- closers_lines.
  unfold closers at 1. cbn [replicate]. rewrite mjoin_cons. fold (closers tag k).
  unfold renderSegment, closer. cbn [fst snd].
  change (str "</" ++ tag ++ str ">") with (LT :: SLASH :: tag ++ [GT]).
  rewrite <- !app_assoc. cbn [app]. by rewrite <- !app_assoc.
Qed.

Lemma plain_closerSegments tail tag k :
  plain tail = true → plain tag = true →
  forallb plainSegment (closerSegments tail tag k) = true.
Proof.
  intros Htail Htag. destruct k as [|k]; [done|]. cbn [closerSegments forallb].
  assert (Hc : plain (SLASH :: tag) = true).
  { change (SLASH :: tag) with ([SLASH] ++ tag). by rewrite plain_app, Htag. }
  unfold plainSegment at 1. cbn [fst snd]. rewrite Htail, Hc. cbn [andb].
  induction k as [|k IH]; [done|]. cbn [replicate forallb]. rewrite IH.
  unfold plainSegment. cbn [fst snd]. by rewrite Hc.
Qed.

Lemma countb_closerSegments p tail tag k :
  p (tail, SLASH :: tag) = p (NL, SLASH :: tag) →
  countb p (closerSegments tail tag k) = ((if p (NL, SLASH :: tag) then 1 else 0) * k)%nat.
Proof.
  intros Hp. destruct k as [|k]; [cbn; lia|]. cbn [closerSegments].
  rewrite countb_cons, Hp.
  assert (H : countb p (replicate k (NL, SLASH :: tag))
              = ((if p (NL, SLASH :: tag) then 1 else 0) * k)%nat).
  { induction k as [|k IH]; [cbn; lia|]. cbn [replicate]. rewrite countb_cons, IH. lia. }
  rewrite H. lia.
Qed.

(** *** The repair pass applied to what the instrument writer prints *)

Lemma plainNames_entries options keyMapping :
  plainNames options keyMapping →
  Forall (λ e, plain (sample_name e.2) = true) (sortedEntries keyMapping).
Proof.
  intros [_ H]. apply Forall_forall. intros [k v] Hin. unfold sortedEntries in Hin.
  rewrite sort_by_perm in Hin. apply elem_of_map_to_list in Hin.
  specialize (H k v Hin). cbn in H. unfold plainText in H. by apply andb_true_iff in H as [_ ?].
Qed.

Lemma plainNames_safe options keyMapping :
  plainNames options keyMapping → safeNames options keyMapping.
Proof.
  intros [Hname H]. unfold plainText in *. apply andb_true_iff in Hname as [Hname _].
  split; [done|]. intros k v Hk. specialize (H k v Hk). cbn in *.
  by apply andb_true_iff in H as [? _].
Qed.

Lemma plain_instrumentLines options entries :
  Forall (λ e, plain (sample_name e.2) = true) entries →
  forallb (λ p, plainTag p.2) (instrumentLines options entries) = true.
Proof.
  intros Hs. unfold instrumentLines. rewrite !forallb_app, plain_blocks; [done|].
  intros i e He. apply plain_keygroupTags. rewrite Forall_forall in Hs. by apply Hs.
Qed.

Lemma plain_programTag options :
  plain (opt_name options) = true → plainTag (programTag options) = true.
Proof. intros H. unfold programTag. cbn [plainTag forallb fst snd]. by rewrite H. Qed.

Lemma instrument_document options keyMapping :
  plainNames options keyMapping →
  generateInstrumentXPM options keyMapping
  = renderSegments (documentSegments (programTag options)
                      (instrumentLines options (sortedEntries keyMapping))).
Proof.
  intros Hp. rewrite generateInstrumentXPM_body. unfold documentBody.
  rewrite <- renderLines_blocks, <- !renderLines_app.
  apply document_segments; [done|].
  apply plain_isTag, plain_instrumentLines. by eapply plainNames_entries.
Qed.

Lemma hasPath_instrument options entries :
  forallb hasPath (documentSegments (programTag options) (instrumentLines options entries))
  = true.
Proof.
  unfold documentSegments, instrumentLines. cbn [forallb].
  rewrite !lineSegments_app, !forallb_app, forallb_blocks; [done|].
  intros i e. unfold keygroupTags, lineSegments. cbn [fmap list_fmap forallb fst snd].
  by rewrite hasPath_sample.
Qed.


Lemma instrument_opens options entries tag c k :
  (∀ i e, countb (opens tag) (lineSegments (keygroupTags options entries i e)) = c) →
  ((if opens tag declarationSegment then 1 else 0)
   + ((if opens tag (NL, tagBody (programTag options)) then 1 else 0)
      + (countb (opens tag) (lineSegments openingLines)
         + countb (opens tag) (lineSegments closingLines))))%nat = k →
  countb (opens tag)
         (documentSegments (programTag options) (instrumentLines options entries))
  = (k + c * length entries)%nat.
Proof.
  intros Hc <-. unfold documentSegments, instrumentLines.
  rewrite !countb_cons, !lineSegments_app, !countb_app, (countb_blocks _ _ _ c Hc). lia.
Qed.

Lemma instrument_closes options entries tag c k :
  (∀ i e, countb (closes tag) (lineSegments (keygroupTags options entries i e)) = c) →
  ((if closes tag declarationSegment then 1 else 0)
   + ((if closes tag (NL, tagBody (programTag options)) then 1 else 0)
      + (countb (closes tag) (lineSegments openingLines)
         + countb (closes tag) (lineSegments closingLines))))%nat = k →
  countb (closes tag)
         (documentSegments (programTag options) (instrumentLines options entries))
  = (k + c * length entries)%nat.
Proof.
  intros Hc <-. unfold documentSegments, instrumentLines.
  rewrite !countb_cons, !lineSegments_app, !countb_app, (countb_blocks _ _ _ c Hc). lia.
Qed.

Lemma closeTag_balanced text tag : deficit tag text = 0%nat → closeTag text tag = text.
Proof. intros H. rewrite closeTag_appends, H. apply app_nil_r. Qed.

Lemma contains_declaration r : contains (str "<?xml") (xmlDeclaration ++ r) = true.
Proof.
  change xmlDeclaration with (str "<?xml" ++ drop 5 xmlDeclaration).
  rewrite <- app_assoc. apply contains_here.
Qed.

Lemma no_GT (tag : string) :
  bool_decide (GT ∉ str tag) = true → GT ∉ str tag.
Proof. apply bool_decide_eq_true. Qed.

Lemma repaired_instrument_text options keyMapping :
  plainNames options keyMapping →
  fixXPMContent (generateInstrumentXPM options keyMapping)
  = generateInstrumentXPM options keyMapping
    ++ closers (str "Keygroup") 2 ++ closers (str "Sample") (size keyMapping).
Proof.
  intros Hp. pose proof (plainNames_entries _ _ Hp) as Hentries.
  assert (Hname : plain (opt_name options) = true).
  { destruct Hp as [Hn _]. unfold plainText in Hn. by apply andb_true_iff in Hn as [_ ?]. }
  assert (Hsize : length (sortedEntries keyMapping) = size keyMapping).
  { unfold sortedEntries. by rewrite sort_by_length, length_map_to_list. }
  rewrite <- Hsize. clear Hsize.
  unfold fixXPMContent, fixDeclaration.
  rewrite (instrument_document _ _ Hp).
  set (entries := sortedEntries keyMapping) in *.
  set (segs := documentSegments (programTag options) (instrumentLines options entries)).
  assert (Hplain : forallb plainSegment segs = true).
  { apply plain_documentSegments; [by apply plain_programTag|by apply plain_instrumentLines]. }
  assert (Hdecl : contains (str "<?xml") (renderSegments segs) = true).
  { subst segs entries. rewrite <- (instrument_document _ _ Hp), generateInstrumentXPM_body.
    apply contains_declaration. }
  rewrite Hdecl. rewrite <- (app_nil_r (renderSegments segs)).
  rewrite (fixSamples_segments segs [] Hplain eq_refl (hasPath_instrument _ _)).
  unfold openTags. cbn [fmap list_fmap foldl].
  (* the five names before Keygroup are balanced *)
  rewrite (closeTag_balanced _ (str "DrumProgram")).
  2:{ rewrite deficit_segments by (done || by apply no_GT). unfold segs.
      rewrite (instrument_opens _ _ _ 0 0), (instrument_closes _ _ _ 0 0) by (intros; reflexivity).
      lia. }
  rewrite (closeTag_balanced _ (str "KeygroupProgram")).
  2:{ rewrite deficit_segments by (done || by apply no_GT). unfold segs.
      rewrite (instrument_opens _ _ _ 0 1), (instrument_closes _ _ _ 0 1) by (intros; reflexivity).
      lia. }
  rewrite (closeTag_balanced _ (str "Pads")).
  2:{ rewrite deficit_segments by (done || by apply no_GT). unfold segs.
      rewrite (instrument_opens _ _ _ 0 0), (instrument_closes _ _ _ 0 0) by (intros; reflexivity).
      lia. }
  rewrite (closeTag_balanced _ (str "Keygroups")).
  2:{ rewrite deficit_segments by (done || by apply no_GT). unfold segs.
      rewrite (instrument_opens _ _ _ 0 1), (instrument_closes _ _ _ 0 1) by (intros; reflexivity).
      lia. }
  rewrite (closeTag_balanced _ (str "Pad")).
  2:{ rewrite deficit_segments by (done || by apply no_GT). unfold segs.
      rewrite (instrument_opens _ _ _ 0 0), (instrument_closes _ _ _ 0 0) by (intros; reflexivity).
      lia. }
  (* Keygroup: the root tag and the Keygroups tag match its pattern too *)
  rewrite (closeTag_appends _ (str "Keygroup")).
  rewrite deficit_segments by (done || by apply no_GT). unfold segs at 2 3.
  rewrite (instrument_opens _ _ _ 1 2), (instrument_closes _ _ _ 1 0) by (intros; reflexivity).
  replace (2 + 1 * length entries - (0 + 1 * length entries))%nat with 2%nat by lia.
  rewrite (closers_segments segs [] (str "Keygroup") 1).
  set (segs1 := segs ++ closerSegments [] (str "Keygroup") 2).
  assert (Hplain1 : forallb plainSegment segs1 = true).
  { subst segs1. by rewrite forallb_app, Hplain. }
  (* Zone is balanced *)
  rewrite (closeTag_balanced _ (str "Zone")).
  2:{ rewrite deficit_segments by (done || by apply no_GT).
      subst segs1. rewrite !countb_app. unfold segs.
      rewrite (instrument_opens _ _ _ 1 0), (instrument_closes _ _ _ 1 0) by (intros; reflexivity).
      change (countb (opens (str "Zone")) (closerSegments [] (str "Keygroup") 2)) with 0%nat.
      change (countb (closes (str "Zone")) (closerSegments [] (str "Keygroup") 2)) with 0%nat.
      lia. }
  (* Sample: the tags are empty-element tags and never closed *)
  rewrite (closeTag_appends _ (str "Sample")).
  rewrite deficit_segments by (done || by apply no_GT).
  subst segs1. rewrite !countb_app. unfold segs at 2 3.
  rewrite (instrument_opens _ _ _ 1 0), (instrument_closes _ _ _ 0 0) by (intros; reflexivity).
  change (countb (opens (str "Sample")) (closerSegments [] (str "Keygroup") 2)) with 0%nat.
  change (countb (closes (str "Sample")) (closerSegments [] (str "Keygroup") 2)) with 0%nat.
  replace (0 + 1 * length entries + 0 - (0 + 0 * length entries + 0))%nat
    with (length entries) by lia.
  rewrite <- (closers_segments segs [] (str "Keygroup") 1).
  by rewrite !app_nil_r, <- app_assoc.
Qed.


(** *** Reading the repaired text *)

Lemma tokens_closers tag k r ts :
  wfName tag = true → startsTag r → tokens r ts →
  tokens (closers tag k ++ r) (mjoin (replicate k [TEnd tag; TText false]) ++ ts)
  ∧ startsTag (closers tag k ++ r).
Proof.
  intros Htag Hr Hts. unfold closers. induction k as [|k [IH1 IH2]]; [done|].
  cbn [replicate]. rewrite !mjoin_cons, <- !app_assoc. unfold closer at 1 3.
  change (str "</" ++ tag ++ str ">") with (renderTag (TEnd tag)).
  split; [|by apply startsTag_tag].
  cbn [app]. apply tokens_tag; [done|]. by apply (tokens_spaces NL).
Qed.

Lemma noCR_closers tag k : noCR tag = true → noCR (closers tag k) = true.
Proof.
  intros Htag. unfold closers. induction k as [|k IH]; [done|].
  cbn [replicate]. rewrite mjoin_cons, !noCR_app, IH. unfold closer.
  by rewrite !noCR_app, Htag.
Qed.

Lemma build_instrument options entries ts :
  build (TText false :: programTag options
         :: lineTokens (instrumentLines options entries) ++ ts) [] None
  = build ts [] (Some (documentTree options entries)).
Proof.
  unfold instrumentLines, programTag. rewrite !lineTokens_app, <- !app_assoc.
  change (lineTokens openingLines) with [TText false; TStart (str "Keygroups") []].
  change (lineTokens closingLines)
    with [TText false; TEnd (str "Keygroups"); TText false; TEnd (str "KeygroupProgram")].
  cbn [build app].
  rewrite (build_lines _ (keygroupNode options entries)).
  2:{ intros. apply build_keygroup. }
  rewrite app_nil_r. cbn [build]. rewrite rev_involutive. reflexivity.
Qed.

Lemma wf_instrumentLines options entries :
  safeEntries entries = true →
  forallb (λ p, wfTag p.2) (instrumentLines options entries) = true.
Proof.
  intros Hs. unfold instrumentLines. rewrite !forallb_app, wf_blocks; [done|].
  intros i e He. by apply wf_entries.
Qed.

Lemma parse_repaired_instrument options keyMapping :
  plainNames options keyMapping →
  parse (generateInstrumentXPM options keyMapping
         ++ closers (str "Keygroup") 2 ++ closers (str "Sample") (size keyMapping))
  = None.
Proof.
  intros Hp. pose proof (plainNames_safe _ _ Hp) as Hsafe.
  pose proof (safeNames_entries _ _ Hsafe) as Hentries. destruct Hsafe as [Hname _].
  rewrite generateInstrumentXPM_body. unfold documentBody.
  rewrite <- renderLines_blocks, <- !renderLines_app.
  fold (instrumentLines options (sortedEntries keyMapping)).
  set (ls := instrumentLines options (sortedEntries keyMapping)).
  set (extra := closers (str "Keygroup") 2 ++ closers (str "Sample") (size keyMapping)).
  assert (Hls : forallb (λ p, wfTag p.2) ls = true) by (by apply wf_instrumentLines).
  destruct (tokens_closers (str "Sample") (size keyMapping) [] [] eq_refl (or_introl eq_refl)
              tokens_nil) as [Ht2 Hs2].
  destruct (tokens_closers (str "Keygroup") 2 _ _ eq_refl Hs2 Ht2) as [Ht1 Hs1].
  rewrite !app_nil_r in *. fold extra in Ht1, Hs1.
  rewrite <- !app_assoc.
  set (ets := mjoin (replicate 2 [TEnd (str "Keygroup"); TText false])
              ++ mjoin (replicate (size keyMapping) [TEnd (str "Sample"); TText false]))
    in Ht1.
  rewrite (parse_declaration _ (programTag options :: lineTokens ls ++ ets)).
  - unfold ls. rewrite build_instrument. reflexivity.
  - rewrite !noCR_app, (noCR_renderTag _ (wf_programTag _ Hname)), (noCR_renderLines _ Hls).
    unfold extra. rewrite noCR_app. rewrite !noCR_closers; done.
  - by apply startsTag_tag, wf_programTag.
  - apply tokens_tag; [by apply wf_programTag|]. apply tokens_lines; [done|]. exact Ht1.
Qed.

(** X17.  The repair pass does not leave a document of the instrument
    writer alone.  For every key mapping whose names hold no control
    character, double quote, ampersand or angle bracket, the start-tag
    pattern of "Keygroup" also matches the tags KeygroupProgram and
    Keygroups, and the empty-element Sample tags count as opened and
    never closed; so [fixXPMContent] appends two Keygroup closing tags
    and one Sample closing tag per mapped note behind the end of the
    document, and nothing else.  The reader accepts the document as
    written and rejects it after the repair. *)
Theorem repair_breaks_written_instrument (options : XPMOptions)
    (keyMapping : gmap Z Sample) :
  plainNames options keyMapping →
  fixXPMContent (generateInstrumentXPM options keyMapping)
  = generateInstrumentXPM options keyMapping
    ++ closers (str "Keygroup") 2 ++ closers (str "Sample") (size keyMapping) ∧
  (∃ program,
     parseXPMContent (generateInstrumentXPM options keyMapping) = Returned program) ∧
  parseXPMContent (fixXPMContent (generateInstrumentXPM options keyMapping))
  = Thrown (str "Failed to parse XPM content: Error: XML parsing error").
Proof.
  intros Hp. split; [by apply repaired_instrument_text|]. split.
  - pose proof (plainNames_safe _ _ Hp) as Hsafe.
    pose proof (safeNames_entries _ _ Hsafe) as Hentries. destruct Hsafe as [Hname _].
    unfold parseXPMContent. rewrite (parse_generated _ _ Hname Hentries), no_parsererror.
    rewrite bool_decide_eq_false_2 by (by intros H). by eexists.
  - rewrite (repaired_instrument_text _ _ Hp). unfold parseXPMContent.
    by rewrite (parse_repaired_instrument _ _ Hp).
Qed.

Lemma repair_breaks_written_instrument_witness :
  plainNames c2_options c2_mapping ∧
  fixXPMContent (generateInstrumentXPM c2_options c2_mapping)
  = generateInstrumentXPM c2_options c2_mapping
    ++ closers (str "Keygroup") 2 ++ closers (str "Sample") 2.
Proof.
  assert (H : plainNames c2_options c2_mapping).
  { split; [reflexivity|]. apply (bool_decide_unpack _). vm_compute. exact I. }
  split; [exact H|]. exact (proj1 (repair_breaks_written_instrument c2_options c2_mapping H)).
Defined.

End RepairFacts.


(** ** The repair pass on text made of tags *)

Module RepairPassFacts.
Import Xml Codec CodecTerms CodecFacts RepairTerms RepairFacts RepairPassTerms.

(** *** Names made of letters *)

Lemma letter_cases c :
  isLetter c = true →
  c ≠ LT ∧ c ≠ GT ∧ c ≠ SLASH ∧ c ≠ SPACE ∧ c ≠ QUOT ∧ c ≠ "?"%char.
Proof.
  intros H. repeat split; intros ->; vm_compute in H; discriminate.
Qed.

Lemma letters_elem tag c : letters tag = true → c ∈ tag → isLetter c = true.
Proof.
  unfold letters. intros [H _]%andb_true_iff Hin. rewrite forallb_forall in H.
  apply H. by apply list_elem_of_In.
Qed.

Lemma letters_no tag c : letters tag = true → isLetter c = false → c ∉ tag.
Proof. intros Ht Hc Hin. by rewrite (letters_elem tag c Ht Hin) in Hc. Qed.

Lemma letters_head tag :
  letters tag = true → ∃ c tag', tag = c :: tag' ∧ isLetter c = true.
Proof.
  intros Ht. destruct tag as [|c tag'].
  { unfold letters in Ht. by rewrite andb_false_r in Ht. }
  exists c, tag'. split; [done|]. apply (letters_elem _ _ Ht). apply elem_of_cons. by left.
Qed.

Lemma letters_plain tag : letters tag = true → plain tag = true.
Proof.
  intros Ht. unfold plain. rewrite forallb_forall. intros c Hin%list_elem_of_In.
  destruct (letter_cases c (letters_elem _ _ Ht Hin)) as (H1 & H2 & _).
  unfold plainChar. by rewrite !bool_decide_eq_false_2.
Qed.

Lemma letters_openTags : Forall (λ tag, letters tag = true) openTags.
Proof. by repeat constructor. Qed.

(** *** The declaration *)

Lemma contains_skip p w s :
  LT ∉ w → contains (LT :: p) (w ++ s) = contains (LT :: p) s.
Proof.
  intros Hw. induction w as [|c w IH]; [done|].
  apply not_elem_of_cons in Hw as [Hc Hw]. cbn [app contains].
  rewrite (startsWith_cons_ne LT c) by done. by apply IH.
Qed.

Lemma contains_plain p s : plain s = true → contains (LT :: p) s = false.
Proof.
  intros Hs. rewrite <- (app_nil_r s), contains_skip by (by apply plain_no_LT). done.
Qed.

(** In text made of segments, a left angle bracket followed by [p]
    stands at the beginning of a tag. *)
Lemma contains_segments p gs tail :
  GT ∉ p → forallb plainSegment gs = true → plain tail = true →
  contains (LT :: p) (renderSegments gs ++ tail) = existsb (opens p) gs.
Proof.
  intros Hp Hgs Htail. induction gs as [|g gs IH].
  { by apply contains_plain. }
  cbn [forallb existsb] in *. apply andb_true_iff in Hgs as [Hg Hgs].
  apply andb_true_iff in Hg as [Hw Hb]. destruct g as [w body]. cbn [fst snd] in *.
  rewrite renderSegments_cons, <- app_assoc. unfold renderSegment, opens. cbn [fst snd].
  rewrite <- app_assoc, contains_skip by (by apply plain_no_LT).
  cbn [app contains]. rewrite <- app_assoc. cbn [app].
  rewrite startsWith_cons, (startsWith_body p body _ Hp). f_equal.
  replace (body ++ GT :: renderSegments gs ++ tail)
    with ((body ++ [GT]) ++ renderSegments gs ++ tail) by (by rewrite <- app_assoc).
  rewrite contains_skip; [by apply IH|].
  rewrite elem_of_app, list_elem_of_singleton. intros [H|H]; [|done].
  by apply (plain_no_LT _ Hb).
Qed.

Lemma shiftGap_render w gs tail :
  renderSegments (shiftGap w gs tail).1 ++ (shiftGap w gs tail).2
  = w ++ renderSegments gs ++ tail.
Proof.
  destruct gs as [|[v body] gs]; [done|]. cbn [shiftGap fst snd].
  rewrite !renderSegments_cons. unfold renderSegment. cbn [fst snd].
  by rewrite <- !app_assoc.
Qed.

Lemma shiftGap_plain w gs tail :
  plain w = true → forallb plainSegment gs = true → plain tail = true →
  forallb plainSegment (shiftGap w gs tail).1 = true ∧ plain (shiftGap w gs tail).2 = true.
Proof.
  intros Hw Hgs Htail. destruct gs as [|[v body] gs]; cbn [shiftGap fst snd forallb] in *.
  { split; [done|]. by rewrite plain_app, Hw, Htail. }
  apply andb_true_iff in Hgs as [[Hv Hb]%andb_true_iff Hgs]. cbn [fst snd] in *.
  split; [|done]. rewrite Hgs. unfold plainSegment. cbn [fst snd].
  by rewrite plain_app, Hw, Hv, Hb.
Qed.

Lemma shiftGap_fmap (f : segment → segment) w gs tail :
  (∀ v body, f (w ++ v, body) = (w ++ (f (v, body)).1, (f (v, body)).2)) →
  f <$> (shiftGap w gs tail).1 = (shiftGap w (f <$> gs) tail).1.
Proof.
  intros Hf. destruct gs as [|[v body] gs]; [done|]. cbn [shiftGap fst snd fmap list_fmap].
  by rewrite Hf.
Qed.

Lemma shiftGap_tail (f : segment → segment) w gs tail :
  (shiftGap w gs tail).2 = (shiftGap w (f <$> gs) tail).2.
Proof. by destruct gs. Qed.

Lemma shiftGap_countb (p : segment → bool) w gs tail :
  (∀ v v' body, p (v, body) = p (v', body)) →
  countb p (shiftGap w gs tail).1 = countb p gs.
Proof.
  intros Hp. destruct gs as [|[v body] gs]; [done|]. cbn [shiftGap fst snd].
  by rewrite !countb_cons, (Hp (w ++ v) v).
Qed.

(** *** The path repair *)

Lemma fixSample_pathText attributes :
  fixSample attributes = str "<Sample" ++ attributes ++ pathText attributes ++ str ">".
Proof.
  unfold fixSample, pathText. destruct (contains _ _); [done|].
  destruct (nameMatch attributes) as [name|]; [|done].
  rewrite <- !app_assoc. done.
Qed.

Lemma pathText_cases attributes :
  pathText attributes = [] ∨ ∃ x, pathText attributes = SPACE :: x.
Proof.
  unfold pathText. destruct (contains _ _); [by left|].
  destruct (nameMatch attributes); [right; by eexists|by left].
Qed.

Lemma plain_pathText attributes : plain attributes = true → plain (pathText attributes) = true.
Proof.
  intros Ha. unfold pathText. destruct (contains _ _); [done|].
  destruct (nameMatch attributes) as [name|] eqn:E; [|done].
  destruct (nameMatch_spec _ _ E) as (_ & _ & before & after & Hattr).
  rewrite Hattr, !plain_app in Ha.
  apply andb_true_iff in Ha as [_ [_ [Hn _]%andb_true_iff]%andb_true_iff].
  rewrite !plain_app, Hn. done.
Qed.

Lemma plain_drop n s : plain s = true → plain (drop n s) = true.
Proof.
  intros Hs. rewrite <- (take_drop n s), plain_app in Hs.
  by apply andb_true_iff in Hs as [_ ?].
Qed.

Lemma plain_repairSegment g : plainSegment g = true → plainSegment (repairSegment g) = true.
Proof.
  intros [Hw Hb]%andb_true_iff. unfold repairSegment.
  destruct (opens (str "Sample") g); [|by apply andb_true_iff].
  unfold plainSegment. cbn [fst snd].
  by rewrite Hw, plain_app, Hb, (plain_pathText _ (plain_drop 6 _ Hb)).
Qed.

(** The path repair of text made of segments works on each segment by
    itself. *)
Lemma fixSamples_repair gs tail :
  forallb plainSegment gs = true → plain tail = true →
  fixSamples (length (renderSegments gs ++ tail)) (renderSegments gs ++ tail)
  = renderSegments (repairSegment <$> gs) ++ tail.
Proof.
  intros Hgs Htail. induction gs as [|g gs IH].
  { rewrite fixSamples_unfold. change (str "<Sample") with (LT :: str "Sample").
    cbn [renderSegments fmap list_fmap mjoin list_join app].
    rewrite <- (app_nil_r tail), findOpen_skip by (by apply plain_no_LT). done. }
  cbn [forallb] in Hgs. apply andb_true_iff in Hgs as [Hg Hgs].
  rewrite fmap_cons, !renderSegments_cons, <- !app_assoc, fixSamples_unfold.
  change (str "<Sample") with (LT :: str "Sample").
  assert (Htag : GT ∉ str "Sample") by (apply (bool_decide_unpack _); vm_compute; exact I).
  rewrite (findOpen_segment (str "Sample") g _ Htag Hg).
  unfold repairSegment at 1. destruct (opens (str "Sample") g) eqn:E.
  - change (length (str "Sample")) with 6%nat.
    rewrite fixSample_pathText, (IH Hgs).
    destruct g as [w body]. unfold renderSegment, opens in *. cbn [fst snd] in *.
    apply startsWith_true in E. change (length (str "Sample")) with 6%nat in E.
    set (a := drop 6 body) in *. clearbody a. subst body.
    change (str "<Sample") with (LT :: str "Sample").
    rewrite <- !app_assoc. cbn [app]. by rewrite <- !app_assoc.
  - rewrite <- (IH Hgs). rewrite (fixSamples_unfold (renderSegments gs ++ tail)).
    change (str "<Sample") with (LT :: str "Sample").
    destruct (findOpen _ _) as [[[b a] r]|]; [|done].
    unfold prepend. cbn [fmap option_fmap option_map fst snd]. by rewrite <- app_assoc.
Qed.

Lemma startsWith_sep c tag body rest :
  c ∉ tag → startsWith tag (body ++ c :: rest) = startsWith tag body.
Proof.
  intros Htag. unfold startsWith. apply bool_decide_ext.
  destruct (decide (length tag ≤ length body)%nat) as [Hle|Hgt].
  - by rewrite take_app_le.
  - rewrite take_app_ge by lia. split.
    + intros E. exfalso. apply Htag. rewrite <- E. apply elem_of_app. right.
      destruct (length tag - length body)%nat eqn:El; [lia|]. cbn. apply elem_of_cons. by left.
    + intros E. exfalso. apply (f_equal length) in E. rewrite length_take in E. lia.
Qed.

(** The path repair changes neither the matches of a start-tag pattern
    nor the closing tags. *)
Lemma opens_repair tag g :
  letters tag = true → opens tag (repairSegment g) = opens tag g.
Proof.
  intros Ht. unfold repairSegment. destruct (opens (str "Sample") g); [|done].
  unfold opens. cbn [snd]. destruct (pathText_cases (drop 6 g.2)) as [->|[x ->]].
  - by rewrite app_nil_r.
  - apply startsWith_sep. by apply (letters_no _ _ Ht).
Qed.

Lemma closes_repair tag g : closes tag (repairSegment g) = closes tag g.
Proof.
  unfold repairSegment. destruct (opens (str "Sample") g) eqn:E; [|done].
  unfold opens, closes in *. cbn [snd]. apply startsWith_true in E.
  rewrite E. rewrite !bool_decide_eq_false_2; [done| |]; intros H; discriminate H.
Qed.

Lemma countb_fmap {A} (p q : A → bool) (f : A → A) l :
  (∀ x, q (f x) = p x) → countb q (f <$> l) = countb p l.
Proof.
  intros H. induction l as [|x l IH]; [done|]. by rewrite fmap_cons, !countb_cons, H, IH.
Qed.

Lemma matchDeficit_repair gs tag :
  letters tag = true → matchDeficit (repairSegment <$> gs) tag = matchDeficit gs tag.
Proof.
  intros Ht. unfold matchDeficit.
  rewrite (countb_fmap (opens tag) (opens tag) repairSegment) by (intros; by apply opens_repair).
  by rewrite (countb_fmap (closes tag) (closes tag) repairSegment)
    by (intros; by apply closes_repair).
Qed.

(** *** Appended closing tags *)

Lemma closeText_app cs ds : closeText (cs ++ ds) = closeText cs ++ closeText ds.
Proof. unfold closeText. by rewrite fmap_app, join_app. Qed.

Lemma closers_closeText tag k : closers tag k = closeText (replicate k tag).
Proof. unfold closers, closeText. by rewrite fmap_replicate. Qed.

Lemma closeText_lines cs :
  NL ++ closeText cs = renderSegments ((λ tag, (NL, SLASH :: tag)) <$> cs) ++ NL.
Proof.
  induction cs as [|tag cs IH]; [done|].
  unfold closeText in *. rewrite !fmap_cons, mjoin_cons, renderSegments_cons, <- !app_assoc, <- IH.
  unfold renderSegment, closer. cbn [fst snd].
  change (str "</" ++ tag ++ str ">") with (LT :: SLASH :: tag ++ [GT]).
  rewrite <- !app_assoc. cbn [app]. by rewrite <- !app_assoc.
Qed.

Lemma closeText_segments gs tail cs :
  (renderSegments gs ++ tail) ++ closeText cs
  = renderSegments (gs ++ closeSegments tail cs) ++ endTail tail cs.
Proof.
  destruct cs as [|tag cs].
  { cbn [closeSegments endTail]. unfold closeText. cbn. by rewrite !app_nil_r. }
  cbn [closeSegments endTail].
  rewrite renderSegments_app, renderSegments_cons, <- !app_assoc. f_equal.
  rewrite <- closeText_lines. unfold closeText. rewrite fmap_cons, mjoin_cons.
  unfold renderSegment, closer. cbn [fst snd].
  change (str "</" ++ tag ++ str ">") with (LT :: SLASH :: tag ++ [GT]).
  rewrite <- !app_assoc. cbn [app]. by rewrite <- !app_assoc.
Qed.

Lemma plain_closeSegments tail cs :
  plain tail = true → Forall (λ tag, letters tag = true) cs →
  forallb plainSegment (closeSegments tail cs) = true ∧ plain (endTail tail cs) = true.
Proof.
  intros Htail Hcs. destruct Hcs as [|tag cs Htag Hcs]; [done|].
  cbn [closeSegments endTail forallb]. split; [|done].
  assert (Hc : ∀ t, letters t = true → plain (SLASH :: t) = true).
  { intros t Ht. change (SLASH :: t) with ([SLASH] ++ t).
    rewrite plain_app, (letters_plain _ Ht). done. }
  unfold plainSegment at 1. cbn [fst snd]. rewrite Htail, (Hc _ Htag). cbn [andb].
  induction Hcs as [|t cs Ht Hcs IH]; [done|]. cbn [fmap list_fmap forallb]. rewrite IH.
  unfold plainSegment. cbn [fst snd]. by rewrite (Hc _ Ht).
Qed.

Lemma opens_closer tag w t : letters tag = true → opens tag (w, SLASH :: t) = false.
Proof.
  intros Ht. destruct (letters_head _ Ht) as (c & tag' & -> & Hc).
  unfold opens. cbn [snd]. apply startsWith_cons_ne.
  by destruct (letter_cases c Hc) as (_ & _ & ? & _).
Qed.

Lemma countb_nil_of {A} (p : A → bool) l : (∀ x, x ∈ l → p x = false) → countb p l = 0%nat.
Proof.
  intros H. induction l as [|x l IH]; [done|]. rewrite countb_cons, H, IH; [done| |].
  - intros y Hy. apply H. apply elem_of_cons. by right.
  - apply elem_of_cons. by left.
Qed.

Lemma closeSegments_elem tail cs g :
  g ∈ closeSegments tail cs → ∃ t, t ∈ cs ∧ g.2 = SLASH :: t.
Proof.
  destruct cs as [|tag cs]; [by intros ?%elem_of_nil|]. cbn [closeSegments].
  intros [->|(t & -> & Ht)%list_elem_of_fmap]%elem_of_cons.
  - exists tag. split; [apply elem_of_cons; by left|done].
  - exists t. split; [apply elem_of_cons; by right|done].
Qed.

Lemma opens_closeSegments tag tail cs :
  letters tag = true → countb (opens tag) (closeSegments tail cs) = 0%nat.
Proof.
  intros Ht. apply countb_nil_of. intros [w body] (t & _ & Hb)%closeSegments_elem.
  cbn [snd] in Hb. subst body. by apply opens_closer.
Qed.

Lemma closes_closeSegments tag tail cs :
  tag ∉ cs → countb (closes tag) (closeSegments tail cs) = 0%nat.
Proof.
  intros Ht. apply countb_nil_of. intros [w body] (t & Hin & Hb)%closeSegments_elem.
  cbn [snd] in Hb. subst body. unfold closes. cbn [snd].
  apply bool_decide_eq_false_2. intros [= ->]. done.
Qed.

(** The loop over the element names, on text made of segments with
    closing tags [cs] appended so far. *)
Lemma foldl_closeTag gs tail tags :
  forallb plainSegment gs = true → plain tail = true →
  Forall (λ tag, letters tag = true) tags → NoDup tags →
  ∀ cs, Forall (λ tag, letters tag = true) cs → (∀ tag, tag ∈ tags → tag ∉ cs) →
  foldl closeTag ((renderSegments gs ++ tail) ++ closeText cs) tags
  = (renderSegments gs ++ tail) ++ closeText cs ++ appended (matchDeficit gs) tags.
Proof.
  intros Hgs Htail Htags Hnd. induction Htags as [|tag tags Htag Htags IH]; intros cs Hcs Hfresh.
  { cbn [foldl appended fmap list_fmap mjoin list_join]. by rewrite app_nil_r. }
  apply NoDup_cons in Hnd as [Hnew Hnd]. cbn [foldl].
  rewrite closeTag_appends.
  assert (Hd : deficit tag ((renderSegments gs ++ tail) ++ closeText cs)
               = matchDeficit gs tag).
  { rewrite closeText_segments. destruct (plain_closeSegments tail cs Htail Hcs) as [Hp1 Hp2].
    rewrite deficit_segments; [| |by rewrite forallb_app, Hgs|done].
    2:{ apply (letters_no _ _ Htag). done. }
    rewrite !countb_app, (opens_closeSegments _ _ _ Htag), closes_closeSegments.
    - unfold matchDeficit. lia.
    - apply Hfresh. apply elem_of_cons. by left. }
  rewrite Hd, closers_closeText, <- app_assoc, <- closeText_app.
  rewrite (IH Hnd).
  - unfold appended. rewrite fmap_cons, mjoin_cons, closeText_app, <- closers_closeText.
    by rewrite <- !app_assoc.
  - apply Forall_app. split; [done|]. by apply Forall_replicate.
  - intros t Ht [Hin|Hin]%elem_of_app.
    + apply (Hfresh t); [apply elem_of_cons; by right|done].
    + apply elem_of_replicate in Hin as [-> _]. done.
Qed.

(** Declaration, path repair and closing tags for text made of
    segments that holds the characters of the declaration's
    beginning. *)
Lemma repair_body gs tail :
  forallb plainSegment gs = true → plain tail = true →
  foldl closeTag
    (fixSamples (length (renderSegments gs ++ tail)) (renderSegments gs ++ tail)) openTags
  = (renderSegments (repairSegment <$> gs) ++ tail) ++ appended (matchDeficit gs) openTags.
Proof.
  intros Hgs Htail. rewrite (fixSamples_repair gs tail Hgs Htail).
  assert (Hgs' : forallb plainSegment (repairSegment <$> gs) = true).
  { rewrite forallb_forall in Hgs |- *. intros g' Hin.
    apply list_elem_of_In, list_elem_of_fmap in Hin as (g & -> & Hin).
    apply plain_repairSegment, Hgs. by apply list_elem_of_In. }
  pose proof (foldl_closeTag (repairSegment <$> gs) tail openTags Hgs' Htail
                letters_openTags) as H.
  specialize (H ltac:(apply (bool_decide_unpack _); vm_compute; exact I) []
                ltac:(constructor) ltac:(intros ? _ ?%elem_of_nil; done)).
  unfold closeText in H at 1 2. cbn [fmap list_fmap mjoin list_join] in H.
  rewrite app_nil_r in H. cbn [app] in H. rewrite H. f_equal.
  unfold appended. f_equal. apply Forall_fmap_ext_1.
  eapply Forall_impl; [exact letters_openTags|]. intros tag Ht. cbn beta.
  by rewrite (matchDeficit_repair gs tag Ht).
Qed.

(** The text behind the declaration check, as segments. *)
Lemma declared_text gs tail :
  forallb plainSegment gs = true → plain tail = true →
  contains (str "<?xml") (renderSegments gs ++ tail) = declared gs ∧
  fixDeclaration (renderSegments gs ++ tail) = header gs ++ renderSegments gs ++ tail ∧
  ∃ gs' tail',
    fixDeclaration (renderSegments gs ++ tail) = renderSegments gs' ++ tail' ∧
    forallb plainSegment gs' = true ∧ plain tail' = true ∧
    renderSegments (repairSegment <$> gs') ++ tail'
    = header gs ++ renderSegments (repairSegment <$> gs) ++ tail ∧
    ∀ tag, letters tag = true → matchDeficit gs' tag = matchDeficit gs tag.
Proof.
  intros Hgs Htail.
  assert (Hc : contains (str "<?xml") (renderSegments gs ++ tail) = declared gs).
  { change (str "<?xml") with (LT :: str "?xml"). apply contains_segments; [|done|done].
    apply (bool_decide_unpack _). vm_compute. exact I. }
  split; [exact Hc|]. unfold fixDeclaration, header. rewrite Hc.
  destruct (declared gs); [split; [done|]; by exists gs, tail|]. split; [done|].
  destruct (shiftGap_plain NL gs tail eq_refl Hgs Htail) as [Hp1 Hp2].
  exists (declarationSegment :: (shiftGap NL gs tail).1), (shiftGap NL gs tail).2.
  split; [|split; [|split; [|split]]].
  - rewrite renderSegments_cons, <- app_assoc, shiftGap_render.
    change xmlDeclaration with (renderSegment declarationSegment ++ NL).
    by rewrite <- app_assoc.
  - cbn [forallb]. by rewrite Hp1.
  - exact Hp2.
  - rewrite fmap_cons, renderSegments_cons, <- app_assoc.
    rewrite (shiftGap_fmap repairSegment), (shiftGap_tail repairSegment), shiftGap_render.
    + change (repairSegment declarationSegment) with declarationSegment.
      change xmlDeclaration with (renderSegment declarationSegment ++ NL).
      by rewrite <- app_assoc.
    + intros v body. unfold repairSegment, opens. cbn [fst snd].
      by destruct (startsWith (str "Sample") body).
  - intros tag Ht. unfold matchDeficit. rewrite !countb_cons.
    rewrite !(shiftGap_countb _ NL gs tail) by done.
    destruct (letters_head _ Ht) as (c & tag' & -> & Hc').
    assert (Ho : opens (c :: tag') declarationSegment = false).
    { unfold opens, declarationSegment. cbn [snd].
      change (str "?xml" ++ ?x) with ("?"%char :: str "xml" ++ x).
      apply startsWith_cons_ne. by destruct (letter_cases c Hc') as (_ & _ & _ & _ & _ & ?). }
    rewrite Ho.
    assert (Hcl : closes (c :: tag') declarationSegment = false).
    { unfold closes. apply bool_decide_eq_false_2. intros H. discriminate H. }
    by rewrite Hcl.
Qed.

Lemma repaired_form gs tail :
  forallb plainSegment gs = true → plain tail = true →
  repaired (renderSegments gs ++ tail)
  = header gs ++ renderSegments (repairSegment <$> gs) ++ tail.
Proof.
  intros Hgs Htail.
  destruct (declared_text gs tail Hgs Htail) as (_ & _ & gs' & tail' & Hd & Hp1 & Hp2 & Hr & _).
  unfold repaired. by rewrite Hd, (fixSamples_repair gs' tail' Hp1 Hp2).
Qed.

(** The closed form of the repair of text made of segments. *)
Lemma repair_closed_form gs tail :
  forallb plainSegment gs = true → plain tail = true →
  fixXPMContent (renderSegments gs ++ tail)
  = repaired (renderSegments gs ++ tail) ++ appended (matchDeficit gs) openTags.
Proof.
  intros Hgs Htail. rewrite (repaired_form gs tail Hgs Htail).
  destruct (declared_text gs tail Hgs Htail) as (_ & _ & gs' & tail' & Hd & Hp1 & Hp2 & Hr & Hm).
  unfold fixXPMContent. rewrite Hd, (repair_body gs' tail' Hp1 Hp2), Hr.
  rewrite <- !app_assoc. do 3 f_equal. unfold appended. f_equal.
  apply Forall_fmap_ext_1. eapply Forall_impl; [exact letters_openTags|].
  intros tag Ht. cbn beta. by rewrite (Hm tag Ht).
Qed.

(** *** Start tags and the name attribute *)

Lemma startTag_opens tag g : startTag tag g = true → opens tag g = true.
Proof.
  unfold startTag, opens, bodyName. intros [Hn%bool_decide_eq_true _]%andb_true_iff.
  destruct (takeWhile_split (λ c, negb (isSpace c) && negb (bool_decide (c = SLASH))) g.2)
    as (H1 & _). rewrite Hn in H1. unfold startsWith. apply bool_decide_eq_true_2.
  rewrite H1 at 1. by rewrite take_app_length.
Qed.

Lemma letter_no_space c : isLetter c = true → isSpace c = false.
Proof.
  intros Hc. destruct (isSpace c) eqn:E; [|done]. exfalso.
  unfold isSpace, isLetter in *.
  rewrite !orb_true_iff, ?andb_true_iff, ?Z.eqb_eq, ?Z.leb_le in *. lia.
Qed.

Lemma bodyName_letters tag : letters tag = true → bodyName tag = tag.
Proof.
  intros Ht. apply takeWhile_all, forallb_forall. intros c Hin%list_elem_of_In.
  pose proof (letters_elem _ _ Ht Hin) as Hc.
  rewrite (letter_no_space c Hc).
  destruct (letter_cases c Hc) as (_ & _ & Hs & _). by rewrite bool_decide_eq_false_2.
Qed.

Lemma closes_endTag tag g : letters tag = true → closes tag g = true → endTag tag g = true.
Proof.
  unfold closes, endTag. intros Ht ->%bool_decide_eq_true.
  rewrite (bodyName_letters _ Ht), drop_all, !bool_decide_eq_true_2; done.
Qed.

Lemma faithful_count tag gs :
  letters tag = true → faithfulFor tag gs = true →
  countb (opens tag) gs = countb (startTag tag) gs ∧
  countb (closes tag) gs = countb (endTag tag) gs.
Proof.
  intros Ht. unfold faithfulFor. induction gs as [|g gs IH]; [done|]. cbn [forallb].
  intros [[Ho Hc]%andb_true_iff Hgs]%andb_true_iff.
  destruct (IH Hgs) as [IHo IHc]. rewrite !countb_cons, IHo, IHc.
  pose proof (startTag_opens tag g) as Hso. pose proof (closes_endTag tag g Ht) as Hce.
  split.
  - destruct (opens tag g), (startTag tag g); try done. by specialize (Hso eq_refl).
  - destruct (closes tag g), (endTag tag g); try done. by specialize (Hce eq_refl).
Qed.

Lemma takeWhile_until {A} `{EqDecision A} (c : A) body rest :
  c ∉ body →
  takeWhile (λ x, negb (bool_decide (x = c))) (body ++ c :: rest) = body.
Proof.
  induction body as [|x body IH]; intros H.
  { cbn. by rewrite bool_decide_eq_true_2. }
  apply not_elem_of_cons in H as [Hc H]. cbn [app takeWhile].
  rewrite bool_decide_eq_false_2 by done. cbn [negb]. by rewrite IH.
Qed.

(** The name pattern finds the first name attribute. *)
Lemma nameMatch_here name post :
  name ≠ [] → QUOT ∉ name →
  nameMatch (strq "name='" ++ name ++ QUOT :: post) = Some name.
Proof.
  intros Hne Hq. set (attrs := strq "name='" ++ name ++ QUOT :: post).
  assert (Hsw : startsWith (strq "name='") attrs = true).
  { unfold startsWith. apply bool_decide_eq_true_2. subst attrs. by rewrite take_app_length. }
  assert (Hd : drop 6 attrs = name ++ QUOT :: post) by reflexivity.
  destruct attrs as [|c s] eqn:E; [discriminate E|].
  cbn [nameMatch]. rewrite Hsw, Hd, (takeWhile_until QUOT name post Hq).
  destruct name as [|a l] eqn:En; [done|]. by rewrite drop_app_length.
Qed.

Lemma nameMatch_found pre name post :
  contains (strq "name='") pre = false → name ≠ [] → QUOT ∉ name →
  nameMatch (pre ++ strq "name='" ++ name ++ QUOT :: post) = Some name.
Proof.
  intros Hpre Hne Hq. induction pre as [|c pre IH]; [by apply nameMatch_here|].
  cbn [contains] in Hpre. apply orb_false_iff in Hpre as [Hhere Hpre].
  cbn [app nameMatch].
  assert (Hsw : startsWith (strq "name='")
                  (c :: pre ++ strq "name='" ++ name ++ QUOT :: post) = false).
  { unfold startsWith in *. apply bool_decide_eq_false in Hhere.
    apply bool_decide_eq_false_2. intros E. apply Hhere. clear IH Hpre.
    change (length (strq "name='")) with 6%nat in *.
    destruct pre as [|c1 [|c2 [|c3 [|c4 [|c5 pre]]]]];
      cbn in E |- *; try (by injection E); done. }
  rewrite Hsw. by apply IH.
Qed.

Lemma nameMatch_none attributes :
  contains (strq "name='") attributes = false → nameMatch attributes = None.
Proof.
  induction attributes as [|c s IH]; [done|]. cbn [contains nameMatch].
  intros [-> Hs]%orb_false_iff. by apply IH.
Qed.

Lemma repairSegment_fills w pre name post :
  name ≠ [] → QUOT ∉ name →
  contains (strq "name='") pre = false →
  contains (str "path=") (pre ++ strq "name='" ++ name ++ QUOT :: post) = false →
  repairSegment (w, str "Sample" ++ pre ++ strq "name='" ++ name ++ QUOT :: post)
  = (w, (str "Sample" ++ pre ++ strq "name='" ++ name ++ QUOT :: post)
        ++ strq " path='" ++ name ++ [QUOT]).
Proof.
  intros Hne Hq Hpre Hpath. unfold repairSegment, opens. cbn [fst snd].
  assert (Hs : startsWith (str "Sample")
                 (str "Sample" ++ pre ++ strq "name='" ++ name ++ QUOT :: post) = true).
  { unfold startsWith. apply bool_decide_eq_true_2. by rewrite take_app_length. }
  rewrite Hs. change (drop 6 (str "Sample" ++ ?x)) with x.
  unfold pathText. by rewrite Hpath, (nameMatch_found pre name post Hpre Hne Hq).
Qed.

Lemma repairSegment_keeps g :
  opens (str "Sample") g = false ∨ contains (str "path=") (drop 6 g.2) = true
  ∨ contains (strq "name='") (drop 6 g.2) = false →
  repairSegment g = g.
Proof.
  unfold repairSegment, pathText. intros [->|[H|H]]; [done| |].
  - rewrite H. destruct (opens _ g); [|done]. rewrite app_nil_r. by destruct g.
  - rewrite (nameMatch_none _ H). destruct (opens _ g); [|done].
    destruct (contains (str "path=") _); rewrite app_nil_r; by destruct g.
Qed.

Lemma appended_ext (f h : jsstring → nat) tags :
  (∀ tag, tag ∈ tags → f tag = h tag) → appended f tags = appended h tags.
Proof.
  intros H. unfold appended. f_equal. apply Forall_fmap_ext_1, Forall_forall.
  intros tag Hin. by rewrite (H tag Hin).
Qed.

(** C6 (amended).  On a text made of character data and tags, with
    angle brackets only as tag delimiters, the repair pass
    [fixXPMContent] does the following.  (a) It prepends the
    declaration header exactly when no tag begins with the characters
    of the declaration's opening.  (b) It then treats every tag by
    itself: a Sample start tag that is no empty-element tag, holds no
    path attribute text, and in which the name attribute is the first
    place where its opening occurs and has a non-empty value, gets a
    path attribute with that value as its last attribute; a tag that
    does not begin with the characters of Sample, or holds the text of
    a path attribute, or holds no opening of a name attribute, stays
    as it is.  (c) It then appends to the end of the text, for the
    eight known element names in their fixed order, the closing tags
    of each name, one per line; for a name such that every tag
    beginning with its characters is a start tag of that element and
    every closing tag of the element is written without white space,
    these are as many as the start tags of the element exceed its
    closing tags.  In particular, under that condition for Zone, a text
    with 3 Zone start tags and 1 Zone closing tag gets exactly 2 Zone
    closing tags appended, behind the closing tags of the six names
    before Zone and before those of Sample.  Nothing is said about
    reading the result back. *)
Theorem repair_pass (gs : list segment) (tail : jsstring) :
  forallb plainSegment gs = true → plain tail = true →
  let text := renderSegments gs ++ tail in
  contains (str "<?xml") text = declared gs ∧
  fixDeclaration text = header gs ++ text ∧
  repaired text = header gs ++ renderSegments (repairSegment <$> gs) ++ tail ∧
  (∀ w pre name post,
     let body := str "Sample" ++ pre ++ strq "name='" ++ name ++ QUOT :: post in
     startTag (str "Sample") (w, body) = true →
     name ≠ [] → QUOT ∉ name →
     contains (strq "name='") pre = false →
     contains (str "path=") (pre ++ strq "name='" ++ name ++ QUOT :: post) = false →
     repairSegment (w, body) = (w, body ++ strq " path='" ++ name ++ [QUOT])) ∧
  (∀ g, opens (str "Sample") g = false ∨ contains (str "path=") (drop 6 g.2) = true
        ∨ contains (strq "name='") (drop 6 g.2) = false →
        repairSegment g = g) ∧
  fixXPMContent text = repaired text ++ appended (matchDeficit gs) openTags ∧
  (∀ tag, tag ∈ openTags → faithfulFor tag gs = true →
     matchDeficit gs tag = elementDeficit gs tag) ∧
  (forallb (λ tag, faithfulFor tag gs) openTags = true →
     fixXPMContent text = repaired text ++ appended (elementDeficit gs) openTags) ∧
  (faithfulFor (str "Zone") gs = true →
   countb (startTag (str "Zone")) gs = 3%nat → countb (endTag (str "Zone")) gs = 1%nat →
   fixXPMContent text
   = (repaired text ++ appended (matchDeficit gs) (take 6 openTags))
     ++ (str "</Zone>" ++ NL) ++ (str "</Zone>" ++ NL)
     ++ closers (str "Sample") (matchDeficit gs (str "Sample"))).
Proof.
  intros Hgs Htail text.
  destruct (declared_text gs tail Hgs Htail) as (Hc & Hd & _).
  pose proof (repair_closed_form gs tail Hgs Htail) as Hform.
  assert (Hcount : ∀ tag, tag ∈ openTags → faithfulFor tag gs = true →
                          matchDeficit gs tag = elementDeficit gs tag).
  { intros tag Hin Hf. unfold matchDeficit, elementDeficit.
    pose proof letters_openTags as Hl. rewrite Forall_forall in Hl.
    by destruct (faithful_count tag gs (Hl tag Hin) Hf) as [-> ->]. }
  split; [exact Hc|]. split; [exact Hd|]. split; [by apply repaired_form|].
  split; [|split; [exact repairSegment_keeps|split; [exact Hform|split; [exact Hcount|split]]]].
  - intros w pre name post body _ Hne Hq Hpre Hpath. by apply repairSegment_fills.
  - intros Hall. subst text. rewrite Hform. f_equal. apply appended_ext.
    intros tag Hin. apply Hcount; [done|]. rewrite forallb_forall in Hall. apply Hall.
    by apply list_elem_of_In.
  - intros Hf Ho Hcl. subst text. rewrite Hform.
    change openTags with (take 6 openTags ++ [str "Zone"; str "Sample"]).
    unfold appended at 1. rewrite fmap_app, join_app. fold (appended (matchDeficit gs) (take 6 openTags)).
    rewrite take_app_length' by done.
    cbn [fmap list_fmap mjoin list_join].
    rewrite (Hcount (str "Zone")); [|by apply (bool_decide_unpack _)|exact Hf].
    unfold elementDeficit. rewrite Ho, Hcl.
    rewrite app_nil_r, <- !app_assoc. done.
Qed.

Lemma repair_pass_witness :
  c6_document = renderSegments c6_segments ++ NL ∧
  repairSegment ([], str "Sample" ++ [SPACE] ++ strq "name='" ++ str "a.wav" ++ [QUOT])
  = ([], (str "Sample" ++ [SPACE] ++ strq "name='" ++ str "a.wav" ++ [QUOT])
         ++ strq " path='" ++ str "a.wav" ++ [QUOT]) ∧
  fixXPMContent (renderSegments c6_segments ++ NL)
  = (repaired (renderSegments c6_segments ++ NL)
     ++ appended (matchDeficit c6_segments) (take 6 openTags))
    ++ (str "</Zone>" ++ NL) ++ (str "</Zone>" ++ NL)
    ++ closers (str "Sample") (matchDeficit c6_segments (str "Sample")).
Proof.
  assert (Hgs : forallb plainSegment c6_segments = true) by (vm_compute; reflexivity).
  assert (Htail : plain NL = true) by (vm_compute; reflexivity).
  pose proof (repair_pass c6_segments NL Hgs Htail)
    as (_ & _ & _ & Hfill & _ & _ & _ & _ & Hzone).
  split; [vm_compute; reflexivity|]. split.
  - apply (Hfill [] [SPACE] (str "a.wav") []).
    + vm_compute. reflexivity.
    + discriminate.
    + apply (bool_decide_unpack _). vm_compute. exact I.
    + vm_compute. reflexivity.
    + vm_compute. reflexivity.
  - apply Hzone; vm_compute; reflexivity.
Defined.

(** C6 as stated fails in several ways.  The closing tags are appended
    behind the end tag of the enclosing element, so the text with 3
    opened and 1 closed Zone is not well-formed after the repair and
    the reader throws instead of returning 3 zone records.  A
    well-formed text with a Keygroups element gains a Keygroup closing
    tag, because the Keygroups start tag matches the pattern of
    Keygroup.  An empty-element Sample tag gets its path behind the
    slash and a Sample closing tag appended.  A closing tag with white
    space behind the name is not counted.  A processing instruction
    whose name begins like the declaration keeps the declaration from
    being prepended.  And the path is not filled in from the name when
    the name holds a right angle bracket or is empty, when a file name
    stands before it (whose value is taken instead), or when another
    attribute's name ends like that of the path. *)
Lemma repair_promise_fails :
  (openCount (str "Zone") c6_document = 3%nat ∧
   closeCount (str "Zone") c6_document = 1%nat ∧
   parseXPMContent (fixXPMContent c6_document)
   = Thrown (str "Failed to parse XPM content: Error: XML parsing error") ∧
   ¬ reparseRule c6_document) ∧
  (zoneRecords (renderSegments c6_nested ++ NL) = Some 0%nat ∧
   elementDeficit c6_nested (str "Keygroup") = 0%nat ∧
   fixXPMContent (renderSegments c6_nested ++ NL)
   = xmlDeclaration ++ (renderSegments c6_nested ++ NL) ++ str "</Keygroup>" ++ NL ∧
   ¬ balanceRule c6_nested NL) ∧
  (zoneRecords (renderSegments c6_empty ++ NL) = Some 0%nat ∧
   fixXPMContent (renderSegments c6_empty ++ NL)
   = xmlDeclaration ++ strq "<Zone><Sample name='a.wav'/ path='a.wav'></Zone>" ++ NL
     ++ str "</Sample>" ++ NL ∧
   ¬ balanceRule c6_empty NL ∧
   ¬ pathRule (TEmpty (str "Sample") [(str "name", str "a.wav")]) (str "a.wav")) ∧
  (zoneRecords (renderSegments c6_spaced ++ NL) = Some 0%nat ∧
   fixXPMContent (renderSegments c6_spaced ++ NL)
   = xmlDeclaration ++ (renderSegments c6_spaced ++ NL) ++ str "</Zone>" ++ NL ∧
   ¬ balanceRule c6_spaced NL) ∧
  (hasDeclaration c6_styled = false ∧ fixDeclaration c6_styled = c6_styled ∧
   ¬ declarationRule c6_styled) ∧
  Forall (λ t, ¬ pathRule t.1 t.2) c6_tags ∧
  (λ t, fixSamples (length (renderTag t.1)) (renderTag t.1)) <$> c6_tags
  = [ strq "<Sample name='a>b.wav'>";
      strq "<Sample name=''>";
      strq "<Sample filename='x.wav' name='a.wav' path='x.wav'>";
      strq "<Sample name='a.wav' xpath='p'>" ].
Proof.
  split; [|split; [|split; [|split; [|split; [|split]]]]].
  - assert (Ho : openCount (str "Zone") c6_document = 3%nat) by (vm_compute; reflexivity).
    assert (Hc : closeCount (str "Zone") c6_document = 1%nat) by (vm_compute; reflexivity).
    assert (Hp : parseXPMContent (fixXPMContent c6_document)
                 = Thrown (str "Failed to parse XPM content: Error: XML parsing error"))
      by (vm_compute; reflexivity).
    split; [exact Ho|]. split; [exact Hc|]. split; [exact Hp|].
    intros H. specialize (H Ho Hc). unfold zoneRecords in H. rewrite Hp in H. discriminate.
  - split; [vm_compute; reflexivity|]. split; [vm_compute; reflexivity|].
    split; [vm_compute; reflexivity|].
    intros H. apply (f_equal length) in H. vm_compute in H. discriminate.
  - split; [vm_compute; reflexivity|]. split; [vm_compute; reflexivity|]. split.
    + intros H. apply (f_equal length) in H. vm_compute in H. discriminate.
    + intros H. vm_compute in H. discriminate.
  - split; [vm_compute; reflexivity|]. split; [vm_compute; reflexivity|].
    intros H. apply (f_equal length) in H. vm_compute in H. discriminate.
  - split; [vm_compute; reflexivity|]. split; [vm_compute; reflexivity|].
    intros H. specialize (H ltac:(vm_compute; reflexivity)).
    apply (f_equal length) in H. vm_compute in H. discriminate.
  - repeat constructor; intros H; vm_compute in H; discriminate.
  - vm_compute. reflexivity.
Qed.

End RepairPassFacts.

(** ** Sample organisation *)

Module OrganizerFacts.
Import Xml Codec CodecTerms CodecFacts Generator GeneratorTerms GeneratorFacts Organizer
  OrganizerTerms.

(** *** Note names *)

Lemma noteMatch_shape ignoreCase s m :
  noteMatch ignoreCase s = Some m →
  (∃ c d, m = [c; d] ∧ Validator.isNoteLetter c = true ∧ Validator.isDigit d = true) ∨
  (∃ c a d, m = [c; a; d] ∧ Validator.isNoteLetter c = true ∧
            isAccidental ignoreCase a = true ∧ Validator.isDigit d = true).
Proof.
  induction s as [|c rest IH]; [done|]. cbn [noteMatch].
  destruct (Validator.isNoteLetter c) eqn:Ec; [|exact IH].
  destruct rest as [|a [|d rest']].
  - done.
  - destruct (Validator.isDigit a) eqn:Ea; [|exact IH].
    intros [= <-]. left. by exists c, a.
  - destruct (isAccidental ignoreCase a && Validator.isDigit d) eqn:E1.
    + apply andb_true_iff in E1 as [Ha Ed]. intros [= <-]. right. by exists c, a, d.
    + destruct (Validator.isDigit a) eqn:Ea; [|exact IH].
      intros [= <-]. left. by exists c, a.
Qed.

Lemma upper_letter c :
  Validator.isNoteLetter c = true →
  Validator.isNoteLetter (Validator.toUpper c) = true ∧
  Validator.isDigit (Validator.toUpper c) = false.
Proof. destruct c as [[] [] [] [] [] [] [] []]; try discriminate; by intros _. Qed.

Lemma upper_digit d :
  Validator.isDigit d = true →
  Validator.toUpper d = d ∧ isAccidental true d = false ∧ Validator.isNoteLetter d = false.
Proof. destruct d as [[] [] [] [] [] [] [] []]; try discriminate; by intros _. Qed.

Lemma upper_accidental ignoreCase a :
  isAccidental ignoreCase a = true →
  isAccidental true (Validator.toUpper a) = true ∧
  (Validator.toUpper a = "#"%char ∨ Validator.toUpper a = "B"%char) ∧
  Validator.isDigit a = false.
Proof.
  intros H. unfold isAccidental in H.
  rewrite !orb_true_iff, andb_true_iff, !bool_decide_eq_true in H.
  destruct H as [[->| ->]|[_ ->]].
  - split; [reflexivity|]. split; [by left|reflexivity].
  - split; [reflexivity|]. split; [by right|reflexivity].
  - split; [reflexivity|]. split; [by right|reflexivity].
Qed.

(** An upper-cased match is matched as a whole by the pattern of
    [noteNameToMidi]. *)
Lemma noteMatch_upper ignoreCase s m :
  noteMatch ignoreCase s = Some m →
  noteMatch true (toUpperCase m) = Some (toUpperCase m).
Proof.
  intros [(c & d & -> & Hc & Hd)|(c & a & d & -> & Hc & Ha & Hd)]%noteMatch_shape.
  - destruct (upper_letter c Hc) as [Hc' _]. destruct (upper_digit d Hd) as (Hd' & _).
    cbn [toUpperCase fmap list_fmap noteMatch]. rewrite Hc', Hd', Hd. done.
  - destruct (upper_letter c Hc) as [Hc' _]. destruct (upper_digit d Hd) as (Hd' & _).
    destruct (upper_accidental _ a Ha) as (Ha' & _ & _).
    cbn [toUpperCase fmap list_fmap noteMatch]. rewrite Hc', Hd', Ha', Hd. done.
Qed.

Lemma noteMap_bound note : 0 ≤ default 0 (map_get note noteMap) ≤ 11.
Proof. unfold noteMap. cbn [map_get]. repeat case_decide; cbn; lia. Qed.

Lemma digitVal_bound d : Validator.isDigit d = true → 0 ≤ Validator.digitVal d ≤ 9.
Proof.
  unfold Validator.isDigit, Validator.digitVal. rewrite andb_true_iff, !Z.leb_le. lia.
Qed.

(** The number of a note name that came out of a file name. *)
Lemma noteNameToMidi_name ignoreCase s m :
  noteMatch ignoreCase s = Some m →
  noteNameToMidi (toUpperCase m)
  = (octaveOf (toUpperCase m) + 1) * 12
    + default 0 (map_get (take (length m - 1) (toUpperCase m)) noteMap)
  ∧ 0 ≤ octaveOf (toUpperCase m) ≤ 9.
Proof.
  intros Hm. unfold noteNameToMidi. rewrite (noteMatch_upper _ _ _ Hm).
  assert (Hup : ∀ c, Validator.toUpper (Validator.toUpper c) = Validator.toUpper c).
  { intros c. destruct c as [[] [] [] [] [] [] [] []]; reflexivity. }
  unfold octaveOf.
  apply noteMatch_shape in Hm as [(c & d & -> & _ & Hd)|(c & a & d & -> & _ & _ & Hd)];
    destruct (upper_digit d Hd) as (Hd' & _);
    cbn [toUpperCase fmap list_fmap length Nat.sub take last default];
    rewrite ?Hup, Hd'; (split; [done|by apply digitVal_bound]).
Qed.

Lemma noteNameToMidi_bounds ignoreCase s m :
  noteMatch ignoreCase s = Some m → 12 ≤ noteNameToMidi (toUpperCase m) ≤ 131.
Proof.
  intros Hm. destruct (noteNameToMidi_name _ _ _ Hm) as [-> Ho].
  pose proof (noteMap_bound (take (length m - 1) (toUpperCase m))). lia.
Qed.

(** A flat is not a key of the table: the name counts as the C of its
    octave. *)
Lemma noteNameToMidi_flat ignoreCase s m :
  noteMatch ignoreCase s = Some m → isFlat (toUpperCase m) = true →
  noteNameToMidi (toUpperCase m) = (octaveOf (toUpperCase m) + 1) * 12.
Proof.
  intros Hm Hflat. destruct (noteNameToMidi_name _ _ _ Hm) as [-> _].
  unfold isFlat in Hflat. apply andb_true_iff in Hflat as [H1 H3].
  apply bool_decide_eq_true in H1, H3.
  apply noteMatch_shape in Hm as [(c & d & -> & _ & _)|(c & a & d & -> & Hc & _ & _)];
    [done|].
  cbn in H1. injection H1 as H1. cbn [length Nat.sub toUpperCase fmap list_fmap take].
  rewrite H1. destruct (upper_letter c Hc) as [Hc' _].
  assert (Hnone : map_get [Validator.toUpper c; "B"%char] noteMap = None).
  { unfold noteMap. cbn [map_get]. repeat case_decide; simplify_eq; done. }
  rewrite Hnone. cbn. lia.
Qed.


(** *** The layers by key *)

Lemma noteOf_number sample noteName :
  noteOf sample = Some noteName →
  12 ≤ noteNameToMidi noteName ≤ 131 ∧
  (isFlat noteName = true → noteNameToMidi noteName = (octaveOf noteName + 1) * 12).
Proof.
  unfold noteOf, extractNoteFromFilename.
  destruct (noteMatch false (sample_name sample)) as [m|] eqn:Hm; [|done].
  intros [= <-]. split; [by eapply noteNameToMidi_bounds|]. by eapply noteNameToMidi_flat.
Qed.

Lemma samplesByNote_elem samples noteName group :
  (noteName, group) ∈ samplesByNote samples ↔
  group = filter (λ sample, noteOf sample = Some noteName) samples ∧ group ≠ [].
Proof.
  unfold samplesByNote. rewrite group_by_elem, list_filter_filter.
  replace (filter (λ sample, default [] (extractNoteFromFilename (sample_name sample)) = noteName
                             ∧ extractNoteFromFilename (sample_name sample) ≠ None) samples)
    with (filter (λ sample, noteOf sample = Some noteName) samples); [done|].
  apply list_filter_iff. intros sample. unfold noteOf.
  destruct (extractNoteFromFilename (sample_name sample)) as [n|]; cbn.
  - split; [intros [= ->]; by split|]. intros [-> _]. done.
  - split; [done|]. intros [_ H]. by destruct H.
Qed.

Lemma samplesByNote_numbers samples :
  Forall (λ g, noteNameToMidi g.1 ≠ -1) (samplesByNote samples).
Proof.
  apply Forall_forall. intros [noteName group] [-> Hne]%samplesByNote_elem. cbn [fst].
  destruct (filter _ samples) as [|sample rest] eqn:E; [done|].
  assert (Hin : sample ∈ filter (λ sample, noteOf sample = Some noteName) samples)
    by (rewrite E; apply elem_of_cons; by left).
  apply list_elem_of_filter in Hin as [Hn _].
  destruct (noteOf_number _ _ Hn) as [? _]. lia.
Qed.

(** The key of a group is set by the last group with that number. *)
Lemma organize_fold groups (m : gmap Z (list Sample)) k :
  Forall (λ g, noteNameToMidi g.1 ≠ -1) groups →
  foldl organizeStep m groups !! k
  = match last (filter (λ g, noteNameToMidi g.1 = k) groups) with
    | Some g => Some (sort_by velocityHint g.2)
    | None => m !! k
    end.
Proof.
  induction groups as [|g groups IH] using rev_ind; intros Hg; [done|].
  apply Forall_app in Hg as [Hgs Hg]. inversion Hg as [|? ? Hne _]; subst.
  rewrite foldl_app, filter_app. cbn [foldl]. unfold organizeStep at 1.
  rewrite decide_False by done.
  destruct (decide (noteNameToMidi g.1 = k)) as [<-|Hk].
  - rewrite lookup_insert_eq, filter_cons_True by done. by rewrite filter_nil, last_snoc.
  - rewrite lookup_insert_ne by done. rewrite filter_cons_False by done.
    rewrite filter_nil, app_nil_r. by apply IH.
Qed.

Lemma last_filter_elem {A} (P : A → Prop) `{∀ x, Decision (P x)} (l : list A) x :
  last (filter P l) = Some x → x ∈ l ∧ P x.
Proof.
  intros Hl. assert (Hin : x ∈ filter P l).
  { destruct (filter P l) as [|y l'] using rev_ind; [done|].
    rewrite last_snoc in Hl. injection Hl as ->. apply elem_of_app. right.
    by apply list_elem_of_singleton. }
  by apply list_elem_of_filter in Hin as [? ?].
Qed.

Lemma last_filter_None {A} (P : A → Prop) `{∀ x, Decision (P x)} (l : list A) :
  last (filter P l) = None ↔ ∀ x, x ∈ l → ¬ P x.
Proof.
  rewrite last_None. split.
  - intros Hnil x Hx HP. assert (Hin : x ∈ filter P l) by (by apply list_elem_of_filter).
    rewrite Hnil in Hin. by apply elem_of_nil in Hin.
  - intros Hall. destruct (filter P l) as [|y l'] eqn:E; [done|].
    assert (Hin : y ∈ filter P l) by (rewrite E; apply elem_of_cons; by left).
    apply list_elem_of_filter in Hin as [HP Hy]. by destruct (Hall y Hy).
Qed.

Lemma filter_iff_in {A} (P1 P2 : A → Prop) `{∀ x, Decision (P1 x)} `{∀ x, Decision (P2 x)}
    (l : list A) :
  (∀ x, x ∈ l → P1 x ↔ P2 x) → filter P1 l = filter P2 l.
Proof.
  induction l as [|x l IH]; intros Hl; [done|].
  assert (Hx : P1 x ↔ P2 x) by (apply Hl, elem_of_cons; by left).
  assert (Htl : filter P1 l = filter P2 l).
  { apply IH. intros y Hy. apply Hl, elem_of_cons. by right. }
  destruct (decide (P1 x)) as [H1|H1].
  - rewrite !filter_cons_True by tauto. by rewrite Htl.
  - rewrite !filter_cons_False by tauto. exact Htl.
Qed.

Lemma organize_lookup samples k group :
  organizeVelocityLayers samples !! k = Some group →
  ∃ noteName, noteNameToMidi noteName = k ∧
    filter (λ sample, noteOf sample = Some noteName) samples ≠ [] ∧
    group = sort_by velocityHint (filter (λ sample, noteOf sample = Some noteName) samples).
Proof.
  unfold organizeVelocityLayers.
  rewrite (organize_fold _ ∅ k (samplesByNote_numbers samples)).
  destruct (last _) as [[noteName g]|] eqn:El; [|done]. intros [= <-].
  apply last_filter_elem in El as [[-> Hne]%samplesByNote_elem Hk]. cbn [fst snd] in *.
  by exists noteName.
Qed.

Lemma organize_present samples sample k :
  sample ∈ samples → pitchOf sample = Some k →
  is_Some (organizeVelocityLayers samples !! k).
Proof.
  intros Hin Hp. unfold organizeVelocityLayers.
  rewrite (organize_fold _ ∅ k (samplesByNote_numbers samples)).
  destruct (last _) as [g|] eqn:El; [done|]. exfalso.
  unfold pitchOf in Hp. destruct (noteOf sample) as [noteName|] eqn:Hn; [|done].
  injection Hp as Hp.
  apply (proj1 (last_filter_None _ _) El
           (noteName, filter (λ s, noteOf s = Some noteName) samples)); [|done].
  apply samplesByNote_elem. split; [done|]. intros E.
  assert (Hs : sample ∈ filter (λ s, noteOf s = Some noteName) samples)
    by (by apply list_elem_of_filter).
  rewrite E in Hs. by apply elem_of_nil in Hs.
Qed.

(** X18.  [organizeVelocityLayers] files the samples by the number of
    the note name in their file name.  Every list it returns is
    non-empty, in ascending order of the velocity hint, and holds
    exactly the samples that carry one particular note name with that
    number; a key is present exactly when some sample resolves to it;
    samples without a note name appear nowhere.  The numbers lie in
    12..131, and a name with a flat counts as the C of its octave, so
    that different note names can share a number: then only the samples
    of one of these names are kept.  When no two note names of the input
    share a number, every key holds all the samples that resolve to
    it. *)
Theorem organizeVelocityLayers_groups (samples : list Sample) :
  let result := organizeVelocityLayers samples in
  (∀ k group, result !! k = Some group →
     group ≠ [] ∧
     StronglySorted (λ a b, velocityHint a ≤ velocityHint b) group ∧
     ∃ noteName,
       noteNameToMidi noteName = k ∧
       group = sort_by velocityHint
                 (filter (λ sample, noteOf sample = Some noteName) samples)) ∧
  (∀ k, is_Some (result !! k) ↔ ∃ sample, sample ∈ samples ∧ pitchOf sample = Some k) ∧
  (∀ sample noteName, noteOf sample = Some noteName →
     12 ≤ noteNameToMidi noteName ≤ 131 ∧
     (isFlat noteName = true → noteNameToMidi noteName = (octaveOf noteName + 1) * 12)) ∧
  ((∀ a b, a ∈ samples → b ∈ samples → pitchOf a = pitchOf b → noteOf a = noteOf b) →
   ∀ k group, result !! k = Some group →
     group = sort_by velocityHint (filter (λ sample, pitchOf sample = Some k) samples)).
Proof.
  intros result.
  assert (Hsome : ∀ k group, result !! k = Some group →
            ∃ noteName, noteNameToMidi noteName = k ∧
              filter (λ sample, noteOf sample = Some noteName) samples ≠ [] ∧
              group = sort_by velocityHint
                        (filter (λ sample, noteOf sample = Some noteName) samples))
    by (intros k group; apply organize_lookup).
  split; [|split; [|split]].
  - intros k group (noteName & Hk & Hne & ->)%Hsome. split.
    + intros E. apply Hne. apply Permutation_nil_r. by rewrite <- (sort_by_perm velocityHint), E.
    + split; [apply sort_by_ascending|]. by exists noteName.
  - intros k. split.
    + intros [group (noteName & Hk & Hne & _)%Hsome].
      destruct (filter _ samples) as [|sample rest] eqn:E; [done|].
      assert (Hin : sample ∈ filter (λ sample, noteOf sample = Some noteName) samples)
        by (rewrite E; apply elem_of_cons; by left).
      apply list_elem_of_filter in Hin as [Hn Hin].
      exists sample. split; [done|]. unfold pitchOf. by rewrite Hn, <- Hk.
    + intros (sample & Hin & Hp). by eapply organize_present.
  - intros sample noteName. apply noteOf_number.
  - intros Hinj k group (noteName & Hk & Hne & ->)%Hsome. f_equal.
    destruct (filter (λ sample, noteOf sample = Some noteName) samples)
      as [|first rest] eqn:E; [done|].
    assert (Hfirst : first ∈ samples ∧ noteOf first = Some noteName).
    { assert (Hin : first ∈ filter (λ sample, noteOf sample = Some noteName) samples)
        by (rewrite E; apply elem_of_cons; by left).
      by apply list_elem_of_filter in Hin as [? ?]. }
    destruct Hfirst as [Hin Hn]. rewrite <- E.
    apply filter_iff_in. intros x Hx. unfold pitchOf. split.
    + intros ->. cbn. by rewrite Hk.
    + intros Hp. rewrite <- Hn. apply Hinj; [done|done|].
      unfold pitchOf. by rewrite Hp, Hn, <- Hk.
Qed.

Lemma organizeVelocityLayers_groups_witness :
  organizeVelocityLayers x18_samples !! 48 = Some (drop 1 x18_samples) ∧
  drop 1 x18_samples ≠ [].
Proof.
  assert (H : organizeVelocityLayers x18_samples !! 48 = Some (drop 1 x18_samples))
    by (vm_compute; reflexivity).
  split; [exact H|].
  exact (proj1 (proj1 (organizeVelocityLayers_groups x18_samples) 48 _ H)).
Defined.


(** *** Velocity hints *)

Lemma startsWith_spec p s : startsWith p s = true ↔ ∃ post, s = p ++ post.
Proof.
  unfold startsWith. rewrite bool_decide_eq_true. split.
  - intros H. exists (drop (length p) s). by rewrite <- H at 1; rewrite take_drop.
  - intros [post ->]. by rewrite take_app_length.
Qed.

(** [includes]: the pattern occurs somewhere in the text. *)
Lemma contains_spec p s : contains p s = true ↔ ∃ pre post, s = pre ++ p ++ post.
Proof.
  induction s as [|c s IH]; cbn [contains].
  - rewrite startsWith_spec. split.
    + intros [post H]. exists [], post. done.
    + intros (pre & post & H). symmetry in H.
      apply app_eq_nil in H as [-> H]. by exists post.
  - rewrite orb_true_iff, startsWith_spec, IH. split.
    + intros [[post H]|(pre & post & H)].
      * by exists [], post.
      * exists (c :: pre), post. by rewrite H.
    + intros (pre & post & H). destruct pre as [|c' pre].
      * left. by exists post.
      * right. injection H as -> ->. by exists pre, post.
Qed.

Lemma contains_part a p b s : contains (a ++ p ++ b) s = true → contains p s = true.
Proof.
  rewrite !contains_spec. intros (pre & post & ->).
  exists (pre ++ a), (b ++ post). by rewrite <- !app_assoc.
Qed.

Lemma contains_part_false q a p b s :
  q = a ++ p ++ b → contains p s = false → contains q s = false.
Proof.
  intros -> H. destruct (contains (a ++ p ++ b) s) eqn:E; [|done].
  by rewrite (contains_part _ _ _ _ E) in H.
Qed.

(** X21.  The velocity hint read from a file name is an explicit
    number 0..127 behind "vel" or "v", else one of 10, 25, 40, 80, 100
    and 90: the rules for "mp", "ff" and "fff" can never apply, because
    every name they match is matched before by the rule for "p" or the
    rule for "f".  Without an explicit number, a name that holds a "p"
    gets at most 40, and a name without "p" but with an "f" gets 80 or
    100. *)
Theorem velocity_hint_values (filename : jsstring) :
  let name := toLowerCase filename in
  let velocity := extractVelocityFromFilename filename in
  (∀ vel, explicitVelocity name = Some vel → velocity = vel ∧ 0 ≤ vel ≤ 127) ∧
  (explicitVelocity name = None →
     velocity ∈ [10; 25; 40; 80; 100; 90] ∧
     (contains (str "p") name = true → velocity ≤ 40) ∧
     (contains (str "p") name = false → contains (str "f") name = true →
      velocity = 80 ∨ velocity = 100) ∧
     (contains (str "p") name = false → contains (str "f") name = false → velocity = 90)).
Proof.
  intros name velocity. subst velocity. unfold extractVelocityFromFilename. fold name.
  split.
  - intros vel Hv. rewrite Hv. split; [done|]. unfold explicitVelocity in Hv.
    destruct (match digitsAfter (str "vel") name with
              | Some ds => Some ds
              | None => digitsAfter (str "v") name
              end) as [ds|]; [|done].
    destruct ((0 <=? digitsValue ds) && (digitsValue ds <=? 127)) eqn:E; [|done].
    injection Hv as <-. apply andb_true_iff in E as [E1 E2]. apply Z.leb_le in E1, E2. lia.
  - intros ->. unfold velocityWord.
    destruct (contains (str "p") name) eqn:Ep.
    + split; [|split; [|split]]; try done.
      * repeat (destruct (contains _ name || contains _ name);
                [repeat (apply elem_of_cons; (by left) || right)|]).
        cbn [orb]. apply elem_of_cons. right. apply elem_of_cons. right.
        apply elem_of_cons. by left.
      * intros _. repeat (destruct (contains _ name || contains _ name); [lia|]).
        cbn [orb]. lia.
    + rewrite (contains_part_false (str "ppp") (str "pp") (str "p") [] name eq_refl Ep).
      rewrite (contains_part_false (str "pp") (str "p") (str "p") [] name eq_refl Ep).
      rewrite (contains_part_false (str "pianississimo") [] (str "p") (str "ianississimo") name eq_refl Ep).
      rewrite (contains_part_false (str "pianissimo") [] (str "p") (str "ianissimo") name eq_refl Ep).
      rewrite (contains_part_false (str "piano") [] (str "p") (str "iano") name eq_refl Ep).
      rewrite (contains_part_false (str "mp") (str "m") (str "p") [] name eq_refl Ep).
      rewrite (contains_part_false (str "mezzo-piano") (str "mezzo-") (str "p") (str "iano") name eq_refl Ep).
      cbn [orb].
      destruct (contains (str "f") name) eqn:Ef.
      * split; [|split; [done|split; [|done]]].
        -- destruct (contains (str "mf") name || contains (str "mezzo-forte") name);
             repeat (apply elem_of_cons; (by left) || right).
        -- intros _ _.
           destruct (contains (str "mf") name || contains (str "mezzo-forte") name); auto.
      * rewrite (contains_part_false (str "mf") (str "m") (str "f") [] name eq_refl Ef).
        rewrite (contains_part_false (str "mezzo-forte") (str "mezzo-") (str "f") (str "orte") name eq_refl Ef).
        rewrite (contains_part_false (str "forte") [] (str "f") (str "orte") name eq_refl Ef).
        rewrite (contains_part_false (str "ff") (str "f") (str "f") [] name eq_refl Ef).
        rewrite (contains_part_false (str "fortissimo") [] (str "f") (str "ortissimo") name eq_refl Ef).
        rewrite (contains_part_false (str "fff") (str "ff") (str "f") [] name eq_refl Ef).
        rewrite (contains_part_false (str "fortississimo") [] (str "f") (str "ortississimo") name eq_refl Ef).
        cbn [orb]. split; [|split; [done|split; [done|done]]].
        repeat (apply elem_of_cons; (by left) || right).
Qed.

Lemma velocity_hint_values_witness :
  explicitVelocity (toLowerCase (str "Piano_C3_mp.wav")) = None ∧
  extractVelocityFromFilename (str "Piano_C3_mp.wav") ≤ 40.
Proof.
  split; [reflexivity|].
  exact (proj1 (proj2 (proj2 (velocity_hint_values (str "Piano_C3_mp.wav")) eq_refl)) eq_refl).
Defined.


(** *** [XPMUtils]: mapping and writing *)

Section UtilsFacts.
Context {AudioBuffer : Type} (buffer : Sample → option AudioBuffer).
Context (detectPitch : AudioBuffer → @Validator.PitchResult).
Context (validSamples : list Sample → list Sample).

Lemma mapSamplesToKeys_lookup samples k :
  mapSamplesToKeys buffer detectPitch samples !! k
  = last (filter (λ sample, keyOf buffer detectPitch sample = Some k) samples).
Proof.
  unfold mapSamplesToKeys. induction samples as [|sample samples IH] using rev_ind; [done|].
  rewrite foldl_app, filter_app. cbn [foldl].
  destruct (keyOf buffer detectPitch sample) as [n|] eqn:En.
  - destruct (decide (n = k)) as [->|Hne].
    + rewrite lookup_insert_eq, filter_cons_True by done. by rewrite filter_nil, last_snoc.
    + rewrite lookup_insert_ne by done. rewrite filter_cons_False by congruence.
      by rewrite filter_nil, app_nil_r.
  - rewrite filter_cons_False by (by rewrite En). by rewrite filter_nil, app_nil_r.
Qed.

Lemma mapSamplesToKeys_size samples :
  (size (mapSamplesToKeys buffer detectPitch samples) ≤ length samples)%nat.
Proof.
  unfold mapSamplesToKeys. induction samples as [|sample samples IH] using rev_ind.
  { cbn [foldl length]. by rewrite map_size_empty. }
  rewrite foldl_app, length_app. cbn [foldl length].
  destruct (keyOf buffer detectPitch sample) as [n|]; [|lia].
  set (m := foldl _ ∅ samples) in *.
  destruct (m !! n) as [old|] eqn:E.
  - rewrite map_size_insert_Some by done. lia.
  - rewrite map_size_insert_None by done. lia.
Qed.

(** X19.  [mapSamplesToKeys] keeps one sample per note: the last one
    in the list that resolves to it.  A note read from the file name
    wins over the estimator and lies in 12..131; the estimator is asked
    only when the name holds no note and the sample has audio data.  The
    mapping has a key exactly for the notes some sample resolves to, and
    never more keys than there are samples. *)
Theorem mapSamplesToKeys_last_wins (samples : list Sample) :
  let keyMapping := mapSamplesToKeys buffer detectPitch samples in
  (∀ k, keyMapping !! k
        = last (filter (λ sample, keyOf buffer detectPitch sample = Some k) samples)) ∧
  (∀ k, is_Some (keyMapping !! k)
        ↔ ∃ sample, sample ∈ samples ∧ keyOf buffer detectPitch sample = Some k) ∧
  (size keyMapping ≤ length samples)%nat ∧
  (∀ sample n, extractMidiNoteFromFilename (sample_name sample) = Some n →
     keyOf buffer detectPitch sample = Some n ∧ 12 ≤ n ≤ 131) ∧
  (∀ sample, extractMidiNoteFromFilename (sample_name sample) = None →
     buffer sample = None → keyOf buffer detectPitch sample = None).
Proof.
  intros keyMapping. split; [apply mapSamplesToKeys_lookup|]. split; [|split; [|split]].
  - intros k. subst keyMapping. rewrite mapSamplesToKeys_lookup. split.
    + intros [sample Hs]. apply last_filter_elem in Hs as [? ?]. by exists sample.
    + intros (sample & Hin & Hk).
      destruct (last _) as [x|] eqn:El; [done|].
      by destruct (proj1 (last_filter_None _ _) El sample Hin).
  - apply mapSamplesToKeys_size.
  - intros sample n Hn. unfold keyOf. rewrite Hn. split; [done|].
    unfold extractMidiNoteFromFilename in Hn.
    destruct (noteMatch true (sample_name sample)) as [m|] eqn:Hm; [|done].
    injection Hn as <-. by eapply noteNameToMidi_bounds.
  - intros sample Hn Hb. unfold keyOf. by rewrite Hn, Hb.
Qed.

(** *** [XPMUtils.createXPM] read back *)

Lemma mapSamplesToKeys_safe samples :
  Forall (λ s, safe (sample_name s) = true) samples →
  map_Forall (λ _ sample, safe (sample_name sample) = true)
             (mapSamplesToKeys buffer detectPitch samples).
Proof.
  intros Hs k sample. rewrite mapSamplesToKeys_lookup.
  intros [Hin _]%last_filter_elem. rewrite Forall_forall in Hs. by apply Hs.
Qed.

Lemma organize_safe samples :
  Forall (λ s, safe (sample_name s) = true) samples →
  map_Forall (λ _ group, Forall (λ s, safe (sample_name s) = true) group)
             (organizeVelocityLayers samples).
Proof.
  intros Hs k group (noteName & _ & _ & ->)%organize_lookup. cbn.
  rewrite (sort_by_perm velocityHint). apply Forall_forall.
  intros x [_ Hx]%list_elem_of_filter. rewrite Forall_forall in Hs. by apply Hs.
Qed.

Lemma organize_nonempty samples :
  Forall (λ e : Z * list Sample, e.2 ≠ []) (sortedLayers (organizeVelocityLayers samples)).
Proof.
  apply Forall_forall. intros [k group] Hin. unfold sortedLayers in Hin.
  rewrite sort_by_perm in Hin. apply elem_of_map_to_list in Hin.
  apply organize_lookup in Hin as (noteName & _ & Hne & ->). cbn. intros E. apply Hne.
  apply Permutation_nil_r. by rewrite <- (sort_by_perm velocityHint), E.
Qed.

Lemma length_blocks_nonempty {X Y} (F : nat → X * list Y → list XPMKeygroup)
    (entries : list (X * list Y)) :
  (∀ i e, e.2 ≠ [] → length (F i e) = 1%nat) →
  Forall (λ e : X * list Y, e.2 ≠ []) entries →
  length (mjoin (imap F entries)) = length entries.
Proof.
  intros HF Hne. revert F HF. induction Hne as [|e entries He _ IH]; intros F HF; [done|].
  rewrite imap_cons, mjoin_cons, length_app, (IH (F ∘ S)) by (intros; by apply HF).
  by rewrite HF.
Qed.

(** X20.  What [createXPM] writes for an instrument, read back by the
    importer, when the program name and the names of the samples it
    processes contain no control character, double quote, ampersand or
    left angle bracket: with velocity-layer detection there is one
    keygroup per note number that [organizeVelocityLayers] found, and
    the key mapping plays no part; without it there is one keygroup per
    note of [mapSamplesToKeys] when auto-mapping is on; and with
    neither option the program has no keygroup and no sample at all,
    whatever the samples are. *)
Theorem createXPM_read_back (name : jsstring) (samples : list Sample)
    (options : XPMFixOptions) :
  let processedSamples :=
    if validateSamples options then validSamples samples else samples in
  safe name = true →
  Forall (λ s, safe (sample_name s) = true) processedSamples →
  ∃ program,
    Codec.parseXPMContent
      (createXPM buffer detectPitch validSamples name false samples options)
    = Returned program ∧
    prog_isDrumkit program = false ∧
    length (prog_keygroups program)
    = (if detectVelocityLayers options
       then size (organizeVelocityLayers processedSamples)
       else if autoMapSamples options
            then size (mapSamplesToKeys buffer detectPitch processedSamples)
            else 0%nat) ∧
    (detectVelocityLayers options = false → autoMapSamples options = false →
     prog_keygroups program = [] ∧ prog_samples program = []).
Proof.
  intros processedSamples Hname Hs. unfold createXPM. fold processedSamples.
  set (opts := generatorOptions name false).
  destruct (detectVelocityLayers options).
  - unfold Codec.parseXPMContent.
    rewrite (parse_layered opts _ Hname (organize_safe _ Hs)), layered_no_parsererror.
    rewrite bool_decide_eq_false_2 by (by intros H).
    change (determineProgramType (layeredTree _ _)) with false. cbv iota.
    eexists. split; [reflexivity|]. cbn [prog_isDrumkit prog_keygroups].
    split; [done|]. split; [|done]. rewrite extractKeygroups_layered.
    rewrite length_blocks_nonempty; [| |apply organize_nonempty].
    2:{ intros i [k group] Hg. unfold writtenLayered. cbn [snd] in *. by destruct group. }
    unfold sortedLayers. by rewrite sort_by_length, length_map_to_list.
  - set (keyMapping := if autoMapSamples options
                       then mapSamplesToKeys buffer detectPitch processedSamples else ∅).
    assert (Hsafe : safeEntries (sortedEntries keyMapping) = true).
    { apply (safeNames_entries opts). split; [done|]. subst keyMapping.
      destruct (autoMapSamples options); [by apply mapSamplesToKeys_safe|].
      apply map_Forall_empty. }
    unfold Codec.parseXPMContent.
    rewrite (parse_generated opts _ Hname Hsafe), no_parsererror.
    rewrite bool_decide_eq_false_2 by (by intros H).
    change (determineProgramType (documentTree _ _)) with false. cbv iota.
    eexists. split; [reflexivity|]. cbn [prog_isDrumkit prog_keygroups prog_samples].
    split; [done|]. rewrite extractKeygroups_written, length_imap. split.
    + unfold sortedEntries. rewrite sort_by_length, length_map_to_list. subst keyMapping.
      destruct (autoMapSamples options); [done|]. by rewrite map_size_empty.
    + intros _ Hauto. subst keyMapping. rewrite Hauto.
      unfold sortedEntries. rewrite map_to_list_empty. done.
Qed.

End UtilsFacts.

Lemma mapSamplesToKeys_last_wins_witness :
  extractMidiNoteFromFilename (str "Piano_C4_soft.wav") = Some 60 ∧
  mapSamplesToKeys (λ _, @None unit) (λ _, Validator.Undetected) x19_samples !! 60
  = x19_samples !! 1%nat.
Proof.
  split; [reflexivity|].
  exact (proj1 (mapSamplesToKeys_last_wins (λ _, @None unit) (λ _, Validator.Undetected)
                  x19_samples) 60).
Defined.

Lemma createXPM_read_back_witness :
  Forall (λ s, safe (sample_name s) = true) x19_samples ∧
  ∃ program,
    Codec.parseXPMContent
      (createXPM (λ _, @None unit) (λ _, Validator.Undetected) (λ l, l) (str "Piano") false
         x19_samples noFixes)
    = Returned program ∧
    prog_keygroups program = [] ∧ prog_samples program = [].
Proof.
  assert (Hs : Forall (λ s, safe (sample_name s) = true) x19_samples)
    by (repeat constructor).
  split; [exact Hs|].
  destruct (createXPM_read_back (λ _, @None unit) (λ _, Validator.Undetected) (λ l, l)
              (str "Piano") x19_samples noFixes eq_refl Hs)
    as (program & Hp & _ & _ & Hnone).
  exists program. split; [exact Hp|]. exact (Hnone eq_refl eq_refl).
Defined.

End OrganizerFacts.


(** ** The writer of the instrument service, read by the importer *)

Module WriterFacts.
Import Xml Codec CodecTerms CodecFacts Writer WriterTerms.

(** *** Tokens of the writer's text *)

Lemma scanAttrs_space fuel attrs acc r :
  (length attrs ≤ fuel)%nat →
  forallb wfAttr attrs = true →
  NoDup (acc.*1 ++ attrs.*1) →
  scanAttrs fuel (renderAttrs attrs ++ SPACE :: SLASH :: r) acc
  = Some (acc ++ attrs, SLASH :: r).
Proof.
  revert fuel acc. induction attrs as [|[n v] attrs IH]; intros fuel acc Hf Hwf Hnd.
  - change (renderAttrs [] ++ SPACE :: SLASH :: r) with (SPACE :: SLASH :: r).
    rewrite app_nil_r. destruct fuel; reflexivity.
  - destruct fuel as [|fuel]; [simpl in Hf; lia|].
    cbn [forallb] in Hwf. apply andb_true_iff in Hwf as [Hnv Hwf].
    unfold wfAttr in Hnv. cbn [fst snd] in Hnv. apply andb_true_iff in Hnv as [Hn Hv].
    rewrite renderAttrs_cons, scanAttrs_step; [|done|done|].
    + rewrite (IH fuel (acc ++ [(n, v)])); [by rewrite <- app_assoc| |done|].
      * simpl in Hf. lia.
      * rewrite fmap_app, <- app_assoc. done.
    + intros Hin. rewrite fmap_cons in Hnd. cbn [fst] in Hnd.
      apply NoDup_app in Hnd as (_ & Hnd & _). apply (Hnd n Hin).
      apply elem_of_cons. by left.
Qed.

Lemma scanToken_spaced n a r :
  wfName n = true → forallb wfAttr a = true → NoDup a.*1 →
  scanToken (spacedTag n a ++ r) = Some (TEmpty n a, r).
Proof.
  intros Hn Ha Hnd. unfold spacedTag.
  destruct (wfName_head n Hn) as (x & n' & -> & Hx & Hxs).
  rewrite <- !app_comm_cons, <- !app_assoc.
  cbn [scanToken app]. rewrite bool_decide_eq_true_2 by done.
  rewrite bool_decide_eq_false_2 by done.
  change (x :: n' ++ renderAttrs a ++ SPACE :: SLASH :: GT :: r)
    with ((x :: n') ++ renderAttrs a ++ SPACE :: SLASH :: GT :: r).
  destruct (renderAttrs_head a SPACE (SLASH :: GT :: r) eq_refl) as (c' & r'' & Heq & Hc').
  rewrite Heq, (scanName_app _ c' r'' Hn Hc'). cbn [mbind option_bind].
  rewrite <- Heq. rewrite scanAttrs_space; [|..|done|done].
  - cbn [mbind option_bind app]. rewrite bool_decide_eq_false_2 by done.
    by rewrite !bool_decide_eq_true_2.
  - rewrite length_app. pose proof (length_renderAttrs a). lia.
Qed.

Lemma tokens_spaced n a r ts :
  wfItem (n, a) = true → tokens r ts → tokens (spacedTag n a ++ r) (TEmpty n a :: ts).
Proof.
  unfold wfItem. cbn [wfTag fst snd].
  rewrite !andb_true_iff, bool_decide_eq_true. intros [[Hn Ha] Hnd] Hr.
  apply (tokens_cons _ (TEmpty n a) r ts); [done| |by apply scanToken_spaced|done].
  rewrite length_app. unfold spacedTag. simpl. lia.
Qed.

Lemma scanText_text t r : safe t = true → startsTag r → scanText (t ++ r) = (t, r).
Proof.
  intros Ht Hr. induction t as [|c t IH]; cbn [app scanText].
  - destruct Hr as [-> | [r' ->]]; [done|]. cbn. by rewrite bool_decide_eq_true_2.
  - cbn [safe forallb] in Ht. apply andb_true_iff in Ht as [Hc Ht].
    destruct (safeChar_spec c Hc) as (_ & _ & _ & Hlt).
    rewrite bool_decide_eq_false_2 by done. by rewrite (IH Ht).
Qed.

Lemma scanToken_text t r :
  t ≠ [] → charData t = true → startsTag r →
  scanToken (t ++ r) = Some (TText (negb (forallb isSpace t)), r).
Proof.
  unfold charData. rewrite andb_true_iff, negb_true_iff. intros Hne [Hs Hc] Hr.
  destruct t as [|c t]; [done|].
  pose proof Hs as Hs'. cbn [safe forallb] in Hs'. apply andb_true_iff in Hs' as [Hc' _].
  destruct (safeChar_spec c Hc') as (_ & _ & _ & Hlt).
  change ((c :: t) ++ r) with (c :: (t ++ r)). unfold scanToken.
  rewrite bool_decide_eq_false_2 by done.
  change (c :: (t ++ r)) with ((c :: t) ++ r).
  rewrite (scanText_text _ r Hs Hr), Hc, (decode_safe false _ Hs). done.
Qed.

Lemma tokens_text t r ts :
  charData t = true → startsTag r → tokens r ts →
  tokens (t ++ r) (textTokens t ++ ts).
Proof.
  intros Ht Hr Hts. destruct t as [|c t]; [done|].
  apply (tokens_cons _ _ r ts); [done| |by apply scanToken_text|done].
  rewrite length_app. simpl. lia.
Qed.

Lemma startsTag_spaced n a r : startsTag (spacedTag n a ++ r).
Proof. right. unfold spacedTag. cbn [app]. by eexists. Qed.

Lemma tokens_items items r ts :
  forallb wfItem items = true → tokens r ts →
  tokens (renderItems items ++ r) (itemTokens items ++ ts).
Proof.
  intros Hl Hts. induction items as [|[n a] items IH]; [done|].
  cbn [forallb] in Hl. apply andb_true_iff in Hl as [Ht Hl].
  unfold renderItems, itemTokens in *. rewrite !fmap_cons, !mjoin_cons. cbn [fst snd].
  rewrite <- !app_assoc. destruct (gap_spaces 4) as [Hne Hsp].
  cbn [app]. apply (tokens_spaces (gap 4)); [done|done|apply startsTag_spaced|].
  apply tokens_spaced; [done|]. by apply IH.
Qed.

Ltac next_gap :=
  match goal with
  | |- tokens (gap ?k ++ _) _ =>
      apply (tokens_spaces (gap k));
      [apply gap_spaces|apply gap_spaces|
       first [by apply startsTag_tag | apply startsTag_spaced | by right; eexists]|]
  end.

Lemma tokens_body created name type container items :
  safe name = true → charData name = true → charData type = true →
  charData created = true → wfName container = true →
  forallb wfItem items = true →
  tokens (writtenBody created name type container items)
         (bodyTokens created name type container items).
Proof.
  intros Hname Hn Ht Hc Hk Hitems. unfold writtenBody, bodyTokens.
  assert (safe type = true) as Htype.
  { unfold charData in Ht. by apply andb_true_iff in Ht as [? _]. }
  apply tokens_tag.
  { unfold programAttrs. cbn [wfTag forallb fmap list_fmap fst]. unfold wfAttr.
    cbn [fst snd]. rewrite Hname, Htype. vm_compute. reflexivity. }
  next_gap. apply tokens_tag; [done|].
  next_gap. apply tokens_tag; [done|].
  apply tokens_text; [done|by apply startsTag_tag|].
  apply tokens_tag; [done|].
  next_gap. apply tokens_tag; [done|].
  apply tokens_text; [done|by apply startsTag_tag|].
  apply tokens_tag; [done|].
  next_gap. apply tokens_tag; [done|].
  apply tokens_text; [done|by apply startsTag_tag|].
  apply tokens_tag; [done|].
  next_gap. apply tokens_tag; [done|].
  assert (wfTag (TStart container []) = true) as Hopen.
  { cbn [wfTag forallb fmap list_fmap]. rewrite Hk. by apply andb_true_iff. }
  next_gap. apply tokens_tag; [done|].
  apply tokens_items; [done|].
  next_gap. apply tokens_tag; [done|].
  next_gap. rewrite <- (app_nil_r (renderTag _)). apply tokens_tag; [done|].
  apply tokens_nil.
Qed.

(** *** The element tree *)

Lemma build_items items ts t a cs stack root :
  build (itemTokens items ++ ts) ((t, a, cs) :: stack) root
  = build ts ((t, a, rev (itemNode <$> items) ++ cs) :: stack) root.
Proof.
  revert cs. induction items as [|it items IH]; intros cs; [done|].
  unfold itemTokens in *. rewrite !fmap_cons, mjoin_cons, <- app_assoc.
  cbn [app build attach mbind option_bind]. rewrite IH.
  cbn [rev]. by rewrite <- app_assoc.
Qed.

Lemma build_body created name type container items :
  build (TText false :: bodyTokens created name type container items) [] None
  = Some (writtenTree name type container items).
Proof.
  unfold bodyTokens.
  transitivity
    (build (itemTokens items
            ++ [TText false; TEnd container; TText false; TEnd (str "PluginProgram")])
       [(container, [], []); (str "PluginProgram", programAttrs name type, [infoNode])]
       None).
  - destruct name, type, created; reflexivity.
  - rewrite build_items, app_nil_r. cbn [build].
    rewrite bool_decide_eq_true_2 by done.
    cbn [attach mbind option_bind build]. rewrite rev_involutive. reflexivity.
Qed.

(** *** The prolog and the whole document *)

Lemma noCR_spaced n a : wfItem (n, a) = true → noCR (spacedTag n a) = true.
Proof.
  unfold wfItem. cbn [wfTag fst snd].
  intros [[Hn Ha]%andb_true_iff _]%andb_true_iff. unfold spacedTag.
  change (LT :: n ++ renderAttrs a ++ [SPACE; SLASH; GT])
    with ([LT] ++ n ++ renderAttrs a ++ [SPACE; SLASH; GT]).
  by rewrite !noCR_app, (noCR_name n Hn), (noCR_renderAttrs a Ha).
Qed.

Lemma noCR_items items : forallb wfItem items = true → noCR (renderItems items) = true.
Proof.
  induction items as [|[n a] items IH]; [done|]. cbn [forallb].
  intros [Hit Hitems]%andb_true_iff. unfold renderItems in *.
  rewrite fmap_cons, mjoin_cons. cbn [fst snd].
  by rewrite !noCR_app, noCR_gap, (noCR_spaced _ _ Hit), (IH Hitems).
Qed.

Lemma charData_safe t : charData t = true → safe t = true.
Proof. unfold charData. by intros [? _]%andb_true_iff. Qed.

Lemma wf_programAttrs name type :
  safe name = true → safe type = true →
  wfTag (TStart (str "PluginProgram") (programAttrs name type)) = true.
Proof.
  intros Hname Htype. unfold programAttrs. cbn [wfTag forallb fmap list_fmap fst].
  unfold wfAttr. cbn [fst snd]. rewrite Hname, Htype. vm_compute. reflexivity.
Qed.

Lemma noCR_body created name type container items :
  safe name = true → safe type = true → safe created = true →
  wfName container = true → forallb wfItem items = true →
  noCR (writtenBody created name type container items) = true.
Proof.
  intros Hname Htype Hcreated Hk Hitems. unfold writtenBody.
  assert (wfTag (TStart container []) = true) as Hopen.
  { cbn [wfTag forallb fmap list_fmap]. rewrite Hk. by apply andb_true_iff. }
  rewrite !noCR_app, !noCR_gap, (noCR_items _ Hitems).
  rewrite (noCR_safe _ Hname), (noCR_safe _ Htype), (noCR_safe _ Hcreated).
  rewrite (noCR_renderTag _ (wf_programAttrs _ _ Hname Htype)).
  rewrite (noCR_renderTag _ Hopen), (noCR_renderTag (TEnd container) Hk).
  rewrite !noCR_renderTag by done. done.
Qed.

Lemma parse_written created name type container items :
  charData name = true → charData type = true → charData created = true →
  wfName container = true → forallb wfItem items = true →
  parse (xmlDeclaration ++ writtenBody created name type container items)
  = Some (writtenTree name type container items).
Proof.
  intros Hn Ht Hc Hk Hitems.
  pose proof (charData_safe _ Hn). pose proof (charData_safe _ Ht).
  pose proof (charData_safe _ Hc).
  rewrite (parse_declaration _ (bodyTokens created name type container items)).
  - apply build_body.
  - by apply noCR_body.
  - right. unfold writtenBody. cbn [renderTag app]. by eexists.
  - by apply tokens_body.
Qed.

(** *** The writers' texts *)

Lemma written_text created name type container items body :
  NL ++ body ++ (str "  </" ++ container ++ str ">" ++ NL) ++ str "</PluginProgram>"
  = renderItems items ++ gap 2 ++ renderTag (TEnd container)
    ++ gap 0 ++ renderTag (TEnd (str "PluginProgram")) →
  (strq "<PluginProgram name='" ++ name ++ strq "' type='" ++ type ++ strq "'>" ++ NL)
  ++ (str "  <ProgramInfo>" ++ NL)
  ++ (str "    <Name>" ++ name ++ str "</Name>" ++ NL)
  ++ (str "    <Type>" ++ type ++ str "</Type>" ++ NL)
  ++ (str "    <Created>" ++ created ++ str "</Created>" ++ NL)
  ++ (str "  </ProgramInfo>" ++ NL)
  ++ (str "  <" ++ container ++ str ">" ++ NL)
  ++ body
  ++ (str "  </" ++ container ++ str ">" ++ NL)
  ++ str "</PluginProgram>"
  = writtenBody created name type container items.
Proof.
  intros Hbody. unfold writtenBody. rewrite <- Hbody.
  generalize (body ++ (str "  </" ++ container ++ str ">" ++ NL) ++ str "</PluginProgram>").
  intros rest. unfold programAttrs, gap. cbn [renderTag]. unfold renderAttrs.
  cbn [fmap list_fmap]. rewrite ?mjoin_cons. unfold renderAttr. cbn [fst snd].
  same_text.
Qed.

Lemma items_shift {X} (f : X → jsstring) (g : X → option item) (l : list X) rest :
  (∀ x, match g x with
        | Some it => NL ++ f x = gap 4 ++ spacedTag it.1 it.2 ++ NL
        | None => f x = []
        end) →
  NL ++ mjoin (f <$> l) ++ rest = renderItems (omap g l) ++ NL ++ rest.
Proof.
  intros Hfg. induction l as [|x l IH]; [done|].
  rewrite fmap_cons, mjoin_cons. cbn [omap list_omap]. specialize (Hfg x).
  destruct (g x) as [it|].
  - unfold renderItems in *. rewrite fmap_cons, mjoin_cons, <- !app_assoc.
    rewrite (app_assoc NL), Hfg, <- !app_assoc. do 2 f_equal. exact IH.
  - rewrite Hfg. exact IH.
Qed.

Lemma items_text {X} (f : X → jsstring) (g : X → option item) (l : list X) container :
  (∀ x, match g x with
        | Some it => NL ++ f x = gap 4 ++ spacedTag it.1 it.2 ++ NL
        | None => f x = []
        end) →
  NL ++ mjoin (f <$> l) ++ (str "  </" ++ container ++ str ">" ++ NL)
    ++ str "</PluginProgram>"
  = renderItems (omap g l) ++ gap 2 ++ renderTag (TEnd container)
    ++ gap 0 ++ renderTag (TEnd (str "PluginProgram")).
Proof.
  intros Hfg. rewrite (items_shift f g l _ Hfg). f_equal.
  unfold gap. cbn [renderTag]. same_text.
Qed.

Lemma omap_Some {X Y} (g : X → Y) (l : list X) : omap (λ x, Some (g x)) l = g <$> l.
Proof. induction l as [|x l IH]; [done|]. cbn. by rewrite IH. Qed.

Lemma length_omap_le {X Y} (f : X → option Y) (l : list X) :
  (length (omap f l) ≤ length l)%nat.
Proof.
  induction l as [|x l IH]; [done|]. cbn [omap list_omap].
  destruct (f x); simpl; lia.
Qed.

Lemma zoneXml_item zone :
  NL ++ zoneXml zone = gap 4 ++ spacedTag (zoneItem zone).1 (zoneItem zone).2 ++ NL.
Proof.
  unfold zoneXml, zoneItem, spacedTag, gap. cbn [fst snd]. unfold renderAttrs.
  cbn [fmap list_fmap]. rewrite !mjoin_cons. unfold renderAttr. cbn [fst snd].
  same_text.
Qed.

Lemma generateXPMContent_written created this zones :
  generateXPMContent created this zones
  = xmlDeclaration
    ++ writtenBody created (instrumentName this) (typeName (programType this))
         (str "Keygroup") (zoneItem <$> zones).
Proof.
  unfold generateXPMContent. f_equal.
  rewrite <- (written_text _ _ _ _ _ (mjoin (zoneXml <$> zones))); [done|].
  rewrite <- omap_Some. apply (items_text zoneXml (λ z, Some (zoneItem z))).
  intros z. apply zoneXml_item.
Qed.

Lemma padXml_item getSample assignment :
  match padItem getSample assignment with
  | Some it => NL ++ padXml getSample assignment = gap 4 ++ spacedTag it.1 it.2 ++ NL
  | None => padXml getSample assignment = []
  end.
Proof.
  unfold padItem, padXml. destruct (getSample assignment.2) as [sample|]; [|done].
  cbn [mbind option_bind fst snd]. unfold spacedTag, gap, renderAttrs.
  cbn [fmap list_fmap]. rewrite !mjoin_cons. unfold renderAttr. cbn [fst snd].
  same_text.
Qed.

Lemma createDrumKitXPM_written getSample created kitName padAssignments :
  createDrumKitXPM getSample created kitName padAssignments
  = xmlDeclaration
    ++ writtenBody created kitName (str "drumkit") (str "DrumKit")
         (omap (padItem getSample) padAssignments).
Proof.
  unfold createDrumKitXPM. f_equal.
  rewrite <- (written_text _ _ _ _ _ (mjoin (padXml getSample <$> padAssignments))).
  - same_text.
  - apply (items_text (padXml getSample) (padItem getSample)).
    intros a. apply padXml_item.
Qed.

(** *** Reading the tree *)

Lemma descendants_items items :
  mjoin ((λ c, c :: descendants c) <$> (itemNode <$> items)) = itemNode <$> items.
Proof.
  induction items as [|it items IH]; [done|].
  rewrite !fmap_cons, mjoin_cons, IH. done.
Qed.

Lemma written_elements name type container items :
  writtenTree name type container items
  :: descendants (writtenTree name type container items)
  = [writtenTree name type container items; infoNode; Element (str "Name") [] [];
     Element (str "Type") [] []; Element (str "Created") [] [];
     Element container [] (itemNode <$> items)]
    ++ (itemNode <$> items).
Proof.
  unfold writtenTree. rewrite descendants_children. cbn [fmap list_fmap].
  rewrite !mjoin_cons. change (mjoin []) with (@nil Node).
  rewrite descendants_children, descendants_items, app_nil_r. done.
Qed.

Lemma filter_items_none items tag :
  Forall (λ it : item, it.1 ≠ tag) items →
  filter (λ e, tagName e = tag) (itemNode <$> items) = [].
Proof.
  induction 1 as [|it items Hit _ IH]; [done|].
  rewrite fmap_cons, filter_cons_False by done. exact IH.
Qed.

Lemma filter_items_all items tag :
  Forall (λ it : item, it.1 = tag) items →
  filter (λ e, tagName e = tag) (itemNode <$> items) = itemNode <$> items.
Proof.
  induction 1 as [|it items Hit _ IH]; [done|].
  rewrite fmap_cons, filter_cons_True by done. by rewrite IH.
Qed.

Lemma written_fixed name type container items tag :
  tag ∉ fixedNames →
  docQuerySelectorAll (writtenTree name type container items) tag
  = filter (λ e, tagName e = tag)
      (Element container [] (itemNode <$> items) :: (itemNode <$> items)).
Proof.
  intros Htag. unfold docQuerySelectorAll. rewrite written_elements.
  unfold writtenTree, infoNode. cbn [app].
  do 5 (rewrite filter_cons_False
          by (cbn [tagName]; intros E; apply Htag; rewrite <- E;
              apply (bool_decide_unpack _); vm_compute; exact I)).
  done.
Qed.

Lemma written_no_parsererror name type container items :
  container ≠ str "parsererror" →
  Forall (λ it : item, it.1 ≠ str "parsererror") items →
  docQuerySelectorAll (writtenTree name type container items) (str "parsererror") = [].
Proof.
  intros Hk Hitems. rewrite written_fixed.
  - rewrite filter_cons_False by done. by apply filter_items_none.
  - apply (bool_decide_unpack _). vm_compute. exact I.
Qed.

Lemma written_type name t container items :
  determineProgramType (writtenTree name (typeName t) container items) = readAsDrum t.
Proof. destruct t; reflexivity. Qed.

Lemma written_name name type container items :
  getAttribute (writtenTree name type container items) (str "name") = Some name.
Proof. reflexivity. Qed.

Lemma zoneItems_named zones tag :
  tag ≠ str "Zone" → Forall (λ it : item, it.1 ≠ tag) (zoneItem <$> zones).
Proof.
  intros Htag. apply Forall_fmap, Forall_forall. intros z _ E. apply Htag.
  rewrite <- E. reflexivity.
Qed.

Lemma padItems_named getSample padAssignments :
  Forall (λ it : item, it.1 = str "Pad") (omap (padItem getSample) padAssignments).
Proof.
  apply Forall_forall. intros it [a [_ Ha]]%list_elem_of_omap.
  unfold padItem in Ha. destruct (getSample a.2); [|done].
  cbn in Ha. by injection Ha as <-.
Qed.

Lemma extractZone_item it : extractZone (itemNode it) = None.
Proof. reflexivity. Qed.

Lemma omap_items {Y} (f : Node → option Y) (P : Node → Prop) `{!∀ e, Decision (P e)}
    (items : list item) :
  (∀ it, f (itemNode it) = None) → omap f (filter P (itemNode <$> items)) = [].
Proof.
  intros Hf. induction items as [|it items IH]; [done|].
  rewrite fmap_cons. destruct (decide (P (itemNode it))).
  - rewrite filter_cons_True by done. cbn [omap list_omap]. by rewrite Hf.
  - by rewrite filter_cons_False by done.
Qed.

Lemma extractKeygroups_zones name type zones :
  extractKeygroups (writtenTree name type (str "Keygroup") (zoneItem <$> zones))
  = [ {| kg_index := Some 0; zones := [] |} ].
Proof.
  unfold extractKeygroups. rewrite written_fixed.
  2:{ apply (bool_decide_unpack _). vm_compute. exact I. }
  rewrite filter_cons_True by done.
  rewrite (filter_items_none _ _ (zoneItems_named zones (str "Keygroup") ltac:(done))).
  cbn [imap]. unfold extractKeygroup. f_equal. f_equal.
  unfold querySelectorAll. rewrite descendants_children, descendants_items.
  apply omap_items. intros it. apply extractZone_item.
Qed.

Lemma omap_imap_items {Y} (f : nat → Node → option Y) (items : list item) :
  (∀ i it, f i (itemNode it) = None) → omap id (imap f (itemNode <$> items)) = [].
Proof.
  revert f. induction items as [|it items IH]; intros f Hf; [done|].
  rewrite fmap_cons, imap_cons. cbn [omap list_omap]. rewrite Hf. cbn [id].
  apply (IH (f ∘ S)). intros. apply Hf.
Qed.

Lemma filter_itemNodes (P : Node → Prop) `{!∀ e, Decision (P e)} (items : list item) :
  ∃ items', filter P (itemNode <$> items) = itemNode <$> items'.
Proof.
  induction items as [|it items [items' IH]]; [by exists []|].
  rewrite fmap_cons. destruct (decide (P (itemNode it))).
  - rewrite filter_cons_True by done. exists (it :: items'). by rewrite IH.
  - rewrite filter_cons_False by done. by exists items'.
Qed.

Lemma extractPads_items parseFloat name type container (items : list item) :
  container ≠ str "Pad" →
  Importer.extractPads parseFloat (writtenTree name type container items) = [].
Proof.
  intros Hk. unfold Importer.extractPads. rewrite written_fixed.
  2:{ apply (bool_decide_unpack _). vm_compute. exact I. }
  rewrite filter_cons_False by done.
  destruct (filter_itemNodes (λ e, tagName e = str "Pad") items) as [items' ->].
  apply omap_imap_items. reflexivity.
Qed.

Lemma wf_zoneItems zones :
  Forall (λ zone, safe (Layers.file zone) = true) zones →
  forallb wfItem (zoneItem <$> zones) = true.
Proof.
  intros Hz. apply forallb_forall. intros it [zone [-> Hin]]%list_elem_of_In%list_elem_of_fmap.
  rewrite Forall_forall in Hz. specialize (Hz zone Hin).
  unfold wfItem, zoneItem. cbn [fst snd wfTag forallb fmap list_fmap].
  unfold wfAttr. cbn [fst snd]. rewrite Hz, !safe_toString. vm_compute. reflexivity.
Qed.

Lemma wf_padItems getSample padAssignments :
  Forall (λ a : jsstring * jsstring, safe a.1 = true) padAssignments →
  (∀ sampleId sample, getSample sampleId = Some sample → safe (sample_name sample) = true) →
  forallb wfItem (omap (padItem getSample) padAssignments) = true.
Proof.
  intros Hids Hnames. apply forallb_forall.
  intros it [a [Hin Ha]]%list_elem_of_In%list_elem_of_omap.
  rewrite Forall_forall in Hids. specialize (Hids a Hin).
  unfold padItem in Ha. destruct (getSample a.2) as [sample|] eqn:E; [|done].
  cbn in Ha. injection Ha as <-.
  unfold wfItem. cbn [fst snd wfTag forallb fmap list_fmap].
  unfold wfAttr. cbn [fst snd]. rewrite Hids, (Hnames _ _ E). vm_compute. reflexivity.
Qed.

Lemma charData_typeName t : charData (typeName t) = true.
Proof. by destruct t. Qed.

Lemma createZones_safe getSample instrument :
  (∀ sampleId sample, getSample sampleId = Some sample → safe (sample_name sample) = true) →
  Forall (λ zone, safe (Layers.file zone) = true)
         (createZonesFromInstrument getSample instrument).
Proof.
  intros Hnames. apply Forall_forall. intros zone.
  unfold createZonesFromInstrument.
  intros (l & Hzone & (kg & -> & _)%list_elem_of_fmap)%list_elem_of_join.
  apply list_elem_of_omap in Hzone as (layer & _ & Hz).
  unfold zoneOf in Hz. destruct (Mapper.sampleId layer) as [[|c id]|]; [done| |done].
  destruct (getSample (c :: id)) as [sample|] eqn:E; [|done].
  injection Hz as <-. cbn. by apply (Hnames _ _ E).
Qed.

Lemma generated_read_back parseFloat created this zones :
  charData (instrumentName this) = true → charData created = true →
  Forall (λ zone, safe (Layers.file zone) = true) zones →
  Importer.parseXPMContent parseFloat (generateXPMContent created this zones)
  = Returned (emptyProgram (instrumentName this) (readAsDrum (programType this))).
Proof.
  intros Hname Hcreated Hzones. unfold Importer.parseXPMContent.
  rewrite generateXPMContent_written.
  rewrite parse_written; [|done|apply charData_typeName|done|done|by apply wf_zoneItems].
  rewrite written_no_parsererror; [|done|by apply zoneItems_named].
  rewrite bool_decide_eq_false_2 by (by intros H).
  rewrite written_type, written_name. unfold emptyProgram.
  destruct (programType this); cbn [readAsDrum].
  - by rewrite extractKeygroups_zones.
  - by rewrite extractPads_items.
Qed.

(** X22.  The importer does not see the zones [XPMWriter] writes: for
    every list of zones, [generateXPMContent] gives a document that
    [XPMImporter.parseXPMContent] accepts and reads as a program with
    the writer's name, no sample and, for the default program type
    "keygroup", one keygroup with index 0 and no zone (for the type
    "drumkit", a drum kit without pads).  The same holds for
    [createXPM] on every instrument, whatever its keygroups and
    layers.  Names and time stamp must be free of control characters,
    double quotes, ampersands and left angle brackets, and of the
    sequence "]]>" between tags. *)
Theorem writer_zones_not_read_back (parseFloat : jsstring → float)
    (getSample : jsstring → option Sample) (created : jsstring) (this : XPMWriter) :
  charData (instrumentName this) = true →
  charData created = true →
  (∀ zones, Forall (λ zone, safe (Layers.file zone) = true) zones →
     Importer.parseXPMContent parseFloat (generateXPMContent created this zones)
     = Returned (emptyProgram (instrumentName this) (readAsDrum (programType this))))
  ∧ (∀ instrument,
       (∀ sampleId sample, getSample sampleId = Some sample →
          safe (sample_name sample) = true) →
       Importer.parseXPMContent parseFloat (createXPM getSample created this instrument)
       = Returned (emptyProgram (instrumentName this) (readAsDrum (programType this)))).
Proof.
  intros Hname Hcreated. split.
  - intros zones Hzones. by apply generated_read_back.
  - intros instrument Hnames. unfold createXPM.
    apply generated_read_back; [done|done|]. by apply createZones_safe.
Qed.

Lemma writer_zones_not_read_back_witness :
  length (createZonesFromInstrument x22_getSample x22_instrument) = 2%nat
  ∧ Importer.parseXPMContent (λ _, PrimFloat.one)
      (createXPM x22_getSample x22_created (newXPMWriter (str "Piano")) x22_instrument)
    = Returned (emptyProgram (str "Piano") false).
Proof.
  split; [reflexivity|].
  refine (proj2 (writer_zones_not_read_back (λ _, PrimFloat.one) x22_getSample x22_created
                   (newXPMWriter (str "Piano")) _ _) x22_instrument _).
  - reflexivity.
  - reflexivity.
  - intros sampleId sample. unfold x22_getSample.
    repeat case_decide; intros [= <-]; reflexivity.
Defined.

(** X23.  The pads [XPMWriter.createDrumKitXPM] writes are not read
    back either: the document is accepted by
    [XPMImporter.parseXPMContent] and read as a drum kit with the kit
    name, without pads and without samples, whatever the pad
    assignments.  (Pad ids, names and time stamp free of control
    characters, double quotes, ampersands and left angle brackets, and
    no "]]>" between tags.) *)
Theorem drum_writer_pads_not_read_back (parseFloat : jsstring → float)
    (getSample : jsstring → option Sample) (created kitName : jsstring)
    (padAssignments : list (jsstring * jsstring)) :
  charData kitName = true →
  charData created = true →
  Forall (λ a : jsstring * jsstring, safe a.1 = true) padAssignments →
  (∀ sampleId sample, getSample sampleId = Some sample →
     safe (sample_name sample) = true) →
  Importer.parseXPMContent parseFloat
    (createDrumKitXPM getSample created kitName padAssignments)
  = Returned (emptyProgram kitName true).
Proof.
  intros Hname Hcreated Hids Hnames. unfold Importer.parseXPMContent.
  rewrite createDrumKitXPM_written.
  rewrite parse_written; [|done|done|done|done|by apply wf_padItems].
  rewrite written_no_parsererror; [|done|].
  2:{ eapply Forall_impl; [apply padItems_named|]. intros it ->. done. }
  rewrite bool_decide_eq_false_2 by (by intros H).
  change (determineProgramType _) with true. cbv iota.
  rewrite written_name, extractPads_items by done. done.
Qed.

Lemma drum_writer_pads_not_read_back_witness :
  Importer.parseXPMContent (λ _, PrimFloat.one)
    (createDrumKitXPM x22_getSample x22_created (str "Kit") x23_pads)
  = Returned (emptyProgram (str "Kit") true).
Proof.
  apply (drum_writer_pads_not_read_back (λ _, PrimFloat.one) x22_getSample x22_created
           (str "Kit") x23_pads).
  - reflexivity.
  - reflexivity.
  - repeat constructor.
  - intros sampleId sample. unfold x22_getSample.
    repeat case_decide; intros [= <-]; reflexivity.
Defined.

End WriterFacts.

(** ** The multi-layer export *)

Module ExporterFacts.
Import Xml Codec CodecTerms CodecFacts Layers LayersTerms LayersFacts LayersMoreTerms
  LayersMoreFacts.
Import Writer WriterTerms WriterFacts Exporter ExporterTerms.

Section ExportFacts.

Context {AudioBuffer : Type}.
Context (getSample : jsstring → option Sample).
Context (buffer : Sample → option AudioBuffer).
Context (detectPitch : AudioBuffer → @Validator.PitchResult).
Context (created : jsstring).

Lemma zoneFor_spec sampleId zone :
  zoneFor getSample buffer detectPitch sampleId = Some zone →
  low zone = root zone ∧ high zone = root zone ∧ root zone ≠ 0 ∧
  velLow zone = hint zone ∧
  ∃ sample buf,
    getSample sampleId = Some sample ∧ buffer sample = Some buf ∧
    file zone = sample_name sample ∧
    match detectPitch buf with
    | Validator.Detected midiNote => root zone = midiNote
    | Validator.Undetected =>
        12 ≤ root zone ≤ 131 ∧ extractNoteFromFilename (sample_name sample) ≠ None
    | Validator.Failed _ => False
    end.
Proof.
  unfold zoneFor. destruct (getSample sampleId) as [sample|]; [|done].
  destruct (buffer sample) as [buf|] eqn:Eb; [|done].
  unfold extractSampleInfo. cbn [pitch info_velocity]. rewrite Eb.
  destruct (detectPitch buf) as [midiNote| |error] eqn:Ed.
  - case_decide; [done|]. intros [= <-]. cbn [low high root velLow file].
    do 4 (split; [done|]). exists sample, buf. by rewrite Ed.
  - unfold extractNoteFromFilename.
    destruct (Organizer.noteMatch false (sample_name sample)) as [m|] eqn:Em; [|done].
    cbn [fmap option_fmap option_map].
    destruct (Organizer.toUpperCase m) as [|c name] eqn:Eu; [done|].
    case_decide; [done|]. intros [= <-]. cbn [low high root velLow file].
    do 4 (split; [done|]). exists sample, buf. rewrite Ed, Em.
    do 3 (split; [done|]). split; [|done].
    unfold noteToMidi. rewrite <- Eu.
    by apply (OrganizerFacts.noteNameToMidi_bounds false (sample_name sample)).
  - done.
Qed.

Lemma zoneFor_complete sampleId sample buf :
  getSample sampleId = Some sample → buffer sample = Some buf →
  match detectPitch buf with
  | Validator.Detected midiNote => midiNote ≠ 0
  | Validator.Undetected => extractNoteFromFilename (sample_name sample) ≠ None
  | Validator.Failed _ => False
  end →
  ∃ zone, zoneFor getSample buffer detectPitch sampleId = Some zone ∧
          file zone = sample_name sample.
Proof.
  intros Hs Hb Hp. unfold zoneFor, extractSampleInfo. rewrite Hs, Hb.
  cbn [pitch info_velocity].
  destruct (detectPitch buf) as [m| |error]; [| |done].
  - rewrite decide_False by done. by eexists.
  - unfold extractNoteFromFilename in *.
    destruct (Organizer.noteMatch false (sample_name sample)) as [m|] eqn:Em; [|done].
    cbn [fmap option_fmap option_map].
    pose proof (OrganizerFacts.noteNameToMidi_bounds false _ _ Em) as Hbound.
    destruct (Organizer.toUpperCase m) as [|c name] eqn:Eu.
    { by destruct (OrganizerFacts.noteMatch_shape _ _ _ Em)
        as [(c & d & -> & _)|(c & a & d & -> & _)]. }
    unfold noteToMidi. rewrite decide_False by lia. by eexists.
Qed.

Lemma collectZones_hint sampleIds :
  Forall (λ zone, velLow zone = hint zone)
         (collectZones getSample buffer detectPitch sampleIds).
Proof.
  apply Forall_forall. intros zone (sampleId & _ & Hz)%list_elem_of_omap.
  by destruct (zoneFor_spec _ _ Hz) as (_ & _ & _ & H & _).
Qed.

Lemma assignGroup_hints group :
  Forall (λ zone, velLow zone = hint zone) group →
  StronglySorted Z.le (hint <$> assignGroup group).
Proof.
  intros Hg.
  assert (hint <$> assignGroup group = velLow <$> sort_by velLow group) as ->.
  { transitivity ((λ c : jsstring * Z * Z * Z, extractVelocityFromFilename c.1.1.1)
                  <$> (zoneCore <$> assignGroup group)).
    { by rewrite <- list_fmap_compose. }
    rewrite assignGroup_sorted_core, <- list_fmap_compose.
    apply Forall_fmap_ext_1. rewrite (sort_by_perm velLow group).
    eapply Forall_impl; [exact Hg|]. intros zone Hz. by rewrite Hz. }
  apply (StronglySorted_fmap _ (λ a b, velLow a ≤ velLow b)); [done|].
  apply sort_by_ascending.
Qed.

Lemma processed_safe sampleIds :
  (∀ sampleId sample, getSample sampleId = Some sample →
     safe (sample_name sample) = true) →
  Forall (λ zone, safe (file zone) = true)
    (assignVelocityRanges (collectZones getSample buffer detectPitch sampleIds)).
Proof.
  intros Hnames.
  assert (H : Forall (λ c : jsstring * Z * Z * Z, safe c.1.1.1 = true)
                (zoneCore <$> assignVelocityRanges
                                (collectZones getSample buffer detectPitch sampleIds))).
  { rewrite assignVelocityRanges_core. apply Forall_fmap, Forall_forall.
    intros zone (sampleId & _ & Hz)%list_elem_of_omap.
    destruct (zoneFor_spec _ _ Hz) as (_ & _ & _ & _ & sample & buf & Hs & _ & Hf & _).
    cbn. rewrite Hf. by apply (Hnames _ _ Hs). }
  apply Forall_fmap in H. eapply Forall_impl; [exact H|]. by intros zone.
Qed.

(** X24.  [processAndExport] makes a zone for a sample id exactly when
    the sample is found, has audio data and resolves to a non-zero
    pitch: the estimated pitch when there is one (the note in the file
    name is then ignored), the note of the file name (12..131) when the
    estimator finds nothing, and no zone when the estimator throws.
    Every zone covers the single key of its pitch.  Among the zones of
    one pitch the velocity ranges follow the hints in the file names in
    ascending order (soft 40, med 80, none 100, hard 120), and they tile
    0..127 when the pitch has at most 128 zones.  The document written
    is read by [XPMImporter] as one keygroup without zones. *)
Theorem processAndExport_zones (parseFloat : jsstring → float)
    (instrumentName : jsstring) (sampleIds : list jsstring) :
  let zones := collectZones getSample buffer detectPitch sampleIds in
  let groupedZones := assignVelocityRanges zones in
  (length groupedZones ≤ length sampleIds)%nat ∧
  (∀ zone, zone ∈ groupedZones →
     low zone = root zone ∧ high zone = root zone ∧ root zone ≠ 0 ∧
     ∃ sampleId sample buf,
       sampleId ∈ sampleIds ∧ getSample sampleId = Some sample ∧
       buffer sample = Some buf ∧ file zone = sample_name sample ∧
       match detectPitch buf with
       | Validator.Detected midiNote => root zone = midiNote
       | Validator.Undetected =>
           12 ≤ root zone ≤ 131 ∧ extractNoteFromFilename (sample_name sample) ≠ None
       | Validator.Failed _ => False
       end) ∧
  (∀ sampleId sample buf,
     sampleId ∈ sampleIds → getSample sampleId = Some sample →
     buffer sample = Some buf →
     match detectPitch buf with
     | Validator.Detected midiNote => midiNote ≠ 0
     | Validator.Undetected => extractNoteFromFilename (sample_name sample) ≠ None
     | Validator.Failed _ => False
     end →
     ∃ zone, zone ∈ groupedZones ∧ file zone = sample_name sample) ∧
  (∀ k, let out := filter (λ zone, root zone = k) groupedZones in
        StronglySorted Z.le (hint <$> out) ∧
        ((1 ≤ length out ≤ 128)%nat → tiles 0 127 (velRange <$> out))) ∧
  (charData instrumentName = true → charData created = true →
   (∀ sampleId sample, getSample sampleId = Some sample →
      safe (sample_name sample) = true) →
   Importer.parseXPMContent parseFloat
     (processAndExport getSample buffer detectPitch created instrumentName sampleIds)
   = Returned (emptyProgram instrumentName false)).
Proof.
  intros zones groupedZones.
  pose proof (assignVelocityRanges_core zones) as Hperm.
  split; [|split; [|split; [|split]]].
  - subst groupedZones.
    rewrite <- (length_fmap zoneCore), Hperm, length_fmap. apply length_omap_le.
  - intros zone Hzone.
    assert (zoneCore zone ∈ zoneCore <$> zones) as Hin.
    { rewrite <- Hperm. by apply list_elem_of_fmap_2. }
    apply list_elem_of_fmap in Hin as (zone0 & Hcore & Hin).
    apply list_elem_of_omap in Hin as (sampleId & Hid & Hz).
    destruct (zoneFor_spec _ _ Hz) as (Hl & Hh & Hr & _ & sample & buf & Hs & Hb & Hf & Hp).
    unfold zoneCore in Hcore. injection Hcore as -> -> -> ->.
    do 3 (split; [done|]). by exists sampleId, sample, buf.
  - intros sampleId sample buf Hid Hs Hb Hp.
    destruct (zoneFor_complete _ _ _ Hs Hb Hp) as (zone0 & Hz & Hf).
    assert (zoneCore zone0 ∈ zoneCore <$> groupedZones) as Hin.
    { subst groupedZones. rewrite Hperm. apply list_elem_of_fmap_2.
      apply list_elem_of_omap. by exists sampleId. }
    apply list_elem_of_fmap in Hin as (zone & Hcore & Hin).
    exists zone. split; [done|].
    unfold zoneCore in Hcore. injection Hcore as Hfile _ _ _. congruence.
  - intros k out. subst out groupedZones. rewrite assignVelocityRanges_root.
    set (group := filter (λ zone, root zone = k) zones). split.
    + apply assignGroup_hints.
      apply Forall_forall. intros zone [_ Hz]%list_elem_of_filter.
      pose proof (collectZones_hint sampleIds) as H. rewrite Forall_forall in H.
      by apply H.
    + intros HM. rewrite velRange_assignGroup. apply tilesb_tiles.
      pose proof layerRanges_tile_upto_128 as H. rewrite forallb_forall in H.
      apply H, in_seq.
      rewrite <- (length_fmap velRange), velRange_assignGroup in HM.
      assert (length (layerRanges (length group)) = length group) as Hlen.
      { rewrite <- velRange_assignGroup, length_fmap.
        rewrite <- (length_fmap zoneCore), assignGroup_sorted_core, length_fmap.
        apply sort_by_length. }
      lia.
  - intros Hname Hcreated Hnames. unfold processAndExport.
    apply (generated_read_back parseFloat created (newXPMWriter instrumentName));
      [done|done|]. by apply processed_safe.
Qed.

End ExportFacts.

End ExporterFacts.

(** ** The auto-mapper from sample ids *)

Module SampleMapperFacts.
Import Xml Codec Mapper MapperTerms MapperFacts AutoMapFacts SampleMapper SampleMapperTerms.

Section ResolverFacts.

Context {AudioBuffer : Type}.
Context (getSample : jsstring → option Sample).
Context (buffer : Sample → option AudioBuffer).
Context (detectPitch : AudioBuffer → @Validator.PitchResult).






End ResolverFacts.

End SampleMapperFacts.

(** ** Names and time signatures of the projections *)

Module MetaFacts.
Import Midi MidiTerms MidiFacts MetaTerms.

Lemma scan_name m evs :
  trackName (foldl scanEvent m evs) = default (trackName m) (last (omap nameOf evs)).
Proof.
  induction evs as [|e evs IH] using rev_ind; [done|].
  rewrite foldl_app, omap_app. cbn [foldl omap list_omap].
  destruct e as [| | | | | | | |dt [|c text]| | | | |]; cbn [scanEvent nameOf];
    rewrite ?app_nil_r; try exact IH.
  - by rewrite last_snoc.
  - case_decide; exact IH.
  - destruct numerator0, denominator0; try exact IH. case_decide; exact IH.
Qed.

Lemma scan_signature m evs :
  timeSignature (foldl scanEvent m evs)
  = default (timeSignature m) (last (omap signatureOf evs)).
Proof.
  induction evs as [|e evs IH] using rev_ind; [done|].
  rewrite foldl_app, omap_app. cbn [foldl omap list_omap].
  destruct e as [| | | | | | | |dt [|c text]| |dt [n|] [d|]| | |];
    cbn [scanEvent signatureOf]; rewrite ?app_nil_r; try exact IH.
  - case_decide; exact IH.
  - case_decide; [by rewrite app_nil_r|]. by rewrite last_snoc.
Qed.

Lemma extractTrackName_first evs : extractTrackName evs = head (omap nameOf evs).
Proof.
  induction evs as [|e evs IH]; [done|].
  destruct e as [| | | | | | | |dt [|c text]| | | | |]; cbn [extractTrackName]; try exact IH.
  done.
Qed.

(** X26.  Both projections name their result after the last track-name
    event with a non-empty text among the events of all tracks, in track
    order (the progression has no name and the pattern is called
    "Imported Pattern" when there is none), whereas the name a track
    gets from [extractTrackName] is that of its first such event.  The
    time signature is that of the last time-signature event with
    numerator and denominator other than zero, 4/4 when there is none,
    and the two projections agree on name source, time signature and
    tempo. *)
Theorem projection_names_last_wins (d : MIDIData) (padMapping : option (gmap Z Z)) :
  let names := omap nameOf (allEvents d) in
  let signatures := omap signatureOf (allEvents d) in
  p_name (convertToProgression d) = last names ∧
  pat_name (convertToMPCPattern d padMapping)
  = default (str "Imported Pattern") (last names) ∧
  p_timeSignature (convertToProgression d)
  = default {| numerator := 4; denominator := 4 |} (last signatures) ∧
  timeSig (convertToMPCPattern d padMapping) = p_timeSignature (convertToProgression d) ∧
  pat_bpm (convertToMPCPattern d padMapping) = p_bpm (convertToProgression d) ∧
  (∀ events, extractTrackName events = head (omap nameOf events)).
Proof.
  intros names signatures.
  assert (Hn : trackName (scanMeta d) = default [] (last names)) by apply scan_name.
  assert (Hne : ∀ n, last names = Some n → n ≠ []).
  { intros n Hl. apply last_Some_elem_of in Hl.
    apply list_elem_of_omap in Hl as (e & _ & He).
    destruct e as [| | | | | | | |dt [|c text]| | | | |]; try done.
    by injection He as <-. }
  split; [|split; [|split; [|split; [|split]]]].
  - unfold convertToProgression. cbn [p_name]. rewrite Hn.
    destruct (last names) as [[|c n]|] eqn:E; [|done|done].
    by destruct (Hne [] eq_refl).
  - unfold convertToMPCPattern. cbn [pat_name]. rewrite Hn.
    destruct (last names) as [[|c n]|] eqn:E; [|done|done].
    by destruct (Hne [] eq_refl).
  - apply scan_signature.
  - done.
  - done.
  - apply extractTrackName_first.
Qed.

Lemma projection_names_x26 :
  p_name (convertToProgression x26_data) = Some (str "Bass") ∧
  name <$> tracks x26_data = [Some (str "Piano"); Some (str "Bass")].
Proof. split; reflexivity. Qed.

End MetaFacts.

(** ** Loading the samples of a program *)

Module ProgramLoaderFacts.
Import Xml Codec CodecTerms CodecFacts ReaderTerms ReaderFacts ProgramLoader ProgramLoaderTerms.

Section MapSet.
Context {K V : Type} `{EqDecision K}.

Lemma map_get_set (k k' : K) (v : V) m :
  map_get k (map_set k' v m) = if decide (k' = k) then Some v else map_get k m.
Proof.
  induction m as [|[k0 v0] m IH]; cbn [map_set map_get].
  - done.
  - destruct (decide (k0 = k')) as [->|Hne]; cbn [map_get].
    + by destruct (decide (k' = k)).
    + destruct (decide (k0 = k)) as [->|Hne'].
      * by rewrite decide_False by congruence.
      * exact IH.
Qed.

Lemma map_get_fold (key : V → K) (l : list V) m k :
  map_get k (foldl (λ m v, map_set (key v) v m) m l)
  = match last (filter (λ v, key v = k) l) with
    | Some v => Some v
    | None => map_get k m
    end.
Proof.
  revert m. induction l as [|v l IH] using rev_ind; intros m; [done|].
  rewrite foldl_app, filter_app. cbn [foldl]. rewrite map_get_set.
  destruct (decide (key v = k)) as [E|E].
  - rewrite (filter_cons_True (λ v, key v = k)) by done.
    by rewrite filter_nil, last_snoc.
  - rewrite (filter_cons_False (λ v, key v = k)) by done.
    rewrite filter_nil, app_nil_r. apply IH.
Qed.

End MapSet.

Section LoaderFacts.

Context {File : Type}.
Context (fileName : File → jsstring).
Context (loadSample : File → option Sample).

Lemma fileMap_get sampleFiles k :
  map_get k (fileMap fileName sampleFiles)
  = last (filter (λ file, Organizer.toLowerCase (fileName file) = k) sampleFiles).
Proof.
  unfold fileMap.
  rewrite (map_get_fold (λ file, Organizer.toLowerCase (fileName file))).
  by destruct (last _).
Qed.

Lemma loadFor_last sampleFiles xpmSample :
  loadFor loadSample (fileMap fileName sampleFiles) xpmSample
  = last (filter (λ file, Organizer.toLowerCase (fileName file) = lookupName xpmSample)
            sampleFiles) ≫= loadSample.
Proof.
  unfold loadFor. rewrite fileMap_get. fold (lookupName xpmSample).
  by destruct (last _).
Qed.

(** X27.  [importProgram] looks every sample of the program up by the
    last part of its path, ignoring case, and loads the last of the
    files handed in that has this name: a file followed by another one
    whose name differs at most in case is never loaded.  A sample
    without such a file, or whose file cannot be loaded, is left out, so
    at most one sample per program sample comes back, in program order,
    and none when no files are handed in. *)
Theorem importProgram_lookup (program : Importer.XPMProgram) (sampleFiles : list File) :
  let loaded := importProgram fileName loadSample program sampleFiles in
  loaded
  = omap (λ xpmSample,
            last (filter (λ file, Organizer.toLowerCase (fileName file)
                                  = lookupName xpmSample) sampleFiles)
            ≫= loadSample)
         (Importer.samples program) ∧
  (length loaded ≤ length (Importer.samples program))%nat ∧
  (∀ sample, sample ∈ loaded →
     ∃ xpmSample before file after,
       xpmSample ∈ Importer.samples program ∧
       sampleFiles = before ++ file :: after ∧
       Organizer.toLowerCase (fileName file) = lookupName xpmSample ∧
       Forall (λ later, Organizer.toLowerCase (fileName later) ≠ lookupName xpmSample)
              after ∧
       loadSample file = Some sample) ∧
  (sampleFiles = [] → loaded = []).
Proof.
  intros loaded. split; [|split; [|split]].
  - subst loaded. unfold importProgram. apply list_omap_ext, Forall2_same_length_lookup.
    split; [done|]. intros i x y Hx Hy. assert (x = y) as -> by congruence.
    apply loadFor_last.
  - apply WriterFacts.length_omap_le.
  - intros sample (xpmSample & Hin & Hload)%list_elem_of_omap.
    rewrite loadFor_last in Hload.
    destruct (last _) as [file|] eqn:El; [|done]. cbn in Hload.
    apply last_Some in El as [l' El].
    set (P := λ file, Organizer.toLowerCase (fileName file) = lookupName xpmSample) in *.
    assert (Hsplit : ∀ (files : list File) l' file, filter P files = l' ++ [file] →
      ∃ before after, files = before ++ file :: after ∧ P file ∧ Forall (λ f, ¬ P f) after).
    { clear. intros files. induction files as [|f files IH] using rev_ind; intros l' file.
      - by destruct l'.
      - rewrite filter_app. destruct (decide (P f)) as [Hf|Hf].
        + rewrite (filter_cons_True P) by done. rewrite filter_nil.
          intros [_ [= ->]]%app_inj_tail. exists files, []. by rewrite Forall_nil.
        + rewrite (filter_cons_False P) by done. rewrite filter_nil, app_nil_r.
          intros (before & after & -> & Hp & Ha)%IH.
          exists before, (after ++ [f]). rewrite <- app_assoc. split; [done|].
          split; [done|]. apply Forall_app. split; [done|]. by constructor. }
    destruct (Hsplit _ _ _ El) as (before & after & Hfiles & Hp & Ha).
    by exists xpmSample, before, file, after.
  - intros ->. subst loaded. unfold importProgram.
    induction (Importer.samples program) as [|x l IH]; [done|]. exact IH.
Qed.

End LoaderFacts.

End ProgramLoaderFacts.

(** ** The instrument scanner *)

Module ScannerFacts.
Import Xml Codec Scanner ScannerTerms.

Lemma fold_thrown samples :
  foldl (λ groups sample, groups ≫= λ g, groupStep g sample) None samples = None.
Proof. by induction samples. Qed.



Section ScanFacts.

Context (now : nat → Z).
Context (toUpperCase : jsstring → jsstring).



End ScanFacts.

Lemma threshold_exact_upto_200 : forallb thresholdExact (seq 0 201) = true.
Proof. vm_compute. reflexivity. Qed.

(** X29.  For up to 200 samples [classifyInstrumentType] says "drumkit"
    exactly when more than 30 percent of the sample names hold a drum
    keyword (ignoring case): the product with 0.3 in binary64 decides
    as the exact one, and exactly 30 percent still gives
    "instrument". *)
Theorem classify_thirty_percent (samples : list Sample) :
  (length samples ≤ 200)%nat →
  (drumCount samples ≤ length samples)%nat ∧
  (classifyInstrumentType samples = true
   ↔ 3 * Z.of_nat (length samples) < 10 * Z.of_nat (drumCount samples)).
Proof.
  intros Hlen.
  assert (Hd : (drumCount samples ≤ length samples)%nat) by apply length_filter.
  split; [exact Hd|].
  pose proof threshold_exact_upto_200 as H. rewrite forallb_forall in H.
  specialize (H (length samples)). unfold thresholdExact in H.
  rewrite forallb_forall in H.
  assert (Hn : In (length samples) (seq 0 201)) by (apply in_seq; lia).
  assert (Hk : In (drumCount samples) (seq 0 (S (length samples)))) by (apply in_seq; lia).
  specialize (H Hn (drumCount samples) Hk). apply eqb_prop in H.
  unfold classifyInstrumentType. fold (drumCount samples). rewrite H.
  apply Z.ltb_lt.
Qed.

Lemma classify_thirty_percent_witness :
  classifyInstrumentType x29_samples = true.
Proof.
  apply (proj2 (classify_thirty_percent x29_samples ltac:(simpl; lia))).
  vm_compute. reflexivity.
Defined.

End ScannerFacts.
